(** * Step-recording solvers of the algorithm visualiser

    A shallow embedding of the solver layer of the visualiser
    (0/1 knapsack, longest common subsequence, binary max-heap,
    counting sort, Strassen multiplication) and of the knapsack
    traceback walk, followed by the properties of the written
    specification that concern them.

    Conventions of the embedding.
    - JavaScript numbers that hold integers are [Z]; quantities used as
      array indices or lengths are [nat]. The table solvers and the
      sorting code only add and compare such numbers, which are taken
      inside the safe-integer range; the matrix code multiplies them, and
      its [+], [-] and [*] round as the doubles do
      ([Strassen.round_double]).
    - A JavaScript array is a [list]; [a !! i] is the read [a[i]]
      ([None] is [undefined]) and [<[i:=x]> a] the in-range write.
    - Every solver mutates the fields of [this]; the mutable fields are
      gathered in a state record that each method takes and returns.
      [steps.push(x)] is [steps ++ [x]].
    - A counted [for] loop is a left fold of its body over the list of the
      values taken by the loop variable. *)

From Stdlib Require Import ZArith Lia List Bool Ascii String Permutation Sorted.
From Stdlib Require Floats Uint63.
From stdpp Require Import base list sorting strings pretty.

Open Scope Z_scope.

(* ================================================================== *)
(** * Part I: the embedding                                            *)
(* ================================================================== *)

(** ** Shared helpers *)

(** [for (let i = lo; i < lo + n; i++) body(i)] *)
Definition for_up {St : Type} (lo n : nat) (body : nat → St → St) (s : St) : St :=
  fold_left (λ s i, body i s) (seq lo n) s.

(** [for (let i = n - 1; i >= 0; i--) body(i)] *)
Definition for_down {St : Type} (n : nat) (body : nat → St → St) (s : St) : St :=
  fold_left (λ s i, body i s) (rev (seq 0 n)) s.

(** Template-literal rendering of a number. *)
Definition show_nat (n : nat) : string := pretty n.
Definition show_Z (z : Z) : string := pretty z.

(** [${a[i]}]: an absent element prints as [undefined]. *)
Definition show_elem (o : option Z) : string :=
  match o with Some z => show_Z z | None => "undefined" end.

(** [a.join(', ')] *)
Fixpoint join_Z (l : list Z) : string :=
  match l with
  | [] => ""
  | [x] => show_Z x
  | x :: r => show_Z x +:+ ", " +:+ join_Z r
  end.

(** A table of numbers, [Array(rows).fill(null).map(() => Array(cols).fill(0))]. *)
Definition zero_table (rows cols : nat) : list (list Z) :=
  replicate rows (replicate cols 0).

(** [t[i][j]] on a table whose cell exists; a cell outside the table reads
    as [0] here (in JavaScript it is [undefined]); the solvers below only
    read cells inside the table when their inputs are well formed. *)
Definition cell (t : list (list Z)) (i j : nat) : Z :=
  default 0 (t !! i ≫= (.!! j)).

(** [t[i][j] = v] on an existing row [i] and column [j]. *)
Definition set_cell (t : list (list Z)) (i j : nat) (v : Z) : list (list Z) :=
  match t !! i with
  | Some row => <[i := <[j := v]> row]> t
  | None => t
  end.

(** A highlighted grid coordinate [{ r, c }]. *)
Record Coord := mkCoord { r : nat; c : nat }.

(** The two step kinds of the table solvers. *)
Inductive StepType := inspect | update.

(** The [value] field of a table step: ['?'] or a number. *)
Inductive StepValue := Pending | Val (v : Z).

(** A step of a table solver; [highlight] is absent on base-case steps. *)
Record Step := mkStep {
  row : nat;
  col : nat;
  type : StepType;
  value : StepValue;
  description : string;
  highlight : option (list Coord)
}.

(** The mutable fields [this.dp] and [this.steps] of a table solver. *)
Record State := mkState {
  dp : list (list Z);
  steps : list Step
}.

(** [this.steps.push(st)] *)
Definition push (st : Step) (s : State) : State :=
  mkState (dp s) (steps s ++ [st]).

(** [this.dp[i][j] = v] *)
Definition write (i j : nat) (v : Z) (s : State) : State :=
  mkState (set_cell (dp s) i j v) (steps s).

(** A table with [rows] rows of [cols] columns. *)
Definition dims (rows cols : nat) (t : list (list Z)) : Prop :=
  length t = rows ∧ ∀ i row, t !! i = Some row → length row = cols.

(** Row-major order on cells. *)
Definition before (p q : nat * nat) : Prop :=
  (p.1 < q.1)%nat ∨ (p.1 = q.1 ∧ (p.2 < q.2)%nat).

(** The cells of rows [0..i-1] (each with columns [0..cols]) followed by
    the first [k] cells of row [i], in row-major order. *)
Definition cells_before (cols i k : nat) : list (nat * nat) :=
  flat_map (λ i', map (pair i') (seq 0 (cols + 1))) (seq 0 i)
  ++ map (pair i) (seq 0 k).

(** All the cells of a table with rows [0..rows] and columns [0..cols]. *)
Definition all_cells (rows cols : nat) : list (nat * nat) :=
  flat_map (λ i, map (pair i) (seq 0 (cols + 1))) (seq 0 (rows + 1)).

(** The double loop of a table solver over rows [0..rows] and columns
    [0..cols], with [handle] as its body. *)
Definition table_loop (rows cols : nat) (handle : nat → nat → State → State)
    : State → State :=
  for_up 0 (rows + 1) (λ i, for_up 0 (cols + 1) (λ j s, handle i j s)).

(** State of the double loop when row [i] has its first [k] cells filled:
    every filled cell holds [cell_value] and the trace is [cell_steps] of
    the filled cells, in order. *)
Definition table_inv (rows cols : nat)
    (cell_value : list (list Z) → nat → nat → Z)
    (cell_steps : list (list Z) → nat * nat → list Step)
    (i k : nat) (s : State) : Prop :=
  dims (rows + 1) (cols + 1) (dp s) ∧
  (∀ i' j', before (i', j') (i, k) → (j' ≤ cols)%nat →
     cell (dp s) i' j' = cell_value (dp s) i' j') ∧
  steps s = flat_map (cell_steps (dp s)) (cells_before cols i k).

(** The kind of a cell and the shape of the steps a cell contributes:
    one [update] for a base cell, [inspect] then [update] otherwise. *)
Definition is_base (p : nat * nat) : bool := (p.1 =? 0)%nat || (p.2 =? 0)%nat.

Definition cell_shape (p : nat * nat) : list (nat * nat * StepType) :=
  if is_base p then [(p.1, p.2, update)]
  else [(p.1, p.2, inspect); (p.1, p.2, update)].

(** Row, column and kind of a recorded step. *)
Definition shape_of (st : Step) : nat * nat * StepType := (row st, col st, type st).

(** [st] is the one [update] step recorded for cell [p] in the trace [sts]. *)
Definition update_step_of (sts : list Step) (p : nat * nat) (st : Step) : Prop :=
  In st sts ∧ shape_of st = (p.1, p.2, update) ∧
  ∀ st', In st' sts → shape_of st' = (p.1, p.2, update) → st' = st.

(** ** 0/1 knapsack: [KnapsackSolver] *)

Module Knapsack.

Section Solver.
  (** Constructor arguments; [itemCount = weights.length]. Weights index
      the capacity axis, so they are naturals. *)
Variable capacity : nat.
Variable weights : list nat.
Variable values : list Z.

Definition itemCount : nat := length weights.

  (** [weights[i]] for [i < itemCount]; [values[i]] is read with default 0
      (when both arrays have the same length the read is in range). *)
Definition weight_at (i : nat) : nat := default 0%nat (weights !! i).
Definition value_at (i : nat) : Z := default 0 (values !! i).

Definition _resetState : State :=
    mkState (zero_table (itemCount + 1) (capacity + 1)) [].

Definition _handleBaseCell (row col : nat) (s : State) : State :=
    let s := write row col 0 s in
    push (mkStep row col update (Val 0)
            "Base case: 0 items or 0 capacity = 0 value." None) s.

Definition _recordInspect (row col : nat) (includeVal excludeVal : Z)
      (weight : nat) (s : State) : State :=
    push (mkStep row col inspect Pending
            ("Comparing: Include item " +:+ show_nat row +:+ " (" +:+
             show_Z includeVal +:+ ") vs Exclude (" +:+ show_Z excludeVal +:+ ").")
            (Some [mkCoord (row - 1) (col - weight); mkCoord (row - 1) col])) s.

Definition _recordUpdate (row col : nat) (includeVal excludeVal : Z)
      (weight : nat) (s : State) : State :=
    let preferInclude := includeVal >? excludeVal in
    push (mkStep row col update (Val (cell (dp s) row col))
            ("Set value to " +:+ show_Z (cell (dp s) row col) +:+ ".")
            (Some (if preferInclude
                   then [mkCoord (row - 1) (col - weight)]
                   else [mkCoord (row - 1) col]))) s.

Definition _recordExclude (row col : nat) (weight : nat) (s : State) : State :=
    let s := push (mkStep row col inspect Pending
                     ("Item " +:+ show_nat row +:+ " (Weight: " +:+ show_nat weight +:+
                      ") > Capacity " +:+ show_nat col +:+ ". Excluding.")
                     (Some [mkCoord (row - 1) col])) s in
    let s := write row col (cell (dp s) (row - 1) col) s in
    push (mkStep row col update (Val (cell (dp s) row col))
            ("Value copied from above: " +:+ show_Z (cell (dp s) row col))
            (Some [mkCoord (row - 1) col])) s.

Definition _handleDecisionCell (row col : nat) (s : State) : State :=
    let currentWeight := weight_at (row - 1) in
    let currentValue := value_at (row - 1) in
    if (col <? currentWeight)%nat then _recordExclude row col currentWeight s
    else
      let includeVal := currentValue + cell (dp s) (row - 1) (col - currentWeight) in
      let excludeVal := cell (dp s) (row - 1) col in
      let s := _recordInspect row col includeVal excludeVal currentWeight s in
      let s := write row col (Z.max includeVal excludeVal) s in
      _recordUpdate row col includeVal excludeVal currentWeight s.

Definition _buildTable (s : State) : State :=
    for_up 0 (itemCount + 1) (λ i,
      for_up 0 (capacity + 1) (λ w s,
        if (i =? 0)%nat || (w =? 0)%nat then _handleBaseCell i w s
        else _handleDecisionCell i w s)) s.

  (** [solve()] returns [{ dp, steps }], the final state. *)
Definition solve : State := _buildTable _resetState.

  (** *** Reference functions used to state the properties *)

  (** The body of the two loops of [_buildTable]. *)
Definition handle (i w : nat) (s : State) : State :=
    if (i =? 0)%nat || (w =? 0)%nat then _handleBaseCell i w s
    else _handleDecisionCell i w s.

  (** The two candidates of a decision cell, read from a table. *)
Definition include_of (t : list (list Z)) (i w : nat) : Z :=
    value_at (i - 1) + cell t (i - 1) (w - weight_at (i - 1)).
Definition exclude_of (t : list (list Z)) (i w : nat) : Z :=
    cell t (i - 1) w.

  (** The value of cell [(i, w)] according to the recurrence. *)
Definition recurrence (t : list (list Z)) (i w : nat) : Z :=
    if (i =? 0)%nat || (w =? 0)%nat then 0
    else if (w <? weight_at (i - 1))%nat then exclude_of t i w
    else Z.max (include_of t i w) (exclude_of t i w).

  (** The steps recorded for cell [(i, w)], read back from a table. *)
Definition steps_of_cell (t : list (list Z)) (p : nat * nat) : list Step :=
    let '(i, w) := p in
    let weight := weight_at (i - 1) in
    if (i =? 0)%nat || (w =? 0)%nat then
      [mkStep i w update (Val 0)
         "Base case: 0 items or 0 capacity = 0 value." None]
    else if (w <? weight)%nat then
      [mkStep i w inspect Pending
         ("Item " +:+ show_nat i +:+ " (Weight: " +:+ show_nat weight +:+
          ") > Capacity " +:+ show_nat w +:+ ". Excluding.")
         (Some [mkCoord (i - 1) w]);
       mkStep i w update (Val (cell t i w))
         ("Value copied from above: " +:+ show_Z (cell t i w))
         (Some [mkCoord (i - 1) w])]
    else
      [mkStep i w inspect Pending
         ("Comparing: Include item " +:+ show_nat i +:+ " (" +:+
          show_Z (include_of t i w) +:+ ") vs Exclude (" +:+
          show_Z (exclude_of t i w) +:+ ").")
         (Some [mkCoord (i - 1) (w - weight); mkCoord (i - 1) w]);
       mkStep i w update (Val (cell t i w))
         ("Set value to " +:+ show_Z (cell t i w) +:+ ".")
         (Some (if include_of t i w >? exclude_of t i w
                then [mkCoord (i - 1) (w - weight)]
                else [mkCoord (i - 1) w]))].

End Solver.

End Knapsack.

(** ** Longest common subsequence: [LCSSolver] *)

Module LCS.

Section Solver.
  (** Constructor arguments; [rows = str1.length], [cols = str2.length]. *)
Variable str1 str2 : string.

Definition rows : nat := String.length str1.
Definition cols : nat := String.length str2.

  (** [str[i]]: the character at index [i], [undefined] past the end. *)
Definition char_at (s : string) (i : nat) : option ascii := String.get i s.

  (** A character inside a template literal. *)
Definition show_char (o : option ascii) : string :=
    match o with Some a => String a EmptyString | None => "undefined" end.

Definition _resetState : State :=
    mkState (zero_table (rows + 1) (cols + 1)) [].

Definition _handleBaseCell (row col : nat) (s : State) : State :=
    let s := write row col 0 s in
    push (mkStep row col update (Val 0) "Base case: 0 length." None) s.

Definition _recordMatch (row col : nat) (char1 char2 : option ascii)
      (s : State) : State :=
    let s := push (mkStep row col inspect Pending
                     ("Match '" +:+ show_char char1 +:+ "' == '" +:+
                      show_char char2 +:+ "'.")
                     (Some [mkCoord (row - 1) (col - 1)])) s in
    let s := write row col (1 + cell (dp s) (row - 1) (col - 1)) s in
    push (mkStep row col update (Val (cell (dp s) row col))
            ("Match found! Value = " +:+ show_Z (cell (dp s) row col))
            (Some [mkCoord (row - 1) (col - 1)])) s.

Definition _recordMismatch (row col : nat) (char1 char2 : option ascii)
      (s : State) : State :=
    push (mkStep row col inspect Pending
            ("No match '" +:+ show_char char1 +:+ "' != '" +:+
             show_char char2 +:+ "'. Max of top/left.")
            (Some [mkCoord (row - 1) col; mkCoord row (col - 1)])) s.

Definition _recordMismatchResult (row col : nat) (s : State) : State :=
    let topVal := cell (dp s) (row - 1) col in
    let leftVal := cell (dp s) row (col - 1) in
    push (mkStep row col update (Val (cell (dp s) row col))
            ("Max value is " +:+ show_Z (cell (dp s) row col))
            (Some (if topVal >? leftVal
                   then [mkCoord (row - 1) col]
                   else [mkCoord row (col - 1)]))) s.

Definition _handleDecisionCell (row col : nat) (s : State) : State :=
    let char1 := char_at str1 (row - 1) in
    let char2 := char_at str2 (col - 1) in
    if bool_decide (char1 = char2) then _recordMatch row col char1 char2 s
    else
      let s := _recordMismatch row col char1 char2 s in
      let s := write row col
                 (Z.max (cell (dp s) (row - 1) col) (cell (dp s) row (col - 1))) s in
      _recordMismatchResult row col s.

Definition _buildTable (s : State) : State :=
    for_up 0 (rows + 1) (λ i,
      for_up 0 (cols + 1) (λ j s,
        if (i =? 0)%nat || (j =? 0)%nat then _handleBaseCell i j s
        else _handleDecisionCell i j s)) s.

  (** [solve()] returns [{ dp, steps }], the final state. *)
Definition solve : State := _buildTable _resetState.

  (** *** Reference functions used to state the properties *)

  (** The body of the two loops of [_buildTable]. *)
Definition handle (i j : nat) (s : State) : State :=
    if (i =? 0)%nat || (j =? 0)%nat then _handleBaseCell i j s
    else _handleDecisionCell i j s.

  (** Do the characters compared at cell [(i, j)] match? *)
Definition chars_match (i j : nat) : bool :=
    bool_decide (char_at str1 (i - 1) = char_at str2 (j - 1)).

  (** The value of cell [(i, j)] according to the recurrence. *)
Definition recurrence (t : list (list Z)) (i j : nat) : Z :=
    if (i =? 0)%nat || (j =? 0)%nat then 0
    else if chars_match i j then 1 + cell t (i - 1) (j - 1)
    else Z.max (cell t (i - 1) j) (cell t i (j - 1)).

  (** The steps recorded for cell [(i, j)], read back from a table. *)
Definition steps_of_cell (t : list (list Z)) (p : nat * nat) : list Step :=
    let '(i, j) := p in
    let char1 := char_at str1 (i - 1) in
    let char2 := char_at str2 (j - 1) in
    if (i =? 0)%nat || (j =? 0)%nat then
      [mkStep i j update (Val 0) "Base case: 0 length." None]
    else if chars_match i j then
      [mkStep i j inspect Pending
         ("Match '" +:+ show_char char1 +:+ "' == '" +:+ show_char char2 +:+ "'.")
         (Some [mkCoord (i - 1) (j - 1)]);
       mkStep i j update (Val (cell t i j))
         ("Match found! Value = " +:+ show_Z (cell t i j))
         (Some [mkCoord (i - 1) (j - 1)])]
    else
      [mkStep i j inspect Pending
         ("No match '" +:+ show_char char1 +:+ "' != '" +:+
          show_char char2 +:+ "'. Max of top/left.")
         (Some [mkCoord (i - 1) j; mkCoord i (j - 1)]);
       mkStep i j update (Val (cell t i j))
         ("Max value is " +:+ show_Z (cell t i j))
         (Some (if cell t (i - 1) j >? cell t i (j - 1)
                then [mkCoord (i - 1) j]
                else [mkCoord i (j - 1)]))].

End Solver.

End LCS.


(** ** Knapsack traceback: [TracebackManager] *)

Module Traceback.

(** The fields of the manager that the knapsack walk changes:
    [selectedItems] (item numbers, 1-based), the cells marked as visited,
    in order, [isTracing], and whether a [cellClickHandler] is installed.
    The log entries and the highlight classes live in the page and are
    not part of the state. *)
Record State := mkState {
  selectedItems : list nat;
  visited : list (nat * Z);
  isTracing : bool;
  cellClickHandler : bool
}.

Section Walk.
(** [this.dpTable] and, from [this.algoData], [weights] and [capacity]
    ([values] only feeds the log entries). *)
Variable dpTable : list (list Z).
Variable weights : list nat.
Variable capacity : nat.

Definition weight_at (i : nat) : nat := default 0%nat (weights !! i).

(** [this.dpTable[i][w]] for a column number [w]. *)
Definition at_cell (i : nat) (w : Z) : Z := cell dpTable i (Z.to_nat w).

Definition _markAsVisited (i : nat) (w : Z) (s : State) : State :=
  mkState (selectedItems s) (visited s ++ [(i, w)]) (isTracing s)
    (cellClickHandler s).

(** [this.selectedItems.push(i)] *)
Definition _includeItem (i : nat) (s : State) : State :=
  mkState (selectedItems s ++ [i]) (visited s) (isTracing s)
    (cellClickHandler s).

(** [_excludeItem] only writes a log entry. *)
Definition _excludeItem (i : nat) (s : State) : State := s.

(** [this.selectedItems.sort((a, b) => a - b)] *)
Definition _finalizeKnapsackResult (s : State) : State :=
  mkState (merge_sort Nat.le (selectedItems s)) (visited s) (isTracing s)
    (cellClickHandler s).

(** [_enableCellClicks(callback)] and [_disableCellClicks()] *)
Definition _enableCellClicks (s : State) : State :=
  mkState (selectedItems s) (visited s) (isTracing s) true.
Definition _disableCellClicks (s : State) : State :=
  mkState (selectedItems s) (visited s) (isTracing s) false.

Definition _completeTraceback (s : State) : State :=
  let s := mkState (selectedItems s) (visited s) false (cellClickHandler s) in
  _finalizeKnapsackResult (_disableCellClicks s).

(** [while (i > 0 && w > 0) { ... }]: every iteration ends with
    [i -= 1], so the loop is a recursion on [i]. *)
Fixpoint _animateKnapsackTraceback (i : nat) (w : Z) (s : State) : State :=
  match i with
  | O => _completeTraceback s
  | S i' =>
      if w >? 0 then
        let currentVal := at_cell i w in
        let aboveVal := at_cell (i - 1) w in
        let s := _markAsVisited i w s in
        if bool_decide (currentVal ≠ aboveVal) then
          _animateKnapsackTraceback i' (w - Z.of_nat (weight_at (i - 1)))
            (_includeItem i s)
        else
          _animateKnapsackTraceback i' w (_excludeItem i s)
      else _completeTraceback s
  end.

(** [init] followed by [startTraceback] outside monk mode. *)
Definition _startKnapsackTraceback : State :=
  let n := length weights in
  _animateKnapsackTraceback n (Z.of_nat capacity) (mkState [] [] true false).

(** Monk mode: the closure variables [i], [w] of [processStep] together
    with the manager state. *)
Record Monk := mkMonk {
  cur_i : nat;
  cur_w : Z;
  manager : State
}.


(** [processStep(clickedRow, clickedCol)] *)
Definition processStep (clickedRow : nat) (clickedCol : Z) (m : Monk) : Monk :=
  let i := cur_i m in
  let w := cur_w m in
  if (i =? 0)%nat || (w <=? 0) then mkMonk i w (_completeTraceback (manager m))
  else
    let itemWeight := Z.of_nat (weight_at (i - 1)) in
    let currentVal := at_cell i w in
    let aboveVal := at_cell (i - 1) w in
    let expectedRow := (i - 1)%nat in
    let isInclude := bool_decide (currentVal ≠ aboveVal) in
    let expectedCol := if isInclude then w - itemWeight else w in
    if (clickedRow =? expectedRow)%nat && (clickedCol =? expectedCol) then
      let s := _markAsVisited i w (manager m) in
      let s := if isInclude then _includeItem i s else _excludeItem i s in
      if (expectedRow =? 0)%nat || (expectedCol <=? 0)
      then mkMonk expectedRow expectedCol (_completeTraceback s)
      else mkMonk expectedRow expectedCol (_enableCellClicks s)
    else m.

(** A click on a grid cell reaches [processStep] while the handler is
    installed. *)
Definition click (clickedRow : nat) (clickedCol : Z) (m : Monk) : Monk :=
  if cellClickHandler (manager m) then processStep clickedRow clickedCol m
  else m.

(** The learner's clicks, in order. *)
Definition clicks (cs : list (nat * Z)) (m : Monk) : Monk :=
  fold_left (λ m c, click c.1 c.2 m) cs m.



End Walk.


(** The items the automatic walk would end with when resumed from the
    cell and the items of a monk-mode state. *)
Definition outcome (dpTable : list (list Z)) (weights : list nat) (m : Monk)
    : list nat :=
  selectedItems (_animateKnapsackTraceback dpTable weights (cur_i m) (cur_w m)
                   (manager m)).


Definition total_weight (weights : list nat) (items : list nat) : nat :=
  foldr (λ i acc, (default 0 (weights !! (i - 1)%nat) + acc)%nat) 0%nat items.

(** *** The LCS walk *)

(** The fields of the manager that the LCS walk changes: the cells marked
    as visited, [lcsResult], [isTracing] and whether a [cellClickHandler]
    is installed. *)
Record LcsState := mkLcsState {
  lcs_visited : list (nat * nat);
  lcsResult : string;
  lcs_isTracing : bool;
  lcs_cellClickHandler : bool
}.

(** [lcsChars.join('')]: an [undefined] element joins as the empty
    string. *)
Definition join_chars (lcsChars : list (option ascii)) : string :=
  foldr (λ ch acc, match ch with Some a => String a acc | None => acc end)
    EmptyString lcsChars.

Section LcsWalk.
(** [this.dpTable] and, from [this.algoData], [s1] and [s2]. *)
Variable dpTable : list (list Z).
Variable s1 s2 : string.

Definition _markLcsVisited (i j : nat) (s : LcsState) : LcsState :=
  mkLcsState (lcs_visited s ++ [(i, j)]) (lcsResult s) (lcs_isTracing s)
    (lcs_cellClickHandler s).

(** [this.lcsResult = lcsChars.join('')] *)
Definition set_lcsResult (lcsChars : list (option ascii)) (s : LcsState)
    : LcsState :=
  mkLcsState (lcs_visited s) (join_chars lcsChars) (lcs_isTracing s)
    (lcs_cellClickHandler s).

Definition _enableLcsCellClicks (s : LcsState) : LcsState :=
  mkLcsState (lcs_visited s) (lcsResult s) (lcs_isTracing s) true.

(** [_completeTraceback] when [algoType] is not ['knapsack']:
    [_finalizeLcsResult] only displays [lcsResult]. *)
Definition _completeLcsTraceback (s : LcsState) : LcsState :=
  mkLcsState (lcs_visited s) (lcsResult s) false false.

(** [_logMove] returns the next cell: up when [topVal >= leftVal], else
    left. *)
Definition _logMove (i j : nat) : nat * nat :=
  let topVal := cell dpTable (i - 1) j in
  let leftVal := cell dpTable i (j - 1) in
  let moveUp := leftVal <=? topVal in
  (if moveUp then (i - 1)%nat else i, if moveUp then j else (j - 1)%nat).

(** [_expectedLcsMove] returns [(expectedRow, expectedCol, isMatch)]. *)
Definition _expectedLcsMove (i j : nat) (char1 char2 : option ascii)
    : nat * nat * bool :=
  if bool_decide (char1 = char2) then ((i - 1)%nat, (j - 1)%nat, true)
  else
    let topVal := cell dpTable (i - 1) j in
    let leftVal := cell dpTable i (j - 1) in
    let moveUp := leftVal <=? topVal in
    (if moveUp then (i - 1)%nat else i, if moveUp then j else (j - 1)%nat, false).

(** [while (i > 0 && j > 0) { ... }]: every iteration lowers [i] or [j]
    by one, so the loop is a recursion on [i] and, inside it, on [j]; the
    two results of [_logMove] are spelled out for it ([i - 1] is [i'] and
    [j - 1] is [j']). *)
Fixpoint _animateLCSTraceback (i : nat)
    : nat → list (option ascii) → LcsState → LcsState :=
  fix at_column (j : nat) (lcsChars : list (option ascii)) (s : LcsState)
      {struct j} : LcsState :=
    match i, j with
    | S i', S j' =>
        let s := _markLcsVisited i j s in
        let char1 := LCS.char_at s1 (i - 1) in
        let char2 := LCS.char_at s2 (j - 1) in
        if bool_decide (char1 = char2) then
          (* [lcsChars.unshift(char1); i -= 1; j -= 1] *)
          _animateLCSTraceback i' j' (char1 :: lcsChars) s
        else
          (* [({ i, j } = this._logMove(i, j, char1, char2))] *)
          let topVal := cell dpTable (i - 1) j in
          let leftVal := cell dpTable i (j - 1) in
          if leftVal <=? topVal
          then _animateLCSTraceback i' j lcsChars s
          else at_column j' lcsChars s
    | _, _ => _completeLcsTraceback (set_lcsResult lcsChars s)
    end.

(** [init] followed by [startTraceback] for ['lcs'] outside monk mode. *)
Definition _startLCSTraceback : LcsState :=
  _animateLCSTraceback (LCS.rows s1) (LCS.cols s2) []
    (mkLcsState [] EmptyString true false).

(** Monk mode: the closure variables [i], [j] and [lcsChars] of
    [processStep] together with the manager state. *)
Record LcsMonk := mkLcsMonk {
  lcs_i : nat;
  lcs_j : nat;
  lcsChars : list (option ascii);
  lcs_manager : LcsState
}.

Definition _setupMonkModeLCS : LcsMonk :=
  mkLcsMonk (LCS.rows s1) (LCS.cols s2) []
    (_enableLcsCellClicks (mkLcsState [] EmptyString true false)).

(** [processStep(clickedRow, clickedCol)] of the LCS walk. *)
Definition lcs_processStep (clickedRow clickedCol : nat) (m : LcsMonk) : LcsMonk :=
  let i := lcs_i m in
  let j := lcs_j m in
  if (i =? 0)%nat || (j =? 0)%nat then
    mkLcsMonk i j (lcsChars m)
      (_completeLcsTraceback (set_lcsResult (lcsChars m) (lcs_manager m)))
  else
    let char1 := LCS.char_at s1 (i - 1) in
    let char2 := LCS.char_at s2 (j - 1) in
    let '(expectedRow, expectedCol, isMatch) := _expectedLcsMove i j char1 char2 in
    if (clickedRow =? expectedRow)%nat && (clickedCol =? expectedCol)%nat then
      let s := _markLcsVisited i j (lcs_manager m) in
      let chars := if isMatch then char1 :: lcsChars m else lcsChars m in
      if (expectedRow =? 0)%nat || (expectedCol =? 0)%nat
      then mkLcsMonk expectedRow expectedCol chars
             (_completeLcsTraceback (set_lcsResult chars s))
      else mkLcsMonk expectedRow expectedCol chars (_enableLcsCellClicks s)
    else m.

(** A click on a grid cell reaches [processStep] while the handler is
    installed. *)
Definition lcs_click (clickedRow clickedCol : nat) (m : LcsMonk) : LcsMonk :=
  if lcs_cellClickHandler (lcs_manager m)
  then lcs_processStep clickedRow clickedCol m else m.

(** The learner's clicks, in order. *)
Definition lcs_clicks (cs : list (nat * nat)) (m : LcsMonk) : LcsMonk :=
  fold_left (λ m c, lcs_click c.1 c.2 m) cs m.

End LcsWalk.

End Traceback.

(** ** Binary max-heap: [HeapSolver] *)

Module Heap.

(** [_stats()] *)
Record Stats := mkStats {
  st_heapifyCalls : nat;
  st_swapCount : nat;
  st_recursiveCalls : nat
}.

(** The [type] tags of the steps of [buildMaxHeap] and [extractMax]. *)
Inductive StepType :=
  | t_init | t_info | t_loop_start | t_loop_end | t_complete
  | t_heapify_start | t_compare | t_swap | t_after_swap | t_recurse | t_no_swap
  | t_pre_extract_build | t_pre_extract_complete | t_error
  | t_extract_init | t_extract_swap_root | t_extract_heapify_start
  | t_extract_complete.

(** The fields a step carries besides the common ones; an index that can
    be [-1] is a [Z], a child that does not exist is [None] ([null]). *)
Inductive Fields :=
  | NoFields
  | FHighlight (highlightIndex : Z)
  | FLoopStart (loopIndex highlightIndex : nat)
  | FLoopEnd (loopIndex : nat)
  | FHeapifyStart (index : nat) (left right : option nat)
      (highlightIndex : nat) (compareIndices : list nat) (depth : nat)
  | FCompare (index compareWith highlightIndex : nat)
  | FSwap (from to : nat) (fromValue toValue : option Z) (swapIndices : list nat)
  | FRecurse (fromIndex toIndex highlightIndex : nat)
  | FNoSwap (index highlightIndex : nat)
  | FExtracted (extractedValue : Z).

(** A step: tag, snapshot of the array, description, counters, and the
    fields particular to the tag. *)
Record Step := mkStep {
  type : StepType;
  array_snapshot : list Z;
  description : string;
  stats : Stats;
  fields : Fields
}.

(** The mutable fields of the solver. *)
Record State := mkState {
  originalArray : list Z;
  array : list Z;
  steps : list Step;
  heapifyCalls : nat;
  swapCount : nat;
  recursiveCalls : nat
}.

(** [new HeapSolver(array)] *)
Definition new (a : list Z) : State := mkState a a [] 0 0 0.

Definition _stats (s : State) : Stats :=
  mkStats (heapifyCalls s) (swapCount s) (recursiveCalls s).

(** [this.steps.push({ type, array: [...this.array], description,
    stats: this._stats(), ...fields })] *)
Definition record (ty : StepType) (descr : string) (f : Fields) (s : State) : State :=
  mkState (originalArray s) (array s)
    (steps s ++ [mkStep ty (array s) descr (_stats s) f])
    (heapifyCalls s) (swapCount s) (recursiveCalls s).

Definition set_array (a : list Z) (s : State) : State :=
  mkState (originalArray s) a (steps s)
    (heapifyCalls s) (swapCount s) (recursiveCalls s).

(** [' '.repeat(k)] *)
Fixpoint spaces (k : nat) : string :=
  match k with O => "" | S k => " " +:+ spaces k end.

(** [x > y] on array reads: false as soon as one side is [undefined]. *)
Definition js_gt (x y : option Z) : bool :=
  match x, y with
  | Some a, Some b => a >? b
  | _, _ => false
  end.

(** [[a[i], a[j]] = [a[j], a[i]]] for two existing indices (the solver
    only swaps a node with one of its children inside the array; with an
    index outside it JavaScript would store [undefined] and grow the
    array, which is not represented). *)
Definition swap_at (a : list Z) (i j : nat) : list Z :=
  match a !! i, a !! j with
  | Some x, Some y => <[j := x]> (<[i := y]> a)
  | _, _ => a
  end.

Definition _resetState (s : State) : State :=
  mkState (originalArray s) (originalArray s) [] 0 0 0.

Definition _recordInit (s : State) : State :=
  record t_init
    ("Starting Build-Max-Heap on array: [" +:+ join_Z (array s) +:+ "]")
    NoFields s.

Definition _recordInfo (startIndex : Z) (s : State) : State :=
  record t_info
    ("Last non-leaf node is at index " +:+ show_Z startIndex +:+
     ". Starting heapify from bottom-up.")
    (FHighlight startIndex) s.

Definition _recordLoopStart (loopIndex : nat) (s : State) : State :=
  record t_loop_start
    ("── Loop iteration: Calling Max-Heapify on index " +:+ show_nat loopIndex +:+
     " (value: " +:+ show_elem (array s !! loopIndex) +:+ ")")
    (FLoopStart loopIndex loopIndex) s.

Definition _recordLoopEnd (loopIndex : nat) (s : State) : State :=
  record t_loop_end
    ("✓ Completed heapify for subtree rooted at index " +:+ show_nat loopIndex +:+
     ". Array state: [" +:+ join_Z (array s) +:+ "]")
    (FLoopEnd loopIndex) s.

Definition _recordComplete (s : State) : State :=
  record t_complete
    ("🎉 Build-Max-Heap complete! Final heap: [" +:+ join_Z (array s) +:+ "]")
    NoFields s.

(** [k < this.array.length ? k : null] *)
Definition child_or_null (s : State) (k : nat) : option nat :=
  if (k <? length (array s))%nat then Some k else None.

Definition _recordHeapifyStart (i left right depth : nat) (s : State) : State :=
  record t_heapify_start
    (spaces (depth * 2) +:+ "Heapify(" +:+ show_nat i +:+ "): Comparing node " +:+
     show_nat i +:+ " (" +:+ show_elem (array s !! i) +:+ ") with children")
    (FHeapifyStart i (child_or_null s left) (child_or_null s right) i
       (omap id [child_or_null s left; child_or_null s right]) depth) s.

Definition _recordCompare (label : string) (index childIndex depth : nat)
    (s : State) : State :=
  record t_compare
    (spaces (depth * 2) +:+ label +:+ " child (" +:+
     show_elem (array s !! childIndex) +:+ ") > current largest (" +:+
     show_elem (array s !! index) +:+ ")")
    (FCompare index childIndex childIndex) s.

(** Returns the chosen index together with the state. *)
Definition _pickLargestChild (i left right heapSize largest depth : nat)
    (s : State) : nat * State :=
  let candidate := largest in
  let '(candidate, s) :=
    if (left <? heapSize)%nat && js_gt (array s !! left) (array s !! candidate)
    then (left, _recordCompare "Left" i left depth s)
    else (candidate, s) in
  if (right <? heapSize)%nat && js_gt (array s !! right) (array s !! candidate)
  then (right, _recordCompare "Right" i right depth s)
  else (candidate, s).

Definition _recordSwap (i largest depth : nat) (s : State) : State :=
  record t_swap
    (spaces (depth * 2) +:+ "🔄 Swapping: " +:+ show_elem (array s !! i) +:+
     " (index " +:+ show_nat i +:+ ") ↔ " +:+ show_elem (array s !! largest) +:+
     " (index " +:+ show_nat largest +:+ ")")
    (FSwap i largest (array s !! i) (array s !! largest) [i; largest]) s.

Definition _recordAfterSwap (largest depth : nat) (s : State) : State :=
  record t_after_swap
    (spaces (depth * 2) +:+ "After swap: [" +:+ join_Z (array s) +:+ "]")
    (FHighlight (Z.of_nat largest)) s.

Definition _recordRecurse (fromIndex toIndex depth : nat) (s : State) : State :=
  record t_recurse
    (spaces (depth * 2) +:+ "↪ Recursively calling Heapify on index " +:+
     show_nat toIndex)
    (FRecurse fromIndex toIndex toIndex) s.

Definition _recordNoSwap (index depth : nat) (s : State) : State :=
  record t_no_swap
    (spaces (depth * 2) +:+ "✓ Node " +:+ show_nat index +:+ " (" +:+
     show_elem (array s !! index) +:+ ") satisfies heap property. No swap needed.")
    (FNoSwap index index) s.

(** [_swapAndRecurse], with the recursive call to [_heapifyNode] passed as
    [heapify]. *)
Definition _swapAndRecurse (heapify : nat → nat → nat → State → State)
    (i largest heapSize depth : nat) (s : State) : State :=
  let s := _recordSwap i largest depth s in
  let s := set_array (swap_at (array s) i largest) s in
  let s := mkState (originalArray s) (array s) (steps s)
             (heapifyCalls s) (swapCount s + 1) (recursiveCalls s) in
  let s := _recordAfterSwap largest depth s in
  let s := _recordRecurse i largest depth s in
  heapify largest heapSize (depth + 1)%nat s.

(** [_heapifyNode] with a bound on the nesting of its recursive calls. *)
Fixpoint heapify_fuel (fuel : nat) (i heapSize depth : nat) (s : State) : State :=
  match fuel with
  | O => s
  | S fuel =>
      let s := mkState (originalArray s) (array s) (steps s)
                 (heapifyCalls s + 1) (swapCount s)
                 (if (0 <? depth)%nat then (recursiveCalls s + 1)%nat
                  else recursiveCalls s) in
      let left := (2 * i + 1)%nat in
      let right := (2 * i + 2)%nat in
      let largest := i in
      let s := _recordHeapifyStart i left right depth s in
      let '(largest, s) := _pickLargestChild i left right heapSize largest depth s in
      if bool_decide (largest ≠ i)
      then _swapAndRecurse (heapify_fuel fuel) i largest heapSize depth s
      else _recordNoSwap i depth s
  end.

(** [_heapifyNode(i, heapSize, depth)]: a recursive call goes to a child
    index below [heapSize], so [heapSize - i] nested calls are never
    exceeded (lemma [heapify_fuel_enough]). *)
Definition _heapifyNode (i heapSize depth : nat) (s : State) : State :=
  heapify_fuel (S (heapSize - i)) i heapSize depth s.

(** What [buildMaxHeap] returns. *)
Record BuildResult := mkBuildResult {
  heap : list Z;
  build_steps : list Step;
  build_stats : Stats
}.

(** [for (let i = startIndex; i >= 0; i--)] with
    [startIndex = floor(length / 2) - 1] runs [length / 2] times. *)
Definition buildMaxHeap (s : State) : BuildResult :=
  let s := _resetState s in
  let s := _recordInit s in
  let startIndex := Z.of_nat (length (array s)) / 2 - 1 in
  let s := _recordInfo startIndex s in
  let s := for_down (Z.to_nat (startIndex + 1)) (λ i s,
             let s := _recordLoopStart i s in
             let s := _heapifyNode i (length (array s)) 0 s in
             _recordLoopEnd i s) s in
  let s := _recordComplete s in
  mkBuildResult (array s) (steps s) (_stats s).

(** What [extractMax] returns; [extractedValue] is [None] for [null]. *)
Record ExtractResult := mkExtractResult {
  ex_heap : list Z;
  ex_steps : list Step;
  ex_stats : Stats;
  extractedValue : option Z
}.

(** [this.array[0] = this.array[this.array.length - 1]; this.array.pop()]
    on a non-empty array. *)
Definition move_last_to_root (a : list Z) : list Z :=
  match last a with
  | Some x => removelast (<[0%nat := x]> a)
  | None => a
  end.

Definition extractMax (s : State) : ExtractResult :=
  let s := _resetState s in
  let s := record t_pre_extract_build
             ("Building max-heap before extraction. Starting array: [" +:+
              join_Z (array s) +:+ "]") NoFields s in
  let startIndex := Z.of_nat (length (array s)) / 2 - 1 in
  let s := for_down (Z.to_nat (startIndex + 1)) (λ i s,
             _heapifyNode i (length (array s)) 0 s) s in
  let s := record t_pre_extract_complete
             ("✓ Max-heap built: [" +:+ join_Z (array s) +:+
              "]. Now extracting maximum.") NoFields s in
  match array s !! 0%nat with
  | None =>
      (* [this.array.length === 0] *)
      let s := record t_error "Cannot extract from empty heap!" NoFields s in
      mkExtractResult (array s) (steps s) (_stats s) None
  | Some max =>
      let s := record t_extract_init
                 ("Extracting maximum value: " +:+ show_Z max) (FHighlight 0) s in
      let s := set_array (move_last_to_root (array s)) s in
      let s := record t_extract_swap_root
                 ("Moved last element (" +:+ show_elem (array s !! 0%nat) +:+
                  ") to root. Heap size: " +:+ show_nat (length (array s)))
                 (FHighlight 0) s in
      let s := if (0 <? length (array s))%nat then
                 let s := record t_extract_heapify_start
                            "Starting heapify-down from root to restore heap property"
                            (FHighlight 0) s in
                 _heapifyNode 0 (length (array s)) 0 s
               else s in
      let s := record t_extract_complete
                 ("🎉 Extract complete! Removed: " +:+ show_Z max +:+
                  ". Final heap: [" +:+ join_Z (array s) +:+ "]")
                 (FExtracted max) s in
      mkExtractResult (array s) (steps s) (_stats s) (Some max)
  end.

(** An expected swap, [{ from, to, fromValue, toValue }]. *)
Record SwapPair := mkSwapPair {
  from : nat;
  to : nat;
  fromValue : option Z;
  toValue : option Z
}.

(** [this.steps.filter(step => step.type === 'swap').map(...)] *)
Definition getSwapSequence (sts : list Step) : list SwapPair :=
  omap (λ st, match type st, fields st with
              | t_swap, FSwap f t fv tv _ => Some (mkSwapPair f t fv tv)
              | _, _ => None
              end) sts.

(** [{ valid, message }] *)
Record Validation := mkValidation { valid : bool; message : string }.

Definition validateSwap (currentArray : list Z) (fromIndex toIndex : nat)
    (expectedSwaps : list SwapPair) (swapIndex : nat) : Validation :=
  match expectedSwaps !! swapIndex with
  | None =>
      (* [swapIndex >= expectedSwaps.length] *)
      mkValidation false "No more swaps expected!"
  | Some expected =>
      let isMatch :=
        ((fromIndex =? from expected)%nat && (toIndex =? to expected)%nat) ||
        ((fromIndex =? to expected)%nat && (toIndex =? from expected)%nat) in
      if isMatch
      then mkValidation true
             ("✓ Correct swap! " +:+ show_elem (currentArray !! fromIndex) +:+
              " ↔ " +:+ show_elem (currentArray !! toIndex))
      else mkValidation false
             ("✗ Incorrect! Expected swap at indices " +:+
              show_nat (from expected) +:+ " ↔ " +:+ show_nat (to expected))
  end.

(** Every child of node [i] that lies inside the array is at most [x]. *)
Definition children_le (a : list Z) (i : nat) (x : Z) : Prop :=
  (∀ y : Z, a !! (2 * i + 1)%nat = Some y → y ≤ x) ∧
  (∀ y : Z, a !! (2 * i + 2)%nat = Some y → y ≤ x).

(** Node [i] dominates its children. *)
Definition node_ok (a : list Z) (i : nat) : Prop :=
  ∀ x : Z, a !! i = Some x → children_le a i x.

(** The max-heap property of an array: for every index [i] whose children
    [2i+1], [2i+2] are within bounds, [a[i] >= a[2i+1]] and
    [a[i] >= a[2i+2]]. *)
Definition max_heap (a : list Z) : Prop := ∀ i : nat, node_ok a i.

(** The property from index [k] on, and the same with node [c] left out. *)
Definition heap_from (k : nat) (a : list Z) : Prop :=
  ∀ j : nat, (k ≤ j)%nat → node_ok a j.

Definition heap_except (k c : nat) (a : list Z) : Prop :=
  ∀ j : nat, (k ≤ j)%nat → j ≠ c → node_ok a j.

(** The parent of [c], when it is at or after [k], dominates the children
    of [c]. *)
Definition parent_bound (k c : nat) (a : list Z) : Prop :=
  ∀ (p : nat) (px : Z), (k ≤ p)%nat → (c = 2 * p + 1 ∨ c = 2 * p + 2)%nat →
    a !! p = Some px → children_le a c px.

(** *** [insertElement] and [_bubbleUp] *)

(** The [type] tags of the steps that [insertElement] and [_bubbleUp]
    push themselves. *)
Inductive InsertStepType :=
  | t_pre_insert_build | t_pre_insert_complete | t_insert_init | t_insert_add
  | t_bubble_complete | t_bubble_compare | t_bubble_swap | t_bubble_after_swap
  | t_insert_complete.

Inductive InsertFields :=
  | INoFields
  | IHighlight (highlightIndex : nat)
  | IBubbleCompare (index parentIndex highlightIndex : nat)
      (compareIndices : list nat)
  | IBubbleSwap (from to : nat) (fromValue toValue : option Z)
      (swapIndices : list nat).

(** An element of [this.steps] during [insertElement]: a step pushed by
    the [_heapifyNode] calls that build the heap first, or a step of the
    insertion. *)
Inductive InsertStep :=
  | SHeapify (st : Step)
  | SInsert (ty : InsertStepType) (array_snapshot : list Z) (description : string)
      (stats : Stats) (fields : InsertFields).

(** The mutable fields of the solver during the insertion. *)
Record InsertState := mkInsertState {
  ins_array : list Z;
  ins_steps : list InsertStep;
  ins_heapifyCalls : nat;
  ins_swapCount : nat;
  ins_recursiveCalls : nat
}.

Definition ins_stats (s : InsertState) : Stats :=
  mkStats (ins_heapifyCalls s) (ins_swapCount s) (ins_recursiveCalls s).

(** [this.steps.push({ type, array: [...this.array], description,
    stats: this._stats(), ...fields })] *)
Definition ins_record (ty : InsertStepType) (descr : string) (f : InsertFields)
    (s : InsertState) : InsertState :=
  mkInsertState (ins_array s)
    (ins_steps s ++ [SInsert ty (ins_array s) descr (ins_stats s) f])
    (ins_heapifyCalls s) (ins_swapCount s) (ins_recursiveCalls s).

Definition ins_set_array (a : list Z) (s : InsertState) : InsertState :=
  mkInsertState a (ins_steps s) (ins_heapifyCalls s) (ins_swapCount s)
    (ins_recursiveCalls s).

(** [_bubbleUp] with a bound on the nesting of its recursive calls. *)
Fixpoint bubble_fuel (fuel : nat) (index : nat) (s : InsertState) : InsertState :=
  match fuel with
  | O => s
  | S fuel =>
      if (index =? 0)%nat then
        ins_record t_bubble_complete "Element is at root. Bubble-up complete."
          (IHighlight index) s
      else
        let parentIndex := ((index - 1) / 2)%nat in
        let s := ins_record t_bubble_compare
                   ("Comparing child " +:+ show_elem (ins_array s !! index) +:+
                    " at [" +:+ show_nat index +:+ "] with parent " +:+
                    show_elem (ins_array s !! parentIndex) +:+ " at [" +:+
                    show_nat parentIndex +:+ "]")
                   (IBubbleCompare index parentIndex index [parentIndex]) s in
        if js_gt (ins_array s !! index) (ins_array s !! parentIndex) then
          let s := ins_record t_bubble_swap
                     ("🔄 Child (" +:+ show_elem (ins_array s !! index) +:+
                      ") > Parent (" +:+ show_elem (ins_array s !! parentIndex) +:+
                      "). Swapping indices " +:+ show_nat index +:+ " ↔ " +:+
                      show_nat parentIndex)
                     (IBubbleSwap index parentIndex (ins_array s !! index)
                        (ins_array s !! parentIndex) [index; parentIndex]) s in
          let s := ins_set_array (swap_at (ins_array s) index parentIndex) s in
          let s := mkInsertState (ins_array s) (ins_steps s) (ins_heapifyCalls s)
                     (ins_swapCount s + 1) (ins_recursiveCalls s) in
          let s := ins_record t_bubble_after_swap
                     ("After swap: [" +:+ join_Z (ins_array s) +:+ "]")
                     (IHighlight parentIndex) s in
          bubble_fuel fuel parentIndex s
        else
          ins_record t_bubble_complete
            ("✓ Child (" +:+ show_elem (ins_array s !! index) +:+
             ") ≤ Parent (" +:+ show_elem (ins_array s !! parentIndex) +:+
             "). Heap property satisfied.")
            (IHighlight index) s
  end.

(** [_bubbleUp(index)]: a recursive call goes to the parent index, which
    is smaller, so [index + 1] nested calls are never exceeded. *)
Definition _bubbleUp (index : nat) (s : InsertState) : InsertState :=
  bubble_fuel (S index) index s.

(** What [insertElement] returns. *)
Record InsertResult := mkInsertResult {
  ins_heap : list Z;
  ins_result_steps : list InsertStep;
  ins_result_stats : Stats
}.

(** [insertElement(value)]. The [_heapifyNode] calls of the first loop run
    on the solver state right after [_resetState]; the steps they push
    follow the [pre-insert-build] step in [this.steps]. *)
Definition insertElement (value : Z) (s : State) : InsertResult :=
  let s := _resetState s in
  let first := SInsert t_pre_insert_build (array s)
                 ("Building max-heap before insertion. Starting array: [" +:+
                  join_Z (array s) +:+ "]") (_stats s) INoFields in
  let startIndex := Z.of_nat (length (array s)) / 2 - 1 in
  let s := for_down (Z.to_nat (startIndex + 1)) (λ i s,
             _heapifyNode i (length (array s)) 0 s) s in
  let s := mkInsertState (array s) (first :: map SHeapify (steps s))
             (heapifyCalls s) (swapCount s) (recursiveCalls s) in
  let s := ins_record t_pre_insert_complete
             ("✓ Max-heap built: [" +:+ join_Z (ins_array s) +:+
              "]. Now inserting " +:+ show_Z value +:+ ".") INoFields s in
  let s := ins_record t_insert_init
             ("Inserting new value: " +:+ show_Z value) INoFields s in
  let s := ins_set_array (ins_array s ++ [value]) s in
  let insertIndex := (length (ins_array s) - 1)%nat in
  let s := ins_record t_insert_add
             ("Added " +:+ show_Z value +:+ " at index " +:+
              show_nat insertIndex +:+ " (end of array)")
             (IHighlight insertIndex) s in
  let s := _bubbleUp insertIndex s in
  let s := ins_record t_insert_complete
             ("🎉 Insert complete! Final heap: [" +:+ join_Z (ins_array s) +:+ "]")
             INoFields s in
  mkInsertResult (ins_array s) (ins_steps s) (ins_stats s).

(** The swaps of the [bubble-swap] steps of a trace, in order. *)
Definition bubble_swaps (sts : list InsertStep) : list SwapPair :=
  omap (λ st, match st with
              | SInsert t_bubble_swap _ _ _ (IBubbleSwap f t fv tv _) =>
                  Some (mkSwapPair f t fv tv)
              | _ => None
              end) sts.

(** The heap property seen from the child: an element other than the
    root is at most its parent. *)
Definition below_parent (a : list Z) (k : nat) : Prop :=
  ∀ x y : Z, a !! k = Some y → a !! ((k - 1) / 2)%nat = Some x → y ≤ x.

(** The array obtained by doing the swaps of a sequence, in order. *)
Definition replay (swaps : list SwapPair) (a : list Z) : list Z :=
  fold_left (λ a p, swap_at a (from p) (to p)) swaps a.

(** A swap of a sift-down in an array of [n] elements: a node with one of
    its children, which holds the larger value. *)
Definition sift_swap (n : nat) (p : SwapPair) : Prop :=
  (to p = 2 * from p + 1 ∨ to p = 2 * from p + 2)%nat ∧ (to p < n)%nat ∧
  ∃ x y : Z, fromValue p = Some x ∧ toValue p = Some y ∧ x < y.

End Heap.

(** ** Heap monk mode: [HeapMonkMode] *)

Module HeapMonk.

(** [this.operation] *)
Inductive Operation := build | extract | insert.

(** The fields of the monk-mode object that a click can change, with
    [status] for the text last passed to [_updateStatus]; highlights and
    the rendered nodes belong to the page. *)
Record State := mkState {
  expectedSwaps : list Heap.SwapPair;
  currentSwapIndex : nat;
  userArray : list Z;
  selectedNode : option nat;
  isActive : bool;
  operation : Operation;
  userStats : Heap.Stats;
  status : string
}.

Definition _updateStatus (msg : string) (s : State) : State :=
  mkState (expectedSwaps s) (currentSwapIndex s) (userArray s) (selectedNode s)
    (isActive s) (operation s) (userStats s) msg.

Definition _onComplete (s : State) : State :=
  let message := "🎉 Congratulations! " +:+
    match operation s with
    | build => "You have successfully built the max-heap!"
    | extract => "You have successfully extracted the maximum element!"
    | insert => "You have successfully inserted the element into the heap!"
    end in
  _updateStatus message
    (mkState (expectedSwaps s) (currentSwapIndex s) (userArray s) (selectedNode s)
       false (operation s) (userStats s) (status s)).

(** The counter updates of a correct swap; [idx] is [currentSwapIndex]
    after its increment. *)
Definition bump_stats (op : Operation) (idx fromIndex toIndex : nat)
    (st : Heap.Stats) : Heap.Stats :=
  let st := Heap.mkStats (Heap.st_heapifyCalls st) (Heap.st_swapCount st + 1)
              (Heap.st_recursiveCalls st) in
  match op with
  | build =>
      let st := if (idx =? 1)%nat || (toIndex <? fromIndex)%nat
                then Heap.mkStats (Heap.st_heapifyCalls st + 1)
                       (Heap.st_swapCount st) (Heap.st_recursiveCalls st)
                else st in
      if negb (toIndex =? fromIndex)%nat && (0 <? toIndex)%nat
      then Heap.mkStats (Heap.st_heapifyCalls st) (Heap.st_swapCount st)
             (Heap.st_recursiveCalls st + 1)
      else st
  | extract | insert =>
      if (idx =? 1)%nat
      then Heap.mkStats (Heap.st_heapifyCalls st + 1)
             (Heap.st_swapCount st) (Heap.st_recursiveCalls st)
      else Heap.mkStats (Heap.st_heapifyCalls st) (Heap.st_swapCount st)
             (Heap.st_recursiveCalls st + 1)
  end.

Definition _attemptSwap (fromIndex toIndex : nat) (s : State) : State :=
  let result := Heap.validateSwap (userArray s) fromIndex toIndex
                  (expectedSwaps s) (currentSwapIndex s) in
  if Heap.valid result then
    let idx := (currentSwapIndex s + 1)%nat in
    let s := mkState (expectedSwaps s) idx
               (Heap.swap_at (userArray s) fromIndex toIndex)
               (selectedNode s) (isActive s) (operation s)
               (bump_stats (operation s) idx fromIndex toIndex (userStats s))
               (status s) in
    let s := _updateStatus (Heap.message result) s in
    if (length (expectedSwaps s) <=? currentSwapIndex s)%nat
    then _onComplete s else s
  else _updateStatus (Heap.message result) s.

Definition select (o : option nat) (s : State) : State :=
  mkState (expectedSwaps s) (currentSwapIndex s) (userArray s) o
    (isActive s) (operation s) (userStats s) (status s).

Definition _handleNodeClick (index : nat) (s : State) : State :=
  match selectedNode s with
  | None =>
      _updateStatus
        ("Selected node at index " +:+ show_nat index +:+ " (value: " +:+
         show_elem (userArray s !! index) +:+ "). Click another node to swap.")
        (select (Some index) s)
  | Some first =>
      if (first =? index)%nat then
        _updateStatus "Selection cancelled. Click a node to start a swap."
          (select None s)
      else select None (_attemptSwap first index s)
  end.

(** The click handler attached to every node and array cell. *)
Definition click (index : nat) (s : State) : State :=
  if isActive s then _handleNodeClick index s else s.

(** A pair of clicked indices matches an expected swap in either order. *)
Definition matches (fromIndex toIndex : nat) (e : Heap.SwapPair) : Prop :=
  (fromIndex = Heap.from e ∧ toIndex = Heap.to e) ∨
  (fromIndex = Heap.to e ∧ toIndex = Heap.from e).

(** A sequence of clicks on nodes or array cells, oldest first. *)
Definition clicks (cs : list nat) (s : State) : State :=
  fold_left (λ s index, click index s) cs s.

(** *** [startLevel] *)

(** [Array.prototype.findIndex]; [None] stands for [-1]. *)
Fixpoint findIndex {A : Type} (p : A → bool) (l : list A) : option nat :=
  match l with
  | [] => None
  | x :: l => if p x then Some 0%nat else S <$> findIndex p l
  end.

(** [s.type === 'extract-heapify-start' || s.type === 'insert-add'] on a
    step of [extractMax], and on a step of [insertElement]. *)
Definition is_operation_start (st : Heap.Step) : bool :=
  match Heap.type st with
  | Heap.t_extract_heapify_start => true
  | _ => false
  end.

Definition is_insert_start (st : Heap.InsertStep) : bool :=
  match st with
  | Heap.SHeapify st => is_operation_start st
  | Heap.SInsert Heap.t_insert_add _ _ _ _ => true
  | Heap.SInsert _ _ _ _ _ => false
  end.

(** The [{ from, to, fromValue, toValue }] pushed for the steps of type
    ['swap'] or ['bubble-swap'] of a part of the trace of
    [insertElement]. *)
Definition operation_swaps (sts : list Heap.InsertStep) : list Heap.SwapPair :=
  omap (λ st, match st with
              | Heap.SHeapify st =>
                  match Heap.type st, Heap.fields st with
                  | Heap.t_swap, Heap.FSwap f t fv tv _ =>
                      Some (Heap.mkSwapPair f t fv tv)
                  | _, _ => None
                  end
              | Heap.SInsert Heap.t_bubble_swap _ _ _ (Heap.IBubbleSwap f t fv tv _) =>
                  Some (Heap.mkSwapPair f t fv tv)
              | _ => None
              end) sts.

(** [operationData]: [data_operation] is [None] when the field is absent
    ([operation || 'build']). *)
Record OperationData := mkOperationData {
  data_array : list Z;
  data_operation : option Operation;
  insertValue : Z
}.

(** What [startLevel] returns; [finalArray] is [this.userArray] as it is
    when the call returns. *)
Record LevelResult := mkLevelResult {
  totalSwaps : nat;
  finalHeap : list Z;
  finalArray : list Z
}.

(** How a call of [startLevel] ends: with its result, or with the
    [TypeError] of [step.type] on [this.solver.steps[-1]]; in both cases
    with the fields of the object as the call leaves them. *)
Inductive LevelOutcome :=
  | Started (s : State) (r : LevelResult)
  | TypeError (s : State).

(** [startLevel(operationData)]. The first assignment to
    [this.expectedSwaps] in the extract and insert branch (the [filter])
    is overwritten before it is read and has no other effect; the loop
    [for (let i = operationStartIndex; ...)] reads [steps[-1].type] when
    [findIndex] found nothing. *)
Definition startLevel (d : OperationData) (s : State) : LevelOutcome :=
  let op := default build (data_operation d) in
  let zero := Heap.mkStats 0 0 0 in
  let solver := Heap.new (data_array d) in
  let started expected userArray heap :=
    Started (mkState expected 0 userArray None true op zero (status s))
      (mkLevelResult (length expected) heap userArray) in
  let thrown userArray :=
    TypeError (mkState [] (currentSwapIndex s) userArray (selectedNode s)
                 (isActive s) op zero (status s)) in
  match op with
  | build =>
      let result := Heap.buildMaxHeap solver in
      started (Heap.getSwapSequence (Heap.build_steps result)) (data_array d)
        (Heap.heap result)
  | extract =>
      let result := Heap.extractMax solver in
      let builder := Heap.buildMaxHeap (Heap.new (data_array d)) in
      (* [if (length > 0) { a[0] = a[length - 1]; a.pop() }] *)
      let userArray := Heap.move_last_to_root (Heap.heap builder) in
      match findIndex is_operation_start (Heap.ex_steps result) with
      | None => thrown userArray
      | Some k =>
          started (Heap.getSwapSequence (drop k (Heap.ex_steps result)))
            userArray (Heap.ex_heap result)
      end
  | insert =>
      let result := Heap.insertElement (insertValue d) solver in
      let builder := Heap.buildMaxHeap (Heap.new (data_array d)) in
      let userArray := Heap.heap builder ++ [insertValue d] in
      match findIndex is_insert_start (Heap.ins_result_steps result) with
      | None => thrown userArray
      | Some k =>
          started (operation_swaps (drop k (Heap.ins_result_steps result)))
            userArray (Heap.ins_heap result)
      end
  end.

(** [new HeapMonkMode(visualizer)], before any status text is set. *)
Definition new : State :=
  mkState [] 0 [] None false build (Heap.mkStats 0 0 0) "".

(** [reset()] *)
Definition reset (s : State) : State :=
  mkState (expectedSwaps s) 0 (userArray s) None false (operation s)
    (Heap.mkStats 0 0 0) (status s).

End HeapMonk.

(** ** Counting sort: [CountingSortSolver] *)

Module CountingSort.

(** [this.stats] *)
Record Stats := mkStats {
  comparisons : nat;
  arrayAccesses : nat;
  countUpdates : nat;
  placements : nat
}.

Inductive StepType :=
  | t_phase_start | t_find_max | t_find_max_complete | t_count | t_count_complete
  | t_cumulative | t_cumulative_complete | t_output | t_output_complete
  | t_complete.

Inductive Phase := p_find_max | p_count | p_cumulative | p_output | p_complete.

(** The numeric fields particular to each kind of step. The [highlight*]
    fields repeat these indices and are left out, as are [title],
    [description] and [loopInfo], which are display texts. *)
Inductive Fields :=
  | NoFields
  | FFindMax (currentIndex currentValue currentMax maxIndex : nat) (isNewMax : bool)
  | FFindMaxComplete (maxValue : nat)
  | FCount (inputIndex value : nat) (oldCount newCount : Z)
  | FCumulative (countIndex : nat) (oldValue previousValue newValue : Z)
  | FOutput (inputIndex value : nat) (outputPosition countBefore countAfter : Z)
  | FComplete (sortedArray : list (option nat)).

(** A step with its three array snapshots. An output slot is [None] while
    it holds [null]. *)
Record Step := mkStep {
  type : StepType;
  phase : Phase;
  inputArray : list nat;
  countArray_snapshot : list Z;
  outputArray_snapshot : list (option nat);
  stats_snapshot : Stats;
  fields : Fields
}.

(** The mutable fields of the solver. The input holds non-negative
    integers (they index the count array); counts are [Z] so that
    [count - 1] is the subtraction of the source. *)
Record State := mkState {
  originalArray : list nat;
  array : list nat;
  steps : list Step;
  countArray : list Z;
  outputArray : list (option nat);
  maxValue : nat;
  stats : Stats
}.

(** [new CountingSortSolver(array)] *)
Definition new (a : list nat) : State :=
  mkState a a [] [] [] 0 (mkStats 0 0 0 0).

(** [this.steps.push({ type, phase, inputArray: [...this.array], ... })];
    [snap] tells whether the step copies the count and output arrays or
    records [[]] for them (the find-max steps). *)
Definition record (ty : StepType) (ph : Phase) (snap : bool) (f : Fields)
    (s : State) : State :=
  mkState (originalArray s) (array s)
    (steps s ++ [mkStep ty ph (array s)
                   (if snap then countArray s else [])
                   (if snap then outputArray s else [])
                   (stats s) f])
    (countArray s) (outputArray s) (maxValue s) (stats s).

Definition set_stats (st : Stats) (s : State) : State :=
  mkState (originalArray s) (array s) (steps s) (countArray s) (outputArray s)
    (maxValue s) st.

Definition set_maxValue (m : nat) (s : State) : State :=
  mkState (originalArray s) (array s) (steps s) (countArray s) (outputArray s)
    m (stats s).

Definition set_countArray (c : list Z) (s : State) : State :=
  mkState (originalArray s) (array s) (steps s) c (outputArray s)
    (maxValue s) (stats s).

Definition set_outputArray (o : list (option nat)) (s : State) : State :=
  mkState (originalArray s) (array s) (steps s) (countArray s) o
    (maxValue s) (stats s).

(** [count[v]] for an index inside the count array (every value of the
    input is at most [maxValue], so the reads of the solver are). *)
Definition count_at (c : list Z) (v : nat) : Z := default 0 (c !! v).

(** [output[position] = value]: an index inside the array is overwritten,
    a negative index only adds a property to the object, an index past
    the end grows the array (the skipped slots read as [undefined], shown
    here like [null]). *)
Definition set_output (o : list (option nat)) (position : Z) (value : nat)
    : list (option nat) :=
  if position <? 0 then o
  else if position <? Z.of_nat (length o) then <[Z.to_nat position := Some value]> o
  else o ++ replicate (Z.to_nat position - length o) None ++ [Some value].

Definition _resetState (s : State) : State :=
  mkState (originalArray s) (originalArray s) [] [] [] (maxValue s)
    (mkStats 0 0 0 0).

(** The loop of [_findMaximum] carries the local [maxIndex]. *)
Definition _findMaximum (s : State) : State :=
  let s := record t_phase_start p_find_max false NoFields s in
  let s := set_maxValue (default 0%nat (array s !! 0%nat)) s in
  let '(s, _) :=
    for_up 0 (length (array s)) (λ i '(s, maxIndex),
      match array s !! i with
      | None => (s, maxIndex)
      | Some x =>
          let s := set_stats (mkStats (comparisons (stats s) + 1)
                                (arrayAccesses (stats s) + 1)
                                (countUpdates (stats s)) (placements (stats s))) s in
          let isNewMax := (maxValue s <? x)%nat in
          let s := record t_find_max p_find_max false
                     (FFindMax i x (maxValue s) maxIndex isNewMax) s in
          if isNewMax then (set_maxValue x s, i) else (s, maxIndex)
      end) (s, 0%nat) in
  record t_find_max_complete p_find_max false (FFindMaxComplete (maxValue s)) s.

Definition _initializeCountArray (s : State) : State :=
  let s := set_countArray (replicate (maxValue s + 1) 0) s in
  let s := set_outputArray (replicate (length (array s)) None) s in
  record t_phase_start p_count true NoFields s.

Definition _countOccurrences (s : State) : State :=
  let s :=
    for_up 0 (length (array s)) (λ i s,
      match array s !! i with
      | None => s
      | Some value =>
          let oldCount := count_at (countArray s) value in
          let s := set_countArray (<[value := oldCount + 1]> (countArray s)) s in
          let s := set_stats (mkStats (comparisons (stats s))
                                (arrayAccesses (stats s) + 1)
                                (countUpdates (stats s) + 1) (placements (stats s))) s in
          record t_count p_count true
            (FCount i value oldCount (count_at (countArray s) value)) s
      end) s in
  record t_count_complete p_count true NoFields s.

Definition _calculateCumulativeCounts (s : State) : State :=
  let s := record t_phase_start p_cumulative true NoFields s in
  let s :=
    for_up 1 (maxValue s) (λ i s,
      let oldValue := count_at (countArray s) i in
      let previousValue := count_at (countArray s) (i - 1) in
      let s := set_countArray
                 (<[i := oldValue + previousValue]> (countArray s)) s in
      let s := set_stats (mkStats (comparisons (stats s)) (arrayAccesses (stats s))
                            (countUpdates (stats s) + 1) (placements (stats s))) s in
      record t_cumulative p_cumulative true
        (FCumulative i oldValue previousValue (count_at (countArray s) i)) s) s in
  record t_cumulative_complete p_cumulative true NoFields s.

Definition _buildOutputArray (s : State) : State :=
  let s := record t_phase_start p_output true NoFields s in
  let s :=
    for_down (length (array s)) (λ i s,
      match array s !! i with
      | None => s
      | Some value =>
          let countBefore := count_at (countArray s) value in
          let position := countBefore - 1 in
          let s := set_outputArray (set_output (outputArray s) position value) s in
          let s := set_countArray (<[value := countBefore - 1]> (countArray s)) s in
          let countAfter := count_at (countArray s) value in
          let s := set_stats (mkStats (comparisons (stats s))
                                (arrayAccesses (stats s) + 2)
                                (countUpdates (stats s)) (placements (stats s) + 1)) s in
          record t_output p_output true
            (FOutput i value position countBefore countAfter) s
      end) s in
  record t_output_complete p_output true NoFields s.

Definition _copyToOriginal (s : State) : State :=
  record t_complete p_complete true (FComplete (outputArray s)) s.

(** What [solve()] returns. *)
Record Result := mkResult {
  sortedArray : list (option nat);
  result_steps : list Step;
  result_stats : Stats
}.

Definition solve (s : State) : Result :=
  let s := _resetState s in
  let s := _findMaximum s in
  let s := _initializeCountArray s in
  let s := _countOccurrences s in
  let s := _calculateCumulativeCounts s in
  let s := _buildOutputArray s in
  let s := _copyToOriginal s in
  mkResult (outputArray s) (steps s) (stats s).

(** *** Reference functions used to state the properties *)

(** Number of occurrences of [v], and number of elements at most [v]. *)
Definition occurrences (l : list nat) (v : nat) : nat :=
  length (List.filter (λ x, (x =? v)%nat) l).

Definition at_most (l : list nat) (v : nat) : nat :=
  length (List.filter (λ x, (x <=? v)%nat) l).

(** Half-open range of output positions that value [v] owns once the
    input from index [j] on has been placed: [count[v]] up to the number
    of elements at most [v]. *)
Definition zone (l : list nat) (j v p : nat) : Prop :=
  (at_most l v - occurrences (drop j l) v ≤ p < at_most l v)%nat.

(** The output steps of a trace, as
    [(inputIndex, value, outputPosition, countBefore, countAfter)]. *)
Definition output_moves (sts : list Step) : list (nat * nat * Z * Z * Z) :=
  omap (λ st, match fields st with
              | FOutput i v p cb ca => Some (i, v, p, cb, ca)
              | _ => None
              end) sts.

(** The output step expected for input index [i]: the value there goes to
    [count - 1], where [count] is the number of elements at most the
    value minus the equal values already placed (those to the right). *)
Definition expected_move (l : list nat) (i : nat) : option (nat * nat * Z * Z * Z) :=
  match l !! i with
  | Some v =>
      let countBefore := Z.of_nat (at_most l v - occurrences (drop (S i) l) v) in
      Some (i, v, countBefore - 1, countBefore, countBefore - 1)
  | None => None
  end.

(** State of the output loop when the input from index [j] on has been
    placed. *)
Definition output_inv (l : list nat) (m : nat) (moves0 : list (nat * nat * Z * Z * Z))
    (j : nat) (s : State) : Prop :=
  array s = l ∧ maxValue s = m ∧ length (outputArray s) = length l ∧
  length (countArray s) = (m + 1)%nat ∧
  (∀ v, (v ≤ m)%nat →
     countArray s !! v = Some (Z.of_nat (at_most l v - occurrences (drop j l) v))) ∧
  (∀ v p, (v ≤ m)%nat → zone l j v p → outputArray s !! p = Some (Some v)) ∧
  (∀ p, (p < length l)%nat → (∀ v, (v ≤ m)%nat → ¬ zone l j v p) →
     outputArray s !! p = Some None) ∧
  omap id (outputArray s) ≡ₚ drop j l ∧
  output_moves (steps s)
  = moves0 ++ omap (expected_move l) (rev (seq j (length l - j))).

(** A phase that keeps the input and records no output step. *)
Definition quiet (s s' : State) : Prop :=
  array s' = array s ∧ output_moves (steps s') = output_moves (steps s).

(** Number of elements smaller than [v], and the output index of the
    element at input index [i] under a stable sort: after the smaller
    elements and after the equal elements that come before it. *)
Definition smaller (l : list nat) (v : nat) : nat :=
  length (List.filter (λ x, (x <? v)%nat) l).

Definition stable_position (l : list nat) (i v : nat) : nat :=
  (smaller l v + occurrences (take i l) v)%nat.

(** The count array that holds [f v] at every index [v] from 0 to [m]. *)
Definition counts_of (f : nat → nat) (m : nat) : list Z :=
  map (λ v, Z.of_nat (f v)) (seq 0 (m + 1)).

End CountingSort.

(** ** Strassen multiplication: [StrassenSolver] and [naiveMultiply] *)

Module Strassen.

(** A matrix is an array of rows; its entries are read with [cell]. *)
Local Abbreviation Matrix := (list (list Z)).

(** *** The numbers of the matrices

    The entries are JavaScript numbers, IEEE-754 doubles, that hold
    integers; such a number is written as its integer ([-0] as [0], which
    [===] does not tell apart). The integers up to [2^53] in magnitude are
    all doubles; above, a double has a 53-bit significand [q] and is a
    multiple [q * 2^e] of a power of two. [+], [-] and [*] give the exact
    result rounded to the nearest double, a tie going to the even
    significand. Results past the largest double (about [1.8e308]) are
    [Infinity] in the source and have no counterpart here. *)
Definition round_double (x : Z) : Z :=
  let a := Z.abs x in
  if a <=? 2 ^ 53 then x
  else
    let e := Z.log2 a - 52 in
    let q := a / 2 ^ e in
    let r := a mod 2 ^ e in
    let q := if 2 * r <? 2 ^ e then q
             else if 2 ^ e <? 2 * r then q + 1
             else if Z.even q then q else q + 1 in
    Z.sgn x * (q * 2 ^ e).

(** [x + y], [x - y] and [x * y] on numbers. *)
Definition js_add (x y : Z) : Z := round_double (x + y).
Definition js_sub (x y : Z) : Z := round_double (x - y).
Definition js_mul (x y : Z) : Z := round_double (x * y).

(** How a call ends: with a value, with the [TypeError] raised when a
    property of [undefined] is read, or never (the recursion does not
    stop). *)
Inductive outcome (A : Type) :=
  | Returns (a : A)
  | Throws
  | Diverges.
Arguments Returns {A} a.
Arguments Throws {A}.
Arguments Diverges {A}.

#[global] Instance outcome_ret : MRet outcome := λ A a, Returns a.
#[global] Instance outcome_bind : MBind outcome := λ A B k m,
  match m with
  | Returns a => k a
  | Throws => Throws
  | Diverges => Diverges
  end.

(** [this.stats] *)
Record Stats := mkStats {
  multiplications : nat;
  additions : nat;
  recursionDepth : nat;
  maxDepth : nat
}.

(** Four quadrants, in the order [11, 12, 21, 22]. *)
Local Abbreviation Quadrants := (Matrix * Matrix * Matrix * Matrix)%type.

(** The steps, one constructor per [type] tag, each with the matrices and
    numbers it carries; [title], [description], [formula] and
    [calculation] are display texts and are left out. *)
Inductive Step :=
  | SInit (matrixA matrixB : Matrix) (stats : Stats)
  | SBaseCase (depth : nat) (matrixA matrixB result : Matrix) (stats : Stats)
  | SDivide (depth : nat) (matrixA matrixB : Matrix)
      (quadrantsA quadrantsB : Quadrants) (stats : Stats)
  | SCombine (depth : nat) (result : Matrix) (quadrantsC : Quadrants) (stats : Stats)
  | S2x2Start (depth : nat) (matrixA matrixB : Matrix) (stats : Stats)
  | SProduct (product : nat) (value : Z) (depth : nat) (stats : Stats)
  | S2x2Combine (depth : nat) (products : list Z) (result : Matrix) (stats : Stats)
  | SComplete (matrixA matrixB result : Matrix) (stats : Stats).

(** The mutable fields [this.steps] and [this.stats]. *)
Record State := mkState {
  steps : list Step;
  stats : Stats
}.

Definition push (st : Step) (s : State) : State :=
  mkState (steps s ++ [st]) (stats s).

Definition add_multiplications (k : nat) (s : State) : State :=
  mkState (steps s)
    (mkStats (multiplications (stats s) + k) (additions (stats s))
       (recursionDepth (stats s)) (maxDepth (stats s))).

Definition add_additions (k : nat) (s : State) : State :=
  mkState (steps s)
    (mkStats (multiplications (stats s)) (additions (stats s) + k)
       (recursionDepth (stats s)) (maxDepth (stats s))).

Definition enter (depth : nat) (s : State) : State :=
  mkState (steps s)
    (mkStats (multiplications (stats s)) (additions (stats s)) depth
       (Nat.max (maxDepth (stats s)) depth)).

Definition _resetState : State := mkState [] (mkStats 0 0 0 0).

(** [M[i]], a row inside the matrix. *)
Definition row_at (M : Matrix) (i : nat) : list Z := default [] (M !! i).

(** [_splitMatrix]: with an odd length [mid = n / 2] is not an integer,
    [M[i + mid]] is [undefined] in the first iteration and [.slice]
    throws. *)
Definition _splitMatrix (M : Matrix) : outcome Quadrants :=
  let n := length M in
  if Nat.odd n then Throws
  else
    let mid := (n / 2)%nat in
    Returns
      (for_up 0 mid (λ i '(M11, M12, M21, M22),
         (M11 ++ [take mid (row_at M i)],
          M12 ++ [drop mid (row_at M i)],
          M21 ++ [take mid (row_at M (i + mid))],
          M22 ++ [drop mid (row_at M (i + mid))]))
         ([], [], [], [])).

(** [_combineQuadrants] *)
Definition _combineQuadrants (C11 C12 C21 C22 : Matrix) : Matrix :=
  let n := (length C11 * 2)%nat in
  let result := zero_table n n in
  let mid := (n / 2)%nat in
  for_up 0 mid (λ i,
    for_up 0 mid (λ j result,
      let result := set_cell result i j (cell C11 i j) in
      let result := set_cell result i (j + mid) (cell C12 i j) in
      let result := set_cell result (i + mid) j (cell C21 i j) in
      set_cell result (i + mid) (j + mid) (cell C22 i j))) result.

(** [_addMatrices] and [_subtractMatrices]: the loops fill [result] with
    [A[i][j] + B[i][j]] or [A[i][j] - B[i][j]] and count one addition per
    entry. *)
Definition entrywise (op : Z → Z → Z) (A B : Matrix) (s : State)
    : Matrix * State :=
  let n := length A in
  let result := zero_table n n in
  for_up 0 n (λ i,
    for_up 0 n (λ j '(result, s),
      (set_cell result i j (op (cell A i j) (cell B i j)),
       add_additions 1 s))) (result, s).

Definition _addMatrices : Matrix → Matrix → State → Matrix * State :=
  entrywise js_add.
Definition _subtractMatrices : Matrix → Matrix → State → Matrix * State :=
  entrywise js_sub.

Definition _strassen2x2 (A B : Matrix) (depth : nat) (s : State)
    : Matrix * State :=
  let a := cell A 0 0 in let b := cell A 0 1 in
  let c := cell A 1 0 in let d := cell A 1 1 in
  let e := cell B 0 0 in let f := cell B 0 1 in
  let g := cell B 1 0 in let h := cell B 1 1 in
  let s := push (S2x2Start depth A B (stats s)) s in
  let M1 := js_mul (js_add a d) (js_add e h) in
  let s := add_additions 2 (add_multiplications 1 s) in
  let s := push (SProduct 1 M1 depth (stats s)) s in
  let M2 := js_mul (js_add c d) e in
  let s := add_additions 1 (add_multiplications 1 s) in
  let s := push (SProduct 2 M2 depth (stats s)) s in
  let M3 := js_mul a (js_sub f h) in
  let s := add_additions 1 (add_multiplications 1 s) in
  let s := push (SProduct 3 M3 depth (stats s)) s in
  let M4 := js_mul d (js_sub g e) in
  let s := add_additions 1 (add_multiplications 1 s) in
  let s := push (SProduct 4 M4 depth (stats s)) s in
  let M5 := js_mul (js_add a b) h in
  let s := add_additions 1 (add_multiplications 1 s) in
  let s := push (SProduct 5 M5 depth (stats s)) s in
  let M6 := js_mul (js_sub c a) (js_add e f) in
  let s := add_additions 2 (add_multiplications 1 s) in
  let s := push (SProduct 6 M6 depth (stats s)) s in
  let M7 := js_mul (js_sub b d) (js_add g h) in
  let s := add_additions 2 (add_multiplications 1 s) in
  let s := push (SProduct 7 M7 depth (stats s)) s in
  let C11 := js_add (js_sub (js_add M1 M4) M5) M7 in
  let C12 := js_add M3 M5 in
  let C21 := js_add M2 M4 in
  let C22 := js_add (js_add (js_sub M1 M2) M3) M6 in
  let s := add_additions 8 s in
  let result := [[C11; C12]; [C21; C22]] in
  let s := push (S2x2Combine depth [M1; M2; M3; M4; M5; M6; M7] result (stats s)) s in
  (result, s).

(** [_strassen], with a bound [fuel] on the nesting of the recursive
    calls; the size halves at every level, so the bound is only reached
    by inputs on which the source does not terminate. *)
Fixpoint _strassen (fuel : nat) (A B : Matrix) (depth : nat) (s : State)
    : outcome (Matrix * State) :=
  match fuel with
  | O => Diverges
  | S fuel =>
      let n := length A in
      let s := enter depth s in
      if (n =? 1)%nat then
        let s := add_multiplications 1 s in
        let result := [[js_mul (cell A 0 0) (cell B 0 0)]] in
        let s := push (SBaseCase depth A B result (stats s)) s in
        Returns (result, s)
      else if (n =? 2)%nat then Returns (_strassen2x2 A B depth s)
      else
        '(A11, A12, A21, A22) ← _splitMatrix A;
        '(B11, B12, B21, B22) ← _splitMatrix B;
        let s := push (SDivide depth A B (A11, A12, A21, A22)
                         (B11, B12, B21, B22) (stats s)) s in
        let '(X, s) := _addMatrices A11 A22 s in
        let '(Y, s) := _addMatrices B11 B22 s in
        '(M1, s) ← _strassen fuel X Y (depth + 1) s;
        let '(X, s) := _addMatrices A21 A22 s in
        '(M2, s) ← _strassen fuel X B11 (depth + 1) s;
        let '(Y, s) := _subtractMatrices B12 B22 s in
        '(M3, s) ← _strassen fuel A11 Y (depth + 1) s;
        let '(Y, s) := _subtractMatrices B21 B11 s in
        '(M4, s) ← _strassen fuel A22 Y (depth + 1) s;
        let '(X, s) := _addMatrices A11 A12 s in
        '(M5, s) ← _strassen fuel X B22 (depth + 1) s;
        let '(X, s) := _subtractMatrices A21 A11 s in
        let '(Y, s) := _addMatrices B11 B12 s in
        '(M6, s) ← _strassen fuel X Y (depth + 1) s;
        let '(X, s) := _subtractMatrices A12 A22 s in
        let '(Y, s) := _addMatrices B21 B22 s in
        '(M7, s) ← _strassen fuel X Y (depth + 1) s;
        let '(T, s) := _addMatrices M1 M4 s in
        let '(T, s) := _subtractMatrices T M5 s in
        let '(C11, s) := _addMatrices T M7 s in
        let '(C12, s) := _addMatrices M3 M5 s in
        let '(C21, s) := _addMatrices M2 M4 s in
        let '(T, s) := _addMatrices M1 M3 s in
        let '(T, s) := _subtractMatrices T M2 s in
        let '(C22, s) := _addMatrices T M6 s in
        let result := _combineQuadrants C11 C12 C21 C22 in
        let s := push (SCombine depth result (C11, C12, C21, C22) (stats s)) s in
        Returns (result, s)
  end.

(** What [solve()] returns. *)
Record Result := mkResult {
  result : Matrix;
  result_steps : list Step;
  result_stats : Stats
}.

(** [solve()]; the recursion is at most [this.n] deep for [n >= 1]. *)
Definition solve (matrixA matrixB : Matrix) : outcome Result :=
  let s := _resetState in
  let s := push (SInit matrixA matrixB (stats s)) s in
  '(res, s) ← _strassen (length matrixA) matrixA matrixB 0 s;
  let s := push (SComplete matrixA matrixB res (stats s)) s in
  Returns (mkResult res (steps s) (stats s)).

(** [naiveMultiply(A, B)] *)
Definition naiveMultiply (A B : Matrix) : Matrix :=
  let n := length A in
  let result := zero_table n n in
  for_up 0 n (λ i,
    for_up 0 n (λ j,
      for_up 0 n (λ k result,
        set_cell result i j
          (js_add (cell result i j) (js_mul (cell A i k) (cell B k j)))))) result.

(** *** Reference functions used to state the properties *)

(** An [n] by [n] matrix. *)
Definition square (n : nat) (M : Matrix) : Prop := dims n n M.

(** State of a loop nest that fills an [n] by [n] table with [f], seen
    through the projection [tbl], when row [i] has its first [k] entries. *)
Definition fill_inv {St : Type} (tbl : St → Matrix) (n : nat) (f : nat → nat → Z)
    (i k : nat) (s : St) : Prop :=
  dims n n (tbl s) ∧
  (∀ i' j', before (i', j') (i, k) → (j' < n)%nat → cell (tbl s) i' j' = f i' j') ∧
  (∀ i' j', ¬ before (i', j') (i, k) → cell (tbl s) i' j' = 0).

(** [R] holds the four [m] by [m] quadrants at the positions of
    [_combineQuadrants], for the index pair [(i, j)]. *)
Definition placed (m : nat) (R C11 C12 C21 C22 : Matrix) (i j : nat) : Prop :=
  cell R i j = cell C11 i j ∧
  cell R i (j + m) = cell C12 i j ∧
  cell R (i + m) j = cell C21 i j ∧
  cell R (i + m) (j + m) = cell C22 i j.

(** The exact sum [f 0 + f 1 + ... + f (n-1)], taken from the left like
    the innermost loop of [naiveMultiply]. *)
Definition sum_to (n : nat) (f : nat → Z) : Z :=
  fold_left (λ acc k, acc + f k) (seq 0 n) 0.

(** Entry [(i, j)] of the exact product of two [n] by [n] matrices. *)
Definition dot (n : nat) (A B : Matrix) (i j : nat) : Z :=
  sum_to n (λ k, cell A i k * cell B k j).

(** The binary64 number of the kernel that holds the integer [z], for
    [z] below [2^53] in magnitude, and the integer that a finite binary64
    number holds; with them [round_double] is compared to the kernel's
    binary64 arithmetic on sample operations. *)
Definition double_of_Z (z : Z) : PrimFloat.float :=
  if z <? 0 then PrimFloat.opp (PrimFloat.of_uint63 (Uint63.of_Z (- z)))
  else PrimFloat.of_uint63 (Uint63.of_Z z).

Definition Z_of_double (x : PrimFloat.float) : option Z :=
  match FloatOps.Prim2SF x with
  | SpecFloat.S754_zero _ => Some 0
  | SpecFloat.S754_finite s m e =>
      Some ((if s then -1 else 1) *
            (if e <? 0 then Z.pos m / 2 ^ (- e) else Z.pos m * 2 ^ e))
  | _ => None
  end.

(** Magnitude bounds: [x] is at most [p] in magnitude, and so is every
    entry of the [n] by [n] matrix [M]. *)
Definition within (p x : Z) : Prop := Z.abs x ≤ p.

Definition entries_within (n : nat) (p : Z) (M : Matrix) : Prop :=
  ∀ i j : nat, (i < n)%nat → (j < n)%nat → within p (cell M i j).

End Strassen.

(* ================================================================== *)
(** * Part II: properties                                              *)
(* ================================================================== *)

(** ** Loops *)

Lemma for_up_S {St : Type} lo n (body : nat → St → St) s :
  for_up lo (n + 1) body s = body (lo + n)%nat (for_up lo n body s).
Proof.
  unfold for_up. rewrite Nat.add_1_r, seq_S, fold_left_app. reflexivity.
Qed.

(** Invariant rule of the counting loop. *)
Lemma for_up_ind {St : Type} (P : nat → St → Prop) n (body : nat → St → St) s :
  P 0%nat s →
  (∀ i s, (i < n)%nat → P i s → P (i + 1)%nat (body i s)) →
  P n (for_up 0 n body s).
Proof.
  intros H0 Hstep. induction n as [|n IH].
  - exact H0.
  - replace (S n) with (n + 1)%nat by lia. rewrite for_up_S. simpl.
    apply Hstep; [lia|]. apply IH. intros i s' Hi. apply Hstep. lia.
Qed.

Lemma flat_map_ext_on {A B : Type} (f g : A → list B) (l : list A) :
  (∀ a, In a l → f a = g a) → flat_map f l = flat_map g l.
Proof.
  induction l as [|a l IH]; intros H; [done|]. simpl.
  rewrite H by (by left). rewrite IH; [done|]. intros b Hb. apply H. by right.
Qed.

Lemma for_up_ind_from {St : Type} (P : nat → St → Prop) lo n
    (body : nat → St → St) s :
  P lo s →
  (∀ i s, (lo ≤ i < lo + n)%nat → P i s → P (i + 1)%nat (body i s)) →
  P (lo + n)%nat (for_up lo n body s).
Proof.
  intros H0 Hstep. induction n as [|n IH].
  - by rewrite Nat.add_0_r.
  - replace (S n) with (n + 1)%nat by lia. rewrite for_up_S.
    replace (lo + (n + 1))%nat with (lo + n + 1)%nat by lia.
    apply Hstep; [lia|]. apply IH. intros i s' Hi. apply Hstep. lia.
Qed.

(** ** Tables *)


Lemma dims_zero_table rows cols : dims rows cols (zero_table rows cols).
Proof.
  split.
  - apply length_replicate.
  - intros i row H. apply lookup_replicate in H as [-> _]. apply length_replicate.
Qed.

Lemma dims_set_cell rows cols t i j v :
  dims rows cols t → dims rows cols (set_cell t i j v).
Proof.
  intros [Hl Hr]. unfold set_cell. destruct (t !! i) as [row|] eqn:E; [|by split].
  split.
  - by rewrite length_insert.
  - intros k row' Hk. destruct (decide (k = i)) as [->|Hne].
    + rewrite list_lookup_insert_eq in Hk by (by eapply lookup_lt_Some).
      inversion Hk; subst. rewrite length_insert. eauto.
    + rewrite list_lookup_insert_ne in Hk by done. eauto.
Qed.

Lemma cell_set_cell_eq rows cols t i j v :
  dims rows cols t → (i < rows)%nat → (j < cols)%nat →
  cell (set_cell t i j v) i j = v.
Proof.
  intros [Hl Hr] Hi Hj. unfold set_cell, cell.
  destruct (t !! i) as [row|] eqn:E.
  - rewrite list_lookup_insert_eq by lia. simpl.
    rewrite list_lookup_insert_eq by (erewrite Hr by eauto; lia). done.
  - apply lookup_ge_None in E. lia.
Qed.

Lemma cell_set_cell_ne t i j v i' j' :
  (i', j') ≠ (i, j) → cell (set_cell t i j v) i' j' = cell t i' j'.
Proof.
  intros Hne. unfold set_cell, cell.
  destruct (t !! i) as [row|] eqn:E; [|done].
  destruct (decide (i' = i)) as [->|Hi].
  - rewrite list_lookup_insert_eq by (by eapply lookup_lt_Some).
    rewrite E. simpl. rewrite list_lookup_insert_ne by congruence. done.
  - rewrite list_lookup_insert_ne by done. done.
Qed.


Lemma cells_before_next_row cols i :
  cells_before cols i (cols + 1) = cells_before cols (i + 1) 0.
Proof.
  unfold cells_before. replace (i + 1)%nat with (S i) by lia.
  rewrite seq_S, flat_map_app. simpl. by rewrite !app_nil_r.
Qed.

Lemma cells_before_all rows cols :
  cells_before cols (rows + 1) 0 = all_cells rows cols.
Proof. unfold cells_before, all_cells. simpl. by rewrite app_nil_r. Qed.

Lemma cells_before_snoc cols i k :
  cells_before cols i (k + 1) = cells_before cols i k ++ [(i, k)].
Proof.
  unfold cells_before. replace (k + 1)%nat with (S k) by lia.
  rewrite seq_S, map_app. simpl. by rewrite app_assoc.
Qed.

Lemma elem_of_cells_before cols i k p :
  (k ≤ cols + 1)%nat → p ∈ cells_before cols i k → before p (i, k) ∧ (p.2 ≤ cols)%nat.
Proof.
  intros Hk. unfold cells_before, before. rewrite elem_of_app.
  intros [H|H].
  - apply list_elem_of_In, in_flat_map in H as (i' & Hi' & H).
    apply in_map_iff in H as (j & <- & Hj). apply in_seq in Hi', Hj. simpl. lia.
  - apply list_elem_of_In, in_map_iff in H as (j & <- & Hj).
    apply in_seq in Hj. simpl. lia.
Qed.

(** ** The table-filling loop shared by the knapsack and LCS solvers *)

Section TableLoop.
Variables rows cols : nat.
  (** The cell handler of the loop body. *)
Variable handle : nat → nat → State → State.
  (** The value the handler commits and the steps it emits, as functions
      of the table. *)
Variable cell_value : list (list Z) → nat → nat → Z.
Variable cell_steps : list (list Z) → nat * nat → list Step.

Hypothesis handle_dp : ∀ i j s,
    dims (rows + 1) (cols + 1) (dp s) → (i ≤ rows)%nat → (j ≤ cols)%nat →
    dp (handle i j s) = set_cell (dp s) i j (cell_value (dp s) i j).
Hypothesis handle_steps : ∀ i j s,
    dims (rows + 1) (cols + 1) (dp s) → (i ≤ rows)%nat → (j ≤ cols)%nat →
    steps (handle i j s) = steps s ++ cell_steps (dp (handle i j s)) (i, j).
  (** Both only read the cell itself and cells before it. *)
Hypothesis cell_value_before : ∀ t t' i j,
    (∀ i' j', before (i', j') (i, j) → cell t i' j' = cell t' i' j') →
    cell_value t i j = cell_value t' i j.
Hypothesis cell_steps_before : ∀ t t' i j,
    (∀ i' j', before (i', j') (i, j) ∨ (i', j') = (i, j) → cell t i' j' = cell t' i' j') →
    cell_steps t (i, j) = cell_steps t' (i, j).

Local Abbreviation loop := (table_loop rows cols handle).
Local Abbreviation Inv := (table_inv rows cols cell_value cell_steps).

Lemma Inv_step i k s :
    (i ≤ rows)%nat → (k ≤ cols)%nat → Inv i k s → Inv i (k + 1) (handle i k s).
Proof.
    intros Hi Hk (Hd & Hv & Hs).
    assert (Hsame : ∀ i' j', (i', j') ≠ (i, k) →
              cell (dp (handle i k s)) i' j' = cell (dp s) i' j').
    { intros. rewrite handle_dp by done. by apply cell_set_cell_ne. }
    assert (Hnew : cell (dp (handle i k s)) i k = cell_value (dp s) i k).
    { rewrite handle_dp by done. eapply cell_set_cell_eq; eauto; lia. }
    assert (Hcv : ∀ i' j', before (i', j') (i, k) ∨ (i', j') = (i, k) →
              cell_value (dp (handle i k s)) i' j' = cell_value (dp s) i' j').
    { intros i' j' Hb. apply cell_value_before. intros i'' j'' Hb'.
      apply Hsame. unfold before in *; simpl in *. intros [= -> ->].
      destruct Hb as [Hb|[= -> ->]]; lia. }
    split; [|split].
    - rewrite handle_dp by done. by apply dims_set_cell.
    - intros i' j' Hb Hj'.
      destruct (decide ((i', j') = (i, k))) as [[= -> ->]|Hne].
      + rewrite Hnew, Hcv; auto.
      + assert (before (i', j') (i, k)) by (unfold before in *; simpl in *;
          destruct (decide (i' = i)); [|lia]; subst;
          assert (j' ≠ k) by congruence; lia).
        rewrite Hsame, Hcv by auto. auto.
    - rewrite handle_steps, Hs, cells_before_snoc, flat_map_app by done.
      simpl. rewrite app_nil_r. f_equal.
      apply flat_map_ext_on. intros [i' j'] Hin.
      apply list_elem_of_In, elem_of_cells_before in Hin as [Hb _]; [|lia].
      symmetry. apply cell_steps_before. intros i'' j'' Hb'.
      apply Hsame. unfold before in *; simpl in *. intros [= -> ->].
      destruct Hb' as [Hb'|[= -> ->]]; lia.
Qed.

Lemma loop_Inv s :
    dims (rows + 1) (cols + 1) (dp s) → steps s = [] →
    Inv (rows + 1) 0 (loop s).
Proof.
    intros Hd Hs. unfold loop.
    apply (for_up_ind (λ i s, Inv i 0 s)).
    - split; [done|]. split; [|done].
      intros i' j' Hb. unfold before in Hb. simpl in Hb. lia.
    - intros i s' Hi HI. unfold Inv. rewrite <- cells_before_next_row.
      assert (HI' : Inv i (cols + 1) (for_up 0 (cols + 1) (λ j s, handle i j s) s')).
      { apply (for_up_ind (λ k s, Inv i k s)); [done|].
        intros k s'' Hk. apply Inv_step; lia. }
      destruct HI' as (Hd' & Hv' & Hs'). split; [done|]. split; [|done].
      intros i' j' Hb Hj'. apply Hv'; [|done].
      unfold before in *. simpl in *. lia.
Qed.

  (** What the loop leaves: every cell holds the handler's value for the
      final table, and the trace is the handler's steps of every cell in
      row-major order. *)
Lemma loop_final s :
    dims (rows + 1) (cols + 1) (dp s) → steps s = [] →
    dims (rows + 1) (cols + 1) (dp (loop s)) ∧
    (∀ i j, (i ≤ rows)%nat → (j ≤ cols)%nat →
       cell (dp (loop s)) i j = cell_value (dp (loop s)) i j) ∧
    steps (loop s) = flat_map (cell_steps (dp (loop s))) (all_cells rows cols).
Proof.
    intros Hd Hs. destruct (loop_Inv s Hd Hs) as (Hd' & Hv' & Hs').
    split; [done|]. split.
    - intros i j Hi Hj. apply Hv'; [|done]. unfold before. simpl. lia.
    - by rewrite Hs', cells_before_all.
Qed.
End TableLoop.

(** ** Knapsack solver *)

Section KnapsackFacts.
Variable capacity : nat.
Variable weights : list nat.
Variable values : list Z.

Local Abbreviation n := (Knapsack.itemCount weights).
Local Abbreviation handle := (Knapsack.handle weights values).
Local Abbreviation recurrence := (Knapsack.recurrence weights values).
Local Abbreviation steps_of_cell := (Knapsack.steps_of_cell weights values).

Lemma knapsack_handle_dp i w s :
    dp (handle i w s) = set_cell (dp s) i w (recurrence (dp s) i w).
Proof.
    unfold Knapsack.handle, Knapsack.recurrence, Knapsack._handleBaseCell,
      Knapsack._handleDecisionCell, Knapsack._recordExclude.
    destruct ((i =? 0)%nat || (w =? 0)%nat); [done|].
    destruct (w <? Knapsack.weight_at weights (i - 1))%nat; done.
Qed.

Lemma knapsack_handle_steps i w s :
    dims (n + 1) (capacity + 1) (dp s) → (i ≤ n)%nat → (w ≤ capacity)%nat →
    steps (handle i w s) = steps s ++ steps_of_cell (dp (handle i w s)) (i, w).
Proof.
    intros Hd Hi Hw. rewrite knapsack_handle_dp.
    unfold Knapsack.handle, Knapsack.steps_of_cell, Knapsack._handleBaseCell,
      Knapsack._handleDecisionCell, Knapsack._recordExclude,
      Knapsack._recordInspect, Knapsack._recordUpdate, Knapsack.recurrence,
      Knapsack.include_of, Knapsack.exclude_of.
    destruct ((i =? 0)%nat || (w =? 0)%nat) eqn:Eb; [done|].
    apply orb_false_iff in Eb as [Ei Ew].
    apply Nat.eqb_neq in Ei, Ew.
    assert (Hup : ∀ v x, cell (set_cell (dp s) i w v) (i - 1) x = cell (dp s) (i - 1) x).
    { intros. apply cell_set_cell_ne. intros [= ? ?]. lia. }
    destruct (w <? Knapsack.weight_at weights (i - 1))%nat; simpl;
      rewrite <- app_assoc; simpl; rewrite ?Hup; done.
Qed.

Lemma knapsack_recurrence_before t t' i w :
    (∀ i' w', before (i', w') (i, w) → cell t i' w' = cell t' i' w') →
    recurrence t i w = recurrence t' i w.
Proof.
    intros H. unfold Knapsack.recurrence, Knapsack.include_of, Knapsack.exclude_of.
    destruct ((i =? 0)%nat || (w =? 0)%nat) eqn:Eb; [done|].
    apply orb_false_iff in Eb as [Ei Ew]. apply Nat.eqb_neq in Ei, Ew.
    rewrite !(H (i - 1)%nat) by (left; simpl; lia). done.
Qed.

Lemma knapsack_steps_before t t' i w :
    (∀ i' w', before (i', w') (i, w) ∨ (i', w') = (i, w) →
       cell t i' w' = cell t' i' w') →
    steps_of_cell t (i, w) = steps_of_cell t' (i, w).
Proof.
    intros H. unfold Knapsack.steps_of_cell, Knapsack.include_of, Knapsack.exclude_of.
    destruct ((i =? 0)%nat || (w =? 0)%nat) eqn:Eb; [done|].
    apply orb_false_iff in Eb as [Ei Ew]. apply Nat.eqb_neq in Ei, Ew.
    rewrite !(H (i - 1)%nat) by (left; left; simpl; lia).
    rewrite (H i w) by (by right). done.
Qed.

  (** The solved table obeys the recurrence everywhere and the trace is
      the per-cell steps in row-major order. *)
Lemma knapsack_solve_final :
    let s := Knapsack.solve capacity weights values in
    dims (n + 1) (capacity + 1) (dp s) ∧
    (∀ i w, (i ≤ n)%nat → (w ≤ capacity)%nat →
       cell (dp s) i w = recurrence (dp s) i w) ∧
    steps s = flat_map (steps_of_cell (dp s)) (all_cells n capacity).
Proof.
    apply (loop_final n capacity handle recurrence steps_of_cell).
    - intros. apply knapsack_handle_dp.
    - apply knapsack_handle_steps.
    - apply knapsack_recurrence_before.
    - apply knapsack_steps_before.
    - apply dims_zero_table.
    - done.
Qed.
End KnapsackFacts.

(** ** LCS solver *)

Section LCSFacts.
Variable str1 str2 : string.

Local Abbreviation m := (LCS.rows str1).
Local Abbreviation n := (LCS.cols str2).
Local Abbreviation handle := (LCS.handle str1 str2).
Local Abbreviation recurrence := (LCS.recurrence str1 str2).
Local Abbreviation steps_of_cell := (LCS.steps_of_cell str1 str2).

Lemma lcs_handle_dp i j s :
  dp (handle i j s) = set_cell (dp s) i j (recurrence (dp s) i j).
Proof.
  unfold LCS.handle, LCS.recurrence, LCS._handleBaseCell, LCS.chars_match,
    LCS._handleDecisionCell, LCS._recordMatch, LCS._recordMismatch,
    LCS._recordMismatchResult.
  destruct ((i =? 0)%nat || (j =? 0)%nat); [done|].
  destruct (bool_decide _); done.
Qed.

Lemma lcs_handle_steps i j s :
  dims (m + 1) (n + 1) (dp s) → (i ≤ m)%nat → (j ≤ n)%nat →
  steps (handle i j s) = steps s ++ steps_of_cell (dp (handle i j s)) (i, j).
Proof.
  intros Hd Hi Hj. rewrite lcs_handle_dp.
  unfold LCS.handle, LCS.steps_of_cell, LCS._handleBaseCell,
    LCS._handleDecisionCell, LCS._recordMatch, LCS._recordMismatch,
    LCS._recordMismatchResult, LCS.recurrence, LCS.chars_match.
  destruct ((i =? 0)%nat || (j =? 0)%nat) eqn:Eb; [done|].
  apply orb_false_iff in Eb as [Ei Ej].
  apply Nat.eqb_neq in Ei, Ej.
  assert (Hup : ∀ v x, cell (set_cell (dp s) i j v) (i - 1) x = cell (dp s) (i - 1) x).
  { intros. apply cell_set_cell_ne. intros [= ? ?]. lia. }
  assert (Hleft : ∀ v, cell (set_cell (dp s) i j v) i (j - 1) = cell (dp s) i (j - 1)).
  { intros. apply cell_set_cell_ne. intros [= ?]. lia. }
  destruct (bool_decide _); simpl;
    rewrite <- app_assoc; simpl; rewrite ?Hup, ?Hleft; done.
Qed.

Lemma lcs_recurrence_before t t' i j :
  (∀ i' j', before (i', j') (i, j) → cell t i' j' = cell t' i' j') →
  recurrence t i j = recurrence t' i j.
Proof.
  intros H. unfold LCS.recurrence.
  destruct ((i =? 0)%nat || (j =? 0)%nat) eqn:Eb; [done|].
  apply orb_false_iff in Eb as [Ei Ej]. apply Nat.eqb_neq in Ei, Ej.
  rewrite !(H (i - 1)%nat) by (left; simpl; lia).
  rewrite (H i (j - 1)%nat) by (right; simpl; lia). done.
Qed.

Lemma lcs_steps_before t t' i j :
  (∀ i' j', before (i', j') (i, j) ∨ (i', j') = (i, j) →
     cell t i' j' = cell t' i' j') →
  steps_of_cell t (i, j) = steps_of_cell t' (i, j).
Proof.
  intros H. unfold LCS.steps_of_cell.
  destruct ((i =? 0)%nat || (j =? 0)%nat) eqn:Eb; [done|].
  apply orb_false_iff in Eb as [Ei Ej]. apply Nat.eqb_neq in Ei, Ej.
  rewrite !(H (i - 1)%nat) by (left; left; simpl; lia).
  rewrite (H i (j - 1)%nat) by (left; right; simpl; lia).
  rewrite (H i j) by (by right). done.
Qed.

(** The solved table obeys the recurrence everywhere and the trace is
    the per-cell steps in row-major order. *)
Lemma lcs_solve_final :
  let s := LCS.solve str1 str2 in
  dims (m + 1) (n + 1) (dp s) ∧
  (∀ i j, (i ≤ m)%nat → (j ≤ n)%nat →
     cell (dp s) i j = recurrence (dp s) i j) ∧
  steps s = flat_map (steps_of_cell (dp s)) (all_cells m n).
Proof.
  apply (loop_final m n handle recurrence steps_of_cell).
  - intros. apply lcs_handle_dp.
  - apply lcs_handle_steps.
  - apply lcs_recurrence_before.
  - apply lcs_steps_before.
  - apply dims_zero_table.
  - done.
Qed.
End LCSFacts.

(** ** Shape of the traces *)

Lemma in_all_cells rows cols i j :
  In (i, j) (all_cells rows cols) ↔ (i ≤ rows)%nat ∧ (j ≤ cols)%nat.
Proof.
  unfold all_cells. rewrite in_flat_map. split.
  - intros (i' & Hi' & H). apply in_map_iff in H as (j' & [= <- <-] & Hj').
    apply in_seq in Hi', Hj'. lia.
  - intros [Hi Hj]. exists i. split; [apply in_seq; lia|].
    apply in_map_iff. exists j. split; [done|]. apply in_seq; lia.
Qed.

Lemma length_all_cells rows cols :
  length (all_cells rows cols) = ((rows + 1) * (cols + 1))%nat.
Proof.
  unfold all_cells. rewrite (flat_map_constant_length (c := (cols + 1)%nat)).
  - by rewrite length_seq.
  - intros i _. by rewrite length_map, length_seq.
Qed.

Lemma base_cells_of_row cols i :
  length (List.filter is_base (map (pair i) (seq 0 (cols + 1))))
  = if (i =? 0)%nat then (cols + 1)%nat else 1%nat.
Proof.
  replace (cols + 1)%nat with (S cols) by lia. simpl seq. simpl map.
  assert (Hrest : ∀ lo, length (List.filter is_base (map (pair i) (seq (S lo) cols)))
                        = if (i =? 0)%nat then cols else 0%nat).
  { induction cols as [|k IH]; intros lo; simpl.
    - by destruct (i =? 0)%nat.
    - unfold is_base at 1. simpl.
      destruct (i =? 0)%nat eqn:E; simpl; rewrite IH; by rewrite ?E. }
  unfold is_base at 1. simpl. rewrite orb_true_r. simpl.
  rewrite Hrest. destruct (i =? 0)%nat; lia.
Qed.

Lemma base_cells_count rows cols :
  length (List.filter is_base (all_cells rows cols)) = (rows + cols + 1)%nat.
Proof.
  unfold all_cells.
  assert (H : ∀ k, length (List.filter is_base
                (flat_map (λ i, map (pair i) (seq 0 (cols + 1))) (seq 0 (S k))))
              = (k + cols + 1)%nat).
  { induction k as [|k IH].
    - simpl flat_map. rewrite app_nil_r, base_cells_of_row. done.
    - rewrite seq_S, flat_map_app, List.filter_app, length_app, IH. simpl flat_map.
      rewrite app_nil_r, base_cells_of_row. simpl. lia. }
  replace (rows + 1)%nat with (S rows) by lia. apply H.
Qed.

Lemma length_cell_shapes (l : list (nat * nat)) :
  (length (flat_map cell_shape l) + length (List.filter is_base l) = 2 * length l)%nat.
Proof.
  induction l as [|p l IH]; [done|]. simpl flat_map.
  rewrite length_app. simpl List.filter. unfold cell_shape at 1.
  destruct (is_base p); simpl; lia.
Qed.

Lemma map_flat_map {A B C : Type} (g : B → C) (f : A → list B) (l : list A) :
  map g (flat_map f l) = flat_map (λ a, map g (f a)) l.
Proof.
  induction l as [|a l IH]; [done|]. simpl. by rewrite map_app, IH.
Qed.

Lemma knapsack_cell_shape weights values t p :
  map shape_of (Knapsack.steps_of_cell weights values t p) = cell_shape p.
Proof.
  destruct p as [i w]. unfold Knapsack.steps_of_cell, cell_shape, is_base. simpl.
  destruct ((i =? 0)%nat || (w =? 0)%nat); [done|].
  destruct (w <? _)%nat; done.
Qed.

Lemma lcs_cell_shape str1 str2 t p :
  map shape_of (LCS.steps_of_cell str1 str2 t p) = cell_shape p.
Proof.
  destruct p as [i j]. unfold LCS.steps_of_cell, cell_shape, is_base. simpl.
  destruct ((i =? 0)%nat || (j =? 0)%nat); [done|].
  destruct (LCS.chars_match _ _ _ _); done.
Qed.

(** A trace made of per-cell steps whose shape is [cell_shape]. *)
Lemma trace_shape (f : nat * nat → list Step) (sts : list Step) rows cols :
  (∀ p, map shape_of (f p) = cell_shape p) →
  sts = flat_map f (all_cells rows cols) →
  map shape_of sts = flat_map cell_shape (all_cells rows cols) ∧
  length sts = (2 * ((rows + 1) * (cols + 1)) - (rows + cols + 1))%nat.
Proof.
  intros Hf ->. rewrite map_flat_map.
  rewrite (flat_map_ext _ _ Hf). split; [done|].
  rewrite <- (length_map shape_of), map_flat_map, (flat_map_ext _ _ Hf).
  pose proof (length_cell_shapes (all_cells rows cols)) as H.
  rewrite base_cells_count, length_all_cells in H. lia.
Qed.

(** The committed step of a decision cell inside such a trace. *)
Lemma trace_update_step (f : nat * nat → list Step) (sts : list Step)
    rows cols i j a b :
  (∀ p, map shape_of (f p) = cell_shape p) →
  sts = flat_map f (all_cells rows cols) →
  (i ≤ rows)%nat → (j ≤ cols)%nat →
  f (i, j) = [a; b] → is_base (i, j) = false →
  update_step_of sts (i, j) b.
Proof.
  intros Hf -> Hi Hj Hab Hb.
  pose proof (Hf (i, j)) as Hsh. rewrite Hab in Hsh.
  unfold cell_shape in Hsh. rewrite Hb in Hsh. cbn [map fst snd] in Hsh.
  assert (Ha : shape_of a = (i, j, inspect)) by congruence.
  assert (Hb' : shape_of b = (i, j, update)) by congruence.
  split; [|split].
  - apply in_flat_map. exists (i, j). split; [by apply in_all_cells|].
    rewrite Hab. simpl. auto.
  - done.
  - intros st' Hin Hst'. apply in_flat_map in Hin as (q & _ & Hq).
    assert (Hs : In (shape_of st') (cell_shape q)).
    { rewrite <- Hf. by apply in_map. }
    assert (q = (i, j)) as ->.
    { destruct q as [qi qj]. unfold cell_shape in Hs. simpl in Hst'.
      rewrite Hst' in Hs. destruct (is_base (qi, qj)); simpl in Hs;
        intuition congruence. }
    rewrite Hab in Hq. simpl in Hq. destruct Hq as [<-|[<-|[]]]; [|done].
    rewrite Ha in Hst'. discriminate.
Qed.

(** ** Claims on the table solvers *)

(** C1. For a capacity and weight/value arrays of equal length [n],
    [KnapsackSolver.solve()] returns an [(n+1) x (capacity+1)] table with
    [dp[i][0] = dp[0][w] = 0], and for [i, w >= 1]:
    [dp[i][w] = max(values[i-1] + dp[i-1][w - weights[i-1]], dp[i-1][w])]
    when [weights[i-1] <= w], else [dp[i][w] = dp[i-1][w]]. For
    weights [2,3,4,5], values [3,4,5,6] and capacity 5, [dp[4][5] = 7]. *)
Theorem knapsack_table_recurrence :
  (∀ (capacity : nat) (weights : list nat) (values : list Z),
     length weights = length values →
     let t := dp (Knapsack.solve capacity weights values) in
     let n := length weights in
     dims (n + 1) (capacity + 1) t ∧
     (∀ i, (i ≤ n)%nat → cell t i 0 = 0) ∧
     (∀ w, (w ≤ capacity)%nat → cell t 0 w = 0) ∧
     (∀ i w, (1 ≤ i ≤ n)%nat → (1 ≤ w ≤ capacity)%nat →
        ∃ wt v, weights !! (i - 1)%nat = Some wt ∧
                values !! (i - 1)%nat = Some v ∧
          cell t i w =
            if bool_decide (wt ≤ w)%nat
            then Z.max (v + cell t (i - 1) (w - wt)) (cell t (i - 1) w)
            else cell t (i - 1) w))
  ∧ cell (dp (Knapsack.solve 5 [2; 3; 4; 5]%nat [3; 4; 5; 6])) 4 5 = 7.
Proof.
  split; [|by vm_compute].
  intros capacity weights values Hlen t n.
  destruct (knapsack_solve_final capacity weights values) as (Hd & Hrec & _).
  fold t in Hd, Hrec. unfold Knapsack.itemCount in Hd, Hrec. subst n.
  split; [exact Hd|]. split; [|split].
  - intros i Hi. rewrite Hrec by lia.
    unfold Knapsack.recurrence. by rewrite orb_true_r.
  - intros w Hw. rewrite Hrec by lia. done.
  - intros i w Hi Hw.
    destruct (lookup_lt_is_Some_2 weights (i - 1)) as [wt Hwt]; [lia|].
    destruct (lookup_lt_is_Some_2 values (i - 1)) as [v Hv]; [lia|].
    exists wt, v. split; [done|]. split; [done|].
    rewrite Hrec by lia.
    unfold Knapsack.recurrence, Knapsack.include_of, Knapsack.exclude_of,
      Knapsack.weight_at, Knapsack.value_at. rewrite Hwt, Hv. simpl.
    replace ((i =? 0)%nat || (w =? 0)%nat) with false
      by (symmetry; apply orb_false_iff; split; apply Nat.eqb_neq; lia).
    destruct (Nat.ltb_spec w wt).
    + rewrite bool_decide_eq_false_2 by lia. done.
    + rewrite bool_decide_eq_true_2 by lia. done.
Qed.

Lemma knapsack_table_recurrence_witness :
  let t := dp (Knapsack.solve 3 [2; 3]%nat [3; 4]) in
  ∃ wt v, [2; 3]%nat !! 1%nat = Some wt ∧ [3; 4] !! 1%nat = Some v ∧
    cell t 2 3 =
      if bool_decide (wt ≤ 3)%nat
      then Z.max (v + cell t 1 (3 - wt)) (cell t 1 3)
      else cell t 1 3.
Proof.
  destruct (proj1 knapsack_table_recurrence 3%nat [2; 3]%nat [3; 4] eq_refl)
    as (_ & _ & _ & H).
  apply (H 2%nat 3%nat); simpl; lia.
Defined.

(** C2. The trace returned by [KnapsackSolver.solve()] visits the
    [(itemCount+1)*(capacity+1)] cells in row-major order; a base cell
    (row 0 or column 0) contributes one [update] step and any other cell an
    [inspect] step followed by an [update] step, so the trace has
    [2*(itemCount+1)*(capacity+1)] steps minus the number of base cells.
    The same holds for [LCSSolver.solve()] over [(m+1)*(n+1)] cells. *)
Theorem trace_visits_cells_in_row_major_order :
  (∀ (capacity : nat) (weights : list nat) (values : list Z),
     let n := length weights in
     let sts := steps (Knapsack.solve capacity weights values) in
     let cells := all_cells n capacity in
     map shape_of sts = flat_map cell_shape cells ∧
     length cells = ((n + 1) * (capacity + 1))%nat ∧
     length (List.filter is_base cells) = (n + capacity + 1)%nat ∧
     length sts = (2 * ((n + 1) * (capacity + 1))
                   - length (List.filter is_base cells))%nat)
  ∧
  (∀ (str1 str2 : string),
     let m := String.length str1 in
     let n := String.length str2 in
     let sts := steps (LCS.solve str1 str2) in
     let cells := all_cells m n in
     map shape_of sts = flat_map cell_shape cells ∧
     length cells = ((m + 1) * (n + 1))%nat ∧
     length (List.filter is_base cells) = (m + n + 1)%nat ∧
     length sts = (2 * ((m + 1) * (n + 1))
                   - length (List.filter is_base cells))%nat).
Proof.
  split.
  - intros capacity weights values n sts cells.
    destruct (knapsack_solve_final capacity weights values) as (_ & _ & Hs).
    destruct (trace_shape _ _ _ _
                (knapsack_cell_shape weights values _) Hs) as [H1 H2].
    subst cells. rewrite base_cells_count, length_all_cells. done.
  - intros str1 str2 m n sts cells.
    destruct (lcs_solve_final str1 str2) as (_ & _ & Hs).
    destruct (trace_shape _ _ _ _ (lcs_cell_shape str1 str2 _) Hs) as [H1 H2].
    subst cells. rewrite base_cells_count, length_all_cells. done.
Qed.

(** C3, as the code has it. In [LCSSolver], when [str1[i-1] != str2[j-1]]
    the committed value is [dp[i][j] = max(dp[i-1][j], dp[i][j-1])]; the
    [update] step highlights the top cell [(i-1, j)] when
    [dp[i-1][j] > dp[i][j-1]] and the left cell [(i, j-1)] otherwise, so a
    tie designates the left cell. *)
Theorem lcs_mismatch_highlight (str1 str2 : string) (i j : nat) :
  (1 ≤ i ≤ String.length str1)%nat → (1 ≤ j ≤ String.length str2)%nat →
  LCS.char_at str1 (i - 1) ≠ LCS.char_at str2 (j - 1) →
  let s := LCS.solve str1 str2 in
  let topVal := cell (dp s) (i - 1) j in
  let leftVal := cell (dp s) i (j - 1) in
  cell (dp s) i j = Z.max topVal leftVal ∧
  ∃ st, update_step_of (steps s) (i, j) st ∧
    value st = Val (cell (dp s) i j) ∧
    highlight st = Some (if topVal >? leftVal
                         then [mkCoord (i - 1) j] else [mkCoord i (j - 1)]) ∧
    (topVal = leftVal → highlight st = Some [mkCoord i (j - 1)]) ∧
    (highlight st = Some [mkCoord (i - 1) j] ↔ topVal > leftVal).
Proof.
  intros Hi Hj Hne s topVal leftVal.
  destruct (lcs_solve_final str1 str2) as (_ & Hrec & Hs).
  fold s in Hrec, Hs. unfold LCS.rows, LCS.cols in Hrec, Hs.
  assert (Hb : is_base (i, j) = false).
  { unfold is_base. simpl. apply orb_false_iff. split; apply Nat.eqb_neq; lia. }
  assert (Hm : LCS.chars_match str1 str2 i j = false).
  { unfold LCS.chars_match. by apply bool_decide_eq_false_2. }
  unfold is_base in Hb. simpl in Hb.
  split.
  - rewrite Hrec by lia. unfold LCS.recurrence. by rewrite Hb, Hm.
  - eexists. split.
    + eapply (trace_update_step _ _ _ _ i j); [apply lcs_cell_shape|exact Hs|lia|lia| |].
      * unfold LCS.steps_of_cell. rewrite Hb, Hm. reflexivity.
      * done.
    + simpl. fold topVal leftVal. split; [done|]. split; [done|]. split.
      * intros ->. by rewrite Z.gtb_ltb, Z.ltb_irrefl.
      * destruct (Z.gtb_spec topVal leftVal) as [H|H]; split; try done; try lia.
        intros [= ? ?]. lia.
Qed.

Lemma lcs_mismatch_highlight_witness :
  let s := LCS.solve "AB" "BA" in
  cell (dp s) 2 2 = Z.max (cell (dp s) 1 2) (cell (dp s) 2 1).
Proof.
  refine (proj1 (lcs_mismatch_highlight "AB" "BA" 2 2 _ _ _)).
  - simpl. lia.
  - simpl. lia.
  - simpl. discriminate.
Defined.

(** C3, as stated, fails: for ["A"] against ["B"], cell [(1, 1)] is a
    mismatch with [dp[0][1] = dp[1][0]], and its [update] step (the last of
    the five recorded) highlights the left cell [(1, 0)], not the top cell
    [(0, 1)]. *)
Lemma lcs_tie_highlights_left :
  let s := LCS.solve "A" "B" in
  LCS.char_at "A" 0 ≠ LCS.char_at "B" 0 ∧
  cell (dp s) 0 1 = cell (dp s) 1 0 ∧
  ∃ st, steps s !! 4%nat = Some st ∧ length (steps s) = 5%nat ∧
    shape_of st = (1%nat, 1%nat, update) ∧
    highlight st = Some [mkCoord 1 0] ∧
    highlight st ≠ Some [mkCoord 0 1].
Proof.
  split; [discriminate|]. split; [reflexivity|].
  eexists. split; [vm_compute; reflexivity|].
  split; [reflexivity|]. split; [reflexivity|]. split; [reflexivity|].
  discriminate.
Qed.

(** C10. In a decision cell of the knapsack solver whose item fits
    ([weights[row-1] <= col]), the committed [update] step highlights the
    include cell [(row-1, col-weight)] when the include candidate is
    strictly greater and the exclude cell [(row-1, col)] otherwise; when
    both candidates are equal it designates the exclude cell, and the
    committed value is the common candidate. *)
Theorem knapsack_tie_highlights_exclude
    (capacity : nat) (weights : list nat) (values : list Z)
    (i w wt : nat) (v : Z) :
  weights !! (i - 1)%nat = Some wt → values !! (i - 1)%nat = Some v →
  (1 ≤ i)%nat → (1 ≤ w ≤ capacity)%nat → (wt ≤ w)%nat →
  let s := Knapsack.solve capacity weights values in
  let includeVal := v + cell (dp s) (i - 1) (w - wt) in
  let excludeVal := cell (dp s) (i - 1) w in
  ∃ st, update_step_of (steps s) (i, w) st ∧
    value st = Val (cell (dp s) i w) ∧
    cell (dp s) i w = Z.max includeVal excludeVal ∧
    highlight st = Some (if includeVal >? excludeVal
                         then [mkCoord (i - 1) (w - wt)]
                         else [mkCoord (i - 1) w]) ∧
    (includeVal = excludeVal →
       highlight st = Some [mkCoord (i - 1) w] ∧ cell (dp s) i w = excludeVal) ∧
    ((0 < wt)%nat →
       (highlight st = Some [mkCoord (i - 1) (w - wt)] ↔ includeVal > excludeVal)).
Proof.
  intros Hwt Hv Hi Hw Hfit s includeVal excludeVal.
  destruct (knapsack_solve_final capacity weights values) as (_ & Hrec & Hs).
  fold s in Hrec, Hs. unfold Knapsack.itemCount in Hrec, Hs.
  assert (Hin : (i - 1 < length weights)%nat) by (by eapply lookup_lt_Some).
  assert (Hb : is_base (i, w) = false).
  { unfold is_base. simpl. apply orb_false_iff. split; apply Nat.eqb_neq; lia. }
  unfold is_base in Hb. simpl in Hb.
  assert (Hw' : Knapsack.weight_at weights (i - 1) = wt).
  { unfold Knapsack.weight_at. by rewrite Hwt. }
  assert (Hv' : Knapsack.value_at values (i - 1) = v).
  { unfold Knapsack.value_at. by rewrite Hv. }
  assert (Hlt : (w <? wt)%nat = false) by (apply Nat.ltb_ge; lia).
  assert (Hcell : cell (dp s) i w = Z.max includeVal excludeVal).
  { rewrite Hrec by lia. unfold Knapsack.recurrence, Knapsack.include_of,
      Knapsack.exclude_of. by rewrite Hb, Hw', Hv', Hlt. }
  eexists. split.
  - eapply (trace_update_step _ _ _ _ i w);
      [apply knapsack_cell_shape|exact Hs|lia|lia| |].
    + unfold Knapsack.steps_of_cell. rewrite Hb, Hw', Hlt. reflexivity.
    + done.
  - simpl. unfold Knapsack.include_of, Knapsack.exclude_of.
    rewrite Hw', Hv'. fold includeVal excludeVal.
    split; [done|]. split; [done|]. split; [done|]. split.
    + intros Heq. rewrite Hcell, Heq, Z.gtb_ltb, Z.ltb_irrefl, Z.max_id. done.
    + intros Hpos.
      destruct (Z.gtb_spec includeVal excludeVal) as [H|H]; split; try done; try lia.
      intros [= ?]. lia.
Qed.

Lemma knapsack_tie_highlights_exclude_witness :
  let s := Knapsack.solve 2 [1; 1]%nat [3; 3] in
  ∃ st, update_step_of (steps s) (2%nat, 1%nat) st ∧
    highlight st = Some [mkCoord 1 1] ∧ cell (dp s) 2 1 = 3.
Proof.
  destruct (knapsack_tie_highlights_exclude 2 [1; 1]%nat [3; 3] 2 1 1 3)
    as (st & H1 & _ & _ & _ & H5 & _); try reflexivity; try (simpl; lia).
  destruct H5 as [H5 H6]; [reflexivity|].
  exists st. split; [exact H1|]. split; [exact H5|exact H6].
Defined.

Example traceback_scenario :
  Traceback.selectedItems
    (Traceback._startKnapsackTraceback
       (dp (Knapsack.solve 5 [2; 3; 4; 5]%nat [3; 4; 5; 6]))
       [2; 3; 4; 5]%nat 5) = [1; 2]%nat.
Proof. vm_compute. reflexivity. Qed.

(** ** Knapsack traceback *)





Section TracebackFacts.
Variable capacity : nat.
Variable weights : list nat.
Variable values : list Z.

Local Abbreviation t := (dp (Knapsack.solve capacity weights values)).
Local Abbreviation walk := (Traceback._animateKnapsackTraceback t weights).
Local Abbreviation n := (length weights).

Lemma solved_cell i w :
  (i ≤ n)%nat → (w ≤ capacity)%nat →
  cell t i w = Knapsack.recurrence weights values t i w.
Proof.
  intros Hi Hw.
  destruct (knapsack_solve_final capacity weights values) as (_ & H & _).
  by apply H.
Qed.


Lemma solved_cell_base i w :
  (i ≤ n)%nat → (w ≤ capacity)%nat → i = 0%nat ∨ w = 0%nat → cell t i w = 0.
Proof.
  intros Hi Hw Hb. rewrite solved_cell by lia. unfold Knapsack.recurrence.
  destruct Hb as [-> | ->]; by rewrite ?orb_true_r.
Qed.

End TracebackFacts.

Section MonkTraceback.
Variable dpTable : list (list Z).
Variable weights : list nat.

Local Abbreviation walk := (Traceback._animateKnapsackTraceback dpTable weights).
Local Abbreviation outcome := (Traceback.outcome dpTable weights).












End MonkTraceback.



(** ** Heap solver *)

Example heap_scenario :
  Heap.heap (Heap.buildMaxHeap (Heap.new [4; 1; 3; 2; 16; 9; 10; 14; 8; 7]))
  = [16; 14; 10; 8; 7; 9; 3; 2; 4; 1].
Proof. vm_compute. reflexivity. Qed.

Lemma for_down_S {St : Type} n (body : nat → St → St) s :
  for_down (S n) body s = for_down n body (body n s).
Proof. unfold for_down. rewrite seq_S, rev_app_distr. reflexivity. Qed.

(** Invariant rule of the descending loop. *)
Lemma for_down_ind {St : Type} (P : nat → St → Prop) n (body : nat → St → St) s :
  P n s →
  (∀ i s, (i < n)%nat → P (S i) s → P i (body i s)) →
  P 0%nat (for_down n body s).
Proof.
  revert s. induction n as [|n IH]; intros s Hn Hstep; [exact Hn|].
  rewrite for_down_S. apply IH.
  - apply Hstep; [lia|done].
  - intros i s' Hi. apply Hstep. lia.
Qed.

Lemma swap_at_lookup (a : list Z) (c l : nat) (x v : Z) (j : nat) :
  a !! c = Some x → a !! l = Some v →
  Heap.swap_at a c l !! j =
    if decide (j = l) then Some x else if decide (j = c) then Some v else a !! j.
Proof.
  intros Hc Hl. unfold Heap.swap_at. rewrite Hc, Hl.
  pose proof (lookup_lt_Some _ _ _ Hc). pose proof (lookup_lt_Some _ _ _ Hl).
  destruct (decide (j = l)) as [->|Hjl].
  - rewrite list_lookup_insert_eq by (by rewrite length_insert). done.
  - rewrite list_lookup_insert_ne by done.
    destruct (decide (j = c)) as [->|Hjc].
    + by rewrite list_lookup_insert_eq.
    + by rewrite list_lookup_insert_ne.
Qed.

Lemma swap_at_perm (a : list Z) (c l : nat) : Heap.swap_at a c l ≡ₚ a.
Proof.
  unfold Heap.swap_at.
  destruct (a !! c) as [x|] eqn:Hc; [|done].
  destruct (a !! l) as [v|] eqn:Hl; [|done].
  by apply Permutation_insert_swap.
Qed.

Lemma swap_at_length (a : list Z) (c l : nat) :
  length (Heap.swap_at a c l) = length a.
Proof. apply Permutation_length, swap_at_perm. Qed.

(** Swapping node [c] with its larger child [l] moves the only possible
    violation of the heap property from [c] to [l]. *)
Lemma swap_moves_violation (a : list Z) (k c l : nat) (x v : Z) :
  a !! c = Some x → a !! l = Some v → x ≤ v →
  (l = 2 * c + 1 ∨ l = 2 * c + 2)%nat →
  Heap.children_le a c v →
  (k ≤ c)%nat → Heap.heap_except k c a → Heap.parent_bound k c a →
  Heap.heap_except k l (Heap.swap_at a c l) ∧
  Heap.parent_bound k l (Heap.swap_at a c l).
Proof.
  intros Hc Hl Hxv Hchild [Hle1 Hle2] Hk Hex Hpb.
  assert (Hlook := λ j, swap_at_lookup a c l x v j Hc Hl).
  split.
  - intros j Hj Hjl xj Hxj. rewrite Hlook in Hxj.
    destruct (decide (j = l)); [done|].
    destruct (decide (j = c)) as [->|Hjc].
    + injection Hxj as <-. split; intros y Hy; rewrite Hlook in Hy;
        repeat (destruct (decide _) as [?|?] in Hy; try lia).
      all: try (injection Hy as <-; lia).
      all: eauto.
    + destruct (Hex j Hj Hjc xj Hxj) as [H1 H2].
      split; intros y Hy; rewrite Hlook in Hy;
        repeat (destruct (decide _) as [?|?] in Hy; try lia).
      all: try (injection Hy as <-).
      all: try (destruct (Hpb j xj) as [Hp1 Hp2]; [lia|lia|done|];
                destruct Hchild; subst; eauto; fail).
      all: eauto.
  - intros p px Hp Hpl Hpx. rewrite Hlook in Hpx.
    assert (p = c) as -> by lia.
    destruct (decide (c = l)); [lia|]. destruct (decide (c = c)); [|done].
    injection Hpx as <-.
    assert (Hnl : Heap.node_ok a l) by (apply Hex; lia).
    destruct (Hnl v Hl) as [H1 H2].
    split; intros y Hy; rewrite Hlook in Hy;
      repeat (destruct (decide _) as [?|?] in Hy; try lia); eauto.
Qed.

Lemma js_gt_true (o1 o2 : option Z) :
  Heap.js_gt o1 o2 = true ↔ ∃ y v, o1 = Some y ∧ o2 = Some v ∧ v < y.
Proof.
  destruct o1 as [y|], o2 as [v|]; simpl; split;
    try (intros (? & ? & ? & ? & ?)); try done.
  - intros H. exists y, v. repeat split; lia.
  - simplify_eq. lia.
Qed.

Lemma js_gt_false (o : option Z) (v y : Z) :
  Heap.js_gt o (Some v) = false → o = Some y → y ≤ v.
Proof. intros H ->. simpl in H. lia. Qed.

(** [_pickLargestChild] returns the index of a largest value among node
    [i] and its children, and leaves the array alone. *)
Lemma pickLargestChild_spec (i l1 l2 d : nat) (s : Heap.State) (x : Z) :
  Heap.array s !! i = Some x →
  ∃ l s' v,
    Heap._pickLargestChild i l1 l2 (length (Heap.array s)) i d s = (l, s') ∧
    Heap.array s' = Heap.array s ∧
    Heap.originalArray s' = Heap.originalArray s ∧
    Heap.array s !! l = Some v ∧ x ≤ v ∧
    (l = i ∨ (x < v ∧ (l = l1 ∨ l = l2))) ∧
    (∀ y : Z, Heap.array s !! l1 = Some y → y ≤ v) ∧
    (∀ y : Z, Heap.array s !! l2 = Some y → y ≤ v).
Proof.
  intros Hx. unfold Heap._pickLargestChild.
  set (a := Heap.array s) in *.
  assert (Hb : ∀ j o, ((j <? length a)%nat && Heap.js_gt (a !! j) o)
                      = Heap.js_gt (a !! j) o).
  { intros j o. destruct (a !! j) eqn:E; [|by rewrite andb_false_r].
    apply lookup_lt_Some in E. apply Nat.ltb_lt in E. by rewrite E. }
  rewrite Hb.
  destruct (Heap.js_gt (a !! l1) (a !! i)) eqn:G1;
    cbn -[Heap.js_gt lookup Nat.ltb]; fold a; rewrite Hb;
    destruct (Heap.js_gt (a !! l2) _) eqn:G2.
  - apply js_gt_true in G1 as (y1 & x' & E1 & ? & ?).
    apply js_gt_true in G2 as (y2 & y1' & E2 & ? & ?). simplify_eq.
    exists l2, (Heap._recordCompare "Right" i l2 d
                  (Heap._recordCompare "Left" i l1 d s)), y2.
    repeat split; try done; try lia; intros; simplify_eq; lia.
  - apply js_gt_true in G1 as (y1 & x' & E1 & ? & ?). simplify_eq.
    rewrite E1 in G2.
    exists l1, (Heap._recordCompare "Left" i l1 d s), y1.
    repeat split; try done; try lia; intros; simplify_eq; try lia.
    by eapply js_gt_false.
  - apply js_gt_true in G2 as (y2 & x' & E2 & ? & ?). simplify_eq.
    rewrite Hx in G1.
    exists l2, (Heap._recordCompare "Right" i l2 d s), y2.
    repeat split; try done; try lia; intros; simplify_eq; try lia.
    assert (y ≤ x) by (by eapply js_gt_false). lia.
  - rewrite Hx in G1, G2. exists i, s, x.
    repeat split; try done; try lia; try (by left); intros y Hy.
    + exact (js_gt_false _ _ _ G1 Hy).
    + exact (js_gt_false _ _ _ G2 Hy).
Qed.

(** Sift-down from node [c] restores the heap property from [k] on when
    [c] is the only node that may violate it. *)
Lemma heapify_sift (fuel : nat) : ∀ (c d : nat) (s : Heap.State) (k : nat),
  (length (Heap.array s) - c < fuel)%nat → (c < length (Heap.array s))%nat →
  (k ≤ c)%nat →
  Heap.heap_except k c (Heap.array s) → Heap.parent_bound k c (Heap.array s) →
  let s' := Heap.heapify_fuel fuel c (length (Heap.array s)) d s in
  Heap.heap_from k (Heap.array s') ∧ Heap.array s' ≡ₚ Heap.array s ∧
  Heap.originalArray s' = Heap.originalArray s.
Proof.
  induction fuel as [|fuel IH]; intros c d s k Hfuel Hc Hk Hex Hpb; [lia|].
  cbn [Heap.heapify_fuel].
  set (s2 := Heap._recordHeapifyStart c (2 * c + 1) (2 * c + 2) d _).
  assert (Ha2 : Heap.array s2 = Heap.array s) by reflexivity.
  assert (Ho2 : Heap.originalArray s2 = Heap.originalArray s) by reflexivity.
  destruct (lookup_lt_is_Some_2 (Heap.array s) c Hc) as [x Hx].
  destruct (pickLargestChild_spec c (2 * c + 1) (2 * c + 2) d s2 x)
    as (l & s3 & v & Hpick & Ha3 & Ho3 & Hl & Hxv & Hcase & Hle1 & Hle2);
    [by rewrite Ha2|].
  rewrite Ha2 in Hpick, Ha3, Hl, Hle1, Hle2. rewrite Hpick.
  case_bool_decide as Hne.
  - destruct Hcase as [?|[Hlt Hchild]]; [done|].
    unfold Heap._swapAndRecurse.
    set (s4 := Heap._recordRecurse _ _ _ _).
    assert (Ha4 : Heap.array s4 = Heap.swap_at (Heap.array s) c l)
      by (subst s4; simpl; by rewrite Ha3).
    assert (Ho4 : Heap.originalArray s4 = Heap.originalArray s)
      by (subst s4; simpl; congruence).
    assert (Hlen : length (Heap.array s4) = length (Heap.array s))
      by (by rewrite Ha4, swap_at_length).
    destruct (swap_moves_violation (Heap.array s) k c l x v)
      as [Hex' Hpb']; try done.
    pose proof (lookup_lt_Some _ _ _ Hl) as Hllt.
    destruct (IH l (d + 1)%nat s4 k) as (Hheap & Hperm & Horig);
      try (rewrite Hlen); try (rewrite Ha4); try done; try lia.
    rewrite Hlen in Hheap, Hperm, Horig.
    split; [done|]. split; [|congruence].
    rewrite Hperm, Ha4. apply swap_at_perm.
  - assert (l = c) as -> by lia.
    simplify_eq. split; [|split].
    + simpl. rewrite Ha3. intros j Hj.
      destruct (decide (j = c)) as [->|Hjc]; [|by apply Hex].
      intros x' Hx'. simplify_eq. by split.
    + simpl. by rewrite Ha3.
    + simpl. congruence.
Qed.

(** Past [heapSize - i] nested calls the bound of [heapify_fuel] is never
    reached: any two such bounds give the same result. *)
Lemma heapify_fuel_enough (f1 : nat) : ∀ (f2 i d : nat) (s : Heap.State),
  (i < length (Heap.array s))%nat →
  (length (Heap.array s) - i < f1)%nat → (length (Heap.array s) - i < f2)%nat →
  Heap.heapify_fuel f1 i (length (Heap.array s)) d s
  = Heap.heapify_fuel f2 i (length (Heap.array s)) d s.
Proof.
  induction f1 as [|f1 IH]; intros f2 i d s Hi H1 H2; [lia|].
  destruct f2 as [|f2]; [lia|]. cbn [Heap.heapify_fuel].
  set (s2 := Heap._recordHeapifyStart i (2 * i + 1) (2 * i + 2) d _).
  assert (Ha2 : Heap.array s2 = Heap.array s) by reflexivity.
  destruct (lookup_lt_is_Some_2 (Heap.array s) i Hi) as [x Hx].
  destruct (pickLargestChild_spec i (2 * i + 1) (2 * i + 2) d s2 x)
    as (l & s3 & v & Hpick & Ha3 & Ho3 & Hl & Hxv & Hcase & Hle1 & Hle2);
    [by rewrite Ha2|].
  rewrite Ha2 in Hpick, Ha3, Hl. rewrite Hpick.
  case_bool_decide as Hne; [|done].
  destruct Hcase as [?|[Hlt Hchild]]; [done|].
  unfold Heap._swapAndRecurse.
  set (s4 := Heap._recordRecurse _ _ _ _).
  assert (Hlen : length (Heap.array s4) = length (Heap.array s))
    by (subst s4; simpl; by rewrite Ha3, swap_at_length).
  pose proof (lookup_lt_Some _ _ _ Hl) as Hllt.
  rewrite <- Hlen. apply IH; rewrite Hlen; lia.
Qed.

(** [_heapifyNode] at the root of a subtree whose other nodes are in
    order. *)
Lemma heapifyNode_restores (i d : nat) (s : Heap.State) :
  (i < length (Heap.array s))%nat →
  Heap.heap_from (S i) (Heap.array s) →
  let s' := Heap._heapifyNode i (length (Heap.array s)) d s in
  Heap.heap_from i (Heap.array s') ∧ Heap.array s' ≡ₚ Heap.array s ∧
  Heap.originalArray s' = Heap.originalArray s.
Proof.
  intros Hi Hfrom. unfold Heap._heapifyNode. apply heapify_sift; try lia.
  - intros j Hj Hne. apply Hfrom. lia.
  - intros p px Hp Hpar. lia.
Qed.

(** The bottom-up loop shared by [buildMaxHeap] and [extractMax]. *)
Lemma build_loop_heap (wrap_before wrap_after : nat → Heap.State → Heap.State)
    (s : Heap.State) :
  (∀ i s, Heap.array (wrap_before i s) = Heap.array s) →
  (∀ i s, Heap.array (wrap_after i s) = Heap.array s) →
  let k := Z.to_nat (Z.of_nat (length (Heap.array s)) / 2 - 1 + 1) in
  let s' := for_down k (λ i s,
              let s := wrap_before i s in
              let s := Heap._heapifyNode i (length (Heap.array s)) 0 s in
              wrap_after i s) s in
  Heap.max_heap (Heap.array s') ∧ Heap.array s' ≡ₚ Heap.array s.
Proof.
  intros Hb Ha k s'.
  assert (Hk : (2 * k ≤ length (Heap.array s) < 2 * k + 2)%nat).
  { subst k. Z.div_mod_to_equations. lia. }
  assert (H : Heap.heap_from 0 (Heap.array s') ∧ Heap.array s' ≡ₚ Heap.array s).
  { subst s'.
    apply (for_down_ind
             (λ i s0, Heap.heap_from i (Heap.array s0) ∧
                      Heap.array s0 ≡ₚ Heap.array s)).
    - split; [|done]. intros j Hj x Hx. split; intros y Hy;
        apply lookup_lt_Some in Hy; lia.
    - intros i s0 Hi [Hfrom Hperm]. cbn zeta. rewrite Ha.
      pose proof (Permutation_length Hperm) as Hlen.
      destruct (heapifyNode_restores i 0 (wrap_before i s0))
        as (H1 & H2 & _); rewrite ?Hb; try done; try lia.
      rewrite !Hb in H1, H2. split; [done|]. by rewrite H2. }
  destruct H as [H1 H2]. split; [|done]. intros i. apply H1. lia.
Qed.

(** C4. After [buildMaxHeap()] the returned array has the max-heap
    property: every index [i] dominates its children [2i+1] and [2i+2]
    that lie within bounds; the returned heap is a permutation of the
    input. For [4,1,3,2,16,9,10,14,8,7] the returned array has 16 at
    index 0. *)
Theorem buildMaxHeap_is_max_heap :
  (∀ input : list Z,
     let result := Heap.buildMaxHeap (Heap.new input) in
     Heap.max_heap (Heap.heap result) ∧ Heap.heap result ≡ₚ input)
  ∧ Heap.heap (Heap.buildMaxHeap (Heap.new [4; 1; 3; 2; 16; 9; 10; 14; 8; 7]))
      !! 0%nat = Some 16.
Proof.
  split; [|by vm_compute].
  intros input result. subst result. unfold Heap.buildMaxHeap.
  cbn [Heap.heap]. 
  set (s0 := Heap._recordInfo _ _).
  assert (Hs0 : Heap.array s0 = input) by reflexivity.
  change (Heap.array (Heap._recordInit (Heap._resetState (Heap.new input))))
    with (Heap.array s0).
  change (Heap.array (Heap._recordComplete ?s)) with (Heap.array s).
  pose proof (build_loop_heap Heap._recordLoopStart Heap._recordLoopEnd s0)
    as H.
  destruct H as [H1 H2]; [done|done|]. split; [exact H1|].
  etrans; [exact H2|]. by rewrite Hs0.
Qed.

(** C8. [extractMax()] on an empty array returns normally with
    [extractedValue] equal to [null] and an empty heap, and the last step
    of the trace is an [error] step saying that nothing can be extracted
    from an empty heap. *)
Theorem extractMax_empty (s : Heap.State) :
  Heap.originalArray s = [] →
  let result := Heap.extractMax s in
  Heap.extractedValue result = None ∧ Heap.ex_heap result = [] ∧
  map Heap.type (Heap.ex_steps result)
    = [Heap.t_pre_extract_build; Heap.t_pre_extract_complete; Heap.t_error] ∧
  ∃ st, last (Heap.ex_steps result) = Some st ∧
    Heap.type st = Heap.t_error ∧
    Heap.description st = "Cannot extract from empty heap!" ∧
    Heap.array_snapshot st = [] ∧
    Heap.stats st = Heap.mkStats 0 0 0.
Proof.
  intros Hs result. subst result. unfold Heap.extractMax, Heap._resetState.
  rewrite Hs. simpl. repeat split. eexists. repeat split.
Qed.

Lemma extractMax_empty_witness :
  Heap.extractedValue (Heap.extractMax (Heap.new [])) = None ∧
  Heap.ex_heap (Heap.extractMax (Heap.new [])) = [].
Proof.
  destruct (extractMax_empty (Heap.new []) eq_refl) as (H1 & H2 & _).
  split; [exact H1|exact H2].
Defined.

Lemma validateSwap_valid (a : list Z) (f t : nat) (es : list Heap.SwapPair)
    (idx : nat) :
  Heap.valid (Heap.validateSwap a f t es idx) = true ↔
  ∃ e, es !! idx = Some e ∧ HeapMonk.matches f t e.
Proof.
  unfold Heap.validateSwap, HeapMonk.matches.
  destruct (es !! idx) as [e|]; simpl.
  - destruct (_ || _) eqn:E; simpl.
    + split; [|done]. intros _. exists e. split; [done|].
      apply orb_true_iff in E as [E|E]; apply andb_true_iff in E as [E1 E2];
        apply Nat.eqb_eq in E1, E2; auto.
    + split; [done|]. intros (e' & [= <-] & H).
      apply orb_false_iff in E as [E1 E2].
      apply andb_false_iff in E1, E2.
      rewrite !Nat.eqb_neq in E1, E2. lia.
  - split; [done|]. by intros (e & ? & _).
Qed.

(** C9. In heap monk mode an attempted swap that is not the expected
    next pair (in either click order) leaves [currentSwapIndex] and the
    user's array as they were; only a matching attempt swaps the two
    entries and increments [currentSwapIndex]. [validateSwap] reports
    invalid whenever [swapIndex] is at or past the end of
    [expectedSwaps]. *)
Theorem monk_swap_gating (s : HeapMonk.State) (fromIndex toIndex : nat) :
  let result := Heap.validateSwap (HeapMonk.userArray s) fromIndex toIndex
                  (HeapMonk.expectedSwaps s) (HeapMonk.currentSwapIndex s) in
  let s' := HeapMonk._attemptSwap fromIndex toIndex s in
  (Heap.valid result = true ↔
     ∃ e, HeapMonk.expectedSwaps s !! HeapMonk.currentSwapIndex s = Some e ∧
          HeapMonk.matches fromIndex toIndex e) ∧
  (Heap.valid result = false →
     HeapMonk.currentSwapIndex s' = HeapMonk.currentSwapIndex s ∧
     HeapMonk.userArray s' = HeapMonk.userArray s) ∧
  (Heap.valid result = true →
     HeapMonk.currentSwapIndex s' = S (HeapMonk.currentSwapIndex s) ∧
     HeapMonk.userArray s'
       = Heap.swap_at (HeapMonk.userArray s) fromIndex toIndex ∧
     ∀ x y, HeapMonk.userArray s !! fromIndex = Some x →
            HeapMonk.userArray s !! toIndex = Some y →
            HeapMonk.userArray s' !! fromIndex = Some y ∧
            HeapMonk.userArray s' !! toIndex = Some x) ∧
  (∀ a f t es idx, (length es ≤ idx)%nat →
     Heap.valid (Heap.validateSwap a f t es idx) = false).
Proof.
  intros result s'. split; [apply validateSwap_valid|]. split; [|split].
  - intros Hv. subst s' result. unfold HeapMonk._attemptSwap. by rewrite Hv.
  - intros Hv. subst s' result. unfold HeapMonk._attemptSwap. rewrite Hv.
    assert (Hst : ∀ s0,
      HeapMonk.currentSwapIndex
        (if (length (HeapMonk.expectedSwaps s0) <=? HeapMonk.currentSwapIndex s0)%nat
         then HeapMonk._onComplete s0 else s0) = HeapMonk.currentSwapIndex s0 ∧
      HeapMonk.userArray
        (if (length (HeapMonk.expectedSwaps s0) <=? HeapMonk.currentSwapIndex s0)%nat
         then HeapMonk._onComplete s0 else s0) = HeapMonk.userArray s0).
    { intros s0. by destruct (_ <=? _)%nat. }
    cbn zeta. destruct (Hst (HeapMonk._updateStatus
      (Heap.message (Heap.validateSwap (HeapMonk.userArray s) fromIndex toIndex
         (HeapMonk.expectedSwaps s) (HeapMonk.currentSwapIndex s)))
      (HeapMonk.mkState (HeapMonk.expectedSwaps s) (HeapMonk.currentSwapIndex s + 1)
         (Heap.swap_at (HeapMonk.userArray s) fromIndex toIndex)
         (HeapMonk.selectedNode s) (HeapMonk.isActive s) (HeapMonk.operation s)
         (HeapMonk.bump_stats (HeapMonk.operation s) (HeapMonk.currentSwapIndex s + 1)
            fromIndex toIndex (HeapMonk.userStats s))
         (HeapMonk.status s)))) as [-> ->]. simpl.
    split; [lia|]. split; [done|].
    intros x y Hx Hy. rewrite !(swap_at_lookup _ _ _ x y _ Hx Hy).
    destruct (decide (toIndex = toIndex)); [|done].
    destruct (decide (fromIndex = toIndex)) as [->|]; [by simplify_eq|].
    by destruct (decide (fromIndex = fromIndex)).
  - intros a f t es idx Hlen. unfold Heap.validateSwap.
    by rewrite (lookup_ge_None_2 es idx Hlen).
Qed.

Lemma monk_swap_gating_witness :
  let s := HeapMonk.mkState [Heap.mkSwapPair 1 3 (Some 1) (Some 14)] 0
             [4; 1; 3; 14] None true HeapMonk.build (Heap.mkStats 0 0 0) "" in
  (HeapMonk.currentSwapIndex (HeapMonk._attemptSwap 0 1 s) = 0%nat ∧
   HeapMonk.userArray (HeapMonk._attemptSwap 0 1 s) = [4; 1; 3; 14]) ∧
  (HeapMonk.currentSwapIndex (HeapMonk._attemptSwap 3 1 s) = 1%nat ∧
   HeapMonk.userArray (HeapMonk._attemptSwap 3 1 s) = [4; 14; 3; 1]) ∧
  Heap.valid (Heap.validateSwap [4; 1; 3; 14] 1 3
                [Heap.mkSwapPair 1 3 (Some 1) (Some 14)] 1) = false.
Proof.
  intros s.
  destruct (monk_swap_gating s 0 1) as (_ & Hbad & _ & _).
  destruct (monk_swap_gating s 3 1) as (_ & _ & Hgood & Hend).
  split; [apply Hbad; reflexivity|]. split.
  - destruct Hgood as (H1 & H2 & _); [reflexivity|]. split; [exact H1|exact H2].
  - apply Hend. simpl. lia.
Defined.

(** ** Counting sort *)

Example counting_sort_scenario :
  CountingSort.sortedArray (CountingSort.solve (CountingSort.new [4; 2; 2; 8; 3; 3; 1]%nat))
  = map Some [1; 2; 2; 3; 3; 4; 8]%nat.
Proof. vm_compute. reflexivity. Qed.

Section Counting.
Local Abbreviation occ := CountingSort.occurrences.
Local Abbreviation at_most := CountingSort.at_most.

Lemma occ_app l1 l2 v : occ (l1 ++ l2) v = (occ l1 v + occ l2 v)%nat.
Proof. unfold CountingSort.occurrences. by rewrite List.filter_app, length_app. Qed.

Lemma occ_cons x l v :
  occ (x :: l) v = ((if (x =? v)%nat then 1 else 0) + occ l v)%nat.
Proof. unfold CountingSort.occurrences. simpl. by destruct (x =? v)%nat. Qed.

Lemma at_most_cons x l v :
  at_most (x :: l) v = ((if (x <=? v)%nat then 1 else 0) + at_most l v)%nat.
Proof. unfold CountingSort.at_most. simpl. by destruct (x <=? v)%nat. Qed.

Lemma at_most_0 l : at_most l 0 = occ l 0.
Proof.
  induction l as [|x l IH]; [done|]. rewrite at_most_cons, occ_cons, IH.
  by destruct x.
Qed.

Lemma at_most_S l v : at_most l (S v) = (at_most l v + occ l (S v))%nat.
Proof.
  induction l as [|x l IH]; [done|]. rewrite !at_most_cons, occ_cons, IH.
  destruct (Nat.leb_spec x (S v)), (Nat.leb_spec x v), (Nat.eqb_spec x (S v)); lia.
Qed.

Lemma at_most_step l v w : (v < w)%nat → (at_most l v + occ l w ≤ at_most l w)%nat.
Proof.
  induction 1 as [|w Hle IH]; rewrite at_most_S; [lia|].
  pose proof (at_most_S l w). assert (at_most l v ≤ at_most l w)%nat by lia. lia.
Qed.

Lemma occ_le_at_most l v : (occ l v ≤ at_most l v)%nat.
Proof.
  destruct v as [|v]; [by rewrite at_most_0|]. rewrite at_most_S. lia.
Qed.

Lemma at_most_length l v : (at_most l v ≤ length l)%nat.
Proof.
  induction l as [|x l IH]; [done|]. rewrite at_most_cons. simpl.
  destruct (x <=? v)%nat; lia.
Qed.

Lemma at_most_all l m : (∀ x, x ∈ l → (x ≤ m)%nat) → at_most l m = length l.
Proof.
  induction l as [|x l IH]; intros H; [done|]. rewrite at_most_cons. simpl.
  rewrite IH by (intros y Hy; apply H; by right).
  assert (x ≤ m)%nat by (apply H; by left).
  destruct (Nat.leb_spec x m); lia.
Qed.

Lemma occ_drop l i x v :
  l !! i = Some x →
  occ (drop i l) v = ((if (x =? v)%nat then 1 else 0) + occ (drop (S i) l) v)%nat.
Proof. intros H. by rewrite (drop_S l x i H), occ_cons. Qed.

Lemma occ_drop_le l j v : (occ (drop j l) v ≤ occ l v)%nat.
Proof. rewrite <- (take_drop j l) at 2. rewrite occ_app. lia. Qed.

Lemma occ_take_S l i x v :
  l !! i = Some x →
  occ (take (S i) l) v = (occ (take i l) v + (if (x =? v)%nat then 1 else 0))%nat.
Proof.
  intros H. rewrite (take_S_r l i x H), occ_app, occ_cons.
  change (occ [] v) with 0%nat. lia.
Qed.

(** The ranges owned by two different values never meet. *)
Lemma zone_disjoint l j j' v w p :
  v ≠ w → CountingSort.zone l j v p → CountingSort.zone l j' w p → False.
Proof.
  unfold CountingSort.zone. intros Hne Hv Hw.
  pose proof (occ_drop_le l j v). pose proof (occ_drop_le l j' w).
  destruct (Nat.lt_total v w) as [Hlt|[?|Hlt]]; [|done|].
  - pose proof (at_most_step l v w Hlt). lia.
  - pose proof (at_most_step l w v Hlt). lia.
Qed.

(** When everything has been placed, the ranges cover the output. *)
Lemma zone_cover l k p :
  (p < at_most l k)%nat → ∃ v, (v ≤ k)%nat ∧ CountingSort.zone l 0 v p.
Proof.
  unfold CountingSort.zone. change (drop 0 l) with l.
  induction k as [|k IH]; intros Hp.
  - exists 0%nat. rewrite at_most_0 in *. lia.
  - destruct (decide (p < at_most l k)%nat) as [Hlt|Hge].
    + destruct (IH Hlt) as (v & Hv & Hz). exists v. split; [lia|done].
    + exists (S k). rewrite at_most_S in *. lia.
Qed.
End Counting.

Section CountingPhases.
Local Abbreviation occ := CountingSort.occurrences.
Local Abbreviation at_most := CountingSort.at_most.

Lemma output_moves_record ty ph snap f s :
  CountingSort.output_moves (CountingSort.steps (CountingSort.record ty ph snap f s))
  = CountingSort.output_moves (CountingSort.steps s) ++
    match f with
    | CountingSort.FOutput i v p cb ca => [(i, v, p, cb, ca)]
    | _ => []
    end.
Proof.
  unfold CountingSort.output_moves, CountingSort.record. simpl.
  rewrite omap_app. simpl. by destruct f.
Qed.

Lemma findMaximum_spec s :
  let s' := CountingSort._findMaximum s in
  CountingSort.quiet s s' ∧
  (∀ x, x ∈ CountingSort.array s → (x ≤ CountingSort.maxValue s')%nat).
Proof.
  unfold CountingSort._findMaximum.
  set (s1 := CountingSort.set_maxValue _ _).
  assert (H1 : CountingSort.quiet s s1).
  { split; [done|]. subst s1. unfold CountingSort.output_moves. simpl.
    rewrite omap_app. simpl. apply app_nil_r. }
  set (body := λ (i : nat) '(s, maxIndex), _).
  assert (Hloop : ∀ k, (k ≤ length (CountingSort.array s1))%nat →
    let r := for_up 0 k body (s1, 0%nat) in
    CountingSort.quiet s r.1 ∧
    ∀ x, x ∈ take k (CountingSort.array s) → (x ≤ CountingSort.maxValue r.1)%nat).
  { intros k Hk.
    apply (for_up_ind (λ i (r : CountingSort.State * nat),
      (i ≤ length (CountingSort.array s1))%nat →
      CountingSort.quiet s r.1 ∧
      ∀ x, x ∈ take i (CountingSort.array s) → (x ≤ CountingSort.maxValue r.1)%nat));
      [| |done].
    - intros _. split; [done|]. intros x Hx. by apply elem_of_nil in Hx.
    - intros i [st mi] Hi IH Hi'. destruct IH as [[Ha Hm] Hmax]; [lia|].
      simpl in Ha, Hm, Hmax. unfold body. rewrite Ha.
      destruct (lookup_lt_is_Some_2 (CountingSort.array s) i) as [x Hx];
        [destruct H1 as [<- _]; lia|].
      rewrite Hx. replace (i + 1)%nat with (S i) by lia.
      rewrite (take_S_r _ _ _ Hx). simpl.
      destruct (Nat.ltb_spec (CountingSort.maxValue st) x) as [Hlt|Hge]; simpl.
      + split; [split; [done|]|].
        * rewrite <- Hm. unfold CountingSort.output_moves. simpl.
          rewrite omap_app. simpl. by rewrite app_nil_r.
        * intros y Hy. apply elem_of_app in Hy as [Hy|Hy].
          -- apply Hmax in Hy. lia.
          -- apply list_elem_of_singleton in Hy. lia.
      + split; [split; [done|]|].
        * rewrite <- Hm. unfold CountingSort.output_moves. simpl.
          rewrite omap_app. simpl. by rewrite app_nil_r.
        * intros y Hy. apply elem_of_app in Hy as [Hy|Hy].
          -- by apply Hmax.
          -- apply list_elem_of_singleton in Hy. lia. }
  specialize (Hloop (length (CountingSort.array s1)) (le_n _)).
  destruct (for_up 0 _ body _) as [s2 mi]. simpl in Hloop.
  destruct Hloop as [[Ha Hm] Hmax]. split.
  - split; [done|]. rewrite output_moves_record, app_nil_r. done.
  - intros x Hx. simpl. apply Hmax.
    by rewrite firstn_all.
Qed.

Lemma countOccurrences_spec s m :
  (∀ x, x ∈ CountingSort.array s → (x ≤ m)%nat) →
  CountingSort.countArray s = replicate (m + 1) 0 →
  let s' := CountingSort._countOccurrences s in
  CountingSort.quiet s s' ∧
  CountingSort.maxValue s' = CountingSort.maxValue s ∧
  CountingSort.outputArray s' = CountingSort.outputArray s ∧
  length (CountingSort.countArray s') = (m + 1)%nat ∧
  ∀ v, (v ≤ m)%nat →
    CountingSort.countArray s' !! v = Some (Z.of_nat (occ (CountingSort.array s) v)).
Proof.
  intros Hmax Hc. unfold CountingSort._countOccurrences.
  set (body := λ (i : nat) (s : CountingSort.State), _).
  assert (Hloop :
    let r := for_up 0 (length (CountingSort.array s)) body s in
    CountingSort.quiet s r ∧
    CountingSort.maxValue r = CountingSort.maxValue s ∧
    CountingSort.outputArray r = CountingSort.outputArray s ∧
    length (CountingSort.countArray r) = (m + 1)%nat ∧
    ∀ v, (v ≤ m)%nat →
      CountingSort.countArray r !! v
      = Some (Z.of_nat (occ (take (length (CountingSort.array s))
                               (CountingSort.array s)) v))).
  { apply (for_up_ind (λ i (r : CountingSort.State),
      CountingSort.quiet s r ∧
      CountingSort.maxValue r = CountingSort.maxValue s ∧
      CountingSort.outputArray r = CountingSort.outputArray s ∧
      length (CountingSort.countArray r) = (m + 1)%nat ∧
      ∀ v, (v ≤ m)%nat →
        CountingSort.countArray r !! v
        = Some (Z.of_nat (occ (take i (CountingSort.array s)) v)))).
    - split; [done|]. split; [done|]. split; [done|]. rewrite Hc.
      split; [apply length_replicate|]. intros v Hv.
      rewrite lookup_replicate_2 by lia. done.
    - intros i st Hi ([Ha Hm] & Hmv & Ho & Hlen & Hcnt). unfold body. rewrite Ha.
      destruct (lookup_lt_is_Some_2 (CountingSort.array s) i Hi) as [x Hx].
      rewrite Hx. replace (i + 1)%nat with (S i) by lia.
      assert (Hxm : (x ≤ m)%nat) by (apply Hmax; by eapply list_elem_of_lookup_2).
      split; [split; [done|]|].
      { rewrite output_moves_record, app_nil_r. done. }
      split; [done|]. split; [done|]. simpl. split; [by rewrite length_insert|].
      intros v Hv. rewrite (occ_take_S _ _ _ _ Hx).
      unfold CountingSort.count_at. rewrite (Hcnt x Hxm). simpl.
      destruct (Nat.eqb_spec x v) as [->|Hne].
      + rewrite list_lookup_insert_eq by lia. f_equal. lia.
      + rewrite list_lookup_insert_ne by done. rewrite Hcnt by done.
        f_equal. lia. }
  destruct Hloop as ([Ha Hm] & Hmv & Ho & Hlen & Hcnt).
  rewrite firstn_all in Hcnt.
  split; [split; [done|]|]; [|done].
  rewrite output_moves_record, app_nil_r. done.
Qed.

Lemma calculateCumulativeCounts_spec s l m :
  CountingSort.maxValue s = m →
  length (CountingSort.countArray s) = (m + 1)%nat →
  (∀ v, (v ≤ m)%nat → CountingSort.countArray s !! v = Some (Z.of_nat (occ l v))) →
  let s' := CountingSort._calculateCumulativeCounts s in
  CountingSort.quiet s s' ∧
  CountingSort.maxValue s' = m ∧
  CountingSort.outputArray s' = CountingSort.outputArray s ∧
  length (CountingSort.countArray s') = (m + 1)%nat ∧
  ∀ v, (v ≤ m)%nat →
    CountingSort.countArray s' !! v = Some (Z.of_nat (at_most l v)).
Proof.
  intros Hm Hlen Hcnt. unfold CountingSort._calculateCumulativeCounts.
  set (s1 := CountingSort.record _ _ _ _ s).
  change (CountingSort.maxValue s1) with (CountingSort.maxValue s). rewrite Hm.
  set (body := λ (i : nat) (s : CountingSort.State), _).
  assert (Hloop :
    let r := for_up 1 m body s1 in
    CountingSort.quiet s r ∧
    CountingSort.maxValue r = m ∧
    CountingSort.outputArray r = CountingSort.outputArray s ∧
    length (CountingSort.countArray r) = (m + 1)%nat ∧
    (∀ v, (v < 1 + m)%nat →
       CountingSort.countArray r !! v = Some (Z.of_nat (at_most l v))) ∧
    (∀ v, (1 + m ≤ v ≤ m)%nat →
       CountingSort.countArray r !! v = Some (Z.of_nat (occ l v)))).
  { apply (for_up_ind_from (λ i (r : CountingSort.State),
      CountingSort.quiet s r ∧
      CountingSort.maxValue r = m ∧
      CountingSort.outputArray r = CountingSort.outputArray s ∧
      length (CountingSort.countArray r) = (m + 1)%nat ∧
      (∀ v, (v < i)%nat →
         CountingSort.countArray r !! v = Some (Z.of_nat (at_most l v))) ∧
      (∀ v, (i ≤ v ≤ m)%nat →
         CountingSort.countArray r !! v = Some (Z.of_nat (occ l v))))).
    - split; [split; [done|]|].
      { subst s1. rewrite output_moves_record, app_nil_r. done. }
      split; [done|]. split; [done|]. split; [done|]. split.
      + intros v Hv. assert (v = 0%nat) as -> by lia.
        rewrite at_most_0. apply Hcnt. lia.
      + intros v Hv. apply Hcnt. lia.
    - intros i st Hi ([Ha Hmv] & Hmx & Ho & Hl & Hlow & Hhigh). unfold body.
      split; [split; [done|]|].
      { rewrite output_moves_record, app_nil_r. done. }
      split; [done|]. split; [done|]. simpl. split; [by rewrite length_insert|].
      unfold CountingSort.count_at.
      rewrite (Hhigh i) by lia. rewrite (Hlow (i - 1)%nat) by lia. simpl.
      split.
      + intros v Hv. destruct (decide (v = i)) as [->|Hne].
        * rewrite list_lookup_insert_eq by lia. f_equal.
          destruct i as [|i]; [lia|]. rewrite at_most_S.
          replace (S i - 1)%nat with i by lia. lia.
        * rewrite list_lookup_insert_ne by done. apply Hlow. lia.
      + intros v Hv. rewrite list_lookup_insert_ne by lia. apply Hhigh. lia. }
  destruct Hloop as ([Ha Hmv] & Hmx & Ho & Hl & Hlow & _).
  split; [split; [done|]|].
  { rewrite output_moves_record, app_nil_r. done. }
  split; [done|]. split; [done|]. split; [done|]. intros v Hv. apply Hlow. lia.
Qed.

Lemma omap_id_replicate_None {A : Type} n :
  omap id (replicate n (@None A)) = [].
Proof. induction n as [|n IH]; [done|]. simpl. exact IH. Qed.

Lemma omap_id_fill {A : Type} (o : list (option A)) (p : nat) (x : A) :
  o !! p = Some None → omap id (<[p := Some x]> o) ≡ₚ x :: omap id o.
Proof.
  revert p. induction o as [|y o IH]; intros p Hp; [done|].
  destruct p as [|p]; simpl in *.
  - by simplify_eq.
  - destruct y as [y|]; simpl; rewrite (IH p Hp); [apply Permutation_swap|done].
Qed.

Lemma all_filled {A : Type} (o : list (option A)) :
  (∀ p, (p < length o)%nat → ∃ v, o !! p = Some (Some v)) →
  o = map Some (omap id o).
Proof.
  induction o as [|y o IH]; intros H; [done|].
  destruct (H 0%nat) as [v Hv]; [simpl; lia|]. simpl in Hv. simplify_eq.
  simpl. f_equal. apply IH. intros p Hp. apply (H (S p)). simpl. lia.
Qed.

Lemma sorted_by_index (l : list nat) :
  (∀ i j a b, (i < j)%nat → l !! i = Some a → l !! j = Some b → (a ≤ b)%nat) →
  StronglySorted Nat.le l.
Proof.
  induction l as [|x l IH]; intros H; constructor.
  - apply IH. intros i j a b Hij Ha Hb. apply (H (S i) (S j)); [lia|done|done].
  - apply List.Forall_forall. intros y Hy.
    apply list_elem_of_In, list_elem_of_lookup in Hy as [j Hj].
    apply (H 0%nat (S j)); [lia|done|done].
Qed.

(** One iteration of the output loop. *)
Lemma output_step l m moves0 i st :
  (∀ x, x ∈ l → (x ≤ m)%nat) → (i < length l)%nat →
  CountingSort.output_inv l m moves0 (S i) st →
  CountingSort.output_inv l m moves0 i
    (match CountingSort.array st !! i with
     | None => st
     | Some value =>
         let countBefore := CountingSort.count_at (CountingSort.countArray st) value in
         let position := countBefore - 1 in
         let s := CountingSort.set_outputArray
                    (CountingSort.set_output (CountingSort.outputArray st) position value) st in
         let s := CountingSort.set_countArray
                    (<[value := countBefore - 1]> (CountingSort.countArray s)) s in
         let countAfter := CountingSort.count_at (CountingSort.countArray s) value in
         let s := CountingSort.set_stats
                    (CountingSort.mkStats (CountingSort.comparisons (CountingSort.stats s))
                       (CountingSort.arrayAccesses (CountingSort.stats s) + 2)
                       (CountingSort.countUpdates (CountingSort.stats s))
                       (CountingSort.placements (CountingSort.stats s) + 1)) s in
         CountingSort.record CountingSort.t_output CountingSort.p_output true
           (CountingSort.FOutput i value position countBefore countAfter) s
     end).
Proof.
  intros Hmax Hi (Ha & Hmv & Hlo & Hlc & Hcnt & Hfill & Hfree & Hperm & Hmoves).
  rewrite Ha. destruct (lookup_lt_is_Some_2 l i Hi) as [x Hx]. rewrite Hx.
  assert (Hxm : (x ≤ m)%nat) by (apply Hmax; by eapply list_elem_of_lookup_2).
  pose proof (occ_drop l i x x Hx) as Hocc. rewrite Nat.eqb_refl in Hocc.
  pose proof (occ_drop_le l i x) as Hle.
  pose proof (occ_le_at_most l x) as Hle'.
  pose proof (at_most_length l x) as Hlen.
  set (a := at_most l x) in *. set (o' := occ (drop (S i) l) x) in *.
  assert (Hcb : CountingSort.count_at (CountingSort.countArray st) x
                = Z.of_nat (a - o')).
  { unfold CountingSort.count_at. by rewrite (Hcnt x Hxm). }
  cbn zeta. rewrite Hcb.
  assert (Hpos : Z.of_nat (a - o') - 1 = Z.of_nat (a - o' - 1)) by lia.
  assert (Hset : CountingSort.set_output (CountingSort.outputArray st)
                   (Z.of_nat (a - o') - 1) x
                 = <[(a - o' - 1)%nat := Some x]> (CountingSort.outputArray st)).
  { unfold CountingSort.set_output. rewrite Hpos.
    destruct (Z.ltb_spec (Z.of_nat (a - o' - 1)) 0); [lia|].
    destruct (Z.ltb_spec (Z.of_nat (a - o' - 1))
                (Z.of_nat (length (CountingSort.outputArray st)))); [|lia].
    by rewrite Nat2Z.id. }
  assert (Hzx : CountingSort.zone l i x (a - o' - 1)).
  { unfold CountingSort.zone. fold a. lia. }
  assert (Hempty : CountingSort.outputArray st !! (a - o' - 1)%nat = Some None).
  { apply Hfree; [lia|]. intros v Hv Hz.
    destruct (decide (v = x)) as [->|Hne].
    - unfold CountingSort.zone in Hz. fold a o' in Hz. lia.
    - exact (zone_disjoint l (S i) i v x _ Hne Hz Hzx). }
  assert (Hzone : ∀ v p, CountingSort.zone l i v p ↔
            CountingSort.zone l (S i) v p ∨ (v = x ∧ p = (a - o' - 1)%nat)).
  { intros v p. unfold CountingSort.zone. rewrite (occ_drop l i x v Hx).
    destruct (Nat.eqb_spec x v) as [<-|Hne]; fold a o'.
    - pose proof (occ_drop_le l (S i) x). fold o' in H. lia.
    - split; [lia|]. intros [?|[? _]]; [lia|congruence]. }
  unfold CountingSort.output_inv. simpl. rewrite Hset.
  split; [done|]. split; [done|]. split; [by rewrite length_insert|].
  split; [by rewrite length_insert|].
  split; [|split; [|split; [|split]]].
  - intros v Hv. rewrite (occ_drop l i x v Hx).
    destruct (Nat.eqb_spec x v) as [<-|Hne].
    + rewrite list_lookup_insert_eq by lia. fold a o'. f_equal. lia.
    + rewrite list_lookup_insert_ne by done. rewrite Hcnt by done. f_equal.
  - intros v p Hv Hz. apply Hzone in Hz as [Hz|[-> ->]].
    + rewrite list_lookup_insert_ne; [by apply Hfill|].
      intros <-. specialize (Hfill v _ Hv Hz). congruence.
    + rewrite list_lookup_insert_eq by lia. done.
  - intros p Hp Hnone. rewrite list_lookup_insert_ne.
    + apply Hfree; [done|]. intros v Hv Hz. apply (Hnone v Hv).
      apply Hzone. by left.
    + intros <-. apply (Hnone x Hxm). apply Hzone. by right.
  - rewrite (omap_id_fill _ _ _ Hempty), Hperm. by rewrite (drop_S l x i Hx).
  - unfold CountingSort.output_moves in *. rewrite omap_app, Hmoves.
    replace (length l - i)%nat with (S (length l - S i)) by lia.
    simpl. rewrite omap_app, app_assoc. simpl. f_equal.
    unfold CountingSort.expected_move. rewrite Hx. fold a o'.
    unfold CountingSort.count_at.
    rewrite list_lookup_insert_eq by lia. simpl. done.
Qed.

Lemma buildOutputArray_spec s l m :
  (∀ x, x ∈ l → (x ≤ m)%nat) →
  CountingSort.array s = l → CountingSort.maxValue s = m →
  length (CountingSort.countArray s) = (m + 1)%nat →
  (∀ v, (v ≤ m)%nat →
     CountingSort.countArray s !! v = Some (Z.of_nat (at_most l v))) →
  CountingSort.outputArray s = replicate (length l) None →
  CountingSort.output_inv l m (CountingSort.output_moves (CountingSort.steps s)) 0
    (CountingSort._buildOutputArray s).
Proof.
  intros Hmax Ha Hm Hlc Hcnt Hout. unfold CountingSort._buildOutputArray.
  set (s1 := CountingSort.record _ _ _ _ s).
  change (CountingSort.array s1) with (CountingSort.array s). rewrite Ha.
  set (moves0 := CountingSort.output_moves (CountingSort.steps s)).
  set (body := λ (i : nat) (s0 : CountingSort.State), _).
  assert (H : CountingSort.output_inv l m moves0 0
                (for_down (length l) body s1)).
  { apply (for_down_ind (CountingSort.output_inv l m moves0)).
    - unfold CountingSort.output_inv. subst s1. simpl. rewrite Hout.
      split; [done|]. split; [done|]. split; [apply length_replicate|].
      split; [done|]. rewrite drop_all.
      split; [|split; [|split; [|split]]].
      + intros v Hv. rewrite Hcnt by done. f_equal.
        change (occ [] v) with 0%nat. f_equal. lia.
      + intros v p Hv Hz. unfold CountingSort.zone in Hz. rewrite drop_all in Hz.
        change (occ [] v) with 0%nat in Hz. lia.
      + intros p Hp _. by apply lookup_replicate_2.
      + by rewrite omap_id_replicate_None.
      + rewrite Nat.sub_diag. subst moves0. unfold CountingSort.output_moves.
        rewrite omap_app. simpl. done.
    - intros i st Hi Hinv. by apply output_step. }
  destruct H as (Ha' & Hmv & Hlo & Hlc' & Hcnt' & Hfill & Hfree & Hperm & Hmoves).
  unfold CountingSort.output_inv.
  rewrite output_moves_record, app_nil_r. simpl. done.
Qed.
End CountingPhases.

Lemma expected_moves_indices l idx :
  Forall (λ i, (i < length l)%nat) idx →
  map (λ mv : nat * nat * Z * Z * Z, mv.1.1.1.1)
    (omap (CountingSort.expected_move l) idx) = idx.
Proof.
  induction 1 as [|i idx Hi _ IH]; [done|].
  destruct (lookup_lt_is_Some_2 l i Hi) as [v Hv].
  assert (E : ∃ p cb ca, CountingSort.expected_move l i = Some (i, v, p, cb, ca)).
  { unfold CountingSort.expected_move. rewrite Hv. by eexists _, _, _. }
  destruct E as (p & cb & ca & E). cbn [omap list_omap]. rewrite E.
  simpl. f_equal. exact IH.
Qed.

(** The position of a move lies inside the final range of its value. *)
Lemma expected_move_zone l i v :
  l !! i = Some v →
  (1 ≤ CountingSort.at_most l v - CountingSort.occurrences (drop (S i) l) v)%nat ∧
  CountingSort.zone l 0 v
    (CountingSort.at_most l v - CountingSort.occurrences (drop (S i) l) v - 1).
Proof.
  intros Hv. unfold CountingSort.zone. change (drop 0 l) with l.
  pose proof (occ_drop l i v v Hv) as Hocc. rewrite Nat.eqb_refl in Hocc.
  pose proof (occ_drop_le l i v). pose proof (occ_le_at_most l v). lia.
Qed.

(** C5. For every input array [CountingSortSolver.solve()] returns a
    [sortedArray] that is non-decreasing and a permutation of the input.
    The output phase visits the input from the last index down to index
    0, puts each value at [output[count[value] - 1]] and then decrements
    [count[value]]; every value stays where it was put. *)
Theorem counting_sort_sorts (input : list nat) :
  let result := CountingSort.solve (CountingSort.new input) in
  let moves := CountingSort.output_moves (CountingSort.result_steps result) in
  (∃ sorted, CountingSort.sortedArray result = map Some sorted ∧
     StronglySorted Nat.le sorted ∧ sorted ≡ₚ input) ∧
  map (λ mv, mv.1.1.1.1) moves = rev (seq 0 (length input)) ∧
  Forall (λ mv, let '(i, v, position, countBefore, countAfter) := mv in
            input !! i = Some v ∧
            position = countBefore - 1 ∧ countAfter = countBefore - 1 ∧
            0 ≤ position ∧
            CountingSort.sortedArray result !! Z.to_nat position = Some (Some v))
    moves.
Proof.
  intros result moves. subst result moves. unfold CountingSort.solve.
  set (s0 := CountingSort._resetState (CountingSort.new input)).
  destruct (findMaximum_spec s0) as [[Ha1 Hm1] Hmax].
  set (s1 := CountingSort._findMaximum s0) in *.
  set (m := CountingSort.maxValue s1) in *.
  set (s2 := CountingSort._initializeCountArray s1).
  assert (Ha0 : CountingSort.array s0 = input) by reflexivity.
  assert (Ha2 : CountingSort.array s2 = input) by (by rewrite <- Ha0, <- Ha1).
  assert (Hm2 : CountingSort.output_moves (CountingSort.steps s2) = []).
  { subst s2. unfold CountingSort._initializeCountArray.
    rewrite output_moves_record, app_nil_r. simpl. by rewrite Hm1. }
  destruct (countOccurrences_spec s2 m) as ([Ha3 Hm3] & Hmv3 & Ho3 & Hl3 & Hc3).
  { rewrite Ha2, <- Ha0. exact Hmax. }
  { reflexivity. }
  set (s3 := CountingSort._countOccurrences s2) in *.
  destruct (calculateCumulativeCounts_spec s3 input m)
    as ([Ha4 Hm4] & Hmv4 & Ho4 & Hl4 & Hc4); [by rewrite Hmv3|done| |].
  { intros v Hv. rewrite Hc3 by done. by rewrite Ha2. }
  set (s4 := CountingSort._calculateCumulativeCounts s3) in *.
  destruct (buildOutputArray_spec s4 input m)
    as (Ha5 & Hmv5 & Hlo & Hlc & Hcnt & Hfill & Hfree & Hperm & Hmoves);
    [by rewrite <- Ha0|congruence|done|done|done| |].
  { rewrite Ho4, Ho3. subst s2. simpl. by rewrite Ha1. }
  set (s5 := CountingSort._buildOutputArray s4) in *.
  rewrite Hm4, Hm3, Hm2, app_nil_l, Nat.sub_0_r in Hmoves.
  change (drop 0 input) with input in Hperm.
  cbn [CountingSort.sortedArray CountingSort.result_steps].
  change (CountingSort.outputArray (CountingSort._copyToOriginal s5))
    with (CountingSort.outputArray s5).
  unfold CountingSort._copyToOriginal.
  rewrite output_moves_record, app_nil_r, Hmoves.
  assert (Hn : CountingSort.at_most input m = length input).
  { apply at_most_all. rewrite <- Ha0. exact Hmax. }
  assert (Hat : ∀ p, (p < length input)%nat →
            ∃ v, (v ≤ m)%nat ∧ CountingSort.zone input 0 v p ∧
                 CountingSort.outputArray s5 !! p = Some (Some v)).
  { intros p Hp. destruct (zone_cover input m p) as (v & Hv & Hz); [lia|].
    exists v. split; [done|]. split; [done|]. by apply Hfill. }
  split; [|split].
  - exists (omap id (CountingSort.outputArray s5)). split; [|split; [|done]].
    + apply all_filled. intros p Hp. rewrite Hlo in Hp.
      destruct (Hat p Hp) as (v & _ & _ & H). by exists v.
    + apply sorted_by_index. intros i j a b Hij Hi Hj.
      assert (Hout : CountingSort.outputArray s5
                     = map Some (omap id (CountingSort.outputArray s5))).
      { apply all_filled. intros p Hp. rewrite Hlo in Hp.
        destruct (Hat p Hp) as (v & _ & _ & H). by exists v. }
      assert (Hlen : length (omap id (CountingSort.outputArray s5)) = length input)
        by (by rewrite (Permutation_length Hperm)).
      pose proof (lookup_lt_Some _ _ _ Hi) as Hi'.
      pose proof (lookup_lt_Some _ _ _ Hj) as Hj'.
      destruct (Hat i) as (va & _ & Hza & Hoa); [lia|].
      destruct (Hat j) as (vb & _ & Hzb & Hob); [lia|].
      rewrite Hout in Hoa, Hob. rewrite list_lookup_fmap in Hoa, Hob.
      rewrite Hi in Hoa. rewrite Hj in Hob. simpl in Hoa, Hob. simplify_eq.
      destruct (decide (va ≤ vb)%nat) as [|Hgt]; [done|]. exfalso.
      unfold CountingSort.zone in Hza, Hzb.
      change (drop 0 input) with input in Hza, Hzb.
      pose proof (at_most_step input vb va ltac:(lia)). lia.
  - apply expected_moves_indices. apply Forall_rev, Forall_forall.
    intros i Hi. apply elem_of_seq in Hi. lia.
  - apply Forall_forall. intros [[[[i v] position] cb] ca] Hmv.
    apply list_elem_of_omap in Hmv as (i' & _ & Hmv).
    unfold CountingSort.expected_move in Hmv.
    destruct (input !! i') as [v'|] eqn:Hi'; [|done].
    injection Hmv as -> -> <- <- <-.
    destruct (expected_move_zone input i v Hi') as [Hpos Hz].
    split; [done|]. split; [done|]. split; [done|]. split; [lia|].
    assert (Hvm : (v ≤ m)%nat).
    { apply Hmax. rewrite Ha0. by eapply list_elem_of_lookup_2. }
    replace (Z.to_nat (Z.of_nat (CountingSort.at_most input v
               - CountingSort.occurrences (drop (S i) input) v) - 1))
      with (CountingSort.at_most input v
            - CountingSort.occurrences (drop (S i) input) v - 1)%nat by lia.
    by apply Hfill.
Qed.

Lemma counting_sort_sorts_scenario :
  CountingSort.sortedArray
    (CountingSort.solve (CountingSort.new [4; 2; 2; 8; 3; 3; 1]%nat))
  = map Some [1; 2; 2; 3; 3; 4; 8]%nat.
Proof. vm_compute. reflexivity. Qed.

(** ** Strassen multiplication *)

Example strassen_scenario_4 :
  let A := [[1; 2; 3; 4]; [5; 6; 7; 8]; [9; 10; 11; 12]; [13; 14; 15; 16]] in
  let B := [[2; 0; 1; 3]; [1; 1; 0; 2]; [0; 3; 1; 1]; [4; 1; 2; 0]] in
  ∃ r, Strassen.solve A B = Strassen.Returns r ∧
       Strassen.result r = Strassen.naiveMultiply A B.
Proof. eexists. split; vm_compute; reflexivity. Qed.

Example strassen_odd_throws :
  Strassen.solve [[1; 2; 3]; [4; 5; 6]; [7; 8; 9]] [[1; 0; 0]; [0; 1; 0]; [0; 0; 1]]
  = Strassen.Throws.
Proof. vm_compute. reflexivity. Qed.

Lemma table_ext (n m : nat) (t1 t2 : list (list Z)) :
  dims n m t1 → dims n m t2 →
  (∀ i j, (i < n)%nat → (j < m)%nat → cell t1 i j = cell t2 i j) →
  t1 = t2.
Proof.
  intros [Hl1 Hr1] [Hl2 Hr2] Hc. apply list_eq_same_length with n; [done|done|].
  intros i r1 r2 Hi H1 H2.
  apply list_eq_same_length with m; [by eapply Hr2|by eapply Hr1|].
  intros j x y Hj Hx Hy. specialize (Hc i j Hi Hj). unfold cell in Hc.
  rewrite H1, H2 in Hc. simpl in Hc. rewrite Hx, Hy in Hc. simpl in Hc.
  by subst.
Qed.

Lemma cell_zero_table rows cols i j : cell (zero_table rows cols) i j = 0.
Proof.
  unfold cell, zero_table.
  destruct (replicate rows (replicate cols 0) !! i) as [r|] eqn:E; [|done].
  apply lookup_replicate in E as [-> _]. simpl.
  destruct (replicate cols 0 !! j) as [x|] eqn:E; [|done].
  by apply lookup_replicate in E as [-> _].
Qed.

Lemma set_cell_twice (t : list (list Z)) i j a b :
  set_cell (set_cell t i j a) i j b = set_cell t i j b.
Proof.
  unfold set_cell. destruct (t !! i) as [r|] eqn:E; [|by rewrite E].
  pose proof (lookup_lt_Some _ _ _ E).
  rewrite list_lookup_insert_eq by done.
  by rewrite list_insert_insert_eq, list_insert_insert_eq.
Qed.

Lemma set_cell_same n m (t : list (list Z)) i j :
  dims n m t → set_cell t i j (cell t i j) = t.
Proof.
  intros [Hl Hr]. unfold set_cell, cell.
  destruct (t !! i) as [r|] eqn:E; [|done]. simpl.
  apply list_insert_id.
  destruct (r !! j) as [x|] eqn:Ej; simpl.
  - by rewrite list_insert_id.
  - rewrite list_insert_ge; [done|]. by apply lookup_ge_None.
Qed.

(** A loop nest that writes [f i j] into every entry of a table that
    starts with zeros. *)
Lemma fill_loop {St : Type} (tbl : St → list (list Z)) (n : nat)
    (f : nat → nat → Z) (body : nat → nat → St → St) (s : St) :
  dims n n (tbl s) → (∀ i j, cell (tbl s) i j = 0) →
  (∀ i j s', (i < n)%nat → (j < n)%nat → dims n n (tbl s') →
     cell (tbl s') i j = 0 →
     tbl (body i j s') = set_cell (tbl s') i j (f i j)) →
  let s' := for_up 0 n (λ i, for_up 0 n (λ j s, body i j s)) s in
  dims n n (tbl s') ∧ ∀ i j, (i < n)%nat → (j < n)%nat → cell (tbl s') i j = f i j.
Proof.
  intros Hd Hz Hbody s'.
  assert (H : Strassen.fill_inv tbl n f n 0 s').
  { subst s'. apply (for_up_ind (λ i s0, Strassen.fill_inv tbl n f i 0 s0)).
    - split; [done|]. split; [|by intros; apply Hz].
      intros i' j' Hb. unfold before in Hb. simpl in Hb. lia.
    - intros i s0 Hi Hinv.
      assert (H : Strassen.fill_inv tbl n f i n
                    (for_up 0 n (λ j s1, body i j s1) s0)).
      { apply (for_up_ind (λ k s1, Strassen.fill_inv tbl n f i k s1)); [done|].
        intros k s1 Hk (Hd1 & Hf1 & Hz1).
        assert (Hnb : ¬ before (i, k) (i, k)) by (unfold before; simpl; lia).
        rewrite <- Nat.add_1_r. unfold Strassen.fill_inv.
        rewrite (Hbody i k s1 Hi Hk Hd1 (Hz1 i k Hnb)).
        split; [by apply dims_set_cell|]. split.
        - intros i' j' Hb Hj'.
          destruct (decide ((i', j') = (i, k))) as [[= -> ->]|Hne].
          + eapply cell_set_cell_eq; eauto.
          + rewrite cell_set_cell_ne by done. apply Hf1; [|done].
            unfold before in *. simpl in *.
            destruct (decide (i' = i)); [|lia]. subst.
            assert (j' ≠ k) by congruence. lia.
        - intros i' j' Hb. rewrite cell_set_cell_ne.
          + apply Hz1. unfold before in *. simpl in *. lia.
          + intros [= -> ->]. apply Hb. unfold before. simpl. lia. }
      destruct H as (Hd1 & Hf1 & Hz1). split; [done|]. split.
      + intros i' j' Hb Hj'. apply Hf1; [|done]. unfold before in *. simpl in *. lia.
      + intros i' j' Hb. apply Hz1. unfold before in *. simpl in *. lia. }
  destruct H as (Hd1 & Hf1 & _). split; [done|].
  intros i j Hi Hj. apply Hf1; [|done]. unfold before. simpl. lia.
Qed.

Section StrassenFacts.
Local Abbreviation Matrix := (list (list Z)).
Local Abbreviation sum_to := Strassen.sum_to.

Lemma sum_to_S n f : sum_to (S n) f = sum_to n f + f n.
Proof. unfold Strassen.sum_to. by rewrite seq_S, fold_left_app. Qed.

Lemma sum_to_ext n f g : (∀ k, (k < n)%nat → f k = g k) → sum_to n f = sum_to n g.
Proof.
  induction n as [|n IH]; intros H; [done|].
  rewrite !sum_to_S, IH, H by (intros; auto with lia). done.
Qed.

Lemma sum_to_add n f g : sum_to n (λ k, f k + g k) = sum_to n f + sum_to n g.
Proof. induction n as [|n IH]; [done|]. rewrite !sum_to_S, IH. lia. Qed.

Lemma sum_to_sub n f g : sum_to n (λ k, f k - g k) = sum_to n f - sum_to n g.
Proof. induction n as [|n IH]; [done|]. rewrite !sum_to_S, IH. lia. Qed.

Lemma sum_to_split a b f :
  sum_to (a + b) f = sum_to a f + sum_to b (λ k, f (a + k)%nat).
Proof.
  induction b as [|b IH].
  - rewrite Nat.add_0_r. unfold Strassen.sum_to at 3. simpl. lia.
  - replace (a + S b)%nat with (S (a + b)) by lia. rewrite !sum_to_S, IH. lia.
Qed.

(** *** The numbers against the binary64 arithmetic of the kernel *)

(** On sample operands, among them the ones of the example that
    separates [solve()] from [naiveMultiply] and operands around [2^53],
    [+], [-] and [*] of the embedding give what the kernel's binary64
    operations give on the same numbers. *)
Lemma round_double_samples :
  Forall (λ '(x, y),
            Strassen.Z_of_double
              (PrimFloat.add (Strassen.double_of_Z x) (Strassen.double_of_Z y))
            = Some (Strassen.js_add x y) ∧
            Strassen.Z_of_double
              (PrimFloat.sub (Strassen.double_of_Z x) (Strassen.double_of_Z y))
            = Some (Strassen.js_sub x y) ∧
            Strassen.Z_of_double
              (PrimFloat.mul (Strassen.double_of_Z x) (Strassen.double_of_Z y))
            = Some (Strassen.js_mul x y))
    [(94906267, 94906267); (47453133, 47453134); (94906267, -94906265);
     (2 ^ 53, 1); (2 ^ 53, 3); (2 ^ 53 - 1, 2 ^ 53 - 1); (- 2 ^ 53, 3);
     (2 ^ 52 + 1, 2 ^ 52 + 3); (2 ^ 53 - 1, - (2 ^ 52 + 1));
     (6004799503160661, 3); (134217729, 134217731); (0, -5); (7, 0)].
Proof. repeat constructor; vm_compute; reflexivity. Qed.

(** *** Where the arithmetic of the numbers is exact *)

Lemma round_double_exact (x : Z) :
  Z.abs x ≤ 2 ^ 53 → Strassen.round_double x = x.
Proof.
  intros H. unfold Strassen.round_double. cbv zeta.
  by rewrite (proj2 (Z.leb_le _ _) H).
Qed.

Lemma within_add p q x y :
  Strassen.within p x → Strassen.within q y → Strassen.within (p + q) (x + y).
Proof. unfold Strassen.within. lia. Qed.

Lemma within_sub p q x y :
  Strassen.within p x → Strassen.within q y → Strassen.within (p + q) (x - y).
Proof. unfold Strassen.within. lia. Qed.

Lemma within_mul p q x y :
  Strassen.within p x → Strassen.within q y → Strassen.within (p * q) (x * y).
Proof.
  unfold Strassen.within. intros Hx Hy. rewrite Z.abs_mul.
  apply Z.mul_le_mono_nonneg; lia.
Qed.

Lemma within_le p q x : Strassen.within p x → p ≤ q → Strassen.within q x.
Proof. unfold Strassen.within. lia. Qed.

Lemma js_add_exact p q x y :
  Strassen.within p x → Strassen.within q y → p + q ≤ 2 ^ 53 →
  Strassen.js_add x y = x + y.
Proof.
  intros Hx Hy Hb. apply round_double_exact.
  pose proof (within_add p q x y Hx Hy) as H. unfold Strassen.within in H. lia.
Qed.

Lemma js_sub_exact p q x y :
  Strassen.within p x → Strassen.within q y → p + q ≤ 2 ^ 53 →
  Strassen.js_sub x y = x - y.
Proof.
  intros Hx Hy Hb. apply round_double_exact.
  pose proof (within_sub p q x y Hx Hy) as H. unfold Strassen.within in H. lia.
Qed.

Lemma js_mul_exact p q x y :
  Strassen.within p x → Strassen.within q y → p * q ≤ 2 ^ 53 →
  Strassen.js_mul x y = x * y.
Proof.
  intros Hx Hy Hb. apply round_double_exact.
  pose proof (within_mul p q x y Hx Hy) as H. unfold Strassen.within in H. lia.
Qed.

Lemma sum_to_within (m : nat) (f : nat → Z) (c : Z) :
  (∀ k, (k < m)%nat → Strassen.within c (f k)) →
  Strassen.within (Z.of_nat m * c) (sum_to m f).
Proof.
  induction m as [|m IH]; intros H.
  - unfold Strassen.sum_to, Strassen.within. simpl. lia.
  - rewrite sum_to_S.
    replace (Z.of_nat (S m) * c) with (Z.of_nat m * c + c) by lia.
    apply within_add; [apply IH; intros; apply H; lia|apply H; lia].
Qed.

Lemma dot_within (n : nat) (A B : Matrix) (a b : Z) (i j : nat) :
  Strassen.entries_within n a A → Strassen.entries_within n b B →
  (i < n)%nat → (j < n)%nat →
  Strassen.within (Z.of_nat n * (a * b)) (Strassen.dot n A B i j).
Proof.
  intros HA HB Hi Hj. apply sum_to_within. intros k Hk.
  apply within_mul; [by apply HA|by apply HB].
Qed.

Lemma entries_le (n : nat) (p q : Z) (M : Matrix) :
  Strassen.entries_within n p M → p ≤ q → Strassen.entries_within n q M.
Proof. intros H Hpq i j Hi Hj. eapply within_le; [by apply H|done]. Qed.

(** The innermost loop of [naiveMultiply] adds the terms to one entry. *)
Lemma accumulate_loop (n m : nat) (t : Matrix) (i j : nat) (g : nat → Z) :
  dims n n t → (i < n)%nat → (j < n)%nat →
  for_up 0 m (λ k r, set_cell r i j (Strassen.js_add (cell r i j) (g k))) t
  = set_cell t i j
      (fold_left (λ acc k, Strassen.js_add acc (g k)) (seq 0 m) (cell t i j)).
Proof.
  intros Hd Hi Hj. induction m as [|m IH].
  - simpl. symmetry. by eapply set_cell_same.
  - replace (S m) with (m + 1)%nat at 1 by lia. rewrite for_up_S, IH.
    rewrite (cell_set_cell_eq n n) by done.
    rewrite set_cell_twice, seq_S, fold_left_app. done.
Qed.

(** The sum is exact while no partial sum exceeds [2^53]. *)
Lemma accumulate_exact (m : nat) (g g' : nat → Z) (c : Z) :
  (∀ k, (k < m)%nat → g k = g' k ∧ Strassen.within c (g' k)) →
  Z.of_nat m * c ≤ 2 ^ 53 → 0 ≤ c →
  fold_left (λ acc k, Strassen.js_add acc (g k)) (seq 0 m) 0 = sum_to m g'.
Proof.
  induction m as [|m IH]; intros Hg Hb Hc; [done|].
  rewrite seq_S, fold_left_app, sum_to_S. cbn [fold_left Nat.add].
  rewrite IH; [|intros; apply Hg; lia|lia|done].
  destruct (Hg m) as [-> Hm]; [lia|].
  apply (js_add_exact (Z.of_nat m * c) c); [|done|lia].
  apply sum_to_within. intros k Hk. apply Hg. lia.
Qed.

Lemma naiveMultiply_spec (n : nat) (A B : Matrix) (a b : Z) :
  length A = n →
  Strassen.entries_within n a A → Strassen.entries_within n b B →
  0 ≤ a → 0 ≤ b → Z.of_nat n * (a * b) ≤ 2 ^ 53 →
  Strassen.square n (Strassen.naiveMultiply A B) ∧
  ∀ i j, (i < n)%nat → (j < n)%nat →
    cell (Strassen.naiveMultiply A B) i j = Strassen.dot n A B i j.
Proof.
  intros Hn HA HB Ha Hb Hlim.
  unfold Strassen.naiveMultiply, Strassen.square. rewrite Hn.
  apply (fill_loop id n (Strassen.dot n A B)
           (λ i j t, for_up 0 n
              (λ k result, set_cell result i j
                 (Strassen.js_add (cell result i j)
                    (Strassen.js_mul (cell A i k) (cell B k j)))) t)).
  - apply dims_zero_table.
  - intros. apply cell_zero_table.
  - intros i j t Hi Hj Hd Hz. unfold id in *.
    rewrite (accumulate_loop n n t i j
               (λ k, Strassen.js_mul (cell A i k) (cell B k j))) by done.
    rewrite Hz. f_equal.
    apply (accumulate_exact n _ (λ k, cell A i k * cell B k j) (a * b));
      [|done|by apply Z.mul_nonneg_nonneg].
    intros k Hk. split; [|apply within_mul; [by apply HA|by apply HB]].
    apply (js_mul_exact a b); [by apply HA|by apply HB|]. nia.
Qed.

Lemma entrywise_spec (op : Z → Z → Z) (n : nat) (A B : Matrix) (s : Strassen.State) :
  length A = n →
  Strassen.square n (Strassen.entrywise op A B s).1 ∧
  ∀ i j, (i < n)%nat → (j < n)%nat →
    cell (Strassen.entrywise op A B s).1 i j = op (cell A i j) (cell B i j).
Proof.
  intros Hn. unfold Strassen.entrywise, Strassen.square. rewrite Hn.
  apply (fill_loop fst n (λ i j, op (cell A i j) (cell B i j))
           (λ i j '(result, s0),
              (set_cell result i j (op (cell A i j) (cell B i j)),
               Strassen.add_additions 1 s0))).
  - apply dims_zero_table.
  - intros. apply cell_zero_table.
  - by intros i j [t s0] Hi Hj Hd Hz.
Qed.

Lemma cell_set_cell (n m : nat) (t : Matrix) (a b : nat) (v : Z) (i j : nat) :
  dims n m t → (a < n)%nat → (b < m)%nat →
  cell (set_cell t a b v) i j = if decide (i = a ∧ j = b) then v else cell t i j.
Proof.
  intros Hd Ha Hb. case_decide as H.
  - destruct H as [-> ->]. by eapply cell_set_cell_eq.
  - apply cell_set_cell_ne. intros [= -> ->]. by apply H.
Qed.

Lemma cell_row_at (M : Matrix) (i j : nat) :
  cell M i j = default 0 (Strassen.row_at M i !! j).
Proof. unfold cell, Strassen.row_at. by destruct (M !! i). Qed.

Lemma cell_map_seq (f : nat → list Z) (m i j : nat) :
  (i < m)%nat → cell (map f (seq 0 m)) i j = default 0 (f i !! j).
Proof.
  intros Hi. unfold cell.
  change (map f (seq 0 m)) with (f <$> seq 0 m).
  rewrite list_lookup_fmap, (lookup_seq_lt 0 m i Hi). done.
Qed.

Lemma even_double (m : nat) : Nat.odd (m + m) = false ∧ ((m + m) / 2 = m)%nat.
Proof.
  split.
  - destruct (Nat.odd (m + m)) eqn:E; [|done].
    apply Nat.odd_spec in E as [k Hk]. lia.
  - replace (m + m)%nat with (m * 2)%nat by lia. by apply Nat.div_mul.
Qed.

Lemma splitMatrix_spec (m : nat) (M : Matrix) :
  Strassen.square (m + m) M →
  ∃ M11 M12 M21 M22,
    Strassen._splitMatrix M = Strassen.Returns (M11, M12, M21, M22) ∧
    Strassen.square m M11 ∧ Strassen.square m M12 ∧
    Strassen.square m M21 ∧ Strassen.square m M22 ∧
    ∀ i j, (i < m)%nat → (j < m)%nat →
      cell M11 i j = cell M i j ∧ cell M12 i j = cell M i (j + m) ∧
      cell M21 i j = cell M (i + m) j ∧ cell M22 i j = cell M (i + m) (j + m).
Proof.
  intros [Hl Hr]. unfold Strassen._splitMatrix. rewrite Hl.
  destruct (even_double m) as [-> ->].
  set (f11 := λ i, take m (Strassen.row_at M i)).
  set (f12 := λ i, drop m (Strassen.row_at M i)).
  set (f21 := λ i, take m (Strassen.row_at M (i + m))).
  set (f22 := λ i, drop m (Strassen.row_at M (i + m))).
  assert (Hloop : ∀ k,
    for_up 0 k (λ (i : nat) '(M11, M12, M21, M22),
        (M11 ++ [f11 i], M12 ++ [f12 i], M21 ++ [f21 i], M22 ++ [f22 i]))
      ([], [], [], [])
    = (map f11 (seq 0 k), map f12 (seq 0 k), map f21 (seq 0 k), map f22 (seq 0 k))).
  { induction k as [|k IH]; [done|].
    replace (S k) with (k + 1)%nat at 1 by lia.
    rewrite for_up_S, IH, seq_S, !map_app. done. }
  rewrite Hloop. eexists _, _, _, _. split; [done|].
  assert (Hrow : ∀ i, (i < m + m)%nat → length (Strassen.row_at M i) = (m + m)%nat).
  { intros i Hi. unfold Strassen.row_at.
    destruct (lookup_lt_is_Some_2 M i) as [r Hri]; [lia|]. rewrite Hri. simpl.
    by eapply Hr. }
  assert (Hsq : ∀ f : nat → list Z,
            (∀ i, (i < m)%nat → length (f i) = m) →
            Strassen.square m (map f (seq 0 m))).
  { intros f Hf. split; [by rewrite length_map, length_seq|].
    intros i r Hi. change (map f (seq 0 m)) with (f <$> seq 0 m) in Hi.
    rewrite list_lookup_fmap in Hi.
    destruct (seq 0 m !! i) as [i'|] eqn:E; [|done].
    apply lookup_seq in E as [-> ?]. simpl in Hi. simplify_eq. by apply Hf. }
  split; [|split; [|split; [|split]]].
  - apply Hsq. intros i Hi. subst f11. cbn beta. rewrite length_take, Hrow; lia.
  - apply Hsq. intros i Hi. subst f12. cbn beta. rewrite length_drop, Hrow; lia.
  - apply Hsq. intros i Hi. subst f21. cbn beta. rewrite length_take, Hrow; lia.
  - apply Hsq. intros i Hi. subst f22. cbn beta. rewrite length_drop, Hrow; lia.
  - intros i j Hi Hj. rewrite !cell_map_seq, !cell_row_at by done.
    subst f11 f12 f21 f22. cbn beta.
    rewrite !lookup_take_lt, !lookup_drop by done.
    by rewrite !(Nat.add_comm m j).
Qed.

Lemma combineQuadrants_spec (m : nat) (C11 C12 C21 C22 : Matrix) :
  length C11 = m →
  let R := Strassen._combineQuadrants C11 C12 C21 C22 in
  Strassen.square (m + m) R ∧
  ∀ i j, (i < m)%nat → (j < m)%nat → Strassen.placed m R C11 C12 C21 C22 i j.
Proof.
  intros Hl R. subst R. set (n := (m + m)%nat).
  pose (body := λ (i j : nat) (t : Matrix),
    set_cell (set_cell (set_cell (set_cell t i j (cell C11 i j))
      i (j + m) (cell C12 i j)) (i + m) j (cell C21 i j))
      (i + m) (j + m) (cell C22 i j)).
  assert (E : Strassen._combineQuadrants C11 C12 C21 C22
              = for_up 0 m (λ i, for_up 0 m (body i)) (zero_table n n)).
  { unfold Strassen._combineQuadrants. rewrite Hl.
    replace (m * 2)%nat with (m + m)%nat by lia.
    destruct (even_double m) as [_ ->]. reflexivity. }
  rewrite E. unfold Strassen.square.
  assert (Hbody : ∀ i j t, body i j t =
    set_cell (set_cell (set_cell (set_cell t i j (cell C11 i j))
      i (j + m) (cell C12 i j)) (i + m) j (cell C21 i j))
      (i + m) (j + m) (cell C22 i j)) by done.
  clearbody body.
  assert (H : ∀ i, (i ≤ m)%nat →
    let r := for_up 0 i (λ i, for_up 0 m (body i)) (zero_table n n) in
    dims n n r ∧
    ∀ i' j', (i' < i)%nat → (j' < m)%nat →
      Strassen.placed m r C11 C12 C21 C22 i' j').
  { intros i Hi.
    apply (for_up_ind (λ i r, (i ≤ m)%nat → dims n n r ∧
      ∀ i' j', (i' < i)%nat → (j' < m)%nat →
        Strassen.placed m r C11 C12 C21 C22 i' j')); [| |done].
    - intros _. split; [apply dims_zero_table|]. intros; lia.
    - intros i0 r0 Hi0 IH Hi0'. destruct IH as [Hd Hp]; [lia|].
      assert (Hin : ∀ k, (k ≤ m)%nat →
        let r := for_up 0 k (body i0) r0 in
        dims n n r ∧
        ∀ i' j', (i' < i0 ∨ (i' = i0 ∧ j' < k))%nat → (j' < m)%nat →
          Strassen.placed m r C11 C12 C21 C22 i' j').
      { intros k Hk.
        apply (for_up_ind (λ k r, (k ≤ m)%nat → dims n n r ∧
          ∀ i' j', (i' < i0 ∨ (i' = i0 ∧ j' < k))%nat → (j' < m)%nat →
            Strassen.placed m r C11 C12 C21 C22 i' j')); [| |done].
        - intros _. split; [done|]. intros i' j' [?|[_ ?]] ?; [|lia].
          by apply Hp.
        - intros k0 r1 Hk0 IH Hk0'. destruct IH as [Hd1 Hp1]; [lia|].
          rewrite Hbody. split; [by repeat apply dims_set_cell|].
          intros i' j' Hcase Hj'.
          assert (Hold : (i', j') ≠ (i0, k0) →
                         Strassen.placed m r1 C11 C12 C21 C22 i' j').
          { intros Hne. apply Hp1; [|done].
            destruct Hcase as [?|[-> ?]]; [by left|right].
            split; [done|]. assert (j' ≠ k0) by congruence. lia. }
          unfold Strassen.placed in *.
          repeat (rewrite (cell_set_cell n n);
                  [|by repeat apply dims_set_cell|subst n; lia|subst n; lia]).
          destruct (decide ((i', j') = (i0, k0))) as [[= -> ->]|Hne].
          + repeat split; repeat (case_decide; try lia); done.
          + destruct (Hold Hne) as (H1 & H2 & H3 & H4).
            assert (i' ≠ i0 ∨ j' ≠ k0) by
              (destruct (decide (i' = i0)); [right; congruence|by left]).
            assert (i' < m)%nat by lia.
            repeat split; repeat (case_decide; try lia); done. }
      destruct (Hin m (le_n _)) as [Hd' Hp']. split; [done|].
      intros i' j' Hi' Hj'. apply Hp'; [lia|done]. }
  destruct (H m (le_n _)) as [Hd Hp]. split; [done|]. exact Hp.
Qed.

(** Strassen's seven products, entry by entry: the four combinations are
    the four block products. *)
Lemma strassen_blocks (m : nat) (a11 a12 a21 a22 b11 b12 b21 b22 : nat → Z) :
  let M1 := sum_to m (λ k, (a11 k + a22 k) * (b11 k + b22 k)) in
  let M2 := sum_to m (λ k, (a21 k + a22 k) * b11 k) in
  let M3 := sum_to m (λ k, a11 k * (b12 k - b22 k)) in
  let M4 := sum_to m (λ k, a22 k * (b21 k - b11 k)) in
  let M5 := sum_to m (λ k, (a11 k + a12 k) * b22 k) in
  let M6 := sum_to m (λ k, (a21 k - a11 k) * (b11 k + b12 k)) in
  let M7 := sum_to m (λ k, (a12 k - a22 k) * (b21 k + b22 k)) in
  M1 + M4 - M5 + M7 = sum_to m (λ k, a11 k * b11 k) + sum_to m (λ k, a12 k * b21 k) ∧
  M3 + M5 = sum_to m (λ k, a11 k * b12 k) + sum_to m (λ k, a12 k * b22 k) ∧
  M2 + M4 = sum_to m (λ k, a21 k * b11 k) + sum_to m (λ k, a22 k * b21 k) ∧
  M1 - M2 + M3 + M6
    = sum_to m (λ k, a21 k * b12 k) + sum_to m (λ k, a22 k * b22 k).
Proof.
  cbn zeta. rewrite <- !sum_to_add, <- !sum_to_sub, <- !sum_to_add.
  repeat split; apply sum_to_ext; intros k _; ring.
Qed.

(** Entries of the left factor by quadrant, and of the right factor. *)
Lemma dot_double (m : nat) (A B : Matrix) (i j : nat) :
  Strassen.dot (m + m) A B i j
  = sum_to m (λ k, cell A i k * cell B k j)
    + sum_to m (λ k, cell A i (k + m) * cell B (k + m) j).
Proof.
  unfold Strassen.dot. rewrite sum_to_split. f_equal.
  apply sum_to_ext. intros k _. by rewrite (Nat.add_comm m k).
Qed.

(** The combination step of [_strassen] on seven correct products. *)
Lemma combine_correct (m : nat) (A B M1 M2 M3 M4 M5 M6 M7 C11 C12 C21 C22 : Matrix) :
  length C11 = m →
  let a11 i k := cell A i k in
  let a12 i k := cell A i (k + m) in
  let a21 i k := cell A (i + m) k in
  let a22 i k := cell A (i + m) (k + m) in
  let b11 k j := cell B k j in
  let b12 k j := cell B k (j + m) in
  let b21 k j := cell B (k + m) j in
  let b22 k j := cell B (k + m) (j + m) in
  (∀ i j, (i < m)%nat → (j < m)%nat →
     cell M1 i j = sum_to m (λ k, (a11 i k + a22 i k) * (b11 k j + b22 k j)) ∧
     cell M2 i j = sum_to m (λ k, (a21 i k + a22 i k) * b11 k j) ∧
     cell M3 i j = sum_to m (λ k, a11 i k * (b12 k j - b22 k j)) ∧
     cell M4 i j = sum_to m (λ k, a22 i k * (b21 k j - b11 k j)) ∧
     cell M5 i j = sum_to m (λ k, (a11 i k + a12 i k) * b22 k j) ∧
     cell M6 i j = sum_to m (λ k, (a21 i k - a11 i k) * (b11 k j + b12 k j)) ∧
     cell M7 i j = sum_to m (λ k, (a12 i k - a22 i k) * (b21 k j + b22 k j))) →
  (∀ i j, (i < m)%nat → (j < m)%nat →
     cell C11 i j = cell M1 i j + cell M4 i j - cell M5 i j + cell M7 i j ∧
     cell C12 i j = cell M3 i j + cell M5 i j ∧
     cell C21 i j = cell M2 i j + cell M4 i j ∧
     cell C22 i j = cell M1 i j - cell M2 i j + cell M3 i j + cell M6 i j) →
  let R := Strassen._combineQuadrants C11 C12 C21 C22 in
  Strassen.square (m + m) R ∧
  ∀ i j, (i < m + m)%nat → (j < m + m)%nat →
    cell R i j = Strassen.dot (m + m) A B i j.
Proof.
  intros HlC a11 a12 a21 a22 b11 b12 b21 b22 HM HC R. subst R.
  destruct (combineQuadrants_spec m C11 C12 C21 C22 HlC) as [Hsq Hpl].
  split; [done|].
  assert (Hq : ∀ i j, (i < m)%nat → (j < m)%nat →
    cell C11 i j = Strassen.dot (m + m) A B i j ∧
    cell C12 i j = Strassen.dot (m + m) A B i (j + m) ∧
    cell C21 i j = Strassen.dot (m + m) A B (i + m) j ∧
    cell C22 i j = Strassen.dot (m + m) A B (i + m) (j + m)).
  { intros i j Hi Hj.
    destruct (HC i j Hi Hj) as (-> & -> & -> & ->).
    destruct (HM i j Hi Hj) as (-> & -> & -> & -> & -> & -> & ->).
    rewrite !dot_double.
    destruct (strassen_blocks m (a11 i) (a12 i) (a21 i) (a22 i)
                (λ k, b11 k j) (λ k, b12 k j) (λ k, b21 k j) (λ k, b22 k j))
      as (E1 & E2 & E3 & E4).
    cbn zeta in E1, E2, E3, E4. by rewrite E1, E2, E3, E4. }
  intros i j Hi Hj.
  destruct (decide (i < m)%nat) as [Hi'|Hi'], (decide (j < m)%nat) as [Hj'|Hj'].
  - destruct (Hpl i j Hi' Hj') as (-> & _). by destruct (Hq i j Hi' Hj') as (-> & _).
  - destruct (Hpl i (j - m)%nat) as (_ & E & _); [lia|lia|].
    destruct (Hq i (j - m)%nat) as (_ & E' & _); [lia|lia|].
    replace (j - m + m)%nat with j in E, E' by lia. by rewrite E, E'.
  - destruct (Hpl (i - m)%nat j) as (_ & _ & E & _); [lia|lia|].
    destruct (Hq (i - m)%nat j) as (_ & _ & E' & _); [lia|lia|].
    replace (i - m + m)%nat with i in E, E' by lia. by rewrite E, E'.
  - destruct (Hpl (i - m)%nat (j - m)%nat) as (_ & _ & _ & E); [lia|lia|].
    destruct (Hq (i - m)%nat (j - m)%nat) as (_ & _ & _ & E'); [lia|lia|].
    replace (j - m + m)%nat with j in E, E' by lia.
    replace (i - m + m)%nat with i in E, E' by lia. by rewrite E, E'.
Qed.

Create HintDb within.
#[local] Hint Resolve within_add within_sub within_mul : within.

(** An operand that carries no other operation. *)
Ltac plain_operand t :=
  lazymatch t with
  | context [Strassen.js_add _ _] => fail
  | context [Strassen.js_sub _ _] => fail
  | context [Strassen.js_mul _ _] => fail
  | _ => idtac
  end.

(** Replaces an innermost operation by the exact one; the bounds of the
    operands come from the hypotheses, the limit is left to [nia]. *)
Ltac exact_operation :=
  match goal with
  | |- context [Strassen.js_add ?x ?y] =>
      plain_operand x; plain_operand y;
      erewrite (js_add_exact _ _ x y);
      [|solve [eauto 12 with within]|solve [eauto 12 with within]|nia]
  | |- context [Strassen.js_sub ?x ?y] =>
      plain_operand x; plain_operand y;
      erewrite (js_sub_exact _ _ x y);
      [|solve [eauto 12 with within]|solve [eauto 12 with within]|nia]
  | |- context [Strassen.js_mul ?x ?y] =>
      plain_operand x; plain_operand y;
      erewrite (js_mul_exact _ _ x y);
      [|solve [eauto 12 with within]|solve [eauto 12 with within]|nia]
  end.

(** The seven products and four sums of [_strassen2x2] are exact when
    twelve times the product of the bounds stays within [2^53]. *)
Lemma strassen2x2_exact (a b c d e f g h p q : Z) :
  Strassen.within p a → Strassen.within p b →
  Strassen.within p c → Strassen.within p d →
  Strassen.within q e → Strassen.within q f →
  Strassen.within q g → Strassen.within q h →
  1 ≤ p → 1 ≤ q → 12 * (p * q) ≤ 2 ^ 53 →
  let M1 := Strassen.js_mul (Strassen.js_add a d) (Strassen.js_add e h) in
  let M2 := Strassen.js_mul (Strassen.js_add c d) e in
  let M3 := Strassen.js_mul a (Strassen.js_sub f h) in
  let M4 := Strassen.js_mul d (Strassen.js_sub g e) in
  let M5 := Strassen.js_mul (Strassen.js_add a b) h in
  let M6 := Strassen.js_mul (Strassen.js_sub c a) (Strassen.js_add e f) in
  let M7 := Strassen.js_mul (Strassen.js_sub b d) (Strassen.js_add g h) in
  Strassen.js_add (Strassen.js_sub (Strassen.js_add M1 M4) M5) M7
  = 0 + a * e + b * g ∧
  Strassen.js_add M3 M5 = 0 + a * f + b * h ∧
  Strassen.js_add M2 M4 = 0 + c * e + d * g ∧
  Strassen.js_add (Strassen.js_add (Strassen.js_sub M1 M2) M3) M6
  = 0 + c * f + d * h.
Proof.
  intros Ha Hb Hc Hd He Hf Hg Hh Hp Hq Hlim. cbv zeta.
  set (L := 2 ^ 53) in *.
  assert (1 ≤ p * q) by nia.
  repeat split; repeat exact_operation; ring.
Qed.

Lemma strassen2x2_correct (A B : Matrix) (d : nat) (s : Strassen.State)
    (p q : Z) :
  Strassen.entries_within 2 p A → Strassen.entries_within 2 q B →
  1 ≤ p → 1 ≤ q → 12 * (p * q) ≤ 2 ^ 53 →
  let M := (Strassen._strassen2x2 A B d s).1 in
  Strassen.square 2 M ∧
  ∀ i j, (i < 2)%nat → (j < 2)%nat → cell M i j = Strassen.dot 2 A B i j.
Proof.
  intros HA HB Hp Hq Hlim M. subst M.
  unfold Strassen._strassen2x2. cbv zeta. cbn [fst].
  destruct (strassen2x2_exact (cell A 0 0) (cell A 0 1) (cell A 1 0) (cell A 1 1)
              (cell B 0 0) (cell B 0 1) (cell B 1 0) (cell B 1 1) p q)
    as (E11 & E12 & E21 & E22);
    try (apply HA; lia); try (apply HB; lia); try done.
  cbv zeta in E11, E12, E21, E22. rewrite E11, E12, E21, E22.
  split.
  - split; [done|]. intros [|[|i]] r Hr; simpl in Hr; by simplify_eq.
  - intros i j Hi Hj. unfold Strassen.dot, Strassen.sum_to.
    cbn [fold_left seq].
    destruct i as [|[|i]]; [| |lia]; (destruct j as [|[|j]]; [| |lia]);
      reflexivity.
Qed.

Lemma strassen_base (A B : Matrix) (p q : Z) :
  Strassen.entries_within 1 p A → Strassen.entries_within 1 q B →
  p * q ≤ 2 ^ 53 →
  let M := [[Strassen.js_mul (cell A 0 0) (cell B 0 0)]] in
  Strassen.square 1 M ∧
  ∀ i j, (i < 1)%nat → (j < 1)%nat → cell M i j = Strassen.dot 1 A B i j.
Proof.
  intros HA HB Hlim M. subst M.
  rewrite (js_mul_exact p q); [|apply HA; lia|apply HB; lia|done].
  split.
  - split; [done|]. intros [|i] r Hr; simpl in Hr; by simplify_eq.
  - intros i j Hi Hj. assert (i = 0%nat) as -> by lia.
    assert (j = 0%nat) as -> by lia. reflexivity.
Qed.

Lemma pow2_double (k : nat) : (2 ^ S k = 2 ^ k + 2 ^ k)%nat.
Proof. simpl. lia. Qed.

Lemma pow2_pos (k : nat) : (1 ≤ 2 ^ k)%nat.
Proof. induction k as [|k IH]; simpl; lia. Qed.

Lemma square_length (n : nat) (M : Matrix) : Strassen.square n M → length M = n.
Proof. by intros [H _]. Qed.

(** The quadrants of a matrix keep its bound. *)
Lemma quadrants_within (m : nat) (p : Z) (M M11 M12 M21 M22 : Matrix) :
  Strassen.entries_within (m + m) p M →
  (∀ i j, (i < m)%nat → (j < m)%nat →
     cell M11 i j = cell M i j ∧ cell M12 i j = cell M i (j + m) ∧
     cell M21 i j = cell M (i + m) j ∧ cell M22 i j = cell M (i + m) (j + m)) →
  Strassen.entries_within m p M11 ∧ Strassen.entries_within m p M12 ∧
  Strassen.entries_within m p M21 ∧ Strassen.entries_within m p M22.
Proof.
  intros HM Hc.
  repeat split; intros i j Hi Hj; destruct (Hc i j Hi Hj) as (E1 & E2 & E3 & E4);
    rewrite ?E1, ?E2, ?E3, ?E4; apply HM; lia.
Qed.

(** An entrywise sum or difference of bounded matrices is exact. *)
Lemma entrywise_exact (m : nat) (X Y R : Matrix) (p q : Z) :
  Strassen.entries_within m p X → Strassen.entries_within m q Y →
  p + q ≤ 2 ^ 53 →
  ((∀ i j, (i < m)%nat → (j < m)%nat →
      cell R i j = Strassen.js_add (cell X i j) (cell Y i j)) →
   (∀ i j, (i < m)%nat → (j < m)%nat → cell R i j = cell X i j + cell Y i j) ∧
   Strassen.entries_within m (p + q) R) ∧
  ((∀ i j, (i < m)%nat → (j < m)%nat →
      cell R i j = Strassen.js_sub (cell X i j) (cell Y i j)) →
   (∀ i j, (i < m)%nat → (j < m)%nat → cell R i j = cell X i j - cell Y i j) ∧
   Strassen.entries_within m (p + q) R).
Proof.
  intros HX HY Hlim. split; intros HR.
  - assert (E : ∀ i j, (i < m)%nat → (j < m)%nat →
                cell R i j = cell X i j + cell Y i j).
    { intros i j Hi Hj. rewrite HR by done.
      apply (js_add_exact p q); [by apply HX|by apply HY|done]. }
    split; [done|]. intros i j Hi Hj. rewrite E by done.
    apply within_add; [by apply HX|by apply HY].
  - assert (E : ∀ i j, (i < m)%nat → (j < m)%nat →
                cell R i j = cell X i j - cell Y i j).
    { intros i j Hi Hj. rewrite HR by done.
      apply (js_sub_exact p q); [by apply HX|by apply HY|done]. }
    split; [done|]. intros i j Hi Hj. rewrite E by done.
    apply within_sub; [by apply HX|by apply HY].
Qed.

(** One entrywise sum inside [_strassen]: the new matrix [R], its size,
    its entries and their bound. *)
Ltac add_step m R Hsq Hcell Hin :=
  lazymatch goal with
  | |- context [Strassen.entrywise Strassen.js_add ?X ?Y ?s] =>
      let H := fresh "H" in
      let s' := fresh "s" in
      pose proof (entrywise_spec Strassen.js_add m X Y s) as H;
      destruct (Strassen.entrywise Strassen.js_add X Y s) as [R s'];
      destruct H as [Hsq Hcell]; [by apply square_length|];
      cbn [fst] in Hsq, Hcell;
      lazymatch goal with
      | HX : Strassen.entries_within m ?p X,
        HY : Strassen.entries_within m ?q Y |- _ =>
          apply (proj1 (entrywise_exact m X Y R p q HX HY ltac:(nia))) in Hcell;
          destruct Hcell as [Hcell Hin]
      end;
      cbv beta iota zeta
  end.

(** The same for an entrywise difference. *)
Ltac sub_step m R Hsq Hcell Hin :=
  lazymatch goal with
  | |- context [Strassen.entrywise Strassen.js_sub ?X ?Y ?s] =>
      let H := fresh "H" in
      let s' := fresh "s" in
      pose proof (entrywise_spec Strassen.js_sub m X Y s) as H;
      destruct (Strassen.entrywise Strassen.js_sub X Y s) as [R s'];
      destruct H as [Hsq Hcell]; [by apply square_length|];
      cbn [fst] in Hsq, Hcell;
      lazymatch goal with
      | HX : Strassen.entries_within m ?p X,
        HY : Strassen.entries_within m ?q Y |- _ =>
          apply (proj2 (entrywise_exact m X Y R p q HX HY ltac:(nia))) in Hcell;
          destruct Hcell as [Hcell Hin]
      end;
      cbv beta iota zeta
  end.

(** One recursive call, by the induction hypothesis [Hrec]. *)
Ltac rec_step Hrec m M Hsq Hcell Hin :=
  lazymatch goal with
  | |- context [Strassen._strassen ?f ?X ?Y ?d ?s] =>
      let s' := fresh "s" in
      let E := fresh "E" in
      lazymatch goal with
      | HX : Strassen.entries_within m ?p X,
        HY : Strassen.entries_within m ?q Y |- _ =>
          destruct (Hrec X Y d s) as (M & s' & E & Hsq & Hcell & Hin);
          [done|done|apply (entries_le m p _ X HX); lia
          |apply (entries_le m q _ Y HY); lia|]
      end;
      rewrite E; clear E;
      unfold Strassen.dot in Hcell;
      cbv beta iota zeta
  end.

(** On matrices of size [2^k] whose entries are bounded by [a] and [b]
    with [3 n^2 a b <= 2^53], [_strassen] returns the exact product: no
    operation on the way rounds. *)
Lemma strassen_correct (k : nat) : ∀ (fuel : nat) (A B : Matrix) (d : nat)
    (s : Strassen.State) (a b : Z),
  (k < fuel)%nat → Strassen.square (2 ^ k) A → Strassen.square (2 ^ k) B →
  Strassen.entries_within (2 ^ k) a A → Strassen.entries_within (2 ^ k) b B →
  1 ≤ a → 1 ≤ b →
  3 * Z.of_nat (2 ^ k) * Z.of_nat (2 ^ k) * (a * b) ≤ 2 ^ 53 →
  ∃ M s', Strassen._strassen fuel A B d s = Strassen.Returns (M, s') ∧
          Strassen.square (2 ^ k) M ∧
          (∀ i j, (i < 2 ^ k)%nat → (j < 2 ^ k)%nat →
             cell M i j = Strassen.dot (2 ^ k) A B i j) ∧
          Strassen.entries_within (2 ^ k) (Z.of_nat (2 ^ k) * (a * b)) M.
Proof.
  assert (Hfin : ∀ (n : nat) (A B M : Matrix) (a b : Z),
            Strassen.entries_within n a A → Strassen.entries_within n b B →
            (∀ i j, (i < n)%nat → (j < n)%nat →
               cell M i j = Strassen.dot n A B i j) →
            Strassen.entries_within n (Z.of_nat n * (a * b)) M).
  { intros n A B M a b HA HB HM i j Hi Hj. rewrite HM by done.
    by apply dot_within. }
  induction k as [|k IH]; intros fuel A B d s a b Hf HA HB HwA HwB Ha Hb Hlim;
    (destruct fuel as [|fuel]; [lia|]); cbn [Strassen._strassen].
  - rewrite (proj1 HA). cbn [Nat.pow Nat.eqb]. cbv beta iota zeta.
    cbn [Nat.pow] in Hlim, HwA, HwB |- *.
    destruct (strassen_base A B a b HwA HwB) as [Hsq Hcell]; [nia|].
    cbv zeta in Hsq, Hcell.
    eexists _, _. split; [reflexivity|]. split; [done|]. split; [done|].
    by apply (Hfin 1%nat A B).
  - pose proof (pow2_pos k) as Hpos. rewrite pow2_double in *.
    set (m := (2 ^ k)%nat) in *. rewrite (proj1 HA). cbv zeta.
    destruct (Nat.eqb_spec (m + m) 1) as [?|_]; [lia|].
    destruct (Nat.eqb_spec (m + m) 2) as [Hm2|Hm2].
    { rewrite Hm2 in *.
      destruct (strassen2x2_correct A B d (Strassen.enter d s) a b HwA HwB)
        as [Hsq Hcell]; [done|done|nia|].
      cbv zeta in Hsq, Hcell.
      destruct (Strassen._strassen2x2 A B d (Strassen.enter d s)) as [M s'].
      cbn [fst] in Hsq, Hcell.
      exists M, s'. split; [done|]. split; [done|]. split; [done|].
      by apply (Hfin 2%nat A B). }
    assert (Hm : (2 ≤ m)%nat) by lia.
    assert (Hrec : ∀ X Y d' s0, Strassen.square m X → Strassen.square m Y →
              Strassen.entries_within m (a + a) X →
              Strassen.entries_within m (b + b) Y →
              ∃ M s', Strassen._strassen fuel X Y d' s0
                      = Strassen.Returns (M, s') ∧
                      Strassen.square m M ∧
                      (∀ i j, (i < m)%nat → (j < m)%nat →
                         cell M i j = Strassen.dot m X Y i j) ∧
                      Strassen.entries_within m
                        (Z.of_nat m * ((a + a) * (b + b))) M).
    { intros. apply IH; [lia|done|done|done|done|lia|lia|nia]. }
    clear IH.
    assert (Hab : 1 ≤ a * b) by nia.
    assert (Hlim' : 16 * (Z.of_nat m * (a * b)) ≤ 2 ^ 53) by nia.
    set (K := Z.of_nat m * ((a + a) * (b + b))) in *.
    assert (HK : K = 4 * (Z.of_nat m * (a * b))) by (subst K; ring).
    set (L := 2 ^ 53) in *.
    destruct (splitMatrix_spec m A HA)
      as (A11 & A12 & A21 & A22 & -> & HsA11 & HsA12 & HsA21 & HsA22 & HcA).
    destruct (splitMatrix_spec m B HB)
      as (B11 & B12 & B21 & B22 & -> & HsB11 & HsB12 & HsB21 & HsB22 & HcB).
    destruct (quadrants_within m a A A11 A12 A21 A22 HwA HcA)
      as (HwA11 & HwA12 & HwA21 & HwA22).
    destruct (quadrants_within m b B B11 B12 B21 B22 HwB HcB)
      as (HwB11 & HwB12 & HwB21 & HwB22).
    unfold mbind, Strassen.outcome_bind, Strassen._addMatrices,
      Strassen._subtractMatrices.
    cbv beta iota zeta.
    add_step m X1 HsX1 HcX1 HwX1. add_step m Y1 HsY1 HcY1 HwY1.
    rec_step Hrec m M1 HsM1 HcM1 HwM1.
    add_step m X2 HsX2 HcX2 HwX2.
    rec_step Hrec m M2 HsM2 HcM2 HwM2.
    sub_step m Y3 HsY3 HcY3 HwY3.
    rec_step Hrec m M3 HsM3 HcM3 HwM3.
    sub_step m Y4 HsY4 HcY4 HwY4.
    rec_step Hrec m M4 HsM4 HcM4 HwM4.
    add_step m X5 HsX5 HcX5 HwX5.
    rec_step Hrec m M5 HsM5 HcM5 HwM5.
    sub_step m X6 HsX6 HcX6 HwX6. add_step m Y6 HsY6 HcY6 HwY6.
    rec_step Hrec m M6 HsM6 HcM6 HwM6.
    sub_step m X7 HsX7 HcX7 HwX7. add_step m Y7 HsY7 HcY7 HwY7.
    rec_step Hrec m M7 HsM7 HcM7 HwM7.
    add_step m T1 HsT1 HcT1 HwT1. sub_step m T2 HsT2 HcT2 HwT2.
    add_step m C11 HsC11 HcC11 HwC11. add_step m C12 HsC12 HcC12 HwC12.
    add_step m C21 HsC21 HcC21 HwC21.
    add_step m T3 HsT3 HcT3 HwT3. sub_step m T4 HsT4 HcT4 HwT4.
    add_step m C22 HsC22 HcC22 HwC22.
    destruct (combine_correct m A B M1 M2 M3 M4 M5 M6 M7 C11 C12 C21 C22)
      as [Hsq Hcell]; [exact (proj1 HsC11)| | |].
    + intros i j Hi Hj.
      rewrite HcM1, HcM2, HcM3, HcM4, HcM5, HcM6, HcM7 by done.
      repeat split; apply sum_to_ext; intros x Hx;
        rewrite ?HcX1, ?HcY1, ?HcX2, ?HcY3, ?HcY4, ?HcX5, ?HcX6, ?HcY6,
          ?HcX7, ?HcY7 by done;
        destruct (HcA i x Hi Hx) as (Ea1 & Ea2 & Ea3 & Ea4);
        destruct (HcB x j Hx Hj) as (Eb1 & Eb2 & Eb3 & Eb4);
        rewrite ?Ea1, ?Ea2, ?Ea3, ?Ea4, ?Eb1, ?Eb2, ?Eb3, ?Eb4; done.
    + intros i j Hi Hj.
      rewrite HcC11, HcC12, HcC21, HcC22, HcT2, HcT1, HcT4, HcT3 by done.
      repeat split; ring.
    + cbv zeta in Hsq, Hcell.
      eexists _, _. split; [reflexivity|]. split; [done|]. split; [done|].
      by apply (Hfin (m + m)%nat A B).
Qed.
End StrassenFacts.

Lemma square_literal_2 (a b c d : Z) : Strassen.square 2 [[a; b]; [c; d]].
Proof.
  split; [reflexivity|].
  intros [|[|i]] r Hr; simpl in Hr; inversion Hr; reflexivity.
Defined.

Lemma entries_literal_2 (a b c d p : Z) :
  Z.abs a ≤ p → Z.abs b ≤ p → Z.abs c ≤ p → Z.abs d ≤ p →
  Strassen.entries_within 2 p [[a; b]; [c; d]].
Proof.
  intros Ha Hb Hc Hd [|[|i]] [|[|j]] Hi Hj; try lia;
    exact Ha || exact Hb || exact Hc || exact Hd.
Defined.

(** C6, amended. For [n] by [n] integer matrices [A] and [B] with [n] a
    power of two, whose entries are at most [a] and [b] in magnitude with
    [3 n^2 a b <= 2^53], [StrassenSolver.solve()] returns a result matrix
    equal to [naiveMultiply(A, B)], and both are the exact product; sizes
    1, 2, 4 and 8 are the cases [k = 0, 1, 2, 3] of [n = 2^k]. *)
Theorem strassen_equals_naive (n : nat) (A B : list (list Z)) (a b : Z) :
  (∃ k, n = (2 ^ k)%nat) → Strassen.square n A → Strassen.square n B →
  Strassen.entries_within n a A → Strassen.entries_within n b B →
  1 ≤ a → 1 ≤ b → 3 * Z.of_nat n * Z.of_nat n * (a * b) ≤ 2 ^ 53 →
  ∃ r, Strassen.solve A B = Strassen.Returns r ∧
       Strassen.result r = Strassen.naiveMultiply A B ∧
       ∀ i j, (i < n)%nat → (j < n)%nat →
         cell (Strassen.result r) i j = Strassen.dot n A B i j.
Proof.
  intros [k ->] HA HB HwA HwB Ha Hb Hlim. unfold Strassen.solve.
  destruct (strassen_correct k (length A) A B 0
              (Strassen.push
                 (Strassen.SInit A B (Strassen.stats Strassen._resetState))
                 Strassen._resetState) a b)
    as (M & s' & E & Hsq & Hcell & _); try done.
  { rewrite (square_length _ _ HA). apply Nat.pow_gt_lin_r. lia. }
  cbv zeta. rewrite E. eexists. split; [reflexivity|]. cbn [Strassen.result].
  split; [|done].
  pose proof (pow2_pos k) as Hpos.
  destruct (naiveMultiply_spec (2 ^ k) A B a b) as [Hsq' Hcell'];
    [exact (proj1 HA)|done|done|lia|lia|nia|].
  apply (table_ext (2 ^ k) (2 ^ k)); [done|done|].
  intros i j Hi Hj. by rewrite Hcell, Hcell'.
Qed.

Lemma strassen_equals_naive_witness :
  ∃ r, Strassen.solve [[1; 2]; [3; 4]] [[5; 6]; [7; 8]] = Strassen.Returns r ∧
       Strassen.result r = Strassen.naiveMultiply [[1; 2]; [3; 4]] [[5; 6]; [7; 8]] ∧
       ∀ i j, (i < 2)%nat → (j < 2)%nat →
         cell (Strassen.result r) i j
         = Strassen.dot 2 [[1; 2]; [3; 4]] [[5; 6]; [7; 8]] i j.
Proof.
  apply (strassen_equals_naive 2 _ _ 4 8).
  - exists 1%nat. reflexivity.
  - apply square_literal_2.
  - apply square_literal_2.
  - apply entries_literal_2; lia.
  - apply entries_literal_2; lia.
  - lia.
  - lia.
  - lia.
Defined.

(** C6, as stated, fails: the numbers are doubles, and on the 2 by 2
    matrix with entries [47453133, 1, 1, 47453134] multiplied by itself
    the product [(a + d) * (e + h)] of [_strassen2x2] exceeds [2^53] and is
    rounded, so that the last entry of the result of [solve()] is
    [2251799926421956] while [naiveMultiply] gives the exact
    [2251799926421957]. *)
Lemma strassen_rounding_differs :
  let A := [[47453133; 1]; [1; 47453134]] in
  Strassen.square 2 A ∧
  ∃ r, Strassen.solve A A = Strassen.Returns r ∧
       Strassen.result r ≠ Strassen.naiveMultiply A A ∧
       cell (Strassen.result r) 1 1 = 2251799926421956 ∧
       cell (Strassen.naiveMultiply A A) 1 1 = 2251799926421957 ∧
       Strassen.dot 2 A A 1 1 = 2251799926421957.
Proof.
  split; [apply square_literal_2|].
  eexists. split; [vm_compute; reflexivity|].
  split; [vm_compute; discriminate|].
  split; [vm_compute; reflexivity|]. split; vm_compute; reflexivity.
Qed.
(* ================================================================== *)
(** * Part III: further properties of the solvers                      *)
(* ================================================================== *)

(** ** Knapsack: the table holds optimal values *)

Section KnapsackOptimal.
Variable capacity : nat.
Variable weights : list nat.
Variable values : list Z.

Local Abbreviation t := (dp (Knapsack.solve capacity weights values)).
Local Abbreviation n := (length weights).

(** A decision cell, spelled out. *)
Lemma solved_cell_step i w :
  (i < n)%nat → (1 ≤ w ≤ capacity)%nat →
  cell t (S i) w =
    if (w <? Knapsack.weight_at weights i)%nat then cell t i w
    else Z.max (Knapsack.value_at values i
                + cell t i (w - Knapsack.weight_at weights i))
               (cell t i w).
Proof.
  intros Hi Hw. rewrite solved_cell by lia.
  unfold Knapsack.recurrence, Knapsack.include_of, Knapsack.exclude_of.
  replace ((S i =? 0)%nat || (w =? 0)%nat) with false
    by (symmetry; apply orb_false_iff; split; apply Nat.eqb_neq; lia).
  by rewrite Nat.sub_succ, Nat.sub_0_r.
Qed.

Lemma solved_cell_grows i w :
  (i < n)%nat → (w ≤ capacity)%nat → cell t i w ≤ cell t (S i) w.
Proof.
  intros Hi Hw. destruct (decide (w = 0%nat)) as [->|Hne].
  - rewrite !solved_cell_base by (lia || auto). done.
  - rewrite (solved_cell_step i w) by lia.
    destruct (w <? _)%nat; lia.
Qed.

Lemma solved_cell_nonneg i : ∀ w,
  (i ≤ n)%nat → (w ≤ capacity)%nat → 0 ≤ cell t i w.
Proof.
  induction i as [|i IH]; intros w Hi Hw.
  - rewrite solved_cell_base by (lia || auto). done.
  - etrans; [apply (IH w); lia|]. apply solved_cell_grows; lia.
Qed.

Lemma solved_cell_wider i : ∀ w,
  (i ≤ n)%nat → (S w ≤ capacity)%nat → cell t i w ≤ cell t i (S w).
Proof.
  induction i as [|i IH]; intros w Hi Hw.
  - rewrite !solved_cell_base by (lia || auto). done.
  - destruct (decide (w = 0%nat)) as [->|Hne].
    + rewrite (solved_cell_base capacity weights values (S i) 0) by (lia || auto).
      apply solved_cell_nonneg; lia.
    + rewrite (solved_cell_step i w), (solved_cell_step i (S w)) by lia.
      pose proof (IH w ltac:(lia) ltac:(lia)).
      destruct (Nat.ltb_spec w (Knapsack.weight_at weights i)),
               (Nat.ltb_spec (S w) (Knapsack.weight_at weights i)); try lia.
      pose proof (IH (w - Knapsack.weight_at weights i)%nat ltac:(lia) ltac:(lia)).
      replace (S w - Knapsack.weight_at weights i)%nat
        with (S (w - Knapsack.weight_at weights i)) by lia.
      lia.
Qed.


Hypothesis Hlen : length weights = length values.
Hypothesis Hpos : Forall (λ x, (0 < x)%nat) weights.

Lemma item_weight_pos k : (k < n)%nat → (0 < Knapsack.weight_at weights k)%nat.
Proof.
  intros Hk. destruct (lookup_lt_is_Some_2 weights k Hk) as [x Hx].
  unfold Knapsack.weight_at. rewrite Hx. simpl.
  exact (Forall_lookup_1 _ _ _ _ Hpos Hx).
Qed.

Lemma selection_weight_pos items :
  Forall (λ k, (1 ≤ k ≤ n)%nat) items → items ≠ [] →
  (0 < Traceback.total_weight weights items)%nat.
Proof.
  intros Hall Hne. destruct items as [|k items]; [done|].
  apply Forall_cons in Hall as [Hk _]. simpl.
  pose proof (item_weight_pos (k - 1) ltac:(lia)) as H.
  unfold Knapsack.weight_at in H. lia.
Qed.


End KnapsackOptimal.



(** X2. The solved table is non-negative and non-decreasing along both
    axes, whatever the signs of the values: adding an item or a unit of
    capacity never lowers a cell. *)
Theorem knapsack_table_monotone
    (capacity : nat) (weights : list nat) (values : list Z) (i w : nat) :
  length weights = length values →
  (i ≤ length weights)%nat → (w ≤ capacity)%nat →
  let t := dp (Knapsack.solve capacity weights values) in
  0 ≤ cell t i w ∧
  ((i < length weights)%nat → cell t i w ≤ cell t (S i) w) ∧
  ((w < capacity)%nat → cell t i w ≤ cell t i (S w)).
Proof.
  intros _ Hi Hw t. split; [by apply solved_cell_nonneg|]. split.
  - intros Hlt. by apply solved_cell_grows.
  - intros Hlt. apply solved_cell_wider; lia.
Qed.

Lemma knapsack_table_monotone_witness :
  0 ≤ cell (dp (Knapsack.solve 5 [2; 3; 4; 5]%nat [3; 4; 5; 6])) 4 5.
Proof.
  refine (proj1 (knapsack_table_monotone 5 [2; 3; 4; 5]%nat [3; 4; 5; 6] 4 5
                   eq_refl _ _)); simpl; lia.
Defined.

(** ** LCS: the table holds the lengths of longest common subsequences *)

Lemma string_get_lookup (s : string) (i : nat) :
  String.get i s = list_ascii_of_string s !! i.
Proof.
  revert i. induction s as [|a s IH]; intros [|i]; simpl; auto.
Qed.

Lemma string_length_list (s : string) :
  String.length s = length (list_ascii_of_string s).
Proof. induction s as [|a s IH]; simpl; [done|]. by rewrite IH. Qed.

(** A subsequence of [l ++ [x]] either avoids the last element or ends
    with it. *)
Lemma sublist_snoc_inv {A : Type} (z l : list A) (x : A) :
  sublist z (l ++ [x]) →
  sublist z l ∨ ∃ z', z = z' ++ [x] ∧ sublist z' l.
Proof.
  intros H. apply sublist_app_r in H as (z1 & z2 & -> & H1 & H2).
  apply sublist_cons_r in H2 as [H2|(z3 & -> & H3)].
  - apply sublist_nil_r in H2 as ->. left. by rewrite app_nil_r.
  - apply sublist_nil_r in H3 as ->. right. by exists z1.
Qed.

Section LCSOptimal.
Variable str1 str2 : string.

Local Abbreviation t := (dp (LCS.solve str1 str2)).
Local Abbreviation a := (list_ascii_of_string str1).
Local Abbreviation b := (list_ascii_of_string str2).

Lemma lcs_solved_cell i j :
  (i ≤ length a)%nat → (j ≤ length b)%nat →
  cell t i j = LCS.recurrence str1 str2 t i j.
Proof.
  intros Hi Hj. destruct (lcs_solve_final str1 str2) as (_ & H & _).
  apply H; unfold LCS.rows, LCS.cols; by rewrite string_length_list.
Qed.

Lemma lcs_cell_base i j :
  (i ≤ length a)%nat → (j ≤ length b)%nat → i = 0%nat ∨ j = 0%nat →
  cell t i j = 0.
Proof.
  intros Hi Hj Hb. rewrite lcs_solved_cell by done. unfold LCS.recurrence.
  destruct Hb as [-> | ->]; by rewrite ?orb_true_r.
Qed.

Lemma lcs_cell_step i j x y :
  a !! i = Some x → b !! j = Some y →
  cell t (S i) (S j) =
    if decide (x = y) then 1 + cell t i j
    else Z.max (cell t i (S j)) (cell t (S i) j).
Proof.
  intros Hx Hy.
  pose proof (lookup_lt_Some _ _ _ Hx). pose proof (lookup_lt_Some _ _ _ Hy).
  rewrite lcs_solved_cell by lia.
  unfold LCS.recurrence, LCS.chars_match, LCS.char_at. simpl.
  rewrite !Nat.sub_0_r, !string_get_lookup, Hx, Hy.
  destruct (decide (x = y)) as [->|Hne].
  - by rewrite bool_decide_eq_true_2.
  - rewrite bool_decide_eq_false_2 by congruence. done.
Qed.

Lemma lcs_cell_nonneg i : ∀ j,
  (i ≤ length a)%nat → (j ≤ length b)%nat → 0 ≤ cell t i j.
Proof.
  induction i as [|i IHi]; intros j Hi Hj.
  - rewrite lcs_cell_base by (lia || auto). done.
  - induction j as [|j IHj].
    + rewrite lcs_cell_base by (lia || auto). done.
    + destruct (lookup_lt_is_Some_2 a i) as [x Hx]; [lia|].
      destruct (lookup_lt_is_Some_2 b j) as [y Hy]; [lia|].
      rewrite (lcs_cell_step i j x y) by done.
      pose proof (IHi j ltac:(lia) ltac:(lia)).
      pose proof (IHi (S j) ltac:(lia) ltac:(lia)).
      destruct (decide (x = y)); lia.
Qed.

(** No common subsequence of the prefixes is longer than the cell. *)
Lemma lcs_cell_upper i : ∀ j z,
  (i ≤ length a)%nat → (j ≤ length b)%nat →
  sublist z (take i a) → sublist z (take j b) →
  Z.of_nat (length z) ≤ cell t i j.
Proof.
  induction i as [|i IHi]; intros j z Hi Hj Ha Hb.
  - simpl in Ha. apply sublist_nil_r in Ha as ->.
    rewrite lcs_cell_base by (lia || auto). done.
  - revert z Ha Hb. induction j as [|j IHj]; intros z Ha Hb.
    + simpl in Hb. apply sublist_nil_r in Hb as ->.
      rewrite lcs_cell_base by (lia || auto). done.
    + destruct (lookup_lt_is_Some_2 a i) as [x Hx]; [lia|].
      destruct (lookup_lt_is_Some_2 b j) as [y Hy]; [lia|].
      rewrite (lcs_cell_step i j x y) by done.
      rewrite (take_S_r _ _ _ Hx) in Ha. rewrite (take_S_r _ _ _ Hy) in Hb.
      pose proof (lcs_cell_nonneg i j ltac:(lia) ltac:(lia)) as Hnn.
      destruct (sublist_snoc_inv _ _ _ Ha) as [Ha'|(z1 & -> & Ha')];
        destruct (sublist_snoc_inv _ _ _ Hb) as [Hb'|(z2 & Hz2 & Hb')].
      * pose proof (IHi j z ltac:(lia) ltac:(lia) Ha' Hb').
        pose proof (IHi (S j) z ltac:(lia) ltac:(lia) Ha'
                      ltac:(by rewrite (take_S_r _ _ _ Hy))).
        destruct (decide (x = y)); lia.
      * subst z.
        assert (Hz2a : sublist z2 (take i a)).
        { etrans; [|exact Ha']. by apply sublist_inserts_r. }
        pose proof (IHi j z2 ltac:(lia) ltac:(lia) Hz2a Hb').
        pose proof (IHi (S j) (z2 ++ [y]) ltac:(lia) ltac:(lia) Ha'
                      ltac:(by rewrite (take_S_r _ _ _ Hy))) as H2.
        rewrite length_app in H2 |- *. simpl in H2 |- *.
        destruct (decide (x = y)); lia.
      * assert (Hz1b : sublist z1 (take j b)).
        { etrans; [|exact Hb']. by apply sublist_inserts_r. }
        pose proof (IHi j z1 ltac:(lia) ltac:(lia) Ha' Hz1b).
        pose proof (IHj ltac:(lia) (z1 ++ [x])
                      ltac:(by rewrite (take_S_r _ _ _ Hx)) Hb') as H2.
        rewrite length_app in H2 |- *. simpl in H2 |- *.
        destruct (decide (x = y)); lia.
      * apply app_inj_tail in Hz2 as [-> ->].
        pose proof (IHi j z2 ltac:(lia) ltac:(lia) Ha' Hb').
        rewrite length_app. simpl.
        rewrite decide_True by done. lia.
Qed.

(** Some common subsequence of the prefixes is as long as the cell. *)
Lemma lcs_cell_attained i : ∀ j,
  (i ≤ length a)%nat → (j ≤ length b)%nat →
  ∃ z, sublist z (take i a) ∧ sublist z (take j b) ∧
       Z.of_nat (length z) = cell t i j.
Proof.
  induction i as [|i IHi]; intros j Hi Hj.
  - exists []. rewrite lcs_cell_base by (lia || auto).
    repeat split; apply sublist_nil_l.
  - induction j as [|j IHj].
    + exists []. rewrite lcs_cell_base by (lia || auto).
      repeat split; apply sublist_nil_l.
    + destruct (lookup_lt_is_Some_2 a i) as [x Hx]; [lia|].
      destruct (lookup_lt_is_Some_2 b j) as [y Hy]; [lia|].
      rewrite (lcs_cell_step i j x y) by done.
      rewrite (take_S_r _ _ _ Hx), (take_S_r _ _ _ Hy).
      destruct (decide (x = y)) as [->|Hne].
      * destruct (IHi j ltac:(lia) ltac:(lia)) as (z & H1 & H2 & H3).
        exists (z ++ [y]). split; [|split].
        -- by apply sublist_app.
        -- by apply sublist_app.
        -- rewrite length_app. simpl. lia.
      * destruct (Z.max_spec (cell t i (S j)) (cell t (S i) j)) as [[_ ->]|[_ ->]].
        -- destruct (IHj ltac:(lia)) as (z & H1 & H2 & H3).
           exists z. rewrite (take_S_r _ _ _ Hx) in H1.
           split; [done|]. split; [by apply sublist_inserts_r|done].
        -- destruct (IHi (S j) ltac:(lia) ltac:(lia)) as (z & H1 & H2 & H3).
           exists z. rewrite (take_S_r _ _ _ Hy) in H2.
           split; [by apply sublist_inserts_r|]. done.
Qed.

End LCSOptimal.

(** X3. [dp[i][j]] of the solved LCS table is the length of a longest
    common subsequence of the first [i] characters of [str1] and the
    first [j] characters of [str2]: no common subsequence is longer and
    one has exactly that length. *)
Theorem lcs_table_optimal (str1 str2 : string) (i j : nat) :
  (i ≤ String.length str1)%nat → (j ≤ String.length str2)%nat →
  let t := dp (LCS.solve str1 str2) in
  let X := take i (list_ascii_of_string str1) in
  let Y := take j (list_ascii_of_string str2) in
  (∀ z, sublist z X → sublist z Y → Z.of_nat (length z) ≤ cell t i j) ∧
  (∃ z, sublist z X ∧ sublist z Y ∧ Z.of_nat (length z) = cell t i j).
Proof.
  rewrite !string_length_list. intros Hi Hj t X Y. split.
  - intros z. by apply lcs_cell_upper.
  - by apply lcs_cell_attained.
Qed.

Lemma lcs_table_optimal_witness :
  ∃ z, sublist z (take 3 (list_ascii_of_string "ABC")) ∧
       sublist z (take 3 (list_ascii_of_string "BDC")) ∧
       Z.of_nat (length z) = cell (dp (LCS.solve "ABC" "BDC")) 3 3.
Proof.
  refine (proj2 (lcs_table_optimal "ABC" "BDC" 3 3 _ _)); simpl; lia.
Defined.

(** ** LCS traceback *)

Lemma string_of_list_ascii_snoc (z : list ascii) (y : ascii) (r : string) :
  string_of_list_ascii z +:+ String y r = string_of_list_ascii (z ++ [y]) +:+ r.
Proof.
  induction z as [|x z IH]; [done|].
  change (String x (string_of_list_ascii z +:+ String y r)
          = String x (string_of_list_ascii (z ++ [y]) +:+ r)).
  by rewrite IH.
Qed.

Section LcsWalkFacts.
Variable dpTable : list (list Z).
Variable s1 s2 : string.

Local Abbreviation walk := (Traceback._animateLCSTraceback dpTable s1 s2).

Lemma lcs_walk_done i j chars s :
  i = 0%nat ∨ j = 0%nat →
  walk i j chars s
  = Traceback._completeLcsTraceback (Traceback.set_lcsResult chars s).
Proof. intros [-> | ->]; [by destruct j|by destruct i]. Qed.

Lemma lcs_walk_unfold i j chars s :
  walk (S i) (S j) chars s =
    let s := Traceback._markLcsVisited (S i) (S j) s in
    let char1 := LCS.char_at s1 (S i - 1) in
    let char2 := LCS.char_at s2 (S j - 1) in
    if bool_decide (char1 = char2) then walk i j (char1 :: chars) s
    else if cell dpTable (S i) (S j - 1) <=? cell dpTable (S i - 1) (S j)
         then walk i (S j) chars s
         else walk (S i) j chars s.
Proof. reflexivity. Qed.

(** One iteration of the loop, with the move taken from [_logMove]. *)
Lemma lcs_walk_step i j chars s :
  walk (S i) (S j) chars s =
    let s := Traceback._markLcsVisited (S i) (S j) s in
    let char1 := LCS.char_at s1 i in
    let char2 := LCS.char_at s2 j in
    if bool_decide (char1 = char2) then walk i j (char1 :: chars) s
    else let '(i2, j2) := Traceback._logMove dpTable (S i) (S j) in
         walk i2 j2 chars s.
Proof.
  rewrite lcs_walk_unfold. cbn zeta. unfold Traceback._logMove.
  rewrite !Nat.sub_succ, !Nat.sub_0_r.
  destruct (bool_decide _); [done|].
  by destruct (_ <=? _).
Qed.

(** The result of the walk depends on the cell and the characters
    gathered so far only. *)
Lemma lcs_walk_result i : ∀ j chars s s',
  Traceback.lcsResult (walk i j chars s) = Traceback.lcsResult (walk i j chars s').
Proof.
  induction i as [|i IHi]; intros j chars s s'.
  - by rewrite !lcs_walk_done by auto.
  - revert chars s s'. induction j as [|j IHj]; intros chars s s'.
    + by rewrite !lcs_walk_done by auto.
    + rewrite !lcs_walk_step. cbn zeta.
      destruct (bool_decide _); [apply IHi|].
      unfold Traceback._logMove. rewrite !Nat.sub_succ, !Nat.sub_0_r.
      destruct (_ <=? _); [apply IHi|apply IHj].
Qed.

(** A monk-mode state as the automatic walk resumed from its cell. *)
Local Abbreviation outcome := (λ m : Traceback.LcsMonk,
  Traceback.lcsResult
    (walk (Traceback.lcs_i m) (Traceback.lcs_j m) (Traceback.lcsChars m)
       (Traceback.lcs_manager m))).

Local Abbreviation settled := (λ m : Traceback.LcsMonk,
  Traceback.lcs_i m = 0%nat ∨ Traceback.lcs_j m = 0%nat →
  Traceback.lcsResult (Traceback.lcs_manager m)
  = Traceback.join_chars (Traceback.lcsChars m)).

Lemma lcs_processStep_outcome row col m :
  settled m →
  outcome (Traceback.lcs_processStep dpTable s1 s2 row col m) = outcome m ∧
  settled (Traceback.lcs_processStep dpTable s1 s2 row col m).
Proof.
  intros Hm. unfold Traceback.lcs_processStep.
  destruct m as [i j chars s]. cbn [Traceback.lcs_i Traceback.lcs_j
    Traceback.lcsChars Traceback.lcs_manager] in *.
  destruct ((i =? 0)%nat || (j =? 0)%nat) eqn:Eb.
  - apply orb_true_iff in Eb. rewrite !Nat.eqb_eq in Eb.
    cbn [Traceback.lcs_i Traceback.lcs_j Traceback.lcsChars
      Traceback.lcs_manager].
    split; [by rewrite !lcs_walk_done by done|]. done.
  - apply orb_false_iff in Eb as [Ei Ej]. apply Nat.eqb_neq in Ei, Ej.
    destruct i as [|i]; [done|]. destruct j as [|j]; [done|].
    pose proof (lcs_walk_step i j chars s) as Hstep. cbn zeta in Hstep.
    unfold Traceback._logMove in Hstep.
    unfold Traceback._expectedLcsMove.
    rewrite !Nat.sub_succ, !Nat.sub_0_r in Hstep |- *.
    assert (Hkeep : ∀ m' : Traceback.LcsMonk,
              m' = Traceback.mkLcsMonk (S i) (S j) chars s →
              outcome m' = outcome (Traceback.mkLcsMonk (S i) (S j) chars s) ∧
              settled m').
    { intros m' ->. split; [done|]. intros [?|?]; done. }
    assert (Hmove : ∀ i2 j2 chars2,
              Traceback.lcsResult
                (walk (S i) (S j) chars s)
              = Traceback.lcsResult
                  (walk i2 j2 chars2 (Traceback._markLcsVisited (S i) (S j) s)) →
              ∀ m', m' = (if (i2 =? 0)%nat || (j2 =? 0)%nat
                          then Traceback.mkLcsMonk i2 j2 chars2
                                 (Traceback._completeLcsTraceback
                                    (Traceback.set_lcsResult chars2
                                       (Traceback._markLcsVisited (S i) (S j) s)))
                          else Traceback.mkLcsMonk i2 j2 chars2
                                 (Traceback._enableLcsCellClicks
                                    (Traceback._markLcsVisited (S i) (S j) s))) →
              outcome m' = outcome (Traceback.mkLcsMonk (S i) (S j) chars s) ∧
              settled m').
    { intros i2 j2 chars2 Hw m' ->.
      cbn [Traceback.lcs_i Traceback.lcs_j Traceback.lcsChars
        Traceback.lcs_manager]. rewrite Hw.
      destruct ((i2 =? 0)%nat || (j2 =? 0)%nat) eqn:Eb;
        cbn [Traceback.lcs_i Traceback.lcs_j Traceback.lcsChars
          Traceback.lcs_manager].
      - apply orb_true_iff in Eb. rewrite !Nat.eqb_eq in Eb.
        split; [by rewrite !lcs_walk_done by done|done].
      - apply orb_false_iff in Eb as [Ei' Ej']. apply Nat.eqb_neq in Ei', Ej'.
        split; [apply lcs_walk_result|]. intros [?|?]; done. }
    destruct (bool_decide (LCS.char_at s1 i = LCS.char_at s2 j)).
    + destruct ((row =? i)%nat && (col =? j)%nat); [|by apply Hkeep].
      apply (Hmove i j (LCS.char_at s1 i :: chars)); [by rewrite Hstep|done].
    + destruct (cell dpTable (S i) j <=? cell dpTable i (S j)).
      * destruct ((row =? i)%nat && (col =? S j)%nat); [|by apply Hkeep].
        apply (Hmove i (S j) chars); [by rewrite Hstep|done].
      * destruct ((row =? S i)%nat && (col =? j)%nat); [|by apply Hkeep].
        apply (Hmove (S i) j chars); [by rewrite Hstep|done].
Qed.

Lemma lcs_clicks_outcome cs : ∀ m,
  settled m →
  outcome (Traceback.lcs_clicks dpTable s1 s2 cs m) = outcome m ∧
  settled (Traceback.lcs_clicks dpTable s1 s2 cs m).
Proof.
  induction cs as [|[row col] cs IH]; intros m Hm; [done|].
  unfold Traceback.lcs_clicks. simpl.
  assert (Hc : outcome (Traceback.lcs_click dpTable s1 s2 row col m) = outcome m ∧
               settled (Traceback.lcs_click dpTable s1 s2 row col m)).
  { unfold Traceback.lcs_click.
    destruct (Traceback.lcs_cellClickHandler _); [|done].
    by apply lcs_processStep_outcome. }
  destruct Hc as [Hc1 Hc2].
  destruct (IH _ Hc2) as [H1 H2]. unfold Traceback.lcs_clicks in H1, H2.
  split; [|done]. by rewrite H1.
Qed.

End LcsWalkFacts.

Section LcsWalkSolved.
Variable str1 str2 : string.

Local Abbreviation t := (dp (LCS.solve str1 str2)).
Local Abbreviation a := (list_ascii_of_string str1).
Local Abbreviation b := (list_ascii_of_string str2).
Local Abbreviation walk := (Traceback._animateLCSTraceback t str1 str2).

(** On the solved table the walk from [(i, j)] puts a common subsequence
    of the two prefixes, of length [dp[i][j]], in front of the characters
    gathered so far. *)
Lemma lcs_walk_solved i : ∀ j chars s,
  (i ≤ length a)%nat → (j ≤ length b)%nat →
  ∃ z, Traceback.lcsResult (walk i j chars s)
       = string_of_list_ascii z +:+ Traceback.join_chars chars ∧
       sublist z (take i a) ∧ sublist z (take j b) ∧
       Z.of_nat (length z) = cell t i j.
Proof.
  induction i as [|i IHi]; intros j chars s Hi Hj.
  - exists []. rewrite lcs_walk_done, lcs_cell_base by (lia || auto).
    repeat split; apply sublist_nil_l.
  - revert chars s. induction j as [|j IHj]; intros chars s.
    + exists []. rewrite lcs_walk_done, lcs_cell_base by (lia || auto).
      repeat split; apply sublist_nil_l.
    + destruct (lookup_lt_is_Some_2 a i) as [x Hx]; [lia|].
      destruct (lookup_lt_is_Some_2 b j) as [y Hy]; [lia|].
      rewrite lcs_walk_step, (lcs_cell_step str1 str2 i j x y) by done.
      cbn zeta. unfold LCS.char_at. rewrite !string_get_lookup, Hx, Hy.
      rewrite (take_S_r _ _ _ Hx), (take_S_r _ _ _ Hy).
      destruct (decide (x = y)) as [->|Hne].
      * rewrite bool_decide_eq_true_2 by done.
        destruct (IHi j (Some y :: chars)
                    (Traceback._markLcsVisited (S i) (S j) s)
                    ltac:(lia) ltac:(lia)) as (z & Hr & H1 & H2 & H3).
        exists (z ++ [y]). split; [|split; [|split]].
        -- rewrite Hr. simpl. apply string_of_list_ascii_snoc.
        -- by apply sublist_app.
        -- by apply sublist_app.
        -- rewrite length_app. simpl. lia.
      * rewrite bool_decide_eq_false_2 by congruence.
        unfold Traceback._logMove. rewrite !Nat.sub_succ, !Nat.sub_0_r.
        destruct (Z.leb_spec (cell t (S i) j) (cell t i (S j))) as [Hle|Hgt].
        -- destruct (IHi (S j) chars (Traceback._markLcsVisited (S i) (S j) s)
                       ltac:(lia) ltac:(lia)) as (z & Hr & H1 & H2 & H3).
           rewrite (take_S_r _ _ _ Hy) in H2.
           exists z. split; [done|]. split; [by apply sublist_inserts_r|].
           split; [done|]. lia.
        -- destruct (IHj ltac:(lia) chars
                       (Traceback._markLcsVisited (S i) (S j) s))
             as (z & Hr & H1 & H2 & H3).
           rewrite (take_S_r _ _ _ Hx) in H1.
           exists z. split; [done|]. split; [done|].
           split; [by apply sublist_inserts_r|]. lia.
Qed.

End LcsWalkSolved.

Lemma string_app_nil_r (s : string) : s +:+ EmptyString = s.
Proof.
  induction s as [|x s IH]; [done|].
  change (String x (s +:+ EmptyString) = String x s). by rewrite IH.
Qed.

(** X4. On the solved LCS table the traceback from [(m, n)] ends with
    [lcsResult] a common subsequence of the two strings whose length is
    [dp[m][n]], and no common subsequence is longer. *)
Theorem lcs_traceback_longest (str1 str2 : string) :
  let t := dp (LCS.solve str1 str2) in
  let z := list_ascii_of_string
             (Traceback.lcsResult (Traceback._startLCSTraceback t str1 str2)) in
  sublist z (list_ascii_of_string str1) ∧
  sublist z (list_ascii_of_string str2) ∧
  Z.of_nat (length z) = cell t (String.length str1) (String.length str2) ∧
  ∀ z', sublist z' (list_ascii_of_string str1) →
        sublist z' (list_ascii_of_string str2) →
        (length z' ≤ length z)%nat.
Proof.
  intros t z. subst z t. unfold Traceback._startLCSTraceback, LCS.rows, LCS.cols.
  rewrite !string_length_list.
  destruct (lcs_walk_solved str1 str2 (length (list_ascii_of_string str1))
              (length (list_ascii_of_string str2)) []
              (Traceback.mkLcsState [] EmptyString true false))
    as (z & Hr & H1 & H2 & H3); [done|done|].
  rewrite !firstn_all in H1, H2.
  rewrite Hr. simpl. rewrite string_app_nil_r, list_ascii_of_string_of_list_ascii.
  split; [done|]. split; [done|]. split; [done|].
  intros z' Ha Hb.
  pose proof (lcs_cell_upper str1 str2 (length (list_ascii_of_string str1))
                (length (list_ascii_of_string str2)) z') as Hup.
  rewrite !firstn_all in Hup. specialize (Hup ltac:(done) ltac:(done) Ha Hb).
  lia.
Qed.

(** X5. In monk mode of the LCS traceback, whatever cells are clicked,
    once the walk has reached row 0 or column 0 the manager holds the
    [lcsResult] of the automatic walk over the same table. *)
Theorem lcs_monk_matches_walk
    (dpTable : list (list Z)) (s1 s2 : string) (cs : list (nat * nat)) :
  let m := Traceback.lcs_clicks dpTable s1 s2 cs
             (Traceback._setupMonkModeLCS s1 s2) in
  Traceback.lcs_i m = 0%nat ∨ Traceback.lcs_j m = 0%nat →
  Traceback.lcsResult (Traceback.lcs_manager m)
  = Traceback.lcsResult (Traceback._startLCSTraceback dpTable s1 s2).
Proof.
  intros m Hend.
  destruct (lcs_clicks_outcome dpTable s1 s2 cs (Traceback._setupMonkModeLCS s1 s2))
    as [H1 H2]; [done|].
  fold m in H1, H2. rewrite (H2 Hend).
  rewrite lcs_walk_done in H1 by done. simpl in H1. rewrite H1.
  apply lcs_walk_result.
Qed.

Lemma lcs_monk_matches_walk_witness :
  let t := dp (LCS.solve "AB" "B") in
  Traceback.lcsResult
    (Traceback.lcs_manager
       (Traceback.lcs_clicks t "AB" "B" [(1, 0)]%nat
          (Traceback._setupMonkModeLCS "AB" "B")))
  = Traceback.lcsResult (Traceback._startLCSTraceback t "AB" "B").
Proof.
  intros t.
  apply (lcs_monk_matches_walk t "AB" "B" [(1, 0)]%nat).
  right. vm_compute. reflexivity.
Defined.

(** ** Heap: the trace of the sift-down *)

Section HeapTrace.
Local Abbreviation swaps_of := (λ s : Heap.State, Heap.getSwapSequence (Heap.steps s)).

Lemma getSwapSequence_app (l1 l2 : list Heap.Step) :
  Heap.getSwapSequence (l1 ++ l2)
  = Heap.getSwapSequence l1 ++ Heap.getSwapSequence l2.
Proof. apply omap_app. Qed.

Lemma replay_app (l1 l2 : list Heap.SwapPair) (a : list Z) :
  Heap.replay (l1 ++ l2) a = Heap.replay l2 (Heap.replay l1 a).
Proof. apply fold_left_app. Qed.

(** A recorded step that is not a swap leaves everything but the trace
    alone, and adds no swap to it. *)
Lemma record_quiet (ty : Heap.StepType) (descr : string) (f : Heap.Fields)
    (s : Heap.State) :
  ty ≠ Heap.t_swap →
  swaps_of (Heap.record ty descr f s) = swaps_of s.
Proof.
  intros Hty. unfold Heap.record. cbn [Heap.steps].
  rewrite getSwapSequence_app. cbn.
  destruct ty; try done; by rewrite app_nil_r.
Qed.

(** What one [_heapifyNode] adds to the trace and to the counters. *)
Definition heapify_effect (d : nat) (s s' : Heap.State) (ps : list Heap.SwapPair)
    : Prop :=
  swaps_of s' = swaps_of s ++ ps ∧
  Heap.array s' = Heap.replay ps (Heap.array s) ∧
  Heap.swapCount s' = (Heap.swapCount s + length ps)%nat ∧
  Heap.heapifyCalls s' = (Heap.heapifyCalls s + 1 + length ps)%nat ∧
  Heap.recursiveCalls s'
  = (Heap.recursiveCalls s + length ps + (if (0 <? d)%nat then 1 else 0))%nat ∧
  Forall (Heap.sift_swap (length (Heap.array s))) ps.

Lemma pickLargestChild_quiet (i l1 l2 hs lg d : nat) (s : Heap.State) :
  let r := Heap._pickLargestChild i l1 l2 hs lg d s in
  swaps_of r.2 = swaps_of s ∧
  Heap.swapCount r.2 = Heap.swapCount s ∧
  Heap.heapifyCalls r.2 = Heap.heapifyCalls s ∧
  Heap.recursiveCalls r.2 = Heap.recursiveCalls s.
Proof.
  cbv zeta. unfold Heap._pickLargestChild.
  destruct (_ && _); cbv beta iota zeta;
    destruct (_ && _); cbn [snd];
    unfold Heap._recordCompare; rewrite ?record_quiet by done; done.
Qed.

Lemma heapify_trace (fuel : nat) : ∀ (c d : nat) (s : Heap.State),
  (length (Heap.array s) - c < fuel)%nat → (c < length (Heap.array s))%nat →
  ∃ ps, heapify_effect d s
          (Heap.heapify_fuel fuel c (length (Heap.array s)) d s) ps.
Proof.
  induction fuel as [|fuel IH]; intros c d s Hfuel Hc; [lia|].
  cbn [Heap.heapify_fuel].
  set (s1 := Heap.mkState _ _ _ _ _ _).
  set (s2 := Heap._recordHeapifyStart c (2 * c + 1) (2 * c + 2) d s1).
  assert (Ha2 : Heap.array s2 = Heap.array s) by reflexivity.
  assert (Hsw2 : swaps_of s2 = swaps_of s).
  { subst s2. unfold Heap._recordHeapifyStart. by rewrite record_quiet. }
  destruct (lookup_lt_is_Some_2 (Heap.array s) c Hc) as [x Hx].
  destruct (pickLargestChild_spec c (2 * c + 1) (2 * c + 2) d s2 x)
    as (l & s3 & v & Hpick & Ha3 & Ho3 & Hl & Hxv & Hcase & Hle1 & Hle2);
    [by rewrite Ha2|].
  pose proof (pickLargestChild_quiet c (2 * c + 1) (2 * c + 2)
                (length (Heap.array s2)) c d s2) as Hq.
  rewrite Ha2 in Hpick, Ha3, Hl, Hq. rewrite Hpick in Hq |- *.
  cbn [snd] in Hq. destruct Hq as (Hsw3 & Hc3 & Hh3 & Hr3).
  case_bool_decide as Hne.
  - destruct Hcase as [?|[Hlt Hchild]]; [done|].
    unfold Heap._swapAndRecurse.
    set (s4 := Heap._recordRecurse _ _ _ _).
    pose proof (lookup_lt_Some _ _ _ Hl) as Hllt.
    assert (Ha4 : Heap.array s4 = Heap.swap_at (Heap.array s) c l)
      by (subst s4; simpl; by rewrite Ha3).
    assert (Hlen : length (Heap.array s4) = length (Heap.array s))
      by (by rewrite Ha4, swap_at_length).
    assert (Hsw4 : swaps_of s4
                   = swaps_of s ++ [Heap.mkSwapPair c l (Some x) (Some v)]).
    { subst s4. unfold Heap._recordRecurse, Heap._recordAfterSwap.
      rewrite !record_quiet by done. cbn [Heap.steps Heap.set_array].
      unfold Heap._recordSwap, Heap.record. cbn [Heap.steps].
      rewrite getSwapSequence_app, Hsw3, Hsw2. cbn.
      by rewrite Ha3, Hx, Hl. }
    destruct (IH l (d + 1)%nat s4) as (ps & Hp1 & Hp2 & Hp3 & Hp4 & Hp5 & Hp6);
      [lia|lia|].
    rewrite Hlen in Hp1, Hp2, Hp3, Hp4, Hp5, Hp6.
    exists (Heap.mkSwapPair c l (Some x) (Some v) :: ps).
    split; [|split; [|split; [|split; [|split]]]].
    + rewrite Hp1, Hsw4, <- app_assoc. done.
    + rewrite Hp2, Ha4. done.
    + rewrite Hp3. subst s4. simpl. rewrite Hc3. simpl. lia.
    + rewrite Hp4. subst s4. simpl. rewrite Hh3. simpl. lia.
    + rewrite Hp5. subst s4. simpl. rewrite Hr3. simpl.
      replace (0 <? d + 1)%nat with true by (symmetry; apply Nat.ltb_lt; lia).
      destruct (0 <? d)%nat; lia.
    + constructor; [|done]. split; [|split].
      * simpl. lia.
      * done.
      * by exists x, v.
  - exists []. unfold Heap._recordNoSwap.
    split; [|split; [|split; [|split; [|split]]]].
    + rewrite record_quiet by done. by rewrite Hsw3, Hsw2, app_nil_r.
    + simpl. by rewrite Ha3.
    + simpl. rewrite Hc3. simpl. lia.
    + simpl. rewrite Hh3. simpl. lia.
    + simpl. rewrite Hr3. simpl. destruct (0 <? d)%nat; lia.
    + constructor.
Qed.

End HeapTrace.

Section HeapBuildTrace.
Local Abbreviation swaps_of := (λ s : Heap.State, Heap.getSwapSequence (Heap.steps s)).

(** A step of the loop body that only records. *)
Definition recording (f : Heap.State → Heap.State) : Prop :=
  ∀ s, Heap.array (f s) = Heap.array s ∧ swaps_of (f s) = swaps_of s ∧
       Heap.swapCount (f s) = Heap.swapCount s ∧
       Heap.heapifyCalls (f s) = Heap.heapifyCalls s ∧
       Heap.recursiveCalls (f s) = Heap.recursiveCalls s.

Lemma recording_record ty descr f :
  ty ≠ Heap.t_swap → recording (λ s, Heap.record ty (descr s) (f s) s).
Proof. intros Hty s. by rewrite record_quiet. Qed.

Lemma recording_id : recording (λ s, s).
Proof. done. Qed.

Lemma replay_length (ps : list Heap.SwapPair) (a : list Z) :
  length (Heap.replay ps a) = length a.
Proof.
  revert a. induction ps as [|p ps IH]; intros a; [done|].
  simpl. by rewrite IH, swap_at_length.
Qed.

Lemma replay_perm (ps : list Heap.SwapPair) (a : list Z) :
  Heap.replay ps a ≡ₚ a.
Proof.
  revert a. induction ps as [|p ps IH]; intros a; [done|].
  simpl. by rewrite IH, swap_at_perm.
Qed.

(** What the bottom-up loop adds to the trace and to the counters. *)
Lemma build_loop_trace (wrap_before wrap_after : nat → Heap.State → Heap.State)
    (s : Heap.State) :
  (∀ i, recording (wrap_before i)) → (∀ i, recording (wrap_after i)) →
  let k := Z.to_nat (Z.of_nat (length (Heap.array s)) / 2 - 1 + 1) in
  let s' := for_down k (λ i s,
              let s := wrap_before i s in
              let s := Heap._heapifyNode i (length (Heap.array s)) 0 s in
              wrap_after i s) s in
  ∃ ps, swaps_of s' = swaps_of s ++ ps ∧
        Heap.array s' = Heap.replay ps (Heap.array s) ∧
        Heap.swapCount s' = (Heap.swapCount s + length ps)%nat ∧
        Heap.heapifyCalls s' = (Heap.heapifyCalls s + k + length ps)%nat ∧
        Heap.recursiveCalls s' = (Heap.recursiveCalls s + length ps)%nat ∧
        Forall (Heap.sift_swap (length (Heap.array s))) ps.
Proof.
  intros Hb Ha k s'.
  assert (Hk : (2 * k ≤ length (Heap.array s))%nat).
  { subst k. Z.div_mod_to_equations. lia. }
  assert (H : ∃ ps, swaps_of s' = swaps_of s ++ ps ∧
        Heap.array s' = Heap.replay ps (Heap.array s) ∧
        Heap.swapCount s' = (Heap.swapCount s + length ps)%nat ∧
        Heap.heapifyCalls s' = (Heap.heapifyCalls s + (k - 0) + length ps)%nat ∧
        Heap.recursiveCalls s' = (Heap.recursiveCalls s + length ps)%nat ∧
        Forall (Heap.sift_swap (length (Heap.array s))) ps).
  { subst s'.
    apply (for_down_ind
             (λ i s0, ∃ ps, swaps_of s0 = swaps_of s ++ ps ∧
                Heap.array s0 = Heap.replay ps (Heap.array s) ∧
                Heap.swapCount s0 = (Heap.swapCount s + length ps)%nat ∧
                Heap.heapifyCalls s0
                = (Heap.heapifyCalls s + (k - i) + length ps)%nat ∧
                Heap.recursiveCalls s0 = (Heap.recursiveCalls s + length ps)%nat ∧
                Forall (Heap.sift_swap (length (Heap.array s))) ps)).
    - exists []. rewrite app_nil_r. repeat split; try done; simpl; try lia.
    - intros i s0 Hi (ps & H1 & H2 & H3 & H4 & H5 & H6). cbn zeta.
      destruct (Hb i s0) as (B1 & B2 & B3 & B4 & B5).
      set (s1 := wrap_before i s0) in *.
      assert (Hlen : length (Heap.array s1) = length (Heap.array s))
        by (by rewrite B1, H2, replay_length).
      destruct (heapify_trace (S (length (Heap.array s1) - i)) i 0 s1)
        as (qs & Q1 & Q2 & Q3 & Q4 & Q5 & Q6); [lia|lia|].
      fold (Heap._heapifyNode i (length (Heap.array s1)) 0 s1) in Q1, Q2, Q3, Q4, Q5.
      set (s2 := Heap._heapifyNode i (length (Heap.array s1)) 0 s1) in *.
      destruct (Ha i s2) as (A1 & A2 & A3 & A4 & A5).
      exists (ps ++ qs). rewrite length_app.
      split; [|split; [|split; [|split; [|split]]]].
      + by rewrite A2, Q1, B2, H1, <- app_assoc.
      + by rewrite A1, Q2, B1, H2, replay_app.
      + rewrite A3, Q3, B3, H3. lia.
      + rewrite A4, Q4, B4, H4. lia.
      + rewrite A5, Q5, B5, H5. simpl. lia.
      + apply Forall_app. split; [done|]. by rewrite <- Hlen. }
  rewrite Nat.sub_0_r in H. exact H.
Qed.

(** Sift-down at a node that already dominates its children records no
    swap and leaves the array as it is. *)
Lemma heapify_node_ok (fuel c d : nat) (s : Heap.State) :
  (c < length (Heap.array s))%nat → Heap.node_ok (Heap.array s) c →
  let s' := Heap.heapify_fuel (S fuel) c (length (Heap.array s)) d s in
  Heap.array s' = Heap.array s ∧ swaps_of s' = swaps_of s.
Proof.
  intros Hc Hok. cbn [Heap.heapify_fuel].
  set (s1 := Heap.mkState _ _ _ _ _ _).
  set (s2 := Heap._recordHeapifyStart c (2 * c + 1) (2 * c + 2) d s1).
  assert (Ha2 : Heap.array s2 = Heap.array s) by reflexivity.
  assert (Hsw2 : swaps_of s2 = swaps_of s).
  { subst s2. unfold Heap._recordHeapifyStart. by rewrite record_quiet. }
  destruct (lookup_lt_is_Some_2 (Heap.array s) c Hc) as [x Hx].
  destruct (pickLargestChild_spec c (2 * c + 1) (2 * c + 2) d s2 x)
    as (l & s3 & v & Hpick & Ha3 & Ho3 & Hl & Hxv & Hcase & Hle1 & Hle2);
    [by rewrite Ha2|].
  pose proof (pickLargestChild_quiet c (2 * c + 1) (2 * c + 2)
                (length (Heap.array s2)) c d s2) as Hq.
  rewrite Ha2 in Hpick, Ha3, Hl, Hq. rewrite Hpick in Hq |- *.
  cbn [snd] in Hq. destruct Hq as (Hsw3 & _).
  assert (l = c) as ->.
  { destruct Hcase as [?|[Hlt Hchild]]; [done|].
    destruct (Hok x Hx) as [H1 H2].
    destruct Hchild as [-> | ->]; [pose proof (H1 v Hl)|pose proof (H2 v Hl)]; lia. }
  rewrite bool_decide_eq_false_2 by (intros ?; done).
  unfold Heap._recordNoSwap. cbv zeta. rewrite record_quiet by done.
  split; [by simpl|]. by rewrite Hsw3.
Qed.

Lemma build_loop_of_heap (wrap_before wrap_after : nat → Heap.State → Heap.State)
    (s : Heap.State) :
  (∀ i, recording (wrap_before i)) → (∀ i, recording (wrap_after i)) →
  Heap.max_heap (Heap.array s) →
  let k := Z.to_nat (Z.of_nat (length (Heap.array s)) / 2 - 1 + 1) in
  let s' := for_down k (λ i s,
              let s := wrap_before i s in
              let s := Heap._heapifyNode i (length (Heap.array s)) 0 s in
              wrap_after i s) s in
  Heap.array s' = Heap.array s ∧ swaps_of s' = swaps_of s.
Proof.
  intros Hb Ha Hheap k s'.
  assert (Hk : (2 * k ≤ length (Heap.array s))%nat).
  { subst k. Z.div_mod_to_equations. lia. }
  subst s'.
  apply (for_down_ind
           (λ (i : nat) s0, Heap.array s0 = Heap.array s ∧ swaps_of s0 = swaps_of s)).
  - done.
  - intros i s0 Hi [H1 H2]. cbn zeta.
    destruct (Hb i s0) as (B1 & B2 & _).
    set (s1 := wrap_before i s0) in *.
    destruct (heapify_node_ok (length (Heap.array s1) - i) i 0 s1)
      as [Q1 Q2]; [rewrite B1, H1; lia|rewrite B1, H1; apply Hheap|].
    fold (Heap._heapifyNode i (length (Heap.array s1)) 0 s1) in Q1, Q2.
    destruct (Ha i (Heap._heapifyNode i (length (Heap.array s1)) 0 s1))
      as (A1 & A2 & _).
    split; [by rewrite A1, Q1, B1|by rewrite A2, Q2, B2].
Qed.

End HeapBuildTrace.

(** X6. [buildMaxHeap] counts what its trace shows: [swapCount] is the
    number of recorded swaps, every swap is followed by exactly one
    recursive call, and [heapifyCalls] is the [floor(n / 2)] calls of the
    loop plus one per swap. *)
Theorem buildMaxHeap_counters (input : list Z) :
  let result := Heap.buildMaxHeap (Heap.new input) in
  let swaps := Heap.getSwapSequence (Heap.build_steps result) in
  Heap.st_swapCount (Heap.build_stats result) = length swaps ∧
  Heap.st_recursiveCalls (Heap.build_stats result) = length swaps ∧
  Heap.st_heapifyCalls (Heap.build_stats result)
  = (length input / 2 + length swaps)%nat.
Proof.
  intros result swaps. subst result swaps. unfold Heap.buildMaxHeap. cbv zeta.
  set (s0 := Heap._recordInfo _ _).
  change (Heap.array (Heap._recordInit (Heap._resetState (Heap.new input))))
    with (Heap.array s0).
  destruct (build_loop_trace Heap._recordLoopStart Heap._recordLoopEnd s0)
    as (ps & H1 & H2 & H3 & H4 & H5 & H6).
  { intros i. apply recording_record. done. }
  { intros i. apply recording_record. done. }
  cbv zeta in H1, H2, H3, H4, H5.
  set (s' := for_down _ _ s0) in *.
  cbn [Heap.build_steps Heap.build_stats].
  unfold Heap._recordComplete. rewrite record_quiet by done.
  unfold Heap._stats, Heap.record.
  cbn [Heap.st_swapCount Heap.st_recursiveCalls Heap.st_heapifyCalls
       Heap.swapCount Heap.recursiveCalls Heap.heapifyCalls].
  rewrite H1, H3, H4, H5. change (Heap.array s0) with input.
  change (Heap.getSwapSequence (Heap.steps s0)) with (@nil Heap.SwapPair).
  change (Heap.swapCount s0) with 0%nat.
  change (Heap.heapifyCalls s0) with 0%nat.
  change (Heap.recursiveCalls s0) with 0%nat.
  simpl app. split; [lia|]. split; [lia|].
  assert (Z.to_nat (Z.of_nat (length input) / 2 - 1 + 1) = (length input / 2)%nat)
    as ->; [|lia].
  replace (Z.of_nat (length input) / 2 - 1 + 1) with (Z.of_nat (length input) / 2) by lia.
  rewrite <- (Nat2Z.id (length input / 2)). f_equal.
  by rewrite Nat2Z.inj_div.
Qed.

(** X7. Every swap recorded by [buildMaxHeap] exchanges a node with one of
    its children, which holds the strictly larger value; doing the
    recorded swaps in order on the input array gives the returned heap. *)
Theorem buildMaxHeap_swaps_replay (input : list Z) :
  let result := Heap.buildMaxHeap (Heap.new input) in
  let swaps := Heap.getSwapSequence (Heap.build_steps result) in
  Forall (Heap.sift_swap (length input)) swaps ∧
  Heap.replay swaps input = Heap.heap result.
Proof.
  intros result swaps. subst result swaps. unfold Heap.buildMaxHeap. cbv zeta.
  set (s0 := Heap._recordInfo _ _).
  change (Heap.array (Heap._recordInit (Heap._resetState (Heap.new input))))
    with (Heap.array s0).
  destruct (build_loop_trace Heap._recordLoopStart Heap._recordLoopEnd s0)
    as (ps & H1 & H2 & H3 & H4 & H5 & H6).
  { intros i. apply recording_record. done. }
  { intros i. apply recording_record. done. }
  cbv zeta in H1, H2.
  set (s' := for_down _ _ s0) in *.
  cbn [Heap.build_steps Heap.heap].
  unfold Heap._recordComplete. rewrite record_quiet by done.
  change (Heap.array (Heap.record ?ty ?d ?f ?s)) with (Heap.array s).
  rewrite H1, H2. change (Heap.array s0) with input in *.
  change (Heap.getSwapSequence (Heap.steps s0)) with (@nil Heap.SwapPair).
  done.
Qed.

(** X8. On an array that already is a max-heap [buildMaxHeap] records no
    swap and returns the array as it is. *)
Theorem buildMaxHeap_of_heap (input : list Z) :
  Heap.max_heap input →
  let result := Heap.buildMaxHeap (Heap.new input) in
  Heap.heap result = input ∧
  Heap.getSwapSequence (Heap.build_steps result) = [].
Proof.
  intros Hheap result. subst result. unfold Heap.buildMaxHeap. cbv zeta.
  set (s0 := Heap._recordInfo _ _).
  change (Heap.array (Heap._recordInit (Heap._resetState (Heap.new input))))
    with (Heap.array s0).
  destruct (build_loop_of_heap Heap._recordLoopStart Heap._recordLoopEnd s0)
    as (H1 & H2).
  { intros i. apply recording_record. done. }
  { intros i. apply recording_record. done. }
  { exact Hheap. }
  cbv zeta in H1, H2.
  set (s' := for_down _ _ s0) in *.
  cbn [Heap.build_steps Heap.heap].
  unfold Heap._recordComplete. rewrite record_quiet by done.
  change (Heap.array (Heap.record ?ty ?d ?f ?s)) with (Heap.array s).
  by rewrite H1, H2.
Qed.

Lemma max_heap_literal_3 : Heap.max_heap [9; 4; 7].
Proof.
  intros [|[|[|i]]] x Hx; split; intros y Hy; simpl in *; simplify_eq; lia.
Defined.

Lemma buildMaxHeap_of_heap_witness :
  Heap.heap (Heap.buildMaxHeap (Heap.new [9; 4; 7])) = [9; 4; 7] ∧
  Heap.getSwapSequence (Heap.build_steps (Heap.buildMaxHeap (Heap.new [9; 4; 7]))) = [].
Proof. exact (buildMaxHeap_of_heap [9; 4; 7] max_heap_literal_3). Defined.

(** ** Heap: extraction from a non-empty array *)

(** The root of a max-heap is a largest element. *)
Lemma heap_root_max (a : list Z) (x : Z) :
  Heap.max_heap a → a !! 0%nat = Some x → ∀ y, y ∈ a → y ≤ x.
Proof.
  intros Hheap Hx.
  assert (H : ∀ n i y, (i < n)%nat → a !! i = Some y → y ≤ x).
  { induction n as [|n IH]; intros i y Hi Hy; [lia|].
    destruct i as [|i]; [simplify_eq; lia|].
    destruct (lookup_lt_is_Some_2 a (i / 2)) as [px Hpx].
    { apply lookup_lt_Some in Hy. pose proof (Nat.div_mod_eq i 2).
      pose proof (Nat.mod_upper_bound i 2). lia. }
    assert (Hp : px ≤ x).
    { apply (IH (i / 2)%nat); [|done].
      pose proof (Nat.div_mod_eq i 2). pose proof (Nat.mod_upper_bound i 2). lia. }
    destruct (Hheap (i / 2)%nat px Hpx) as [H1 H2].
    pose proof (Nat.div_mod_eq i 2) as Hdm.
    pose proof (Nat.mod_upper_bound i 2 ltac:(lia)) as Hmod.
    destruct (decide (i mod 2 = 0)%nat) as [E|E].
    - assert (S i = 2 * (i / 2) + 1)%nat as Hi' by lia.
      rewrite Hi' in Hy. pose proof (H1 y Hy). lia.
    - assert (S i = 2 * (i / 2) + 2)%nat as Hi' by lia.
      rewrite Hi' in Hy. pose proof (H2 y Hy). lia. }
  intros y Hy. apply list_elem_of_lookup in Hy as [i Hi].
  apply (H (S i) i); [lia|done].
Qed.

(** [move_last_to_root] on [x :: tl]: the last element replaces the root
    and the array gets one element shorter. *)
Lemma move_last_to_root_cons (x : Z) (tl : list Z) :
  Heap.move_last_to_root (x :: tl)
  = match last tl with
    | Some y => y :: removelast tl
    | None => []
    end.
Proof.
  unfold Heap.move_last_to_root.
  destruct tl as [|z tl] using rev_ind; [done|].
  rewrite !last_snoc. change (x :: tl ++ [z]) with ((x :: tl) ++ [z]).
  rewrite last_snoc.
  change (<[0%nat:=z]> ((x :: tl) ++ [z])) with ((z :: tl) ++ [z]).
  by rewrite !removelast_last.
Qed.

Lemma move_last_to_root_perm (x : Z) (tl : list Z) :
  x :: tl ≡ₚ x :: Heap.move_last_to_root (x :: tl).
Proof.
  rewrite move_last_to_root_cons.
  destruct tl as [|z tl] using rev_ind; [done|].
  rewrite last_snoc, removelast_last. constructor.
  by rewrite Permutation_app_comm.
Qed.

Lemma move_last_to_root_lookup (x : Z) (tl : list Z) (k : nat) (y : Z) :
  (1 ≤ k)%nat →
  Heap.move_last_to_root (x :: tl) !! k = Some y → (x :: tl) !! k = Some y.
Proof.
  intros Hk. rewrite move_last_to_root_cons.
  destruct tl as [|z tl] using rev_ind; [done|].
  rewrite last_snoc, removelast_last.
  destruct k as [|k]; [lia|]. simpl. intros H.
  by apply lookup_app_l_Some.
Qed.

(** X9. [extractMax()] on a non-empty array returns as [extractedValue] a
    largest element of the input; the returned heap has the max-heap
    property and holds the other elements of the input. *)
Theorem extractMax_returns_maximum (input : list Z) :
  input ≠ [] →
  let result := Heap.extractMax (Heap.new input) in
  ∃ max, Heap.extractedValue result = Some max ∧
         (∀ y, y ∈ input → y ≤ max) ∧
         input ≡ₚ max :: Heap.ex_heap result ∧
         Heap.max_heap (Heap.ex_heap result).
Proof.
  intros Hne result. subst result. unfold Heap.extractMax. cbv zeta.
  set (s0 := Heap.record Heap.t_pre_extract_build _ _ _).
  change (Heap.array (Heap._resetState (Heap.new input))) with (Heap.array s0).
  destruct (build_loop_heap (λ _ s, s) (λ _ s, s) s0) as [Hheap Hperm];
    [done|done|].
  cbv zeta in Hheap, Hperm.
  set (s1 := for_down _ _ s0) in *.
  change (Heap.array s0) with input in Hperm.
  change (Heap.array (Heap.record ?ty ?d ?f ?s)) with (Heap.array s).
  destruct (Heap.array s1) as [|max tl] eqn:Harr.
  { apply Permutation_nil_l in Hperm. done. }
  cbn [lookup list_lookup]. simpl (_ !! 0%nat).
  exists max. cbn [Heap.extractedValue Heap.ex_heap].
  split; [done|]. split.
  { intros y Hy. rewrite <- Hperm in Hy.
    by apply (heap_root_max (max :: tl) max Hheap). }
  set (s2 := Heap.record Heap.t_extract_swap_root _ _ _).
  assert (Ha2 : Heap.array s2 = Heap.move_last_to_root (max :: tl)).
  { subst s2. simpl. by rewrite Harr. }
  assert (Hfrom : Heap.heap_from 1 (Heap.array s2)).
  { rewrite Ha2. intros j Hj y Hy.
    pose proof (move_last_to_root_lookup max tl j y Hj Hy) as Hy'.
    destruct (Hheap j y Hy') as [H1 H2].
    split; intros z Hz; [apply H1|apply H2];
      apply move_last_to_root_lookup; (lia || done). }
  change (Heap.array (Heap.record ?ty ?d ?f ?s)) with (Heap.array s).
  destruct (0 <? length (Heap.array s2))%nat eqn:Hpos.
  - apply Nat.ltb_lt in Hpos.
    set (s3 := Heap.record Heap.t_extract_heapify_start _ _ s2).
    destruct (heapifyNode_restores 0 0 s3) as (H1 & H2 & _); [done|done|].
    change (Heap.array s3) with (Heap.array s2) in *.
    cbv zeta in H1, H2.
    split.
    + rewrite H2, Ha2, <- Hperm. apply move_last_to_root_perm.
    + intros i. apply H1. lia.
  - apply Nat.ltb_ge in Hpos.
    assert (Heap.array s2 = []) as Hnil by (apply length_zero_iff_nil; lia).
    rewrite Hnil. split.
    + rewrite <- Hperm. rewrite Hnil in Ha2. rewrite Ha2.
      apply move_last_to_root_perm.
    + intros i x Hx. done.
Qed.

Lemma extractMax_returns_maximum_witness :
  ∃ max, Heap.extractedValue (Heap.extractMax (Heap.new [3; 8; 5])) = Some max ∧
         (∀ y, y ∈ [3; 8; 5] → y ≤ max) ∧
         [3; 8; 5] ≡ₚ max :: Heap.ex_heap (Heap.extractMax (Heap.new [3; 8; 5])) ∧
         Heap.max_heap (Heap.ex_heap (Heap.extractMax (Heap.new [3; 8; 5]))).
Proof. apply (extractMax_returns_maximum [3; 8; 5]). done. Defined.

(** ** Heap: insertion *)

Section HeapInsert.

Lemma parent_lt (k : nat) : (1 ≤ k)%nat → ((k - 1) / 2 < k)%nat.
Proof.
  intros Hk. pose proof (Nat.div_mod_eq (k - 1) 2).
  pose proof (Nat.mod_upper_bound (k - 1) 2). lia.
Qed.

Lemma parent_of_child (p k : nat) :
  (k = 2 * p + 1 ∨ k = 2 * p + 2)%nat ↔ (1 ≤ k)%nat ∧ ((k - 1) / 2 = p)%nat.
Proof.
  pose proof (Nat.div_mod_eq (k - 1) 2).
  pose proof (Nat.mod_upper_bound (k - 1) 2). lia.
Qed.

(** The two readings of the heap property. *)
Lemma max_heap_below_parent (a : list Z) :
  Heap.max_heap a ↔ ∀ k, (1 ≤ k)%nat → Heap.below_parent a k.
Proof.
  split.
  - intros Hheap k Hk x y Hy Hx.
    destruct (Hheap _ x Hx) as [H1 H2].
    destruct (proj2 (parent_of_child ((k - 1) / 2) k) (conj Hk eq_refl)) as [E|E];
      rewrite E in Hy; [by apply H1|by apply H2].
  - intros H i x Hx. split; intros y Hy.
    + apply (H (2 * i + 1)%nat ltac:(lia) x y Hy).
      by rewrite (proj2 (proj1 (parent_of_child i (2 * i + 1)) ltac:(lia))).
    + apply (H (2 * i + 2)%nat ltac:(lia) x y Hy).
      by rewrite (proj2 (proj1 (parent_of_child i (2 * i + 2)) ltac:(lia))).
Qed.

(** Every element but [c] is at most its parent, and the children of [c]
    are at most the parent of [c]. *)
Definition bubble_inv (c : nat) (a : list Z) : Prop :=
  (∀ k, (1 ≤ k)%nat → k ≠ c → Heap.below_parent a k) ∧
  (∀ k x y, (1 ≤ c)%nat → (1 ≤ k)%nat → ((k - 1) / 2 = c)%nat →
     a !! k = Some y → a !! ((c - 1) / 2)%nat = Some x → y ≤ x).

Lemma bubble_inv_swap (c : nat) (a : list Z) (x y : Z) :
  (1 ≤ c)%nat → a !! c = Some y → a !! ((c - 1) / 2)%nat = Some x → x < y →
  bubble_inv c a →
  bubble_inv ((c - 1) / 2) (Heap.swap_at a c ((c - 1) / 2)).
Proof.
  intros Hc Hy Hx Hlt [H1 H2].
  pose proof (parent_lt c Hc) as Hp. set (p := ((c - 1) / 2)%nat) in *.
  pose proof (swap_at_lookup a c p y x) as Hsw.
  split.
  - intros k Hk Hkp xk yk Hyk Hxk.
    pose proof (parent_lt k Hk) as Hq.
    rewrite Hsw in Hyk, Hxk by done.
    rewrite decide_False in Hyk by done.
    destruct (decide (k = c)) as [->|Hkc].
    + fold p in Hxk. rewrite decide_True in Hxk by done. simplify_eq. lia.
    + pose proof (H1 k Hk Hkc) as Hb.
      destruct (decide ((k - 1) / 2 = p)%nat) as [E|E].
      * assert (xk = y) as -> by congruence.
        pose proof (Hb x yk Hyk ltac:(by rewrite E)). lia.
      * destruct (decide ((k - 1) / 2 = c)%nat) as [E'|E'].
        -- assert (xk = x) as -> by congruence. apply (H2 k x yk); done.
        -- by apply (Hb xk yk).
  - intros k xg yk Hp1 Hk Hkp Hyk Hxg.
    pose proof (parent_lt p Hp1) as Hg.
    rewrite Hsw in Hyk, Hxg by done.
    rewrite decide_False in Hxg by lia.
    rewrite decide_False in Hxg by lia.
    assert (Hpx : x ≤ xg) by (apply (H1 p Hp1 ltac:(lia) xg x); done).
    destruct (decide (k = p)) as [->|Hkp']; [lia|].
    destruct (decide (k = c)) as [->|Hkc]; [simplify_eq; lia|].
    pose proof (H1 k Hk Hkc x yk Hyk ltac:(by rewrite Hkp)). lia.
Qed.

Lemma bubble_swaps_record ty d f s0 :
  Heap.bubble_swaps (Heap.ins_steps (Heap.ins_record ty d f s0))
  = Heap.bubble_swaps (Heap.ins_steps s0)
    ++ match ty, f with
       | Heap.t_bubble_swap, Heap.IBubbleSwap fr t fv tv _ =>
           [Heap.mkSwapPair fr t fv tv]
       | _, _ => []
       end.
Proof.
  unfold Heap.ins_record, Heap.bubble_swaps. cbn [Heap.ins_steps].
  rewrite omap_app. f_equal. by destruct ty, f.
Qed.

(** What [_bubbleUp] does to the array, the counters and the trace. *)
Lemma bubble_up (fuel : nat) : ∀ (c : nat) (s : Heap.InsertState),
  (c < fuel)%nat → (c < length (Heap.ins_array s))%nat →
  bubble_inv c (Heap.ins_array s) →
  let s' := Heap.bubble_fuel fuel c s in
  Heap.max_heap (Heap.ins_array s') ∧
  ∃ ps, Heap.bubble_swaps (Heap.ins_steps s')
        = Heap.bubble_swaps (Heap.ins_steps s) ++ ps ∧
        Heap.ins_array s' = Heap.replay ps (Heap.ins_array s) ∧
        Heap.ins_swapCount s' = (Heap.ins_swapCount s + length ps)%nat ∧
        Heap.ins_heapifyCalls s' = Heap.ins_heapifyCalls s ∧
        Heap.ins_recursiveCalls s' = Heap.ins_recursiveCalls s ∧
        Forall (λ p, Heap.to p = ((Heap.from p - 1) / 2)%nat ∧
                     (1 ≤ Heap.from p < length (Heap.ins_array s))%nat) ps.
Proof.
  induction fuel as [|fuel IH]; intros c s Hfuel Hc Hinv; [lia|].
  cbn [Heap.bubble_fuel].
  assert (Hquiet : ∀ ty d f s0, ty ≠ Heap.t_bubble_swap →
            Heap.bubble_swaps (Heap.ins_steps (Heap.ins_record ty d f s0))
            = Heap.bubble_swaps (Heap.ins_steps s0)).
  { intros ty d f s0 Hty. rewrite bubble_swaps_record.
    destruct ty; try done; by rewrite app_nil_r. }
  destruct (Nat.eqb_spec c 0) as [->|Hc0].
  - cbv zeta. rewrite Hquiet by done. split.
    + apply max_heap_below_parent. intros k Hk.
      apply (proj1 Hinv); lia.
    + exists []. rewrite app_nil_r. repeat split; simpl; try lia. constructor.
  - cbv zeta.
    set (p := ((c - 1) / 2)%nat).
    pose proof (parent_lt c ltac:(lia)) as Hp. fold p in Hp.
    set (s1 := Heap.ins_record Heap.t_bubble_compare _ _ s).
    assert (Ha1 : Heap.ins_array s1 = Heap.ins_array s) by reflexivity.
    assert (Hs1 : Heap.bubble_swaps (Heap.ins_steps s1)
                  = Heap.bubble_swaps (Heap.ins_steps s)).
    { subst s1. by rewrite Hquiet. }
    destruct (lookup_lt_is_Some_2 (Heap.ins_array s) c Hc) as [y Hy].
    destruct (lookup_lt_is_Some_2 (Heap.ins_array s) p ltac:(lia)) as [x Hx].
    rewrite Ha1, Hy, Hx.
    change (Heap.js_gt (Some y) (Some x)) with (y >? x).
    destruct (Z.gtb_spec y x) as [Hgt|Hgt].
    + 
      set (s2 := Heap.ins_record Heap.t_bubble_after_swap _ _ _).
      assert (Ha2 : Heap.ins_array s2 = Heap.swap_at (Heap.ins_array s) c p)
        by reflexivity.
      assert (Hs2 : Heap.bubble_swaps (Heap.ins_steps s2)
                    = Heap.bubble_swaps (Heap.ins_steps s)
                      ++ [Heap.mkSwapPair c p (Some y) (Some x)]).
      { subst s2. rewrite Hquiet by done.
        cbn [Heap.ins_steps Heap.ins_set_array].
        by rewrite bubble_swaps_record, Hs1. }
      destruct (IH p s2) as (Hheap & ps & P1 & P2 & P3 & P4 & P5 & P6).
      { lia. }
      { rewrite Ha2, swap_at_length. lia. }
      { rewrite Ha2. by apply (bubble_inv_swap c _ x y); [lia|..]. }
      split; [exact Hheap|].
      exists (Heap.mkSwapPair c p (Some y) (Some x) :: ps).
      split; [|split; [|split; [|split; [|split]]]].
      * by rewrite P1, Hs2, <- app_assoc.
      * by rewrite P2, Ha2.
      * rewrite P3. simpl. lia.
      * by rewrite P4.
      * by rewrite P5.
      * constructor; [simpl; split; [done|lia]|].
        rewrite Ha2, swap_at_length in P6. exact P6.
    + rewrite Hquiet by done.
      change (Heap.ins_array (Heap.ins_record ?ty ?d ?f s1))
        with (Heap.ins_array s).
      split.
      * apply max_heap_below_parent. intros k Hk.
        destruct (decide (k = c)) as [->|Hkc]; [|by apply (proj1 Hinv)].
        intros x' y' Hy' Hx'. fold p in Hx'. simplify_eq. lia.
      * exists []. rewrite app_nil_r, Hs1.
        repeat split; simpl; try lia. constructor.
Qed.

End HeapInsert.

(** *** The array of the sift-down does not depend on the trace *)

Lemma pickLargestChild_array_only (i l1 l2 hs lg d : nat) (s t : Heap.State) :
  Heap.array s = Heap.array t →
  (Heap._pickLargestChild i l1 l2 hs lg d s).1
  = (Heap._pickLargestChild i l1 l2 hs lg d t).1 ∧
  Heap.array (Heap._pickLargestChild i l1 l2 hs lg d s).2 = Heap.array s ∧
  Heap.array (Heap._pickLargestChild i l1 l2 hs lg d t).2 = Heap.array t.
Proof.
  intros E. unfold Heap._pickLargestChild. rewrite E.
  destruct (_ && _); cbv beta iota zeta;
    change (Heap.array (Heap._recordCompare ?a ?b ?c ?e ?st)) with (Heap.array st);
    rewrite ?E; destruct (_ && _); done.
Qed.

Lemma heapify_array_only (fuel : nat) : ∀ (c hs d : nat) (s t : Heap.State),
  Heap.array s = Heap.array t →
  Heap.array (Heap.heapify_fuel fuel c hs d s)
  = Heap.array (Heap.heapify_fuel fuel c hs d t).
Proof.
  induction fuel as [|fuel IH]; intros c hs d s t E; [done|].
  cbn [Heap.heapify_fuel].
  set (s2 := Heap._recordHeapifyStart c (2 * c + 1) (2 * c + 2) d _).
  set (t2 := Heap._recordHeapifyStart c (2 * c + 1) (2 * c + 2) d _).
  assert (E2 : Heap.array s2 = Heap.array t2) by exact E.
  destruct (pickLargestChild_array_only c (2 * c + 1) (2 * c + 2) hs c d s2 t2 E2)
    as (H1 & H2 & H3).
  destruct (Heap._pickLargestChild c (2 * c + 1) (2 * c + 2) hs c d s2) as [l s3].
  destruct (Heap._pickLargestChild c (2 * c + 1) (2 * c + 2) hs c d t2) as [l' t3].
  simpl in H1, H2, H3. subst l'.
  destruct (bool_decide (l ≠ c)).
  - unfold Heap._swapAndRecurse. apply IH. simpl. by rewrite H2, H3, E.
  - simpl. by rewrite H2, H3, E.
Qed.

Lemma build_loop_array_only
    (wb wa wb' wa' : nat → Heap.State → Heap.State) (k : nat) :
  (∀ i s, Heap.array (wb i s) = Heap.array s) →
  (∀ i s, Heap.array (wa i s) = Heap.array s) →
  (∀ i s, Heap.array (wb' i s) = Heap.array s) →
  (∀ i s, Heap.array (wa' i s) = Heap.array s) →
  ∀ s t, Heap.array s = Heap.array t →
  Heap.array (for_down k (λ i s,
                let s := wb i s in
                let s := Heap._heapifyNode i (length (Heap.array s)) 0 s in
                wa i s) s)
  = Heap.array (for_down k (λ i s,
                  let s := wb' i s in
                  let s := Heap._heapifyNode i (length (Heap.array s)) 0 s in
                  wa' i s) t).
Proof.
  intros Hb Ha Hb' Ha'. induction k as [|k IH]; intros s t E; [done|].
  rewrite !for_down_S. apply IH. cbv zeta. rewrite Ha, Ha', !Hb, !Hb', E.
  unfold Heap._heapifyNode. apply heapify_array_only. by rewrite Hb, Hb'.
Qed.

Lemma bubble_swaps_heapify (l : list Heap.Step) :
  Heap.bubble_swaps (map Heap.SHeapify l) = [].
Proof. induction l as [|st l IH]; [done|exact IH]. Qed.

(** X10. [insertElement(value)] returns an array with the max-heap
    property that holds the input and the new value; the swaps of its
    [bubble-swap] steps, each from an index to its parent index, done in
    order on the heap built from the input with the value appended, give
    that array. *)
Theorem insertElement_is_max_heap (input : list Z) (value : Z) :
  let result := Heap.insertElement value (Heap.new input) in
  let built := Heap.heap (Heap.buildMaxHeap (Heap.new input)) in
  let swaps := Heap.bubble_swaps (Heap.ins_result_steps result) in
  Heap.max_heap (Heap.ins_heap result) ∧
  Heap.ins_heap result ≡ₚ value :: input ∧
  Heap.ins_heap result = Heap.replay swaps (built ++ [value]) ∧
  Forall (λ p, Heap.to p = ((Heap.from p - 1) / 2)%nat ∧
               (1 ≤ Heap.from p ≤ length input)%nat) swaps.
Proof.
  intros result built swaps. subst result built swaps.
  unfold Heap.insertElement, Heap.buildMaxHeap. cbv zeta.
  cbn [Heap.heap Heap.ins_heap Heap.ins_result_steps].
  set (s0 := Heap._resetState (Heap.new input)).
  set (t0 := Heap._recordInfo _ _).
  change (Heap.array (Heap._recordInit s0)) with (Heap.array s0).
  change (Heap.array (Heap._recordComplete ?s)) with (Heap.array s).
  change (Heap.array t0) with (Heap.array s0).
  destruct (build_loop_heap (λ _ s, s) (λ _ s, s) s0) as [Hheap Hperm];
    [done|done|].
  cbv zeta in Hheap, Hperm.
  pose proof (build_loop_array_only (λ _ s, s) (λ _ s, s)
                Heap._recordLoopStart Heap._recordLoopEnd
                (Z.to_nat (Z.of_nat (length (Heap.array s0)) / 2 - 1 + 1))
                ltac:(done) ltac:(done) ltac:(done) ltac:(done)
                s0 t0 eq_refl) as Hsame.
  cbv zeta in Hsame. rewrite <- Hsame.
  set (s1 := for_down _ _ s0) in *.
  change (Heap.array s0) with input in Hperm.
  set (s2 := Heap.ins_record Heap.t_insert_add _ _ _).
  assert (Ha2 : Heap.ins_array s2 = Heap.array s1 ++ [value]) by reflexivity.
  assert (Hs2 : Heap.bubble_swaps (Heap.ins_steps s2) = []).
  { subst s2. rewrite bubble_swaps_record. cbn [Heap.ins_steps Heap.ins_set_array].
    rewrite !bubble_swaps_record. cbn [Heap.ins_steps]. rewrite !app_nil_r.
    change (Heap.bubble_swaps (Heap.SInsert Heap.t_pre_insert_build ?a ?d ?st ?f :: ?l))
      with (Heap.bubble_swaps l).
    apply bubble_swaps_heapify. }
  match goal with |- context [Heap._bubbleUp ?i _] => set (idx := i) end.
  assert (Hidx : idx = length (Heap.array s1)).
  { subst idx. cbn [Heap.ins_array Heap.ins_set_array Heap.ins_record].
    rewrite length_app. simpl. lia. }
  rewrite Hidx. clearbody idx. clear Hidx idx.
  assert (Hlen : length (Heap.array s1) = length input)
    by (by apply Permutation_length).
  destruct (bubble_up (S (length (Heap.array s1))) (length (Heap.array s1)) s2)
    as (Hmh & ps & P1 & P2 & P3 & P4 & P5 & P6).
  { lia. }
  { rewrite Ha2, length_app. simpl. lia. }
  { rewrite Ha2. split.
    - intros k Hk Hkc x y Hy Hx.
      assert (k < length (Heap.array s1))%nat as Hlt.
      { apply lookup_lt_Some in Hy. rewrite length_app in Hy. simpl in Hy. lia. }
      pose proof (parent_lt k Hk).
      rewrite lookup_app_l in Hy, Hx by lia.
      apply (proj1 (max_heap_below_parent _) Hheap k Hk x y); done.
    - intros k x y Hc Hk Hpar Hy Hx.
      apply lookup_lt_Some in Hy. rewrite length_app in Hy. simpl in Hy.
      pose proof (proj2 (parent_of_child (length (Heap.array s1)) k)
                    (conj Hk Hpar)). lia. }
  fold (Heap._bubbleUp (length (Heap.array s1)) s2) in Hmh, P1, P2, P3, P4, P5.
  set (s3 := Heap._bubbleUp (length (Heap.array s1)) s2) in *.
  change (Heap.ins_array (Heap.ins_record ?ty ?d ?f ?s)) with (Heap.ins_array s).
  rewrite bubble_swaps_record, app_nil_r, P1, Hs2, P2, Ha2. simpl app.
  split; [by rewrite <- Ha2, <- P2|]. split; [|split; [done|]].
  - rewrite replay_perm, Hperm. by rewrite Permutation_app_comm.
  - rewrite Ha2, length_app, Hlen in P6. simpl in P6.
    eapply Forall_impl; [exact P6|]. simpl. intros p [? ?]. split; [done|lia].
Qed.

(** ** Strassen: operation counts *)

Section StrassenCounts.
Local Abbreviation Matrix := (list (list Z)).
Local Abbreviation mults := (λ s, Strassen.multiplications (Strassen.stats s)).
Local Abbreviation adds := (λ s, Strassen.additions (Strassen.stats s)).
Local Abbreviation deepest := (λ s, Strassen.maxDepth (Strassen.stats s)).

(** [_addMatrices] and [_subtractMatrices] count one addition per entry
    of an [n] by [n] result and leave the rest of the state alone. *)
Lemma entrywise_stats (op : Z → Z → Z) (A B : Matrix) (s : Strassen.State) :
  let s' := (Strassen.entrywise op A B s).2 in
  Strassen.steps s' = Strassen.steps s ∧ mults s' = mults s ∧
  adds s' = (adds s + length A * length A)%nat ∧ deepest s' = deepest s.
Proof.
  cbv zeta. unfold Strassen.entrywise. set (n := length A).
  apply (for_up_ind
           (λ i (p : Matrix * Strassen.State),
              Strassen.steps p.2 = Strassen.steps s ∧ mults p.2 = mults s ∧
              adds p.2 = (adds s + i * n)%nat ∧ deepest p.2 = deepest s)).
  - simpl. repeat split; lia.
  - intros i p Hi (H1 & H2 & H3 & H4).
    assert (H : Strassen.steps
                  (for_up 0 n (λ j '(result, s0),
                     (set_cell result i j (op (cell A i j) (cell B i j)),
                      Strassen.add_additions 1 s0)) p).2 = Strassen.steps s ∧
                mults (for_up 0 n (λ j '(result, s0),
                     (set_cell result i j (op (cell A i j) (cell B i j)),
                      Strassen.add_additions 1 s0)) p).2 = mults s ∧
                adds (for_up 0 n (λ j '(result, s0),
                     (set_cell result i j (op (cell A i j) (cell B i j)),
                      Strassen.add_additions 1 s0)) p).2
                = (adds s + i * n + n)%nat ∧
                deepest (for_up 0 n (λ j '(result, s0),
                     (set_cell result i j (op (cell A i j) (cell B i j)),
                      Strassen.add_additions 1 s0)) p).2 = deepest s).
    { apply (for_up_ind
               (λ j (q : Matrix * Strassen.State),
                  Strassen.steps q.2 = Strassen.steps s ∧ mults q.2 = mults s ∧
                  adds q.2 = (adds s + i * n + j)%nat ∧ deepest q.2 = deepest s)).
      - repeat split; try done. lia.
      - intros j [t s0] Hj (G1 & G2 & G3 & G4). simpl in *.
        repeat split; try done. lia. }
    destruct H as (G1 & G2 & G3 & G4). repeat split; try done. lia.
Qed.

Lemma strassen2x2_stats (A B : Matrix) (d : nat) (s : Strassen.State) :
  let s' := (Strassen._strassen2x2 A B d s).2 in
  mults s' = (mults s + 7)%nat ∧ adds s' = (adds s + 18)%nat ∧
  deepest s' = deepest s.
Proof. cbv zeta. unfold Strassen._strassen2x2. simpl. repeat split; lia. Qed.

Lemma pow2_square (k : nat) : (2 ^ k * 2 ^ k = 4 ^ k)%nat.
Proof. induction k as [|k IH]; simpl; lia. Qed.

(** What a call of [_strassen] on matrices of size [2^k] at depth [d]
    adds to the counters. *)
Definition counts_after (k d : nat) (s s' : Strassen.State) : Prop :=
  mults s' = (mults s + 7 ^ k)%nat ∧
  (adds s' + 6 * 4 ^ k = adds s + 6 * 7 ^ k)%nat ∧
  deepest s' = Nat.max (deepest s) (d + (k - 1)).

Ltac count_entry m R s' Hsq HS :=
  lazymatch goal with
  | |- context [Strassen.entrywise ?op ?X ?Y ?s] =>
      let H := fresh "H" in
      pose proof (entrywise_spec op m X Y s) as H;
      pose proof (entrywise_stats op X Y s) as HS;
      destruct (Strassen.entrywise op X Y s) as [R s'];
      destruct H as [Hsq _]; [by apply square_length|];
      cbn [fst snd] in Hsq, HS; cbv zeta in HS;
      rewrite (square_length m X) in HS by done;
      destruct HS as (_ & ? & ? & ?);
      cbv beta iota zeta
  end.

Ltac count_rec Hrec m M s' Hsq HC :=
  lazymatch goal with
  | |- context [Strassen._strassen ?f ?X ?Y ?d ?s] =>
      let E := fresh "E" in
      destruct (Hrec X Y d s) as (M & s' & E & Hsq & HC); [done|done|];
      rewrite E; clear E;
      destruct HC as (? & ? & ?);
      cbv beta iota zeta
  end.

(** The result of [_strassen2x2] is a 2 by 2 matrix. *)
Lemma strassen2x2_square (A B : Matrix) (d : nat) (s : Strassen.State) :
  Strassen.square 2 (Strassen._strassen2x2 A B d s).1.
Proof.
  unfold Strassen._strassen2x2. cbv zeta. cbn [fst].
  split; [done|]. intros [|[|i]] r Hr; simpl in Hr; by simplify_eq.
Qed.

Lemma strassen_counts (k : nat) : ∀ (fuel : nat) (A B : Matrix) (d : nat)
    (s : Strassen.State),
  (k < fuel)%nat → Strassen.square (2 ^ k) A → Strassen.square (2 ^ k) B →
  ∃ M s', Strassen._strassen fuel A B d s = Strassen.Returns (M, s') ∧
          Strassen.square (2 ^ k) M ∧ counts_after k d s s'.
Proof.
  induction k as [|k IH]; intros fuel A B d s Hf HA HB;
    (destruct fuel as [|fuel]; [lia|]); cbn [Strassen._strassen].
  - rewrite (proj1 HA). cbn [Nat.pow Nat.eqb]. cbv beta iota zeta.
    eexists _, _. split; [reflexivity|]. split.
    + split; [done|]. intros [|i] r Hr; simpl in Hr; by simplify_eq.
    + unfold counts_after. simpl. repeat split; lia.
  - pose proof (pow2_pos k) as Hpos. pose proof (pow2_square k) as Hsq.
    rewrite pow2_double in *.
    set (m := (2 ^ k)%nat) in *. rewrite (proj1 HA). cbv zeta.
    destruct (Nat.eqb_spec (m + m) 1) as [?|_]; [lia|].
    destruct (Nat.eqb_spec (m + m) 2) as [Hm2|Hm2].
    { pose proof (strassen2x2_stats A B d (Strassen.enter d s)) as (H1 & H2 & H3).
      pose proof (strassen2x2_square A B d (Strassen.enter d s)) as H4.
      destruct (Strassen._strassen2x2 A B d (Strassen.enter d s)) as [R s2].
      cbn [fst snd] in H1, H2, H3, H4.
      exists R, s2. split; [done|]. split; [by rewrite Hm2|].
      assert (k = 0%nat) as ->.
      { destruct k as [|k]; [done|]. subst m. simpl in Hm2.
        pose proof (pow2_pos k). lia. }
      unfold counts_after. simpl in *. repeat split; lia. }
    assert (Hk : (1 ≤ k)%nat).
    { destruct k as [|k]; [|lia]. subst m. simpl in Hm2. lia. }
    assert (Hrec : ∀ X Y d' s0, Strassen.square m X → Strassen.square m Y →
              ∃ M s', Strassen._strassen fuel X Y d' s0
                      = Strassen.Returns (M, s') ∧
                      Strassen.square m M ∧ counts_after k d' s0 s').
    { intros. apply IH; [lia|done|done]. }
    clear IH.
    destruct (splitMatrix_spec m A HA)
      as (A11 & A12 & A21 & A22 & -> & HsA11 & HsA12 & HsA21 & HsA22 & HcA).
    destruct (splitMatrix_spec m B HB)
      as (B11 & B12 & B21 & B22 & -> & HsB11 & HsB12 & HsB21 & HsB22 & HcB).
    unfold mbind, Strassen.outcome_bind, Strassen._addMatrices,
      Strassen._subtractMatrices, counts_after.
    cbv beta iota zeta.
    set (mm := (m * m)%nat) in *.
    set (p7 := (7 ^ k)%nat) in *. set (p4 := (4 ^ k)%nat) in *.
    replace (7 ^ S k)%nat with (7 * p7)%nat by (subst p7; simpl; lia).
    replace (4 ^ S k)%nat with (4 * p4)%nat by (subst p4; simpl; lia).
    set (s0 := Strassen.push _ (Strassen.enter d s)).
    assert (Hs0 : mults s0 = mults s ∧ adds s0 = adds s ∧
                  deepest s0 = Nat.max (deepest s) d) by done.
    destruct Hs0 as (? & ? & ?). clearbody s0.
    count_entry m X1 s1 HsX1 HS1. count_entry m Y1 s2 HsY1 HS2.
    count_rec Hrec m M1 s3 HsM1 HC1.
    count_entry m X2 s4 HsX2 HS4.
    count_rec Hrec m M2 s5 HsM2 HC2.
    count_entry m Y3 s6 HsY3 HS6.
    count_rec Hrec m M3 s7 HsM3 HC3.
    count_entry m Y4 s8 HsY4 HS8.
    count_rec Hrec m M4 s9 HsM4 HC4.
    count_entry m X5 s10 HsX5 HS10.
    count_rec Hrec m M5 s11 HsM5 HC5.
    count_entry m X6 s12 HsX6 HS12. count_entry m Y6 s13 HsY6 HS13.
    count_rec Hrec m M6 s14 HsM6 HC6.
    count_entry m X7 s15 HsX7 HS15. count_entry m Y7 s16 HsY7 HS16.
    count_rec Hrec m M7 s17 HsM7 HC7.
    count_entry m T1 s18 HsT1 HS18. count_entry m T2 s19 HsT2 HS19.
    count_entry m C11 s20 HsC11 HS20. count_entry m C12 s21 HsC12 HS21.
    count_entry m C21 s22 HsC21 HS22.
    count_entry m T3 s23 HsT3 HS23. count_entry m T4 s24 HsT4 HS24.
    count_entry m C22 s25 HsC22 HS25.
    eexists _, _. split; [reflexivity|]. split.
    { by destruct (combineQuadrants_spec m C11 C12 C21 C22 (proj1 HsC11)). }
    simpl. repeat split; lia.
Qed.

End StrassenCounts.

(** X11. On [n] by [n] matrices with [n = 2^k], [solve()] ends with
    [stats.multiplications = 7^k], with
    [stats.additions = 6 * (7^k - 4^k)] and with
    [stats.maxDepth = k - 1] (0 for [k = 0]). *)
Theorem strassen_operation_counts (k : nat) (A B : list (list Z)) :
  Strassen.square (2 ^ k) A → Strassen.square (2 ^ k) B →
  ∃ r, Strassen.solve A B = Strassen.Returns r ∧
       Strassen.multiplications (Strassen.result_stats r) = (7 ^ k)%nat ∧
       (Strassen.additions (Strassen.result_stats r) + 6 * 4 ^ k = 6 * 7 ^ k)%nat ∧
       Strassen.maxDepth (Strassen.result_stats r) = (k - 1)%nat.
Proof.
  intros HA HB. unfold Strassen.solve.
  destruct (strassen_counts k (length A) A B 0
              (Strassen.push
                 (Strassen.SInit A B (Strassen.stats Strassen._resetState))
                 Strassen._resetState)) as (M & s' & E & _ & H1 & H2 & H3);
    [|done|done|].
  - rewrite (square_length _ _ HA). apply Nat.pow_gt_lin_r. lia.
  - cbv zeta. rewrite E. eexists. split; [reflexivity|].
    simpl in *. repeat split; lia.
Qed.

Lemma strassen_operation_counts_witness :
  ∃ r, Strassen.solve [[1; 2]; [3; 4]] [[5; 6]; [7; 8]] = Strassen.Returns r ∧
       Strassen.multiplications (Strassen.result_stats r) = (7 ^ 1)%nat ∧
       (Strassen.additions (Strassen.result_stats r) + 6 * 4 ^ 1 = 6 * 7 ^ 1)%nat ∧
       Strassen.maxDepth (Strassen.result_stats r) = (1 - 1)%nat.
Proof.
  apply (strassen_operation_counts 1); apply square_literal_2.
Defined.

(** ** Strassen: sizes that are not a power of two *)

Section StrassenPartial.
Local Abbreviation Matrix := (list (list Z)).

Lemma splitMatrix_lengths (M M11 M12 M21 M22 : Matrix) :
  Strassen._splitMatrix M = Strassen.Returns (M11, M12, M21, M22) →
  Nat.odd (length M) = false ∧
  length M11 = (length M / 2)%nat ∧ length M12 = (length M / 2)%nat ∧
  length M21 = (length M / 2)%nat ∧ length M22 = (length M / 2)%nat.
Proof.
  unfold Strassen._splitMatrix. destruct (Nat.odd (length M)); [done|].
  set (mid := (length M / 2)%nat). set (q := for_up 0 mid _ _).
  intros E. assert (Eq : q = (M11, M12, M21, M22)) by congruence.
  split; [done|].
  assert (H : length q.1.1.1 = mid ∧ length q.1.1.2 = mid ∧
              length q.1.2 = mid ∧ length q.2 = mid).
  { subst q.
    apply (for_up_ind
             (λ i (q : Matrix * Matrix * Matrix * Matrix),
                length q.1.1.1 = i ∧ length q.1.1.2 = i ∧
                length q.1.2 = i ∧ length q.2 = i)); [done|].
    intros i [[[N11 N12] N21] N22] _ (H1 & H2 & H3 & H4). simpl in *.
    rewrite !length_app. simpl. lia. }
  by rewrite Eq in H.
Qed.

Lemma entrywise_length (op : Z → Z → Z) (A B : Matrix) (s : Strassen.State) :
  length (Strassen.entrywise op A B s).1 = length A.
Proof.
  destruct (entrywise_spec op (length A) A B s eq_refl) as [[H _] _]. exact H.
Qed.

Lemma half_not_pow2 (n : nat) :
  Nat.odd n = false → (∀ k, n ≠ 2 ^ k)%nat → ∀ k, (n / 2 ≠ 2 ^ k)%nat.
Proof.
  intros Hodd Hn k E. apply (Hn (S k)).
  pose proof (Nat.div_mod_eq n 2) as Hdm.
  assert (n mod 2 = 0)%nat as Hmod.
  { rewrite <- Nat.negb_even in Hodd. apply negb_false_iff in Hodd.
    apply Nat.even_spec in Hodd as [h ->].
    rewrite Nat.mul_comm. apply Nat.Div0.mod_mul. }
  simpl. lia.
Qed.

(** [_strassen] on a matrix whose size is not a power of two never
    returns: it throws at an odd size above 1, and keeps recursing at
    size 0. *)
Lemma strassen_not_pow2 (fuel : nat) : ∀ (A B : Matrix) (d : nat)
    (s : Strassen.State),
  (∀ k, length A ≠ 2 ^ k)%nat →
  ∀ r, Strassen._strassen fuel A B d s ≠ Strassen.Returns r.
Proof.
  induction fuel as [|fuel IH]; intros A B d s Hn r; [done|].
  cbn [Strassen._strassen]. cbv zeta.
  destruct (Nat.eqb_spec (length A) 1) as [E|_]; [by destruct (Hn 0%nat)|].
  destruct (Nat.eqb_spec (length A) 2) as [E|_]; [by destruct (Hn 1%nat)|].
  unfold mbind, Strassen.outcome_bind.
  destruct (Strassen._splitMatrix A) as [[[[A11 A12] A21] A22]| |] eqn:EA;
    [|done|done].
  destruct (Strassen._splitMatrix B) as [[[[B11 B12] B21] B22]| |] eqn:EB;
    [|done|done].
  destruct (splitMatrix_lengths _ _ _ _ _ EA) as (Hodd & H11 & _).
  unfold Strassen._addMatrices.
  pose proof (entrywise_length Strassen.js_add A11 A22
                (Strassen.push
                   (Strassen.SDivide d A B (A11, A12, A21, A22)
                      (B11, B12, B21, B22)
                      (Strassen.stats (Strassen.enter d s)))
                   (Strassen.enter d s))) as HX.
  destruct (Strassen.entrywise Strassen.js_add A11 A22 _) as [X s1].
  destruct (Strassen.entrywise Strassen.js_add B11 B22 s1) as [Y s2].
  cbn [fst] in HX.
  pose proof (IH X Y (d + 1)%nat s2) as Hrec.
  destruct (Strassen._strassen fuel X Y (d + 1) s2) as [[M1 s3]| |];
    [|done|done].
  exfalso. apply (Hrec ltac:(rewrite HX, H11; by apply half_not_pow2) (M1, s3)).
  done.
Qed.

End StrassenPartial.

(** X12. When the size of [matrixA] is not a power of two, [solve()]
    does not return a result: the call ends in the [TypeError] of
    [_splitMatrix] or does not end at all. *)
Theorem strassen_needs_power_of_two (A B : list (list Z)) :
  (∀ k, length A ≠ 2 ^ k)%nat →
  Strassen.solve A B = Strassen.Throws ∨ Strassen.solve A B = Strassen.Diverges.
Proof.
  intros Hn. unfold Strassen.solve. cbv zeta.
  unfold mbind, Strassen.outcome_bind.
  pose proof (strassen_not_pow2 (length A) A B 0
                (Strassen.push
                   (Strassen.SInit A B (Strassen.stats Strassen._resetState))
                   Strassen._resetState) Hn) as H.
  destruct (Strassen._strassen _ _ _ _ _) as [[res s']| |]; [|by left|by right].
  by destruct (H (res, s')).
Qed.

Lemma three_not_pow2 : ∀ k, (3 ≠ 2 ^ k)%nat.
Proof.
  intros [|[|k]]; simpl; [lia|lia|]. pose proof (pow2_pos k). lia.
Defined.

Lemma strassen_needs_power_of_two_witness :
  Strassen.solve [[1; 2; 3]; [4; 5; 6]; [7; 8; 9]]
    [[1; 0; 0]; [0; 1; 0]; [0; 0; 1]] = Strassen.Throws ∨
  Strassen.solve [[1; 2; 3]; [4; 5; 6]; [7; 8; 9]]
    [[1; 0; 0]; [0; 1; 0]; [0; 0; 1]] = Strassen.Diverges.
Proof.
  exact (strassen_needs_power_of_two [[1; 2; 3]; [4; 5; 6]; [7; 8; 9]]
           [[1; 0; 0]; [0; 1; 0]; [0; 0; 1]] three_not_pow2).
Defined.

(** ** Counting sort: the work done *)

Section CountingWork.
Local Abbreviation cmp := (λ s, CountingSort.comparisons (CountingSort.stats s)).
Local Abbreviation acc := (λ s, CountingSort.arrayAccesses (CountingSort.stats s)).
Local Abbreviation upd := (λ s, CountingSort.countUpdates (CountingSort.stats s)).
Local Abbreviation plc := (λ s, CountingSort.placements (CountingSort.stats s)).
Local Abbreviation len := (λ s, length (CountingSort.steps s)).

(** The input and the counters of [s'] against those of [s]. *)
Definition work (s s' : CountingSort.State) (c a u p n : nat) : Prop :=
  CountingSort.array s' = CountingSort.array s ∧
  cmp s' = (cmp s + c)%nat ∧ acc s' = (acc s + a)%nat ∧
  upd s' = (upd s + u)%nat ∧ plc s' = (plc s + p)%nat ∧
  len s' = (len s + n)%nat.

Lemma work_record ty ph snap f s :
  work s (CountingSort.record ty ph snap f s) 0 0 0 0 1.
Proof.
  unfold work, CountingSort.record. simpl. rewrite length_app. simpl.
  repeat split; lia.
Qed.

Lemma work_trans s1 s2 s3 c a u p n c' a' u' p' n' :
  work s1 s2 c a u p n → work s2 s3 c' a' u' p' n' →
  work s1 s3 (c + c') (a + a') (u + u') (p + p') (n + n').
Proof.
  intros (H1 & H2 & H3 & H4 & H5 & H6) (G1 & G2 & G3 & G4 & G5 & G6).
  unfold work. rewrite G1, G2, G3, G4, G5, G6, H1, H2, H3, H4, H5, H6.
  repeat split; lia.
Qed.

Lemma list_max_take_S (l : list nat) (i x : nat) :
  l !! i = Some x → list_max (take (S i) l) = Nat.max (list_max (take i l)) x.
Proof.
  intros Hx. rewrite (take_S_r _ _ _ Hx), list_max_app. simpl. lia.
Qed.

Lemma findMaximum_work s :
  let s' := CountingSort._findMaximum s in
  let n := length (CountingSort.array s) in
  work s s' n n 0 0 (n + 2) ∧
  CountingSort.maxValue s' = list_max (CountingSort.array s).
Proof.
  cbv zeta. unfold CountingSort._findMaximum.
  set (s1 := CountingSort.set_maxValue _ _).
  set (l := CountingSort.array s).
  assert (H1 : work s s1 0 0 0 0 1) by apply work_record.
  set (body := λ (i : nat) '(s, maxIndex), _).
  assert (Hloop :
    let r := for_up 0 (length (CountingSort.array s1)) body (s1, 0%nat) in
    work s1 r.1 (length l) (length l) 0 0 (length l) ∧
    CountingSort.maxValue r.1
    = Nat.max (default 0%nat (l !! 0%nat)) (list_max (take (length l) l))).
  { change (CountingSort.array s1) with l.
    apply (for_up_ind (λ i (r : CountingSort.State * nat),
      work s1 r.1 i i 0 0 i ∧
      CountingSort.maxValue r.1
      = Nat.max (default 0%nat (l !! 0%nat)) (list_max (take i l)))).
    - split; [unfold work; repeat split; (done || lia)|].
      cbn [fst take list_max fold_right]. by rewrite Nat.max_0_r.
    - intros i [st mi] Hi [Hw Hm]. simpl in Hw, Hm. unfold body.
      destruct Hw as (W1 & W2 & W3 & W4 & W5 & W6). rewrite W1.
      change (CountingSort.array s1) with l.
      destruct (lookup_lt_is_Some_2 l i Hi) as [x Hx]. rewrite Hx.
      replace (i + 1)%nat with (S i) by lia.
      rewrite (list_max_take_S _ _ _ Hx).
      change (CountingSort.maxValue (CountingSort.set_stats ?a st))
        with (CountingSort.maxValue st).
      destruct (Nat.ltb_spec (CountingSort.maxValue st) x) as [Hlt|Hge];
        cbn [fst CountingSort.maxValue CountingSort.set_maxValue].
      + split; [|lia]. unfold work. simpl. rewrite length_app. simpl.
        repeat split; simpl in *; try done; lia.
      + split; [|simpl in *; lia]. unfold work. simpl. rewrite length_app. simpl.
        repeat split; simpl in *; try done; lia. }
  cbv zeta in Hloop.
  destruct (for_up 0 _ body _) as [s2 mi]. simpl in Hloop.
  destruct Hloop as [Hw Hm]. split.
  - pose proof (work_trans _ _ _ _ _ _ _ _ _ _ _ _ _ H1 Hw) as H2.
    pose proof (work_trans _ _ _ _ _ _ _ _ _ _ _ _ _ H2
                  (work_record CountingSort.t_find_max_complete
                     CountingSort.p_find_max false
                     (CountingSort.FFindMaxComplete (CountingSort.maxValue s2)) s2))
      as H3.
    unfold work in H3 |- *. destruct H3 as (G1 & G2 & G3 & G4 & G5 & G6).
    rewrite G1, G2, G3, G4, G5, G6. repeat split; lia.
  - change (CountingSort.maxValue (CountingSort.record ?a ?b ?c ?d s2))
      with (CountingSort.maxValue s2).
    rewrite Hm, firstn_all. destruct l as [|x l]; simpl; lia.
Qed.

Lemma initializeCountArray_work s :
  work s (CountingSort._initializeCountArray s) 0 0 0 0 1 ∧
  CountingSort.maxValue (CountingSort._initializeCountArray s)
  = CountingSort.maxValue s.
Proof.
  split; [|done]. unfold work, CountingSort._initializeCountArray. simpl.
  rewrite length_app. simpl. repeat split; (done || lia).
Qed.

Lemma countOccurrences_work s :
  let n := length (CountingSort.array s) in
  work s (CountingSort._countOccurrences s) 0 n n 0 (n + 1) ∧
  CountingSort.maxValue (CountingSort._countOccurrences s)
  = CountingSort.maxValue s.
Proof.
  cbv zeta. unfold CountingSort._countOccurrences.
  set (body := λ (i : nat) (s : CountingSort.State), _).
  set (l := CountingSort.array s).
  assert (Hloop :
    let r := for_up 0 (length l) body s in
    work s r 0 (length l) (length l) 0 (length l) ∧
    CountingSort.maxValue r = CountingSort.maxValue s).
  { apply (for_up_ind (λ i (r : CountingSort.State),
      work s r 0 i i 0 i ∧ CountingSort.maxValue r = CountingSort.maxValue s)).
    - split; [unfold work; repeat split; (done || lia)|done].
    - intros i st Hi [(W1 & W2 & W3 & W4 & W5 & W6) Hm]. unfold body.
      rewrite W1. fold l.
      destruct (lookup_lt_is_Some_2 l i Hi) as [x Hx]. rewrite Hx.
      split; [|done]. unfold work. simpl. rewrite length_app. simpl.
      repeat split; simpl in *; try done; lia. }
  destruct Hloop as [Hw Hm]. split; [|done].
  pose proof (work_trans _ _ _ _ _ _ _ _ _ _ _ _ _ Hw
                (work_record CountingSort.t_count_complete CountingSort.p_count
                   true CountingSort.NoFields
                   (for_up 0 (length l) body s))) as H.
  unfold work in H |- *. destruct H as (G1 & G2 & G3 & G4 & G5 & G6).
  rewrite G1, G2, G3, G4, G5, G6. repeat split; lia.
Qed.

Lemma calculateCumulativeCounts_work s :
  let m := CountingSort.maxValue s in
  work s (CountingSort._calculateCumulativeCounts s) 0 0 m 0 (m + 2) ∧
  CountingSort.maxValue (CountingSort._calculateCumulativeCounts s) = m.
Proof.
  cbv zeta. unfold CountingSort._calculateCumulativeCounts.
  set (s1 := CountingSort.record _ _ _ _ s).
  assert (H1 : work s s1 0 0 0 0 1) by apply work_record.
  change (CountingSort.maxValue s1) with (CountingSort.maxValue s).
  set (m := CountingSort.maxValue s).
  set (body := λ (i : nat) (s : CountingSort.State), _).
  assert (Hloop :
    let r := for_up 1 m body s1 in
    work s1 r 0 0 (1 + m - 1) 0 (1 + m - 1) ∧ CountingSort.maxValue r = m).
  { apply (for_up_ind_from (λ i (r : CountingSort.State),
      work s1 r 0 0 (i - 1) 0 (i - 1) ∧ CountingSort.maxValue r = m)).
    - split; [unfold work; repeat split; simpl; (done || lia)|done].
    - intros i st Hi [(W1 & W2 & W3 & W4 & W5 & W6) Hm]. unfold body.
      split; [|done]. unfold work. simpl. rewrite length_app. simpl.
      repeat split; simpl in *; try done; lia. }
  destruct Hloop as [Hw Hm]. split; [|done].
  pose proof (work_trans _ _ _ _ _ _ _ _ _ _ _ _ _ H1 Hw) as H2.
  pose proof (work_trans _ _ _ _ _ _ _ _ _ _ _ _ _ H2
                (work_record CountingSort.t_cumulative_complete
                   CountingSort.p_cumulative true CountingSort.NoFields
                   (for_up 1 m body s1))) as H.
  unfold work in H |- *. destruct H as (G1 & G2 & G3 & G4 & G5 & G6).
  rewrite G1, G2, G3, G4, G5, G6. repeat split; lia.
Qed.

Lemma buildOutputArray_work s :
  let n := length (CountingSort.array s) in
  work s (CountingSort._buildOutputArray s) 0 (2 * n) 0 n (n + 2).
Proof.
  cbv zeta. unfold CountingSort._buildOutputArray.
  set (s1 := CountingSort.record _ _ _ _ s).
  assert (H1 : work s s1 0 0 0 0 1) by apply work_record.
  change (CountingSort.array s1) with (CountingSort.array s).
  set (l := CountingSort.array s).
  set (body := λ (i : nat) (s : CountingSort.State), _).
  assert (Hloop :
    let r := for_down (length l) body s1 in
    work s1 r 0 (2 * (length l - 0)) 0 (length l - 0) (length l - 0)).
  { apply (for_down_ind (λ i (r : CountingSort.State),
      work s1 r 0 (2 * (length l - i)) 0 (length l - i) (length l - i))).
    - unfold work. repeat split; (done || lia).
    - intros i st Hi (W1 & W2 & W3 & W4 & W5 & W6). unfold body.
      rewrite W1. change (CountingSort.array s1) with l.
      destruct (lookup_lt_is_Some_2 l i Hi) as [x Hx]. rewrite Hx.
      unfold work. simpl. rewrite length_app. simpl.
      repeat split; simpl in *; try done; lia. }
  cbv zeta in Hloop. rewrite Nat.sub_0_r in Hloop.
  pose proof (work_trans _ _ _ _ _ _ _ _ _ _ _ _ _ H1 Hloop) as H2.
  pose proof (work_trans _ _ _ _ _ _ _ _ _ _ _ _ _ H2
                (work_record CountingSort.t_output_complete
                   CountingSort.p_output true CountingSort.NoFields
                   (for_down (length l) body s1))) as H.
  unfold work in H |- *. destruct H as (G1 & G2 & G3 & G4 & G5 & G6).
  rewrite G1, G2, G3, G4, G5, G6. repeat split; lia.
Qed.

End CountingWork.

(** X13. [solve()] on an array of [n] values with maximum [k] (0 for the
    empty array) ends with [comparisons = n], [arrayAccesses = 4n],
    [countUpdates = n + k] and [placements = n], and records
    [3n + k + 9] steps: the work is linear in [n + k]. *)
Theorem counting_sort_work (input : list nat) :
  let result := CountingSort.solve (CountingSort.new input) in
  let n := length input in
  let k := list_max input in
  CountingSort.result_stats result = CountingSort.mkStats n (4 * n) (n + k) n ∧
  length (CountingSort.result_steps result) = (3 * n + k + 9)%nat.
Proof.
  intros result n k. subst result. unfold CountingSort.solve. cbv zeta.
  cbn [CountingSort.result_stats CountingSort.result_steps].
  set (s0 := CountingSort._resetState (CountingSort.new input)).
  destruct (findMaximum_work s0) as [W1 M1].
  set (s1 := CountingSort._findMaximum s0) in *.
  destruct (initializeCountArray_work s1) as [W2 M2].
  set (s2 := CountingSort._initializeCountArray s1) in *.
  destruct (countOccurrences_work s2) as [W3 M3].
  set (s3 := CountingSort._countOccurrences s2) in *.
  destruct (calculateCumulativeCounts_work s3) as [W4 M4].
  set (s4 := CountingSort._calculateCumulativeCounts s3) in *.
  pose proof (buildOutputArray_work s4) as W5.
  set (s5 := CountingSort._buildOutputArray s4) in *.
  pose proof (work_record CountingSort.t_complete CountingSort.p_complete true
                (CountingSort.FComplete (CountingSort.outputArray s5)) s5) as W6.
  fold (CountingSort._copyToOriginal s5) in W6.
  set (s6 := CountingSort._copyToOriginal s5) in *.
  cbv zeta in W1, W3, W4, W5.
  destruct W1 as (A1 & C1 & X1 & U1 & P1 & L1).
  destruct W2 as (A2 & C2 & X2 & U2 & P2 & L2).
  destruct W3 as (A3 & C3 & X3 & U3 & P3 & L3).
  destruct W4 as (A4 & C4 & X4 & U4 & P4 & L4).
  destruct W5 as (A5 & C5 & X5 & U5 & P5 & L5).
  destruct W6 as (A6 & C6 & X6 & U6 & P6 & L6).
  clearbody s1 s2 s3 s4 s5 s6.
  rewrite A4, A3, A2, A1 in *. rewrite M3, M2, M1 in *.
  change (CountingSort.array s0) with input in *.
  change (CountingSort.stats s0) with (CountingSort.mkStats 0 0 0 0) in *.
  change (CountingSort.steps s0) with (@nil CountingSort.Step) in *.
  clearbody s0.
  cbn [CountingSort.comparisons CountingSort.arrayAccesses
       CountingSort.countUpdates CountingSort.placements length]
    in C1, X1, U1, P1, L1.
  split.
  - destruct (CountingSort.stats s6) as [c a u p] eqn:E.
    cbn [CountingSort.comparisons CountingSort.arrayAccesses
         CountingSort.countUpdates CountingSort.placements] in C6, X6, U6, P6.
    f_equal; subst n k; lia.
  - subst n k. lia.
Qed.

(** ** Counting sort: the phases and stability *)

Section CountingStable.
Local Abbreviation occ := CountingSort.occurrences.
Local Abbreviation at_most := CountingSort.at_most.
Local Abbreviation smaller := CountingSort.smaller.

Lemma at_most_smaller (l : list nat) (v : nat) :
  at_most l v = (smaller l v + occ l v)%nat.
Proof.
  unfold CountingSort.at_most, CountingSort.smaller, CountingSort.occurrences.
  induction l as [|x l IH]; [done|]. simpl.
  destruct (Nat.leb_spec x v), (Nat.ltb_spec x v), (Nat.eqb_spec x v);
    simpl; lia.
Qed.

(** A count array is determined by its length and its entries. *)
Lemma counts_of_eq (c : list Z) (f : nat → nat) (m : nat) :
  length c = (m + 1)%nat →
  (∀ v, (v ≤ m)%nat → c !! v = Some (Z.of_nat (f v))) →
  c = CountingSort.counts_of f m.
Proof.
  intros Hlen Hc. unfold CountingSort.counts_of.
  apply list_eq_same_length with (m + 1)%nat;
    [by rewrite length_map, length_seq|done|].
  intros i x y Hi Hx Hy. rewrite Hc in Hx by lia.
  rewrite list_lookup_fmap, lookup_seq_lt in Hy by lia. simpl in Hy. congruence.
Qed.

(** The states between the phases of [solve()]. *)
Lemma solve_phases (input : list nat) :
  let s0 := CountingSort._resetState (CountingSort.new input) in
  let s1 := CountingSort._findMaximum s0 in
  let s2 := CountingSort._initializeCountArray s1 in
  let s3 := CountingSort._countOccurrences s2 in
  let s4 := CountingSort._calculateCumulativeCounts s3 in
  let s5 := CountingSort._buildOutputArray s4 in
  let m := list_max input in
  CountingSort.countArray s3 = CountingSort.counts_of (occ input) m ∧
  CountingSort.countArray s4 = CountingSort.counts_of (at_most input) m ∧
  CountingSort.output_inv input m [] 0 s5.
Proof.
  intros s0 s1 s2 s3 s4 s5 m.
  destruct (findMaximum_spec s0) as [[Ha1 Hm1] Hmax]. fold s1 in Ha1, Hm1, Hmax.
  destruct (findMaximum_work s0) as [_ HM]. fold s1 in HM.
  change (CountingSort.array s0) with input in *. fold m in HM.
  rewrite HM in Hmax.
  assert (Ha2 : CountingSort.array s2 = input) by exact Ha1.
  assert (Hm2 : CountingSort.output_moves (CountingSort.steps s2) = []).
  { subst s2. unfold CountingSort._initializeCountArray.
    rewrite output_moves_record, app_nil_r. simpl. by rewrite Hm1. }
  destruct (countOccurrences_spec s2 m) as ([Ha3 Hm3] & Hmv3 & Ho3 & Hl3 & Hc3).
  { by rewrite Ha2. }
  { subst s2. simpl. by rewrite HM. }
  fold s3 in Ha3, Hm3, Hmv3, Ho3, Hl3, Hc3. rewrite Ha2 in Hc3.
  destruct (calculateCumulativeCounts_spec s3 input m)
    as ([Ha4 Hm4] & Hmv4 & Ho4 & Hl4 & Hc4); [|done|done|].
  { rewrite Hmv3. exact HM. }
  fold s4 in Ha4, Hm4, Hmv4, Ho4, Hl4, Hc4.
  assert (H : CountingSort.output_inv input m
                (CountingSort.output_moves (CountingSort.steps s4)) 0 s5).
  { apply buildOutputArray_spec; [done|congruence|done|done|done|].
    rewrite Ho4, Ho3. subst s2. simpl. by rewrite Ha1. }
  rewrite Hm4, Hm3, Hm2 in H.
  split; [by apply counts_of_eq|]. split; [by apply counts_of_eq|]. exact H.
Qed.

Lemma expected_move_stable (l : list nat) (i v : nat) :
  l !! i = Some v →
  CountingSort.expected_move l i
  = Some (i, v, Z.of_nat (CountingSort.stable_position l i v),
          Z.of_nat (CountingSort.stable_position l i v) + 1,
          Z.of_nat (CountingSort.stable_position l i v)).
Proof.
  intros Hv. unfold CountingSort.expected_move, CountingSort.stable_position.
  rewrite Hv. cbv zeta.
  pose proof (at_most_smaller l v) as H1.
  pose proof (occ_app (take (S i) l) (drop (S i) l) v) as H2.
  rewrite take_drop in H2.
  pose proof (occ_take_S l i v v Hv) as H3. rewrite Nat.eqb_refl in H3.
  do 4 f_equal; lia.
Qed.

End CountingStable.

Lemma outputArray_record ty ph snap f s :
  CountingSort.outputArray (CountingSort.record ty ph snap f s)
  = CountingSort.outputArray s.
Proof. reflexivity. Qed.

(** X14. Counting sort is stable: the output step for input index [i]
    with value [v] writes to the index that counts the smaller elements
    and the equal elements before [i], and the returned array holds [v]
    there; so equal values keep their input order. *)
Theorem counting_sort_stable (input : list nat) :
  let result := CountingSort.solve (CountingSort.new input) in
  let moves := CountingSort.output_moves (CountingSort.result_steps result) in
  Forall (λ mv, let '(i, v, position, countBefore, countAfter) := mv in
            position = Z.of_nat (CountingSort.stable_position input i v)) moves ∧
  (∀ i v, input !! i = Some v →
     CountingSort.sortedArray result !! CountingSort.stable_position input i v
     = Some (Some v)) ∧
  (∀ i j v, (i < j)%nat → input !! i = Some v → input !! j = Some v →
     (CountingSort.stable_position input i v
      < CountingSort.stable_position input j v)%nat).
Proof.
  intros result moves. subst result moves. unfold CountingSort.solve. cbv zeta.
  destruct (solve_phases input)
    as (_ & _ & Ha5 & Hmv5 & Hlo & Hlc & Hcnt & Hfill & Hfree & Hperm & Hmoves).
  cbv zeta in Ha5, Hmv5, Hlo, Hlc, Hcnt, Hfill, Hfree, Hperm, Hmoves.
  set (s5 := CountingSort._buildOutputArray _) in *.
  cbn [CountingSort.sortedArray CountingSort.result_steps].
  unfold CountingSort._copyToOriginal.
  rewrite outputArray_record, output_moves_record, app_nil_r, Hmoves,
    app_nil_l, Nat.sub_0_r.
  assert (Hmax : ∀ x, x ∈ input → (x ≤ list_max input)%nat).
  { intros x Hx. pose proof (proj1 (list_max_le input (list_max input)) (le_n _)) as H.
    rewrite List.Forall_forall in H. apply H. by apply list_elem_of_In. }
  split; [|split].
  - apply Forall_forall. intros [[[[i v] position] cb] ca] Hmv.
    apply list_elem_of_omap in Hmv as (i' & _ & Hmv).
    destruct (input !! i') as [v'|] eqn:Hi';
      [|unfold CountingSort.expected_move in Hmv; by rewrite Hi' in Hmv].
    rewrite (expected_move_stable _ _ _ Hi') in Hmv. by injection Hmv as -> -> <- _ _.
  - intros i v Hv. apply Hfill.
    + apply Hmax. by eapply list_elem_of_lookup_2.
    + destruct (expected_move_zone input i v Hv) as [Hpos Hz].
      pose proof (expected_move_stable input i v Hv) as E.
      unfold CountingSort.expected_move in E. rewrite Hv in E. cbv zeta in E.
      injection E as E _.
      replace (CountingSort.stable_position input i v)
        with (CountingSort.at_most input v
              - CountingSort.occurrences (drop (S i) input) v - 1)%nat by lia.
      exact Hz.
  - intros i j v Hij Hi Hj. unfold CountingSort.stable_position.
    pose proof (occ_take_S input i v v Hi) as H1. rewrite Nat.eqb_refl in H1.
    assert (H2 : (CountingSort.occurrences (take (S i) input) v
                  ≤ CountingSort.occurrences (take j input) v)%nat).
    { replace (take (S i) input) with (take (S i) (take j input))
        by (rewrite take_take; f_equal; lia).
      rewrite <- (take_drop (S i) (take j input)) at 2. rewrite occ_app. lia. }
    lia.
Qed.

(** A loop whose body only appends to the trace only appends to it. *)
Lemma fold_extends {St X : Type} (proj : St → list X) (body : nat → St → St)
    (idx : list nat) (s : St) :
  (∀ i s, ∃ new, proj (body i s) = proj s ++ new) →
  ∃ new, proj (fold_left (λ s i, body i s) idx s) = proj s ++ new.
Proof.
  intros Hbody. revert s. induction idx as [|i idx IH]; intros s.
  - exists []. by rewrite app_nil_r.
  - simpl. destruct (IH (body i s)) as [new1 H1].
    destruct (Hbody i s) as [new2 H2]. exists (new2 ++ new1).
    by rewrite H1, H2, <- app_assoc.
Qed.

Lemma for_up_extends {St X : Type} (proj : St → list X) (lo n : nat)
    (body : nat → St → St) (s : St) :
  (∀ i s, ∃ new, proj (body i s) = proj s ++ new) →
  ∃ new, proj (for_up lo n body s) = proj s ++ new.
Proof. apply fold_extends. Qed.

Lemma for_down_extends {St X : Type} (proj : St → list X) (n : nat)
    (body : nat → St → St) (s : St) :
  (∀ i s, ∃ new, proj (body i s) = proj s ++ new) →
  ∃ new, proj (for_down n body s) = proj s ++ new.
Proof. apply fold_extends. Qed.

Lemma snoc_regroup {A : Type} (a c : list A) (b x : A) :
  ((a ++ [b]) ++ c) ++ [x] = a ++ (b :: c) ++ [x].
Proof. by rewrite <- !app_assoc. Qed.

Lemma trace_regroup {A : Type} (pre mid post : list A) (st1 st2 x : A) :
  (((pre ++ [st1]) ++ mid ++ [st2]) ++ post) ++ [x]
  = pre ++ [st1] ++ mid ++ [st2] ++ post ++ [x].
Proof. by rewrite <- !app_assoc. Qed.

(** X15. The count array goes through the three tables of the
    algorithm: the step that closes the count phase shows the number of
    occurrences of every value from 0 to the maximum, the step that closes
    the cumulative phase shows the number of elements at most each value,
    and the last step of the trace shows the number of elements smaller
    than each value. *)
Theorem counting_sort_count_tables (input : list nat) :
  let result := CountingSort.solve (CountingSort.new input) in
  let m := list_max input in
  ∃ pre st1 mid st2 post st3,
    CountingSort.result_steps result
    = pre ++ [st1] ++ mid ++ [st2] ++ post ++ [st3] ∧
    CountingSort.type st1 = CountingSort.t_count_complete ∧
    CountingSort.countArray_snapshot st1
    = CountingSort.counts_of (CountingSort.occurrences input) m ∧
    CountingSort.type st2 = CountingSort.t_cumulative_complete ∧
    CountingSort.countArray_snapshot st2
    = CountingSort.counts_of (CountingSort.at_most input) m ∧
    CountingSort.type st3 = CountingSort.t_complete ∧
    CountingSort.countArray_snapshot st3
    = CountingSort.counts_of (CountingSort.smaller input) m.
Proof.
  intros result m. subst result. unfold CountingSort.solve. cbv zeta.
  cbn [CountingSort.result_steps].
  destruct (solve_phases input) as (Hc3 & Hc4 & Hinv). cbv zeta in Hc3, Hc4, Hinv.
  fold m in Hc3, Hc4, Hinv.
  destruct Hinv as (_ & _ & _ & Hlc & Hcnt & _).
  set (s2 := CountingSort._initializeCountArray _) in *.
  set (s3 := CountingSort._countOccurrences s2) in *.
  set (s4 := CountingSort._calculateCumulativeCounts s3) in *.
  set (s5 := CountingSort._buildOutputArray s4) in *.
  assert (H3 : ∃ pre st1, CountingSort.steps s3 = pre ++ [st1] ∧
            CountingSort.type st1 = CountingSort.t_count_complete ∧
            CountingSort.countArray_snapshot st1 = CountingSort.countArray s3).
  { subst s3. unfold CountingSort._countOccurrences. by eexists _, _. }
  destruct H3 as (pre & st1 & E3 & T1 & S1).
  assert (H4 : ∃ mid st2, CountingSort.steps s4
                          = CountingSort.steps s3 ++ mid ++ [st2] ∧
            CountingSort.type st2 = CountingSort.t_cumulative_complete ∧
            CountingSort.countArray_snapshot st2 = CountingSort.countArray s4).
  { subst s4. clearbody s3. unfold CountingSort._calculateCumulativeCounts.
    cbv zeta.
    match goal with
    | |- context [for_up ?lo ?n ?body ?s] =>
        destruct (for_up_extends CountingSort.steps lo n body s) as [new Hnew];
          [|set (r := for_up lo n body s) in *; clearbody r]
    end.
    { intros i s. by eexists. }
    eexists (_ :: new), _. unfold CountingSort.record at 1 2.
    cbn [CountingSort.steps CountingSort.countArray]. rewrite Hnew.
    unfold CountingSort.record. cbn [CountingSort.steps].
    split; [apply snoc_regroup|]. done. }
  destruct H4 as (mid & st2 & E4 & T2 & S2).
  assert (H5 : ∃ post, CountingSort.steps s5 = CountingSort.steps s4 ++ post).
  { subst s5. clearbody s4. unfold CountingSort._buildOutputArray. cbv zeta.
    match goal with
    | |- context [for_down ?n ?body ?s] =>
        destruct (for_down_extends CountingSort.steps n body s) as [new Hnew];
          [|set (r := for_down n body s) in *; clearbody r]
    end.
    { intros i s. destruct (CountingSort.array s !! i); [by eexists|].
      exists []. by rewrite app_nil_r. }
    eexists (_ :: new ++ [_]). unfold CountingSort.record at 1.
    cbn [CountingSort.steps]. rewrite Hnew.
    unfold CountingSort.record. cbn [CountingSort.steps].
    apply snoc_regroup. }
  destruct H5 as (post & E5).
  clearbody s2 s3 s4 s5.
  exists pre, st1, mid, st2, post.
  eexists. unfold CountingSort._copyToOriginal, CountingSort.record.
  cbn [CountingSort.steps CountingSort.type CountingSort.countArray_snapshot].
  rewrite E5, E4, E3.
  split; [apply trace_regroup|].
  rewrite S1, S2, Hc3, Hc4.
  split; [done|]. split; [done|]. split; [done|]. split; [done|]. split; [done|].
  apply counts_of_eq; [done|]. intros v Hv. rewrite Hcnt by done.
  do 2 f_equal. change (drop 0 input) with input.
  rewrite at_most_smaller. lia.
Qed.


(** ** Heap monk mode: the level and the session of clicks *)

Lemma swap_at_comm (a : list Z) (i j : nat) :
  Heap.swap_at a i j = Heap.swap_at a j i.
Proof.
  unfold Heap.swap_at.
  destruct (a !! i) as [x|] eqn:Ei, (a !! j) as [y|] eqn:Ej; try done.
  destruct (decide (i = j)) as [->|Hne]; [congruence|].
  by rewrite list_insert_insert_ne.
Qed.

Lemma bump_stats_swapCount (op : HeapMonk.Operation) (idx f t : nat)
    (st : Heap.Stats) :
  Heap.st_swapCount (HeapMonk.bump_stats op idx f t st)
  = (Heap.st_swapCount st + 1)%nat.
Proof.
  unfold HeapMonk.bump_stats.
  destruct op; cbn [Heap.st_swapCount Heap.st_heapifyCalls Heap.st_recursiveCalls];
    repeat match goal with |- context [if ?c then _ else _] => destruct c end;
    reflexivity.
Qed.

Section HeapMonkSession.
Variables (E : list Heap.SwapPair) (A0 : list Z).

(** What every state of a session keeps: the user's array is the start
    array after the expected swaps done so far, and the level is over
    exactly when a last expected swap has been done. *)
Definition session_inv (s : HeapMonk.State) : Prop :=
  HeapMonk.expectedSwaps s = E ∧
  (HeapMonk.currentSwapIndex s ≤ length E)%nat ∧
  HeapMonk.userArray s
  = Heap.replay (take (HeapMonk.currentSwapIndex s) E) A0 ∧
  Heap.st_swapCount (HeapMonk.userStats s) = HeapMonk.currentSwapIndex s ∧
  (HeapMonk.isActive s = false ↔
     HeapMonk.currentSwapIndex s = length E ∧ E ≠ []).

Lemma attemptSwap_inv (f t : nat) (s : HeapMonk.State) :
  session_inv s →
  session_inv (HeapMonk._attemptSwap f t s) ∧
  HeapMonk.selectedNode (HeapMonk._attemptSwap f t s) = HeapMonk.selectedNode s.
Proof.
  intros (HE & Hle & Harr & Hcnt & Hact).
  unfold HeapMonk._attemptSwap. cbv zeta.
  destruct (Heap.valid _) eqn:Hv.
  - apply validateSwap_valid in Hv as (e & He & Hm).
    rewrite HE in He. pose proof (lookup_lt_Some _ _ _ He) as Hlt.
    assert (Hsw : Heap.swap_at (HeapMonk.userArray s) f t
                  = Heap.replay (take (S (HeapMonk.currentSwapIndex s)) E) A0).
    { rewrite (take_S_r _ _ _ He). unfold Heap.replay. rewrite fold_left_app.
      cbn [fold_left]. fold (Heap.replay (take (HeapMonk.currentSwapIndex s) E) A0).
      rewrite <- Harr.
      destruct Hm as [[-> ->]|[-> ->]]; [done|apply swap_at_comm]. }
    cbn [HeapMonk._updateStatus HeapMonk.expectedSwaps HeapMonk.currentSwapIndex].
    rewrite HE.
    destruct (length E <=? HeapMonk.currentSwapIndex s + 1)%nat eqn:Hc.
    + apply Nat.leb_le in Hc.
      split; [|reflexivity].
      unfold session_inv.
      cbn [HeapMonk._onComplete HeapMonk._updateStatus HeapMonk.expectedSwaps
           HeapMonk.currentSwapIndex HeapMonk.userArray HeapMonk.userStats
           HeapMonk.isActive HeapMonk.operation HeapMonk.selectedNode].
      rewrite bump_stats_swapCount, Hcnt, Nat.add_1_r.
      split; [done|]. split; [lia|]. split; [done|]. split; [done|].
      split; [intros _|done]. split; [lia|]. intros ->. simpl in Hlt. lia.
    + apply Nat.leb_gt in Hc.
      split; [|reflexivity].
      unfold session_inv.
      cbn [HeapMonk._updateStatus HeapMonk.expectedSwaps
           HeapMonk.currentSwapIndex HeapMonk.userArray HeapMonk.userStats
           HeapMonk.isActive HeapMonk.operation HeapMonk.selectedNode].
      rewrite bump_stats_swapCount, Hcnt, Nat.add_1_r.
      split; [done|]. split; [lia|]. split; [done|]. split; [done|].
      split; [|lia]. intros Hf. apply Hact in Hf. lia.
  - split; [|reflexivity]. done.
Qed.

Lemma click_inv (i : nat) (s : HeapMonk.State) :
  session_inv s → session_inv (HeapMonk.click i s).
Proof.
  intros Hs. unfold HeapMonk.click, HeapMonk._handleNodeClick.
  destruct (HeapMonk.isActive s); [|done].
  destruct (HeapMonk.selectedNode s) as [first|]; [|done].
  destruct (first =? i)%nat; [done|].
  by destruct (attemptSwap_inv first i s Hs) as [H _].
Qed.

Lemma clicks_inv (cs : list nat) : ∀ s : HeapMonk.State,
  session_inv s → session_inv (HeapMonk.clicks cs s).
Proof.
  induction cs as [|i cs IH]; intros s Hs; [done|].
  apply IH. by apply click_inv.
Qed.

(** Clicking the two nodes of the next expected swap does it. *)
Lemma play_pair (e : Heap.SwapPair) (s : HeapMonk.State) :
  session_inv s → HeapMonk.selectedNode s = None →
  E !! HeapMonk.currentSwapIndex s = Some e → Heap.from e ≠ Heap.to e →
  let s' := HeapMonk.click (Heap.to e) (HeapMonk.click (Heap.from e) s) in
  HeapMonk.selectedNode s' = None ∧
  HeapMonk.currentSwapIndex s' = S (HeapMonk.currentSwapIndex s).
Proof.
  intros Hs Hsel He Hne s'. subst s'.
  destruct Hs as (HE & Hle & Harr & Hcnt & Hact).
  pose proof (lookup_lt_Some _ _ _ He) as Hlt.
  assert (Ha : HeapMonk.isActive s = true).
  { destruct (HeapMonk.isActive s); [done|]. destruct Hact as [Hact _].
    destruct Hact; [done|lia]. }
  assert (H1 : ∃ msg, HeapMonk.click (Heap.from e) s
                      = HeapMonk._updateStatus msg
                          (HeapMonk.select (Some (Heap.from e)) s)).
  { unfold HeapMonk.click, HeapMonk._handleNodeClick. rewrite Ha, Hsel.
    by eexists. }
  destruct H1 as [msg ->].
  unfold HeapMonk.click.
  cbn [HeapMonk._updateStatus HeapMonk.select HeapMonk.isActive]. rewrite Ha.
  unfold HeapMonk._handleNodeClick.
  cbn [HeapMonk._updateStatus HeapMonk.select HeapMonk.selectedNode].
  replace (Heap.from e =? Heap.to e)%nat with false
    by (symmetry; by apply Nat.eqb_neq).
  split; [reflexivity|].
  unfold HeapMonk._attemptSwap. cbv zeta.
  cbn [HeapMonk._updateStatus HeapMonk.select HeapMonk.expectedSwaps
       HeapMonk.currentSwapIndex HeapMonk.userArray].
  assert (Hv : Heap.valid (Heap.validateSwap (HeapMonk.userArray s) (Heap.from e)
                 (Heap.to e) (HeapMonk.expectedSwaps s)
                 (HeapMonk.currentSwapIndex s)) = true).
  { apply validateSwap_valid. exists e. rewrite HE. split; [done|]. by left. }
  rewrite Hv.
  cbn [HeapMonk._updateStatus HeapMonk.expectedSwaps HeapMonk.currentSwapIndex].
  destruct (_ <=? _)%nat; cbn; lia.
Qed.

Lemma play_all (rest : list Heap.SwapPair) : ∀ s : HeapMonk.State,
  session_inv s → HeapMonk.selectedNode s = None →
  drop (HeapMonk.currentSwapIndex s) E = rest →
  Forall (λ p, Heap.from p ≠ Heap.to p) rest →
  HeapMonk.currentSwapIndex
    (HeapMonk.clicks (flat_map (λ p, [Heap.from p; Heap.to p]) rest) s)
  = length E.
Proof.
  induction rest as [|e rest IH]; intros s Hs Hsel Hdrop Hne.
  - simpl. destruct Hs as (_ & Hle & _).
    apply (f_equal length) in Hdrop. rewrite length_drop in Hdrop. simpl in Hdrop.
    lia.
  - apply Forall_cons in Hne as [Hne1 Hne].
    assert (He : E !! HeapMonk.currentSwapIndex s = Some e).
    { rewrite <- (Nat.add_0_r (HeapMonk.currentSwapIndex s)), <- lookup_drop, Hdrop.
      done. }
    destruct (play_pair e s Hs Hsel He Hne1) as [Hsel' Hidx].
    cbn [flat_map app HeapMonk.clicks fold_left].
    change (fold_left _ ?cs ?s0) with (HeapMonk.clicks cs s0).
    apply IH; [by do 2 apply click_inv|done| |done].
    rewrite Hidx. rewrite (drop_S _ _ _ He) in Hdrop. congruence.
Qed.

End HeapMonkSession.

(** *** The part of a trace from the first step that [findIndex] finds *)

Section TraceTail.
Context {A B : Type} (p : A → bool) (f : A → option B).

Lemma findIndex_app (l1 l2 : list A) :
  HeapMonk.findIndex p (l1 ++ l2)
  = match HeapMonk.findIndex p l1 with
    | Some k => Some k
    | None => (λ k, length l1 + k)%nat <$> HeapMonk.findIndex p l2
    end.
Proof.
  induction l1 as [|x l1 IH]; simpl.
  - by destruct (HeapMonk.findIndex p l2).
  - destruct (p x); [done|]. rewrite IH.
    destruct (HeapMonk.findIndex p l1); [done|].
    by destruct (HeapMonk.findIndex p l2).
Qed.

Lemma findIndex_lt (l : list A) (k : nat) :
  HeapMonk.findIndex p l = Some k → (k < length l)%nat.
Proof.
  revert k. induction l as [|x l IH]; intros k; simpl; [done|].
  destruct (p x); [intros [= <-]; lia|].
  destruct (HeapMonk.findIndex p l) as [k'|]; [|done].
  intros [= <-]. specialize (IH k' eq_refl). lia.
Qed.

Lemma findIndex_none (l : list A) :
  Forall (λ x, p x = false) l → HeapMonk.findIndex p l = None.
Proof.
  induction 1 as [|x l Hx _ IH]; simpl; [done|]. by rewrite Hx, IH.
Qed.

(** What is collected from the first step satisfying [p] on; [None] when
    there is no such step. *)
Definition tail_from (l : list A) : option (list B) :=
  (λ k, omap f (drop k l)) <$> HeapMonk.findIndex p l.

Lemma tail_from_quiet (l new : list A) :
  Forall (λ x, p x = false) new →
  tail_from (l ++ new) = (λ ps, ps ++ omap f new) <$> tail_from l.
Proof.
  intros Hq. unfold tail_from. rewrite findIndex_app, (findIndex_none new Hq).
  destruct (HeapMonk.findIndex p l) as [k|] eqn:Hk; [|done].
  apply findIndex_lt in Hk. simpl.
  rewrite drop_app_le by lia. by rewrite omap_app.
Qed.

Lemma tail_from_start (l : list A) (x : A) :
  tail_from l = None → p x = true → tail_from (l ++ [x]) = Some (omap f [x]).
Proof.
  unfold tail_from. intros Hn Hx. rewrite findIndex_app.
  destruct (HeapMonk.findIndex p l); [done|].
  simpl. rewrite Hx. simpl. rewrite Nat.add_0_r, drop_app_length. done.
Qed.

Lemma tail_from_Some (l : list A) (ps : list B) :
  tail_from l = Some ps →
  ∃ k, HeapMonk.findIndex p l = Some k ∧ omap f (drop k l) = ps.
Proof.
  unfold tail_from. destruct (HeapMonk.findIndex p l) as [k|]; [|done].
  intros [= <-]. by exists k.
Qed.

Lemma tail_from_None (l : list A) :
  tail_from l = None → HeapMonk.findIndex p l = None.
Proof. unfold tail_from. by destruct (HeapMonk.findIndex p l). Qed.

End TraceTail.

(** The steps that [_heapifyNode] pushes are none of the step that opens
    the operation. *)
Definition grows (l l' : list Heap.Step) : Prop :=
  ∃ new, l' = l ++ new ∧
         Forall (λ st, HeapMonk.is_operation_start st = false) new.

Lemma grows_refl (l : list Heap.Step) : grows l l.
Proof. exists []. by rewrite app_nil_r. Qed.

Lemma grows_trans (l1 l2 l3 : list Heap.Step) :
  grows l1 l2 → grows l2 l3 → grows l1 l3.
Proof.
  intros (n1 & -> & H1) (n2 & -> & H2). exists (n1 ++ n2).
  split; [by rewrite app_assoc|by apply Forall_app].
Qed.

Lemma grows_record ty descr f (s : Heap.State) :
  ty ≠ Heap.t_extract_heapify_start →
  grows (Heap.steps s) (Heap.steps (Heap.record ty descr f s)).
Proof.
  intros Hty. eexists. split; [reflexivity|].
  constructor; [|done]. unfold HeapMonk.is_operation_start. by destruct ty.
Qed.

Lemma pickLargestChild_grows (i l1 l2 hs lg d : nat) (s : Heap.State) :
  grows (Heap.steps s) (Heap.steps (Heap._pickLargestChild i l1 l2 hs lg d s).2).
Proof.
  unfold Heap._pickLargestChild. cbv zeta.
  destruct (_ && _).
  - destruct (_ && _); cbn [snd].
    + eapply grows_trans; by apply grows_record.
    + by apply grows_record.
  - destruct (_ && _); cbn [snd]; [by apply grows_record|apply grows_refl].
Qed.

Lemma heapify_grows (fuel : nat) : ∀ (c hs d : nat) (s : Heap.State),
  grows (Heap.steps s) (Heap.steps (Heap.heapify_fuel fuel c hs d s)).
Proof.
  induction fuel as [|fuel IH]; intros c hs d s; [apply grows_refl|].
  cbn [Heap.heapify_fuel].
  set (s1 := Heap.mkState _ _ _ _ _ _).
  set (s2 := Heap._recordHeapifyStart c (2 * c + 1) (2 * c + 2) d s1).
  assert (H2 : grows (Heap.steps s) (Heap.steps s2))
    by (by apply (grows_record _ _ _ s1)).
  pose proof (pickLargestChild_grows c (2 * c + 1) (2 * c + 2) hs c d s2) as H3.
  destruct (Heap._pickLargestChild _ _ _ _ _ _ s2) as [l s3]. cbn [snd] in H3.
  case_bool_decide.
  - unfold Heap._swapAndRecurse. cbv zeta.
    eapply grows_trans; [|apply IH].
    eapply grows_trans; [exact H2|]. eapply grows_trans; [exact H3|].
    unfold Heap._recordRecurse, Heap._recordAfterSwap.
    eapply grows_trans; [|by apply grows_record].
    eapply grows_trans; [|by apply grows_record].
    cbn [Heap.steps Heap.set_array]. by apply grows_record.
  - eapply grows_trans; [exact H2|]. eapply grows_trans; [exact H3|].
    by apply grows_record.
Qed.

Lemma build_loop_grows (k : nat) (s : Heap.State) :
  grows (Heap.steps s)
    (Heap.steps (for_down k (λ i s,
                   Heap._heapifyNode i (length (Heap.array s)) 0 s) s)).
Proof.
  apply (for_down_ind (λ _ s', grows (Heap.steps s) (Heap.steps s'))).
  - apply grows_refl.
  - intros i s' _ H. eapply grows_trans; [exact H|]. apply heapify_grows.
Qed.

(** The swap that [getSwapSequence] keeps of a step. *)
Definition swap_of_step (st : Heap.Step) : option Heap.SwapPair :=
  match Heap.type st, Heap.fields st with
  | Heap.t_swap, Heap.FSwap f t fv tv _ => Some (Heap.mkSwapPair f t fv tv)
  | _, _ => None
  end.

(** The expected swaps that [startLevel] would collect from the steps of
    an extraction recorded so far. *)
Definition tail_of (s : Heap.State) : option (list Heap.SwapPair) :=
  tail_from HeapMonk.is_operation_start swap_of_step (Heap.steps s).

Lemma tail_grows_none (s s' : Heap.State) :
  grows (Heap.steps s) (Heap.steps s') → tail_of s = None → tail_of s' = None.
Proof.
  intros (new & E & Hq) Hn. unfold tail_of. rewrite E.
  rewrite tail_from_quiet by done. fold (tail_of s). by rewrite Hn.
Qed.

Lemma tail_grows_some (s s' : Heap.State) (ps0 ps : list Heap.SwapPair) :
  grows (Heap.steps s) (Heap.steps s') →
  Heap.getSwapSequence (Heap.steps s')
  = Heap.getSwapSequence (Heap.steps s) ++ ps →
  tail_of s = Some ps0 → tail_of s' = Some (ps0 ++ ps).
Proof.
  intros (new & E & Hq) Hsw Hn. unfold tail_of. rewrite E.
  rewrite tail_from_quiet by done. fold (tail_of s). rewrite Hn. simpl.
  rewrite E, getSwapSequence_app in Hsw. apply app_inv_head in Hsw.
  by rewrite <- Hsw.
Qed.

Lemma sift_swap_distinct (n : nat) (ps : list Heap.SwapPair) :
  Forall (Heap.sift_swap n) ps → Forall (λ p, Heap.from p ≠ Heap.to p) ps.
Proof.
  intros H. eapply Forall_impl; [exact H|]. intros p (Hto & _). cbv beta. lia.
Qed.

(** The array that [buildMaxHeap] returns is the array of the bottom-up
    loop, whatever is recorded on the way. *)
Lemma built_array (input : list Z) (s : Heap.State) :
  Heap.array s = input →
  Heap.heap (Heap.buildMaxHeap (Heap.new input))
  = Heap.array
      (for_down (Z.to_nat (Z.of_nat (length input) / 2 - 1 + 1))
         (λ i s, Heap._heapifyNode i (length (Heap.array s)) 0 s) s).
Proof.
  intros Hs. unfold Heap.buildMaxHeap. cbv zeta. cbn [Heap.heap].
  change (Heap.array (Heap._recordComplete ?s)) with (Heap.array s).
  symmetry.
  apply (build_loop_array_only (λ _ s, s) (λ _ s, s)
           Heap._recordLoopStart Heap._recordLoopEnd); try done.
Qed.

Lemma extract_level_tail (input : list Z) :
  ((length input ≤ 1)%nat →
     tail_from HeapMonk.is_operation_start swap_of_step
       (Heap.ex_steps (Heap.extractMax (Heap.new input))) = None) ∧
  ((2 ≤ length input)%nat →
     ∃ ps, tail_from HeapMonk.is_operation_start swap_of_step
             (Heap.ex_steps (Heap.extractMax (Heap.new input))) = Some ps ∧
           Heap.replay ps
             (Heap.move_last_to_root
                (Heap.heap (Heap.buildMaxHeap (Heap.new input))))
           = Heap.ex_heap (Heap.extractMax (Heap.new input)) ∧
           Forall (λ p, Heap.from p ≠ Heap.to p) ps).
Proof.
  set (start := Heap.move_last_to_root _).
  assert (Hrec : ∀ ty d f s, ty ≠ Heap.t_extract_heapify_start →
            tail_of s = None → tail_of (Heap.record ty d f s) = None).
  { intros ty d f s Hty. apply tail_grows_none. by apply grows_record. }
  unfold Heap.extractMax. cbv zeta.
  set (s0 := Heap.record Heap.t_pre_extract_build _ _ _).
  set (s1 := for_down _ _ s0).
  assert (Hstart : start = Heap.move_last_to_root (Heap.array s1)).
  { subst start. f_equal. apply (built_array input s0 eq_refl). }
  assert (Hlen : length (Heap.array s1) = length input).
  { destruct (build_loop_heap (λ _ s, s) (λ _ s, s) s0) as [_ Hperm];
      [done|done|].
    apply Permutation_length in Hperm. exact Hperm. }
  assert (H1 : tail_of s1 = None).
  { apply (tail_grows_none s0); [apply build_loop_grows|reflexivity]. }
  clearbody start s1. clear s0.
  set (s1c := Heap.record Heap.t_pre_extract_complete _ _ s1).
  assert (Ha1 : Heap.array s1c = Heap.array s1) by reflexivity.
  assert (H1c : tail_of s1c = None) by (by apply Hrec).
  clearbody s1c. rewrite Ha1.
  destruct (Heap.array s1) as [|max tl] eqn:Harr.
  { simpl in Hlen. cbn [lookup list_lookup Heap.ex_steps].
    split; [|lia]. intros _. by apply Hrec. }
  cbn [lookup list_lookup]. simpl (_ !! 0%nat).
  set (s2 := Heap.record Heap.t_extract_swap_root _ _ _).
  assert (Ha2 : Heap.array s2 = start).
  { subst s2. cbn [Heap.array Heap.record Heap.set_array]. by rewrite Ha1, Hstart. }
  assert (H2 : tail_of s2 = None).
  { subst s2. apply Hrec; [done|].
    change (tail_of (Heap.set_array ?a ?s)) with (tail_of s).
    by apply Hrec. }
  clearbody s2.
  assert (Hstart' : start = match last tl with
                            | Some y => y :: removelast tl
                            | None => []
                            end)
    by (by rewrite Hstart, move_last_to_root_cons).
  simpl in Hlen.
  destruct (0 <? length (Heap.array s2))%nat eqn:Hpos.
  - apply Nat.ltb_lt in Hpos. rewrite Ha2 in Hpos.
    split.
    { intros Hle. destruct tl; [|simpl in Hle, Hlen; lia].
      rewrite Hstart' in Hpos. simpl in Hpos. lia. }
    intros _.
    set (s3 := Heap.record Heap.t_extract_heapify_start _ _ s2).
    assert (Ha3 : Heap.array s3 = Heap.array s2) by reflexivity.
    assert (H3 : tail_of s3 = Some []).
    { unfold tail_of. subst s3. unfold Heap.record at 1. cbn [Heap.steps].
      by rewrite (tail_from_start _ _ _ _ H2). }
    clearbody s3.
    destruct (heapify_trace (S (length (Heap.array s3) - 0)) 0 0 s3)
      as (ps & P1 & P2 & _ & _ & _ & P6); [simpl; lia|rewrite Ha3, Ha2; lia|].
    pose proof (heapify_grows (S (length (Heap.array s3) - 0)) 0
                  (length (Heap.array s3)) 0 s3) as Hg3.
    fold (Heap._heapifyNode 0 (length (Heap.array s3)) 0 s3) in P1, P2, Hg3.
    set (s4 := Heap._heapifyNode 0 (length (Heap.array s3)) 0 s3) in *.
    pose proof (tail_grows_some s3 s4 [] ps Hg3 P1 H3) as H4.
    clearbody s4. cbn [Heap.ex_steps Heap.ex_heap].
    exists ps. split; [|split].
    + match goal with
      | |- tail_from _ _ (Heap.steps ?s) = _ => change (tail_of s = Some ps)
      end.
      eapply (tail_grows_some s4 _ ([] ++ ps) []) in H4;
        [rewrite app_nil_r in H4; exact H4|by apply grows_record|].
      rewrite record_quiet by done. by rewrite app_nil_r.
    + change (Heap.array (Heap.record ?ty ?d ?f ?s)) with (Heap.array s).
      rewrite P2. by rewrite Ha3, Ha2.
    + by eapply sift_swap_distinct.
  - apply Nat.ltb_ge in Hpos. rewrite Ha2 in Hpos.
    cbn [Heap.ex_steps Heap.ex_heap].
    split.
    { intros _. by apply Hrec. }
    intros Hle. rewrite Hstart' in Hpos.
    destruct tl as [|y tl]; [simpl in Hlen; lia|].
    destruct (last (y :: tl)) eqn:El; [simpl in Hpos; lia|].
    by apply last_None in El.
Qed.

(** The swap that [startLevel] keeps of a step of [insertElement]. *)
Definition swap_of_insert_step (st : Heap.InsertStep) : option Heap.SwapPair :=
  match st with
  | Heap.SHeapify st => swap_of_step st
  | Heap.SInsert Heap.t_bubble_swap _ _ _ (Heap.IBubbleSwap f t fv tv _) =>
      Some (Heap.mkSwapPair f t fv tv)
  | _ => None
  end.

(** A step pushed by [_bubbleUp] or after it. *)
Definition bubble_step (st : Heap.InsertStep) : Prop :=
  match st with
  | Heap.SInsert ty _ _ _ _ => ty ≠ Heap.t_insert_add
  | Heap.SHeapify _ => False
  end.

Lemma bubble_step_quiet (new : list Heap.InsertStep) :
  Forall bubble_step new →
  Forall (λ st, HeapMonk.is_insert_start st = false) new ∧
  omap swap_of_insert_step new = Heap.bubble_swaps new.
Proof.
  induction 1 as [|st new Hst _ [IH1 IH2]]; [done|].
  destruct st as [st|ty a d stt f]; [done|]. simpl in Hst.
  split.
  - constructor; [by destruct ty|done].
  - unfold Heap.bubble_swaps in *. cbn [omap list_omap]. rewrite IH2.
    by destruct ty, f.
Qed.

Definition ins_grows (s s' : Heap.InsertState) : Prop :=
  ∃ new, Heap.ins_steps s' = Heap.ins_steps s ++ new ∧ Forall bubble_step new.

Lemma ins_grows_refl (s : Heap.InsertState) : ins_grows s s.
Proof. exists []. by rewrite app_nil_r. Qed.

Lemma ins_grows_trans (s1 s2 s3 : Heap.InsertState) :
  ins_grows s1 s2 → ins_grows s2 s3 → ins_grows s1 s3.
Proof.
  intros (n1 & E1 & H1) (n2 & E2 & H2). exists (n1 ++ n2).
  split; [by rewrite E2, E1, app_assoc|by apply Forall_app].
Qed.

Lemma ins_grows_record ty descr f (s : Heap.InsertState) :
  ty ≠ Heap.t_insert_add → ins_grows s (Heap.ins_record ty descr f s).
Proof. intros Hty. eexists. split; [reflexivity|]. by constructor. Qed.

Lemma bubble_grows (fuel : nat) : ∀ (c : nat) (s : Heap.InsertState),
  ins_grows s (Heap.bubble_fuel fuel c s).
Proof.
  induction fuel as [|fuel IH]; intros c s; [apply ins_grows_refl|].
  cbn [Heap.bubble_fuel].
  destruct (c =? 0)%nat; [by apply ins_grows_record|]. cbv zeta.
  set (s1 := Heap.ins_record Heap.t_bubble_compare _ _ s).
  assert (H1 : ins_grows s s1) by (by apply ins_grows_record).
  clearbody s1.
  destruct (Heap.js_gt _ _).
  - eapply ins_grows_trans; [|apply IH].
    eapply ins_grows_trans; [exact H1|].
    eapply ins_grows_trans; [|by apply ins_grows_record].
    set (s2 := Heap.ins_record Heap.t_bubble_swap _ _ s1).
    assert (H2 : ins_grows s1 s2) by (by apply ins_grows_record).
    destruct H2 as (new & E & Hq). exists new. split; [|done].
    cbn [Heap.ins_steps Heap.ins_set_array]. exact E.
  - eapply ins_grows_trans; [exact H1|]. by apply ins_grows_record.
Qed.

Lemma insert_level_tail (input : list Z) (value : Z) :
  ∃ ps, tail_from HeapMonk.is_insert_start swap_of_insert_step
          (Heap.ins_result_steps (Heap.insertElement value (Heap.new input)))
        = Some ps ∧
        Heap.replay ps (Heap.heap (Heap.buildMaxHeap (Heap.new input)) ++ [value])
        = Heap.ins_heap (Heap.insertElement value (Heap.new input)) ∧
        Forall (λ p, Heap.from p ≠ Heap.to p) ps.
Proof.
  set (start := Heap.heap _ ++ [_]).
  unfold Heap.insertElement. cbv zeta.
  cbn [Heap.ins_heap Heap.ins_result_steps].
  set (s0 := Heap._resetState (Heap.new input)).
  set (s1 := for_down _ _ s0).
  assert (Hstart : start = Heap.array s1 ++ [value]).
  { subst start. f_equal. apply (built_array input s0 eq_refl). }
  assert (Hheap : Heap.max_heap (Heap.array s1)).
  { by destruct (build_loop_heap (λ _ s, s) (λ _ s, s) s0) as [Hheap _]. }
  assert (Hq1 : Forall (λ st, HeapMonk.is_operation_start st = false)
                  (Heap.steps s1)).
  { destruct (build_loop_grows
                (Z.to_nat (Z.of_nat (length (Heap.array s0)) / 2 - 1 + 1)) s0)
      as (new & E & Hq).
    fold s1 in E. by rewrite E. }
  clearbody start s1.
  set (s2 := Heap.ins_record Heap.t_insert_add _ _ _).
  assert (Ha2 : Heap.ins_array s2 = Heap.array s1 ++ [value]) by reflexivity.
  assert (H2 : tail_from HeapMonk.is_insert_start swap_of_insert_step
                 (Heap.ins_steps s2) = Some []).
  { subst s2. unfold Heap.ins_record at 1. cbn [Heap.ins_steps].
    rewrite (tail_from_start _ _ _ _); [done| |done].
    cbn [Heap.ins_steps Heap.ins_set_array Heap.ins_record].
    unfold tail_from. rewrite findIndex_none; [done|].
    rewrite <- app_assoc. apply Forall_app. split; [|by repeat constructor].
    constructor; [done|]. apply Forall_fmap.
    eapply Forall_impl; [exact Hq1|]. done. }
  match goal with |- context [Heap._bubbleUp ?i _] => set (idx := i) end.
  assert (Hidx : idx = length (Heap.array s1)).
  { subst idx. cbn [Heap.ins_array Heap.ins_set_array Heap.ins_record].
    rewrite length_app. simpl. lia. }
  rewrite Hidx. clearbody idx. clear Hidx idx. clearbody s2.
  destruct (bubble_up (S (length (Heap.array s1))) (length (Heap.array s1)) s2)
    as (_ & ps & P1 & P2 & _ & _ & _ & P6).
  { lia. }
  { rewrite Ha2, length_app. simpl. lia. }
  { rewrite Ha2. split.
    - intros k Hk Hkc x y Hy Hx.
      assert (k < length (Heap.array s1))%nat as Hlt.
      { apply lookup_lt_Some in Hy. rewrite length_app in Hy. simpl in Hy. lia. }
      pose proof (parent_lt k Hk).
      rewrite lookup_app_l in Hy, Hx by lia.
      apply (proj1 (max_heap_below_parent _) Hheap k Hk x y); done.
    - intros k x y Hc Hk Hpar Hy Hx.
      apply lookup_lt_Some in Hy. rewrite length_app in Hy. simpl in Hy.
      pose proof (proj2 (parent_of_child (length (Heap.array s1)) k)
                    (conj Hk Hpar)). lia. }
  destruct (bubble_grows (S (length (Heap.array s1))) (length (Heap.array s1)) s2)
    as (new & E & Hnew).
  fold (Heap._bubbleUp (length (Heap.array s1)) s2) in P1, P2, E.
  set (s3 := Heap._bubbleUp (length (Heap.array s1)) s2) in *.
  clearbody s3.
  destruct (bubble_step_quiet new Hnew) as [Hquiet Hsw].
  assert (Hps : Heap.bubble_swaps new = ps).
  { rewrite E in P1. unfold Heap.bubble_swaps in P1 |- *.
    rewrite omap_app in P1. by apply app_inv_head in P1. }
  exists ps. split; [|split].
  - unfold Heap.ins_record. cbn [Heap.ins_steps]. rewrite E.
    rewrite tail_from_quiet by (by repeat constructor).
    rewrite tail_from_quiet by done. rewrite H2. simpl.
    by rewrite Hsw, Hps, app_nil_r.
  - change (Heap.ins_array (Heap.ins_record ?ty ?d ?f ?s)) with (Heap.ins_array s).
    by rewrite P2, Ha2, Hstart.
  - eapply Forall_impl; [exact P6|]. cbv beta. intros p [Hto Hfrom].
    pose proof (parent_lt (Heap.from p) ltac:(lia)). lia.
Qed.


Lemma build_level (input : list Z) :
  let result := Heap.buildMaxHeap (Heap.new input) in
  let swaps := Heap.getSwapSequence (Heap.build_steps result) in
  Heap.replay swaps input = Heap.heap result ∧
  Forall (λ p, Heap.from p ≠ Heap.to p) swaps.
Proof.
  intros result swaps. subst result swaps. unfold Heap.buildMaxHeap. cbv zeta.
  set (s0 := Heap._recordInfo _ _).
  change (Heap.array (Heap._recordInit (Heap._resetState (Heap.new input))))
    with (Heap.array s0).
  destruct (build_loop_trace Heap._recordLoopStart Heap._recordLoopEnd s0)
    as (ps & H1 & H2 & _ & _ & _ & H6).
  { intros i. apply recording_record. done. }
  { intros i. apply recording_record. done. }
  cbv zeta in H1, H2.
  set (s' := for_down _ _ s0) in *.
  cbn [Heap.build_steps Heap.heap].
  unfold Heap._recordComplete. rewrite record_quiet by done.
  change (Heap.array (Heap.record ?ty ?d ?f ?s)) with (Heap.array s).
  rewrite H1, H2. change (Heap.array s0) with input in *.
  change (Heap.getSwapSequence (Heap.steps s0)) with (@nil Heap.SwapPair).
  split; [done|]. by apply (sift_swap_distinct (length input)).
Qed.

(** The level of an extraction: where the expected swaps start in the
    trace, and what they do. *)
Lemma extract_level (input : list Z) :
  ((length input ≤ 1)%nat →
     HeapMonk.findIndex HeapMonk.is_operation_start
       (Heap.ex_steps (Heap.extractMax (Heap.new input))) = None) ∧
  ((2 ≤ length input)%nat →
     ∃ k, HeapMonk.findIndex HeapMonk.is_operation_start
            (Heap.ex_steps (Heap.extractMax (Heap.new input))) = Some k ∧
          Heap.replay
            (omap swap_of_step
               (drop k (Heap.ex_steps (Heap.extractMax (Heap.new input)))))
            (Heap.move_last_to_root
               (Heap.heap (Heap.buildMaxHeap (Heap.new input))))
          = Heap.ex_heap (Heap.extractMax (Heap.new input)) ∧
          Forall (λ p, Heap.from p ≠ Heap.to p)
            (omap swap_of_step
               (drop k (Heap.ex_steps (Heap.extractMax (Heap.new input)))))).
Proof.
  destruct (extract_level_tail input) as [Hshort Hlong]. split.
  - intros H. exact (tail_from_None _ _ _ (Hshort H)).
  - intros H. destruct (Hlong H) as (ps & Hps & H1 & H2).
    destruct (tail_from_Some _ _ _ _ Hps) as (k & Hk & <-). by exists k.
Qed.

Lemma insert_level (input : list Z) (value : Z) :
  ∃ k, HeapMonk.findIndex HeapMonk.is_insert_start
         (Heap.ins_result_steps (Heap.insertElement value (Heap.new input)))
       = Some k ∧
       Heap.replay
         (omap swap_of_insert_step
            (drop k (Heap.ins_result_steps
                       (Heap.insertElement value (Heap.new input)))))
         (Heap.heap (Heap.buildMaxHeap (Heap.new input)) ++ [value])
       = Heap.ins_heap (Heap.insertElement value (Heap.new input)) ∧
       Forall (λ p, Heap.from p ≠ Heap.to p)
         (omap swap_of_insert_step
            (drop k (Heap.ins_result_steps
                       (Heap.insertElement value (Heap.new input))))).
Proof.
  destruct (insert_level_tail input value) as (ps & Hps & H1 & H2).
  destruct (tail_from_Some _ _ _ _ Hps) as (k & Hk & <-). by exists k.
Qed.

(** What a level that has started looks like. *)
Definition level_started (s : HeapMonk.State) (r : HeapMonk.LevelResult) : Prop :=
  session_inv (HeapMonk.expectedSwaps s) (HeapMonk.finalArray r) s ∧
  HeapMonk.selectedNode s = None ∧
  HeapMonk.currentSwapIndex s = 0%nat ∧
  HeapMonk.isActive s = true ∧
  HeapMonk.userArray s = HeapMonk.finalArray r ∧
  HeapMonk.totalSwaps r = length (HeapMonk.expectedSwaps s) ∧
  Heap.replay (HeapMonk.expectedSwaps s) (HeapMonk.finalArray r)
  = HeapMonk.finalHeap r ∧
  Forall (λ p, Heap.from p ≠ Heap.to p) (HeapMonk.expectedSwaps s).

Lemma started_spec (E : list Heap.SwapPair) (A0 H : list Z)
    (op : HeapMonk.Operation) (st : string) :
  Heap.replay E A0 = H → Forall (λ p, Heap.from p ≠ Heap.to p) E →
  level_started
    (HeapMonk.mkState E 0 A0 None true op (Heap.mkStats 0 0 0) st)
    (HeapMonk.mkLevelResult (length E) H A0).
Proof.
  intros Hr Hne. unfold level_started, session_inv. simpl.
  repeat split; try done; try lia.
  intros [Hl Hn]. destruct E; [done|simpl in Hl; lia].
Qed.

Lemma startLevel_started (d : HeapMonk.OperationData) (s0 s : HeapMonk.State)
    (r : HeapMonk.LevelResult) :
  HeapMonk.startLevel d s0 = HeapMonk.Started s r → level_started s r.
Proof.
  unfold HeapMonk.startLevel. cbv zeta.
  destruct (default HeapMonk.build (HeapMonk.data_operation d)).
  - destruct (build_level (HeapMonk.data_array d)) as [H1 H2].
    cbv zeta in H1, H2.
    set (result := Heap.buildMaxHeap _) in *. clearbody result.
    intros [= <- <-]. by apply started_spec.
  - destruct (extract_level (HeapMonk.data_array d)) as [Hshort Hlong].
    set (result := Heap.extractMax _) in *.
    set (start := Heap.move_last_to_root _) in *.
    clearbody result start.
    destruct (le_lt_dec (length (HeapMonk.data_array d)) 1) as [Hle|Hgt].
    { rewrite (Hshort Hle). done. }
    destruct (Hlong Hgt) as (k & Hk & H1 & H2). rewrite Hk.
    intros [= <- <-]. by apply started_spec.
  - destruct (insert_level (HeapMonk.data_array d) (HeapMonk.insertValue d))
      as (k & Hk & H1 & H2).
    set (result := Heap.insertElement _ _) in *.
    set (start := Heap.heap _ ++ [_]) in *.
    clearbody result start. rewrite Hk.
    intros [= <- <-]. by apply started_spec.
Qed.

(** X19. [startLevel] ends in the [TypeError] exactly when the operation
    is ['extract'] and the array has fewer than two elements (the trace of
    [extractMax] then has no ['extract-heapify-start'] step); building and
    inserting always start a level. *)
Theorem heap_monk_extract_needs_two_elements
    (d : HeapMonk.OperationData) (s0 : HeapMonk.State) :
  (∃ s, HeapMonk.startLevel d s0 = HeapMonk.TypeError s) ↔
  HeapMonk.data_operation d = Some HeapMonk.extract ∧
  (length (HeapMonk.data_array d) ≤ 1)%nat.
Proof.
  unfold HeapMonk.startLevel. cbv zeta.
  destruct (HeapMonk.data_operation d) as [[| |]|] eqn:Hop; cbn [default].
  - set (result := Heap.buildMaxHeap _). clearbody result.
    split; [by intros [s ?]|by intros [? _]].
  - destruct (extract_level (HeapMonk.data_array d)) as [Hshort Hlong].
    set (result := Heap.extractMax _) in *.
    set (start := Heap.move_last_to_root _) in *.
    clearbody result start.
    destruct (le_lt_dec (length (HeapMonk.data_array d)) 1) as [Hle|Hgt].
    + rewrite (Hshort Hle). split; [done|]. intros _. by eexists.
    + destruct (Hlong Hgt) as (k & Hk & _). rewrite Hk.
      split; [by intros [s ?]|]. intros [_ Hle]. lia.
  - destruct (insert_level (HeapMonk.data_array d) (HeapMonk.insertValue d))
      as (k & Hk & _).
    set (result := Heap.insertElement _ _) in *.
    set (start := Heap.heap _ ++ [_]) in *.
    clearbody result start. rewrite Hk.
    split; [by intros [s ?]|by intros [? _]].
  - set (result := Heap.buildMaxHeap _). clearbody result.
    split; [by intros [s ?]|by intros [? _]].
Qed.

(** X16. Once [startLevel] has returned, whatever nodes are clicked: the
    user's array is the start array after the expected swaps done so far,
    in their order; [userStats.swapCount] counts them; the level is over
    ([isActive] false) exactly when a last expected swap has been done;
    and when all are done the user's array is the solver's [finalHeap]. *)
Theorem heap_monk_session (d : HeapMonk.OperationData)
    (s0 s : HeapMonk.State) (r : HeapMonk.LevelResult) (cs : list nat) :
  HeapMonk.startLevel d s0 = HeapMonk.Started s r →
  let s' := HeapMonk.clicks cs s in
  let done := HeapMonk.currentSwapIndex s' in
  (done ≤ HeapMonk.totalSwaps r)%nat ∧
  HeapMonk.userArray s'
  = Heap.replay (take done (HeapMonk.expectedSwaps s)) (HeapMonk.finalArray r) ∧
  Heap.st_swapCount (HeapMonk.userStats s') = done ∧
  (HeapMonk.isActive s' = false ↔
     done = HeapMonk.totalSwaps r ∧ (0 < HeapMonk.totalSwaps r)%nat) ∧
  (done = HeapMonk.totalSwaps r → HeapMonk.userArray s' = HeapMonk.finalHeap r).
Proof.
  intros Hstart s' done.
  destruct (startLevel_started d s0 s r Hstart)
    as (Hinv & _ & _ & _ & _ & Htot & Hrep & _).
  destruct (clicks_inv _ _ cs s Hinv) as (_ & Hle & Harr & Hcnt & Hact).
  fold s' in Hle, Harr, Hcnt, Hact. fold done in Hle, Harr, Hcnt, Hact.
  rewrite Htot. split; [done|]. split; [done|]. split; [done|]. split.
  - rewrite Hact. split; intros [H1 H2]; (split; [done|]).
    + destruct (HeapMonk.expectedSwaps s); [done|simpl; lia].
    + intros E. rewrite E in H2. simpl in H2. lia.
  - intros Hd. rewrite Harr, Hd, firstn_all. exact Hrep.
Qed.

Lemma heap_monk_session_witness :
  ∃ s r,
    HeapMonk.startLevel
      (HeapMonk.mkOperationData [1; 3] (Some HeapMonk.build) 0) HeapMonk.new
    = HeapMonk.Started s r ∧
    HeapMonk.userArray (HeapMonk.clicks [1; 0]%nat s) = HeapMonk.finalHeap r.
Proof.
  eexists _, _. split; [reflexivity|].
  apply (heap_monk_session
           (HeapMonk.mkOperationData [1; 3] (Some HeapMonk.build) 0)
           HeapMonk.new _ _ [1; 0]%nat eq_refl).
  reflexivity.
Defined.

(** X17. A level with at least one expected swap can be completed:
    clicking, for each expected swap in order, its [from] node and then
    its [to] node ends the level with the user's array equal to the
    solver's [finalHeap]. *)
Theorem heap_monk_level_completes (d : HeapMonk.OperationData)
    (s0 s : HeapMonk.State) (r : HeapMonk.LevelResult) :
  HeapMonk.startLevel d s0 = HeapMonk.Started s r →
  (0 < HeapMonk.totalSwaps r)%nat →
  let s' := HeapMonk.clicks
              (flat_map (λ p, [Heap.from p; Heap.to p]) (HeapMonk.expectedSwaps s))
              s in
  HeapMonk.isActive s' = false ∧
  HeapMonk.currentSwapIndex s' = HeapMonk.totalSwaps r ∧
  HeapMonk.userArray s' = HeapMonk.finalHeap r.
Proof.
  intros Hstart Hpos s'.
  destruct (startLevel_started d s0 s r Hstart)
    as (Hinv & Hsel & Hidx & _ & _ & Htot & Hrep & Hne).
  pose proof (play_all _ _ (HeapMonk.expectedSwaps s) s Hinv Hsel) as Hplay.
  rewrite Hidx in Hplay. specialize (Hplay eq_refl Hne). fold s' in Hplay.
  destruct (clicks_inv _ _
              (flat_map (λ p, [Heap.from p; Heap.to p]) (HeapMonk.expectedSwaps s))
              s Hinv) as (_ & _ & Harr & _ & Hact).
  fold s' in Harr, Hact. rewrite Htot in *.
  split; [|split; [done|]].
  - apply Hact. split; [done|]. intros E. rewrite E in Hpos. simpl in Hpos. lia.
  - rewrite Harr, Hplay, firstn_all. exact Hrep.
Qed.

Lemma heap_monk_level_completes_witness :
  ∃ s r,
    HeapMonk.startLevel
      (HeapMonk.mkOperationData [1; 3] (Some HeapMonk.build) 0) HeapMonk.new
    = HeapMonk.Started s r ∧
    HeapMonk.isActive
      (HeapMonk.clicks
         (flat_map (λ p, [Heap.from p; Heap.to p]) (HeapMonk.expectedSwaps s)) s)
    = false.
Proof.
  eexists _, _. split; [reflexivity|].
  apply (heap_monk_level_completes
           (HeapMonk.mkOperationData [1; 3] (Some HeapMonk.build) 0)
           HeapMonk.new _ _ eq_refl).
  vm_compute. lia.
Defined.

(** X18. A level that starts with no expected swap (such as building a
    heap from an array that is one already) can never be completed: no
    click changes the user's array, which is the [finalHeap], and
    [isActive] stays true. *)
Theorem heap_monk_level_without_swaps (d : HeapMonk.OperationData)
    (s0 s : HeapMonk.State) (r : HeapMonk.LevelResult) (cs : list nat) :
  HeapMonk.startLevel d s0 = HeapMonk.Started s r →
  HeapMonk.totalSwaps r = 0%nat →
  HeapMonk.isActive (HeapMonk.clicks cs s) = true ∧
  HeapMonk.userArray (HeapMonk.clicks cs s) = HeapMonk.finalHeap r.
Proof.
  intros Hstart Hzero.
  destruct (startLevel_started d s0 s r Hstart)
    as (Hinv & _ & _ & _ & _ & Htot & Hrep & _).
  destruct (clicks_inv _ _ cs s Hinv) as (_ & Hle & Harr & _ & Hact).
  rewrite Htot in Hzero. apply length_zero_iff_nil in Hzero.
  rewrite Hzero in *. split.
  - destruct (HeapMonk.isActive _); [done|].
    by destruct (proj1 Hact eq_refl) as [_ ?].
  - rewrite Harr, <- Hrep. by rewrite take_nil.
Qed.

Lemma heap_monk_level_without_swaps_witness :
  ∃ s r,
    HeapMonk.startLevel
      (HeapMonk.mkOperationData [9; 4; 7] (Some HeapMonk.build) 0) HeapMonk.new
    = HeapMonk.Started s r ∧
    HeapMonk.isActive (HeapMonk.clicks [0; 1; 2; 0]%nat s) = true ∧
    HeapMonk.userArray (HeapMonk.clicks [0; 1; 2; 0]%nat s) = HeapMonk.finalHeap r.
Proof.
  eexists _, _. split; [reflexivity|].
  apply (heap_monk_level_without_swaps
           (HeapMonk.mkOperationData [9; 4; 7] (Some HeapMonk.build) 0)
           HeapMonk.new _ _ [0; 1; 2; 0]%nat eq_refl).
  reflexivity.
Defined.
